(** * The XFS realtime extent allocator (fs/xfs/xfs_rtalloc.c)

    A shallow embedding of the allocator's search strategies, of the range
    update that keeps bitmap and summary coherent, of the summary copy used
    while growing, and of the validation prefix of the grow entry point.

    Conventions.
    - C integers are [Z]; every operation that can leave the range of its C
      type is wrapped by [u8], [u32], [u64] or [s32].
    - The realtime bitmap is one packed bit vector: bit [k] of [rbm] is the
      bit of rtx [k] (1 = free), read with [Z.testbit].
    - The summary file is a finite map from word offset to counter; a word
      that is not mapped cannot be read and the access fails.
    - Errors are negative errno values, as in the kernel. *)

From Stdlib Require Import ZArith Lia Bool List.
From stdpp Require Import base numbers option list gmap.
Import ListNotations.

Local Open Scope Z_scope.

(** ** Machine integers *)

Definition u8 (x : Z) : Z := x mod 2 ^ 8.
Definition u32 (x : Z) : Z := x mod 2 ^ 32.
Definition u64 (x : Z) : Z := x mod 2 ^ 64.
Definition s32 (x : Z) : Z := (x + 2 ^ 31) mod 2 ^ 32 - 2 ^ 31.
Definition s64 (x : Z) : Z := (x + 2 ^ 63) mod 2 ^ 64 - 2 ^ 63.

Definition EPERM : Z := 1.
Definition EWOULDBLOCK : Z := 11.
Definition ENOMEM : Z := 12.
Definition EINVAL : Z := 22.
Definition ENOSPC : Z := 28.
Definition EOPNOTSUPP : Z := 95.
Definition EFSCORRUPTED : Z := 117.

(** Modelled from the spec: [xfs_highbit32] and [xfs_highbit64] (xfs_bit.h)
    are not part of this file; the spec calls them [log2_floor], the index of
    the highest set bit, and the callers test the result against [-1] for a
    zero argument. *)
Definition xfs_highbit64 (v : Z) : Z := if v <=? 0 then -1 else Z.log2 v.
Definition xfs_highbit32 (v : Z) : Z := xfs_highbit64 v.

(** [rounddown(x, y)] of the kernel: [x - x % y]. *)
Definition rounddown (x y : Z) : Z := x - x mod y.

(** ** Geometry *)

(** The fields of [struct xfs_mount] and of its superblock that the
    allocator reads. *)
Record xfs_mount : Type := {
  sb_rblocks : Z;
  sb_rextsize : Z;
  sb_rextents : Z;
  sb_rbmblocks : Z;
  sb_rextslog : Z;
  sb_logblocks : Z;
  sb_blocklog : Z;
  m_rsumlevels : Z;
  m_rsumblocks : Z;
  m_blkbit_log : Z;
  m_has_rtdev : bool;
  m_has_rmapbt : bool;
  m_has_reflink : bool;
  m_has_quota : bool
}.

(** Modelled from the spec: the conversions between rtx numbers and bitmap
    blocks (xfs_rtbitmap.h) are not part of this file; a bitmap block covers
    [bits_per_bmblock = 2 ^ m_blkbit_log] consecutive rtx. *)
Definition xfs_rtx_to_rbmblock (mp : xfs_mount) (rtx : Z) : Z :=
  Z.shiftr rtx (m_blkbit_log mp).
Definition xfs_rbmblock_to_rtx (mp : xfs_mount) (bbno : Z) : Z :=
  u64 (Z.shiftl bbno (m_blkbit_log mp)).

(** ** Length alignment *)

(* xfs_rtalloc_align_len *)
Definition xfs_rtalloc_align_len (rtxlen prod : Z) : Z :=
  if 1 <? prod then rounddown rtxlen prod else rtxlen.

(* xfs_rtallocate_clamp_len: [ret] is a 32-bit length, the operands are
   64-bit rtx numbers. *)
Definition xfs_rtallocate_clamp_len (rtg_extents startrtx rtxlen prod : Z) : Z :=
  let ret := u32 (u64 (Z.min rtg_extents (u64 (startrtx + rtxlen)) - startrtx)) in
  xfs_rtalloc_align_len ret prod.

(* xfs_rtalloc_align_minmax: the three in/out parameters are returned as
   (raminlen, ramaxlen, prod). *)
Definition xfs_rtalloc_align_minmax (raminlen ramaxlen prod : Z) : Z * Z * Z :=
  let newmaxlen := ramaxlen in
  let newminlen := raminlen in
  let slack := newmaxlen mod prod in
  let newmaxlen := if slack =? 0 then newmaxlen else u32 (newmaxlen - slack) in
  let slack := newminlen mod prod in
  let newminlen :=
    if slack =? 0 then newminlen else u32 (newminlen + u32 (prod - slack)) in
  if newmaxlen <? newminlen then (raminlen, ramaxlen, 1)
  else (newminlen, newmaxlen, prod).

(** What "aligned" means in the spec: [maxlen] rounded down and [minlen]
    rounded up to a multiple of [prod]. *)
Definition align_down (x prod : Z) : Z := x / prod * prod.
Definition align_up (x prod : Z) : Z := (x + prod - 1) / prod * prod.

(** ** The realtime group: bitmap, summary, hint, transaction deltas *)

(** Events of the ghost trace: which single-block scans were started, with
    the arguments they received, and when the per-operation buffer cache was
    dropped. *)
Inductive event : Type :=
| EvBlock (bbno minlen maxlen prod : Z)
| EvCacheRelse
| EvRtallocate (minlen maxlen prod : Z).

Record rtgroup : Type := {
  rtg_active : bool;
  rtg_extents : Z;
  rbm : Z;
  rsum : gmap Z Z;
  rtg_rsum_cache : option (list Z);
  rbm_atime_sec : Z;
  rbm_newrtbm : bool;
  tp_frextents : Z;
  tp_res_frextents : Z;
  rtg_trace : list event
}.

Definition set_rbm (v : Z) (g : rtgroup) : rtgroup :=
  {| rtg_active := rtg_active g; rtg_extents := rtg_extents g; rbm := v;
     rsum := rsum g; rtg_rsum_cache := rtg_rsum_cache g;
     rbm_atime_sec := rbm_atime_sec g; rbm_newrtbm := rbm_newrtbm g;
     tp_frextents := tp_frextents g; tp_res_frextents := tp_res_frextents g;
     rtg_trace := rtg_trace g |}.

Definition set_rsum (v : gmap Z Z) (g : rtgroup) : rtgroup :=
  {| rtg_active := rtg_active g; rtg_extents := rtg_extents g; rbm := rbm g;
     rsum := v; rtg_rsum_cache := rtg_rsum_cache g;
     rbm_atime_sec := rbm_atime_sec g; rbm_newrtbm := rbm_newrtbm g;
     tp_frextents := tp_frextents g; tp_res_frextents := tp_res_frextents g;
     rtg_trace := rtg_trace g |}.

Definition set_rsum_cache (v : option (list Z)) (g : rtgroup) : rtgroup :=
  {| rtg_active := rtg_active g; rtg_extents := rtg_extents g; rbm := rbm g;
     rsum := rsum g; rtg_rsum_cache := v;
     rbm_atime_sec := rbm_atime_sec g; rbm_newrtbm := rbm_newrtbm g;
     tp_frextents := tp_frextents g; tp_res_frextents := tp_res_frextents g;
     rtg_trace := rtg_trace g |}.

Definition set_atime (sec : Z) (flag : bool) (g : rtgroup) : rtgroup :=
  {| rtg_active := rtg_active g; rtg_extents := rtg_extents g; rbm := rbm g;
     rsum := rsum g; rtg_rsum_cache := rtg_rsum_cache g;
     rbm_atime_sec := sec; rbm_newrtbm := flag;
     tp_frextents := tp_frextents g; tp_res_frextents := tp_res_frextents g;
     rtg_trace := rtg_trace g |}.

Definition set_tp (fr res : Z) (g : rtgroup) : rtgroup :=
  {| rtg_active := rtg_active g; rtg_extents := rtg_extents g; rbm := rbm g;
     rsum := rsum g; rtg_rsum_cache := rtg_rsum_cache g;
     rbm_atime_sec := rbm_atime_sec g; rbm_newrtbm := rbm_newrtbm g;
     tp_frextents := fr; tp_res_frextents := res;
     rtg_trace := rtg_trace g |}.

Definition log_event (e : event) (g : rtgroup) : rtgroup :=
  {| rtg_active := rtg_active g; rtg_extents := rtg_extents g; rbm := rbm g;
     rsum := rsum g; rtg_rsum_cache := rtg_rsum_cache g;
     rbm_atime_sec := rbm_atime_sec g; rbm_newrtbm := rbm_newrtbm g;
     tp_frextents := tp_frextents g; tp_res_frextents := tp_res_frextents g;
     rtg_trace := rtg_trace g ++ [e] |}.

(** ** Results *)

Inductive result (A : Type) : Type :=
| Ok (a : A)
| Err (e : Z).
Arguments Ok {A} a.
Arguments Err {A} e.

(** A computation on the group that may fail; the group reached so far is
    kept on failure, as the C code keeps what it already wrote. *)
Definition M (A : Type) : Type := rtgroup -> result A * rtgroup.

Definition ret {A} (a : A) : M A := fun g => (Ok a, g).
Definition fail {A} (e : Z) : M A := fun g => (Err e, g).
Definition bind {A B} (m : M A) (k : A -> M B) : M B :=
  fun g => match m g with
           | (Ok a, g') => k a g'
           | (Err e, g') => (Err e, g')
           end.
Definition lift {A} (f : rtgroup -> result A) : M A := fun g => (f g, g).

Notation "'do' x <- m ;; k" := (bind m (fun x => k))
  (at level 10, x name, m at level 99, k at level 200).
Notation "'exec' m ;; k" := (bind m (fun _ => k))
  (at level 10, m at level 99, k at level 200).

(** ** The bitmap and summary codecs *)

(** Modelled from the spec: [xfs_rtbuf_cache_relse] (xfs_rtbitmap.c) is not
    part of this file; it drops the bitmap and summary buffers the operation
    holds.  The buffers themselves are not modelled, the release is recorded
    in the trace. *)
Definition xfs_rtbuf_cache_relse (g : rtgroup) : rtgroup :=
  log_event EvCacheRelse g.

(** A bitmap block can be fetched when it lies inside the bitmap inode. *)
Definition bmblock_mapped (mp : xfs_mount) (rtx : Z) : bool :=
  (0 <=? rtx) && (xfs_rtx_to_rbmblock mp rtx <? sb_rbmblocks mp).

Fixpoint scan_back (bm : Z) (v : bool) (n : nat) (i : Z) : Z :=
  match n with
  | O => i
  | S n' =>
      if (0 <? i) && Bool.eqb (Z.testbit bm (i - 1)) v
      then scan_back bm v n' (i - 1) else i
  end.

Fixpoint scan_forw (bm : Z) (v : bool) (limit : Z) (n : nat) (i : Z) : Z :=
  match n with
  | O => i
  | S n' =>
      if (i <? limit) && Bool.eqb (Z.testbit bm (i + 1)) v
      then scan_forw bm v limit n' (i + 1) else i
  end.

Fixpoint first_diff (bm : Z) (v : bool) (n : nat) (i : Z) : Z :=
  match n with
  | O => i
  | S n' =>
      if Bool.eqb (Z.testbit bm i) v then first_diff bm v n' (i + 1) else i
  end.

(** Modelled from the spec: [xfs_rtfind_back] (xfs_rtbitmap.c) is not part of
    this file.  Spec 4.1: starting at [start], walk backward to the first rtx
    of the maximal run of bits equal to the bit at [start]; 0 if the run
    reaches index 0.  The fetch of the block holding [start] fails when that
    block is not inside the bitmap inode. *)
Definition xfs_rtfind_back (mp : xfs_mount) (start : Z) (g : rtgroup) : result Z :=
  if bmblock_mapped mp start
  then Ok (scan_back (rbm g) (Z.testbit (rbm g) start) (Z.to_nat start) start)
  else Err (- EFSCORRUPTED).

(** Modelled from the spec: [xfs_rtfind_forw] (xfs_rtbitmap.c) is not part of
    this file.  Spec 4.1: the symmetric forward walk, capped at [limit]
    (inclusive).  The result is the last rtx of the run, as the callers in
    this file use it ([postblock + 1 - preblock] is the run length, and the
    block scan resumes at the result plus one). *)
Definition xfs_rtfind_forw (mp : xfs_mount) (start limit : Z) (g : rtgroup) : result Z :=
  if bmblock_mapped mp start
  then Ok (scan_forw (rbm g) (Z.testbit (rbm g) start) limit
             (Z.to_nat (limit - start)) start)
  else Err (- EFSCORRUPTED).

(** Modelled from the spec: [xfs_rtcheck_range] (xfs_rtbitmap.c) is not part
    of this file.  Spec 4.1: scan [len] bits; if all equal [val] return
    [(start + len, true)], else the first rtx whose bit differs and [false]. *)
Definition xfs_rtcheck_range (mp : xfs_mount) (start len : Z) (val : bool)
    (g : rtgroup) : result (Z * bool) :=
  if bmblock_mapped mp start
  then let new := first_diff (rbm g) val (Z.to_nat len) start in
       Ok (new, new =? start + len)
  else Err (- EFSCORRUPTED).

(** Modelled from the spec: [xfs_rtmodify_range] (xfs_rtbitmap.c) is not part
    of this file.  Spec 4.1: write [val] to [len] consecutive bits. *)
Definition xfs_rtmodify_range (mp : xfs_mount) (start len : Z) (val : bool) : M unit :=
  fun g =>
    if bmblock_mapped mp start
    then
      let mask := Z.shiftl (Z.ones len) start in
      (Ok tt, set_rbm (if val then Z.lor (rbm g) mask else Z.ldiff (rbm g) mask) g)
    else (Err (- EFSCORRUPTED), g).

(** Modelled from the spec: the summary word of cell [(log, bbno)] sits at
    word offset [log * rbmblocks + bbno] of the summary inode (spec 6), in
    the geometry of the mount the caller passes. *)
Definition xfs_rtsumoffs (mp : xfs_mount) (log bbno : Z) : Z :=
  log * sb_rbmblocks mp + bbno.

(** Modelled from the spec: [xfs_rtget_summary] (xfs_rtbitmap.c) is not part
    of this file.  Spec 4.2: [get(L, B)] reads the counter; reading a word the
    summary inode does not map fails. *)
Definition xfs_rtget_summary (mp : xfs_mount) (log bbno : Z) (g : rtgroup) : result Z :=
  match rsum g !! xfs_rtsumoffs mp log bbno with
  | Some v => Ok v
  | None => Err (- EFSCORRUPTED)
  end.

(** Modelled from the spec: [xfs_rtmodify_summary] (xfs_rtbitmap.c) is not
    part of this file.  Spec 4.2: [modify(L, B, delta)] adds the signed
    [delta] to the 32-bit counter.  How it touches the hint array is not
    described there and is left out. *)
Definition xfs_rtmodify_summary (mp : xfs_mount) (log bbno delta : Z) : M unit :=
  fun g =>
    match rsum g !! xfs_rtsumoffs mp log bbno with
    | Some v =>
        (Ok tt, set_rsum (<[xfs_rtsumoffs mp log bbno := u32 (v + delta)]> (rsum g)) g)
    | None => (Err (- EFSCORRUPTED), g)
    end.

(** ** The summary hint and [xfs_rtany_summary] *)

(** [rsum_cache[bbno]]: one byte per bitmap block.  An index outside the
    array is undefined behaviour in C; here it reads 0 and a write there is
    dropped. *)
Definition cache_get (c : list Z) (bbno : Z) : Z :=
  default 0 (c !! Z.to_nat bbno).

(* The [for (log = high; log >= low; log--)] loop of xfs_rtany_summary.  The
   result is [( *maxlog, log)] as they stand at the label [out]. *)
Fixpoint rtany_scan (mp : xfs_mount) (low bbno : Z) (n : nat) (log : Z)
    (g : rtgroup) : result (Z * Z) :=
  match n with
  | O => Ok (-1, log)
  | S n' =>
      if log >=? low then
        match xfs_rtget_summary mp log bbno g with
        | Err e => Err e
        | Ok sum =>
            if sum =? 0 then rtany_scan mp low bbno n' (log - 1) g
            else Ok (log, log)
        end
      else Ok (-1, log)
  end.

(* xfs_rtany_summary *)
Definition xfs_rtany_summary (mp : xfs_mount) (low high bbno : Z) : M Z :=
  fun g =>
    let high :=
      match rtg_rsum_cache g with
      | Some c => Z.min high (cache_get c bbno - 1)
      | None => high
      end in
    if (match rtg_rsum_cache g with Some _ => true | None => false end)
       && (low >? high)
    then (Ok (-1), g)
    else
      match rtany_scan mp low bbno (Z.to_nat (high - low + 1)) high g with
      | Err e => (Err e, g)
      | Ok (maxlog, log) =>
          (Ok maxlog,
           match rtg_rsum_cache g with
           | Some c =>
               if log + 1 <? cache_get c bbno
               then set_rsum_cache
                      (Some (<[Z.to_nat bbno := u8 (log + 1)]> c)) g
               else g
           | None => g
           end)
      end.

(** ** [xfs_rtcopy_summary] *)

(* The inner loop over bitmap blocks, [bbno] downwards while
   [(xfs_srtblock_t)bbno >= 0]. *)
Fixpoint rtcopy_bbno (omp nmp : xfs_mount) (log : Z) (n : nat) (bbno : Z) : M unit :=
  match n with
  | O => ret tt
  | S n' =>
      if 0 <=? s64 bbno then
        (do sum <- lift (xfs_rtget_summary omp log bbno) ;;
         if sum =? 0 then rtcopy_bbno omp nmp log n' (u64 (bbno - 1))
         else
           (exec xfs_rtmodify_summary omp log bbno (s32 (- sum)) ;;
            exec xfs_rtmodify_summary nmp log bbno (s32 sum) ;;
            rtcopy_bbno omp nmp log n' (u64 (bbno - 1))))
      else ret tt
  end.

(* The outer loop over levels, [log] downwards while [log >= 0]. *)
Fixpoint rtcopy_log (omp nmp : xfs_mount) (n : nat) (log : Z) : M unit :=
  match n with
  | O => ret tt
  | S n' =>
      if 0 <=? log then
        let bbno := u32 (sb_rbmblocks omp - 1) in
        (exec rtcopy_bbno omp nmp log (Z.to_nat (bbno + 1)) bbno ;;
         rtcopy_log omp nmp n' (log - 1))
      else ret tt
  end.

(* The value of the local [error] when control reaches the label [out]. *)
Definition rtcopy_error (omp nmp : xfs_mount) (g : rtgroup) : Z :=
  let log := s32 (u32 (m_rsumlevels omp - 1)) in
  match fst (rtcopy_log omp nmp (Z.to_nat (log + 1)) log g) with
  | Ok _ => 0
  | Err e => e
  end.

(* xfs_rtcopy_summary: [out:] releases the buffers and returns 0. *)
Definition xfs_rtcopy_summary (omp nmp : xfs_mount) (g : rtgroup) : Z * rtgroup :=
  let log := s32 (u32 (m_rsumlevels omp - 1)) in
  let g' := snd (rtcopy_log omp nmp (Z.to_nat (log + 1)) log g) in
  (0, xfs_rtbuf_cache_relse g').

(** ** [xfs_rtallocate_range] *)

Definition xfs_rtallocate_range (mp : xfs_mount) (start len : Z) : M unit :=
  let end_ := u64 (start + len - 1) in
  do preblock <- lift (xfs_rtfind_back mp start) ;;
  do postblock <-
    (fun g => (xfs_rtfind_forw mp end_ (u64 (rtg_extents g - 1)) g, g)) ;;
  exec xfs_rtmodify_summary mp
        (xfs_highbit64 (u64 (postblock + 1 - preblock)))
        (xfs_rtx_to_rbmblock mp preblock) (-1) ;;
  exec (if preblock <? start
       then xfs_rtmodify_summary mp
              (xfs_highbit64 (u64 (start - preblock)))
              (xfs_rtx_to_rbmblock mp preblock) 1
       else ret tt) ;;
  exec (if postblock >? end_
       then xfs_rtmodify_summary mp
              (xfs_highbit64 (u64 (postblock - end_)))
              (xfs_rtx_to_rbmblock mp (u64 (end_ + 1))) 1
       else ret tt) ;;
  xfs_rtmodify_range mp start len false.

(** ** The three searches *)

(* xfs_rtallocate_extent_exact; a success is [( *len, *rtx)]. *)
Definition xfs_rtallocate_extent_exact (mp : xfs_mount)
    (start minlen maxlen prod : Z) (g : rtgroup) : result (Z * Z) :=
  let scanlen := xfs_rtallocate_clamp_len (rtg_extents g) start maxlen prod in
  if scanlen <? minlen then Err (- ENOSPC)
  else
    match xfs_rtcheck_range mp start scanlen true g with
    | Err e => Err e
    | Ok (next, isfree) =>
        if isfree then Ok (scanlen, start)
        else
          let alloclen := u32 (u64 (next - start)) in
          if alloclen <? minlen then Err (- ENOSPC)
          else
            let alloclen := xfs_rtalloc_align_len alloclen prod in
            if alloclen <? minlen then Err (- ENOSPC)
            else Ok (alloclen, start)
    end.

(** Outcome of [xfs_rtallocate_extent_block]: an extent, [-ENOSPC] together
    with what it stored in [*nextp], or another error.  The bitmap codec
    never fails with [-ENOSPC], so the callers' test [error != -ENOSPC]
    separates exactly [BlkNospace] from the other two. *)
Inductive block_res : Type :=
| BlkOk (len rtx : Z)
| BlkNospace (next : Z)
| BlkErr (e : Z).

Inductive scan_out : Type :=
| ScanRet (len rtx : Z)
| ScanErr (e : Z)
| ScanDone (next besti bestlen : Z).

(* The [for (i = ...; i <= end; i++)] loop of xfs_rtallocate_extent_block. *)
Fixpoint rtblock_scan (mp : xfs_mount) (minlen maxlen prod end_ : Z) (n : nat)
    (i next besti bestlen : Z) (g : rtgroup) : scan_out :=
  match n with
  | O => ScanDone next besti bestlen
  | S n' =>
      if i <=? end_ then
        let scanlen := xfs_rtallocate_clamp_len (rtg_extents g) i maxlen prod in
        if scanlen <? minlen then ScanDone next besti bestlen
        else
          match xfs_rtcheck_range mp i scanlen true g with
          | Err e => ScanErr e
          | Ok (next, stat) =>
              if stat then ScanRet scanlen i
              else
                let thislen := u64 (next - i) in
                let better :=
                  (minlen <? maxlen) && (thislen >=? minlen)
                  && (thislen >? bestlen) in
                let besti := if better then i else besti in
                let bestlen := if better then u32 thislen else bestlen in
                if next >=? end_ then ScanDone next besti bestlen
                else
                  match xfs_rtfind_forw mp next end_ g with
                  | Err e => ScanErr e
                  | Ok i' =>
                      rtblock_scan mp minlen maxlen prod end_ n'
                        (u64 (i' + 1)) next besti bestlen g
                  end
          end
      else ScanDone next besti bestlen
  end.

(* xfs_rtallocate_extent_block.  [next0] stands for the content of the local
   [next], which the C code declares without an initialiser and copies to
   [*nextp] even when the loop never assigned it. *)
Definition xfs_rtallocate_extent_block (mp : xfs_mount)
    (bbno minlen maxlen prod next0 : Z) (g : rtgroup) : block_res * rtgroup :=
  let g := log_event (EvBlock bbno minlen maxlen prod) g in
  let end_ :=
    u64 (Z.min (rtg_extents g) (xfs_rbmblock_to_rtx mp (u64 (bbno + 1))) - 1) in
  let i := xfs_rbmblock_to_rtx mp bbno in
  match rtblock_scan mp minlen maxlen prod end_ (Z.to_nat (end_ - i + 1))
          i next0 (-1) 0 g with
  | ScanRet len rtx => (BlkOk len rtx, g)
  | ScanErr e => (BlkErr e, g)
  | ScanDone next besti bestlen =>
      if besti =? -1 then (BlkNospace next, g)
      else
        let bestlen := xfs_rtalloc_align_len bestlen prod in
        if bestlen <? minlen then (BlkNospace next, g)
        else (BlkOk bestlen besti, g)
  end.

(* [maxblocks] as computed on the negative side of xfs_rtallocate_extent_near *)
Definition near_maxblocks (mp : xfs_mount) (maxlog : Z) : Z :=
  if maxlog =? 0 then 0
  else if maxlog <? m_blkbit_log mp then 1
  else s32 (Z.shiftl 2 (maxlog - m_blkbit_log mp)).

(* The [for (; j >= i; j--)] loop of the negative side.  [None] means that
   every probe ended in [-ENOSPC]; the second component is [j] afterwards. *)
Fixpoint near_neg_scan (mp : xfs_mount) (bbno minlen maxavail prod next0 : Z)
    (n : nat) (i j : Z) (g : rtgroup) : option (result (Z * Z)) * Z * rtgroup :=
  match n with
  | O => (None, j, g)
  | S n' =>
      if j >=? i then
        match xfs_rtallocate_extent_block mp (u64 (bbno + j)) minlen maxavail
                prod next0 g with
        | (BlkNospace _, g') =>
            near_neg_scan mp bbno minlen maxavail prod next0 n' i (j - 1) g'
        | (BlkOk len rtx, g') => (Some (Ok (len, rtx)), j, g')
        | (BlkErr e, g') => (Some (Err e), j, g')
        end
      else (None, j, g)
  end.

(* The loop control at the end of the body of the [for (;;)] loop: the next
   offset [i], or [None] for [break]. *)
Definition near_next_i (mp : xfs_mount) (bbno i : Z) : option Z :=
  let last := u32 (sb_rbmblocks mp - 1) in
  if (0 <? i) && (0 <=? s32 (s32 bbno - i)) then Some (- i)
  else if (0 <? i) && (u32 (s32 (s32 bbno + i)) <? last) then Some (i + 1)
  else if (i <=? 0) && (u32 (s32 (s32 bbno - i)) <? last) then Some (1 - i)
  else if (i <=? 0) && (0 <? s32 (s32 bbno + i)) then Some (i - 1)
  else None.

(* What one pass of the body does before the loop control: consult the
   summary for block [bbno + i] and probe. *)
Definition near_probe (mp : xfs_mount) (bbno minlen maxlen prod next0 : Z)
    (i j maxlog : Z) (g : rtgroup) : option (result (Z * Z)) * Z * rtgroup :=
  if maxlog >=? 0 then
    let maxavail := u32 (Z.min maxlen (u64 (Z.shiftl 1 (maxlog + 1) - 1))) in
    if i >=? 0 then
      match xfs_rtallocate_extent_block mp (u64 (bbno + i)) minlen maxavail
              prod next0 g with
      | (BlkNospace _, g') => (None, j, g')
      | (BlkOk len rtx, g') => (Some (Ok (len, rtx)), j, g')
      | (BlkErr e, g') => (Some (Err e), j, g')
      end
    else
      let maxblocks := near_maxblocks mp maxlog in
      let j := Z.min (s32 (i + maxblocks)) j in
      near_neg_scan mp bbno minlen maxavail prod next0
        (Z.to_nat (j - i + 1)) i j g
  else (None, j, g).

Fixpoint rtnear_loop (mp : xfs_mount) (bbno minlen maxlen prod next0 log2len : Z)
    (n : nat) (i j : Z) (g : rtgroup) : result (Z * Z) * rtgroup :=
  match n with
  | O => (Err (- ENOSPC), g)
  | S n' =>
      match xfs_rtany_summary mp log2len (s32 (u32 (m_rsumlevels mp - 1)))
              (u64 (bbno + i)) g with
      | (Err e, g1) => (Err e, g1)
      | (Ok maxlog, g1) =>
          match near_probe mp bbno minlen maxlen prod next0 i j maxlog g1 with
          | (Some r, _, g2) => (r, g2)
          | (None, j', g2) =>
              match near_next_i mp bbno i with
              | Some i' =>
                  rtnear_loop mp bbno minlen maxlen prod next0 log2len n' i' j' g2
              | None => (Err (- ENOSPC), g2)
              end
          end
      end
  end.

(* xfs_rtallocate_extent_near *)
Definition xfs_rtallocate_extent_near (mp : xfs_mount)
    (start minlen maxlen prod next0 : Z) : M (Z * Z) :=
  fun g =>
    let start := Z.min start (u64 (rtg_extents g - 1)) in
    match xfs_rtallocate_extent_exact mp start minlen maxlen prod g with
    | Ok r => (Ok r, g)
    | Err e =>
        if negb (e =? - ENOSPC) then (Err e, g)
        else
          let bbno := xfs_rtx_to_rbmblock mp start in
          let log2len := xfs_highbit32 minlen in
          rtnear_loop mp bbno minlen maxlen prod next0 log2len
            (Z.to_nat (2 * Z.max bbno (sb_rbmblocks mp) + 3)) 0 (-1) g
    end.

(* The loop of xfs_rtalloc_sumlevel over the bitmap blocks. *)
Fixpoint rtsumlevel_loop (mp : xfs_mount) (l minlen maxlen prod next0 : Z)
    (n : nat) (i : Z) (g : rtgroup) : result (Z * Z) * rtgroup :=
  match n with
  | O => (Err (- ENOSPC), g)
  | S n' =>
      if i <? sb_rbmblocks mp then
        match xfs_rtget_summary mp l i g with
        | Err e => (Err e, g)
        | Ok sum =>
            if sum =? 0
            then rtsumlevel_loop mp l minlen maxlen prod next0 n' (u64 (i + 1)) g
            else
              match xfs_rtallocate_extent_block mp i minlen maxlen prod next0 g with
              | (BlkOk len rtx, g') => (Ok (len, rtx), g')
              | (BlkErr e, g') => (Err e, g')
              | (BlkNospace nx, g') =>
                  let i' :=
                    if xfs_rtx_to_rbmblock mp nx >? u64 (i + 1)
                    then u64 (xfs_rtx_to_rbmblock mp nx - 1) else i in
                  rtsumlevel_loop mp l minlen maxlen prod next0 n' (u64 (i' + 1)) g'
              end
        end
      else (Err (- ENOSPC), g)
  end.

(* xfs_rtalloc_sumlevel *)
Definition xfs_rtalloc_sumlevel (mp : xfs_mount) (l minlen maxlen prod next0 : Z)
    : M (Z * Z) :=
  rtsumlevel_loop mp l minlen maxlen prod next0 (Z.to_nat (sb_rbmblocks mp)) 0.

(* First loop of xfs_rtallocate_extent_size: levels upwards from
   [xfs_highbit32(maxlen)].  [None]: every level ended in [-ENOSPC]. *)
Fixpoint rtsize_up (mp : xfs_mount) (minlen maxlen prod next0 : Z) (n : nat)
    (l : Z) (g : rtgroup) : option (result (Z * Z)) * rtgroup :=
  match n with
  | O => (None, g)
  | S n' =>
      if u32 l <? m_rsumlevels mp then
        match xfs_rtalloc_sumlevel mp l minlen maxlen prod next0 g with
        | (Ok r, g') => (Some (Ok r), g')
        | (Err e, g') =>
            if e =? - ENOSPC
            then rtsize_up mp minlen maxlen prod next0 n' (l + 1) g'
            else (Some (Err e), g')
        end
      else (None, g)
  end.

(* Second loop: levels downwards to [xfs_highbit32(minlen)]; [maxlen] is the
   already decremented value. *)
Fixpoint rtsize_down (mp : xfs_mount) (minlen maxlen prod next0 : Z) (n : nat)
    (l : Z) (g : rtgroup) : option (result (Z * Z)) * rtgroup :=
  match n with
  | O => (None, g)
  | S n' =>
      if l >=? xfs_highbit32 minlen then
        match xfs_rtalloc_sumlevel mp l
                (Z.max minlen (u32 (s32 (Z.shiftl 1 l))))
                (Z.min maxlen (u32 (s32 (s32 (Z.shiftl 1 (l + 1)) - 1))))
                prod next0 g with
        | (Ok r, g') => (Some (Ok r), g')
        | (Err e, g') =>
            if e =? - ENOSPC
            then rtsize_down mp minlen maxlen prod next0 n' (l - 1) g'
            else (Some (Err e), g')
        end
      else (None, g)
  end.

(* xfs_rtallocate_extent_size *)
Definition xfs_rtallocate_extent_size (mp : xfs_mount)
    (minlen maxlen prod next0 : Z) : M (Z * Z) :=
  fun g =>
    let l := xfs_highbit32 maxlen in
    match rtsize_up mp minlen maxlen prod next0
            (Z.to_nat (m_rsumlevels mp - l)) l g with
    | (Some r, g') => (r, g')
    | (None, g') =>
        let maxlen := u32 (maxlen - 1) in
        if minlen >? maxlen then (Err (- ENOSPC), g')
        else
          let l := xfs_highbit32 maxlen in
          match rtsize_down mp minlen maxlen prod next0
                  (Z.to_nat (l - xfs_highbit32 minlen + 1)) l g' with
          | (Some r, g'') => (r, g'')
          | (None, g'') => (Err (- ENOSPC), g'')
          end
    end.

(** ** Picking a start for a new file *)

(* xfs_rtpick_extent.  The sequence number lives in the seconds of the
   bitmap inode's atime, valid once XFS_DIFLAG_NEWRTBM is set. *)
Definition xfs_rtpick_extent (mp : xfs_mount) (len : Z) (g : rtgroup) : Z * rtgroup :=
  let seq := if rbm_newrtbm g then u64 (rbm_atime_sec g) else 0 in
  let log2 := xfs_highbit64 seq in
  let b :=
    if negb (log2 =? -1) then
      let resid := u64 (seq - u64 (Z.shiftl 1 log2)) in
      let b :=
        Z.shiftr (u64 (sb_rextents mp * u64 (u64 (Z.shiftl resid 1) + 1)))
          (log2 + 1) in
      let b := if b >=? sb_rextents mp then b mod sb_rextents mp else b in
      if u64 (b + len) >? sb_rextents mp then u64 (sb_rextents mp - len) else b
    else 0 in
  (b, set_atime (s64 (u64 (seq + 1))) true g).

(** ** The top-level allocator *)

(** Modelled from the spec: the unit conversions of xfs_rtbitmap.h are not
    part of this file; an rtx is a run of [rextsize] filesystem blocks. *)
Definition xfs_rtb_to_rtx (mp : xfs_mount) (rtbno : Z) : Z := rtbno / sb_rextsize mp.
Definition xfs_rtx_to_rtb (mp : xfs_mount) (rtx : Z) : Z := u64 (rtx * sb_rextsize mp).
Definition xfs_rtxlen_to_extlen (mp : xfs_mount) (len : Z) : Z := u32 (len * sb_rextsize mp).
Definition xfs_extlen_to_rtxlen (mp : xfs_mount) (len : Z) : Z := len / sb_rextsize mp.

Definition NULLRTBLOCK : Z := 2 ^ 64 - 1.
Definition NULLFSBLOCK : Z := 2 ^ 64 - 1.

(* The part of xfs_rtallocate between taking the lock and [out_release]:
   the searches.  The result is the local [error] with [(len, rtx)]. *)
Definition rtallocate_search (mp : xfs_mount) (start minlen maxlen prod next0 : Z)
    (g : rtgroup) : result (Z * Z) * rtgroup :=
  let '(error, found, g1) :=
    if negb (start =? 0) then
      match xfs_rtallocate_extent_near mp start minlen maxlen prod next0 g with
      | (Ok r, g') => (0, Some r, g')
      | (Err e, g') =>
          if e =? - ENOSPC then (0, None, xfs_rtbuf_cache_relse g')
          else (e, None, g')
      end
    else (0, None, g) in
  if error =? 0 then xfs_rtallocate_extent_size mp minlen maxlen prod next0 g1
  else (Err error, g1).

(* The start position xfs_rtallocate computes: from the hint, from the
   sequence-seeded picker, or 0. *)
Definition rtallocate_start (mp : xfs_mount) (bno_hint maxlen : Z)
    (initial_user_data : bool) (g : rtgroup) : Z * rtgroup :=
  if negb (bno_hint =? 0) then (xfs_rtb_to_rtx mp bno_hint, g)
  else if initial_user_data then xfs_rtpick_extent mp maxlen g
  else (0, g).

(* xfs_rtallocate.  A success carries [( *bno, *blen)]; the boolean is
   [*rtlocked] afterwards. *)
Definition xfs_rtallocate (mp : xfs_mount) (bno_hint minlen maxlen prod : Z)
    (wasdel initial_user_data rtlocked : bool) (next0 : Z) (g : rtgroup)
    : result (Z * Z) * bool * rtgroup :=
  let g := log_event (EvRtallocate minlen maxlen prod) g in
  if negb (rtg_active g) then (Err (- ENOSPC), rtlocked, g)
  else
    let '(start, g) := rtallocate_start mp bno_hint maxlen initial_user_data g in
    match rtallocate_search mp start minlen maxlen prod next0 g with
    | (Err e, g') => (Err e, true, xfs_rtbuf_cache_relse g')
    | (Ok (len, rtx), g') =>
        match xfs_rtallocate_range mp rtx len g' with
        | (Err e, g'') => (Err e, true, xfs_rtbuf_cache_relse g'')
        | (Ok _, g'') =>
            let g3 :=
              if wasdel
              then set_tp (tp_frextents g'') (tp_res_frextents g'' - len) g''
              else set_tp (tp_frextents g'' - len) (tp_res_frextents g'') g'' in
            (Ok (xfs_rtx_to_rtb mp rtx, xfs_rtxlen_to_extlen mp len), true,
             xfs_rtbuf_cache_relse g3)
        end
    end.

(** The allocation request as [xfs_bmap_rtalloc] sees it. *)
Record xfs_bmalloca : Type := {
  ap_offset : Z;
  ap_length : Z;
  ap_blkno : Z;
  ap_wasdel : bool;
  ap_initial_user_data : bool;
  ap_extsz_hint : Z
}.

Definition set_ap_range (off len : Z) (ap : xfs_bmalloca) : xfs_bmalloca :=
  {| ap_offset := off; ap_length := len; ap_blkno := ap_blkno ap;
     ap_wasdel := ap_wasdel ap; ap_initial_user_data := ap_initial_user_data ap;
     ap_extsz_hint := ap_extsz_hint ap |}.

Definition set_ap_result (blkno len : Z) (ap : xfs_bmalloca) : xfs_bmalloca :=
  {| ap_offset := ap_offset ap; ap_length := len; ap_blkno := blkno;
     ap_wasdel := ap_wasdel ap; ap_initial_user_data := ap_initial_user_data ap;
     ap_extsz_hint := ap_extsz_hint ap |}.

(** The collaborators of the block mapping layer that this file calls but
    does not define: [xfs_bmap_extsize_align] (error, new offset, new
    length), [xfs_bmap_adjacent] (its return value and [ap->blkno]
    afterwards), [xfs_bmap_alloc_account], and the constant
    [XFS_MAX_BMBT_EXTLEN]. *)
Record bmap_ops : Type := {
  xfs_bmap_extsize_align : Z -> xfs_bmalloca -> Z * Z * Z;
  xfs_bmap_adjacent : xfs_bmalloca -> bool * Z;
  xfs_bmap_alloc_account : xfs_bmalloca -> xfs_bmalloca;
  XFS_MAX_BMBT_EXTLEN : Z
}.

(* xfs_rtallocate_align; the result is the request after alignment with
   [( *ralen, *raminlen, *prod, *noalign)]. *)
Definition xfs_rtallocate_align (ops : bmap_ops) (mp : xfs_mount)
    (ap : xfs_bmalloca) (noalign : bool)
    : result (xfs_bmalloca * Z * Z * Z * bool) :=
  let orig_offset := ap_offset ap in
  let minlen := sb_rextsize mp in
  let '(align, noalign) :=
    if noalign then (sb_rextsize mp, noalign)
    else
      let align := ap_extsz_hint ap in
      let align := if align =? 0 then 1 else align in
      (align, if align =? sb_rextsize mp then true else noalign) in
  let '(error, off, len) := xfs_bmap_extsize_align ops align ap in
  if negb (error =? 0) then Err error
  else
    let ap := set_ap_range off len ap in
    let minlen :=
      if negb (off =? orig_offset) then u32 (minlen + (orig_offset - off))
      else minlen in
    let ralen := xfs_extlen_to_rtxlen mp (Z.min len (XFS_MAX_BMBT_EXTLEN ops)) in
    let raminlen := Z.max 1 (xfs_extlen_to_rtxlen mp minlen) in
    let prod :=
      if negb (off mod align =? 0) || negb (len mod align =? 0) then 1
      else xfs_extlen_to_rtxlen mp align in
    let '(raminlen, ralen, prod) :=
      if 1 <? prod then xfs_rtalloc_align_minmax raminlen ralen prod
      else (raminlen, ralen, prod) in
    Ok (ap, ralen, raminlen, prod, noalign).

(** One pass of xfs_bmap_rtalloc from the label [retry]: it returns, or it
    jumps back to [retry] with [noalign] set. *)
Inductive pass_out : Type :=
| PassDone (error : Z) (ap : xfs_bmalloca) (g : rtgroup)
| PassRetry (ap : xfs_bmalloca) (bno_hint : Z) (rtlocked : bool) (g : rtgroup).

Definition bmap_rtalloc_pass (ops : bmap_ops) (mp : xfs_mount) (next0 : Z)
    (orig_offset orig_length : Z)
    (ap : xfs_bmalloca) (bno_hint : Z) (rtlocked noalign : bool) (g : rtgroup)
    : pass_out :=
  match xfs_rtallocate_align ops mp ap noalign with
  | Err e => PassDone e ap g
  | Ok (ap, ralen, raminlen, prod, noalign) =>
      let '(adjacent, blkno) := xfs_bmap_adjacent ops ap in
      let ap := set_ap_result blkno (ap_length ap) ap in
      let bno_hint := if adjacent then blkno else bno_hint in
      match xfs_rtallocate mp bno_hint raminlen ralen prod (ap_wasdel ap)
              (ap_initial_user_data ap) rtlocked next0 g with
      | (Err e, rtlocked, g') =>
          if e =? - ENOSPC then
            if negb noalign
            then PassRetry (set_ap_range orig_offset orig_length ap) bno_hint
                   rtlocked g'
            else PassDone 0 (set_ap_result NULLFSBLOCK 0 ap) g'
          else PassDone e ap g'
      | (Ok (bno, blen), _, g') =>
          PassDone 0 (xfs_bmap_alloc_account ops (set_ap_result bno blen ap)) g'
      end
  end.

(* The passes in sequence; [n] bounds the jumps back to [retry]. *)
Fixpoint bmap_rtalloc_retry (ops : bmap_ops) (mp : xfs_mount) (next0 : Z)
    (orig_offset orig_length : Z) (n : nat)
    (ap : xfs_bmalloca) (bno_hint : Z) (rtlocked noalign : bool) (g : rtgroup)
    : Z * xfs_bmalloca * rtgroup :=
  match n with
  | O => (- ENOSPC, ap, g)
  | S n' =>
      match bmap_rtalloc_pass ops mp next0 orig_offset orig_length
              ap bno_hint rtlocked noalign g with
      | PassDone e ap' g' => (e, ap', g')
      | PassRetry ap' bno_hint' rtlocked' g' =>
          bmap_rtalloc_retry ops mp next0 orig_offset orig_length n'
            ap' bno_hint' rtlocked' true g'
      end
  end.

(* xfs_bmap_rtalloc: at most one jump back to [retry], since the jump sets
   [noalign] and xfs_rtallocate_align never clears it. *)
Definition xfs_bmap_rtalloc (ops : bmap_ops) (mp : xfs_mount) (next0 : Z)
    (ap : xfs_bmalloca) (g : rtgroup) : Z * xfs_bmalloca * rtgroup :=
  bmap_rtalloc_retry ops mp next0 (ap_offset ap) (ap_length ap) 2
    ap NULLRTBLOCK false false g.

(** ** Growing the realtime area: the entry checks *)

Record xfs_fs : Type := {
  fs_mp : xfs_mount;
  fs_rtg : rtgroup;
  fs_growlock : bool
}.

Definition set_growlock (b : bool) (fs : xfs_fs) : xfs_fs :=
  {| fs_mp := fs_mp fs; fs_rtg := fs_rtg fs; fs_growlock := b |}.

(** Modelled from the spec: the geometry helpers of xfs_rtbitmap.c are not
    part of this file.  Spec 3: [rbmblocks = ceil(rextents /
    bits_per_bmblock)], [rextslog = floor(log2(rextents))] and [rsumblocks =
    ceil(rsumlevels * rbmblocks * sizeof(summary_word) / block_size)], with a
    32-bit summary word. *)
Definition xfs_rtbitmap_blockcount (mp : xfs_mount) (rextents : Z) : Z :=
  (rextents + 2 ^ m_blkbit_log mp - 1) / 2 ^ m_blkbit_log mp.
Definition xfs_compute_rextslog (rextents : Z) : Z :=
  if rextents <=? 0 then 0 else Z.log2 rextents.
Definition xfs_rtsummary_blockcount (mp : xfs_mount) (rsumlevels rbmblocks : Z) : Z :=
  (rsumlevels * rbmblocks * 4 + 2 ^ sb_blocklog mp - 1) / 2 ^ sb_blocklog mp.

(** What [xfs_growfs_rt] calls once its own checks have passed, and the
    facts it asks its environment: the capability of the caller, the two
    extent size limits, the block count validation, the read of the last
    block of the device, and the three steps that do the work
    ([xfs_growfs_rtg], [xfs_growfs_rt_fixup_extsize],
    [xfs_update_secondary_sbs]), each with its error and the file system it
    leaves. *)
Record growfs_ops : Type := {
  capable_sys_admin : bool;
  XFS_MAX_RTEXTSIZE : Z;
  XFS_MIN_RTEXTSIZE : Z;
  xfs_sb_validate_fsb_count : xfs_mount -> Z -> Z;
  xfs_buf_read_uncached : Z -> Z;
  xfs_growfs_rtg : xfs_fs -> Z -> Z -> Z * xfs_fs;
  xfs_growfs_rt_fixup_extsize : xfs_fs -> Z * xfs_fs;
  xfs_update_secondary_sbs : xfs_fs -> Z * xfs_fs
}.

Definition XFS_FSB_TO_B (mp : xfs_mount) (fsb : Z) : Z :=
  Z.shiftl fsb (sb_blocklog mp).

(* xfs_growfs_rt between mutex_trylock and [out_unlock]. *)
Definition growfs_rt_locked (ops : growfs_ops) (fs : xfs_fs)
    (newblocks extsize : Z) : Z * xfs_fs :=
  let mp := fs_mp fs in
  let old_rextsize := sb_rextsize mp in
  if newblocks <=? sb_rblocks mp then (- EINVAL, fs)
  else if (0 <? sb_rblocks mp) && negb (extsize =? sb_rextsize mp)
  then (- EINVAL, fs)
  else if (XFS_FSB_TO_B mp extsize >? XFS_MAX_RTEXTSIZE ops)
          || (XFS_FSB_TO_B mp extsize <? XFS_MIN_RTEXTSIZE ops)
  then (- EINVAL, fs)
  else if m_has_rmapbt mp || m_has_reflink mp || m_has_quota mp
  then (- EOPNOTSUPP, fs)
  else
    let error := xfs_sb_validate_fsb_count ops mp newblocks in
    if negb (error =? 0) then (error, fs)
    else
      let error := xfs_buf_read_uncached ops (newblocks - 1) in
      if negb (error =? 0) then (error, fs)
      else
        let nrextents := newblocks / extsize in
        if nrextents =? 0 then (- EINVAL, fs)
        else
          let nrbmblocks := xfs_rtbitmap_blockcount mp nrextents in
          let nrsumblocks :=
            xfs_rtsummary_blockcount mp
              (xfs_compute_rextslog nrextents + 1) nrbmblocks in
          if nrsumblocks >? Z.shiftr (sb_logblocks mp) 1 then (- EINVAL, fs)
          else
            let '(error, fs1) := xfs_growfs_rtg ops fs newblocks extsize in
            if negb (error =? 0) then (error, fs1)
            else
              let '(error, fs2) :=
                if negb (old_rextsize =? extsize)
                then xfs_growfs_rt_fixup_extsize ops fs1
                else (0, fs1) in
              if negb (error =? 0) then (error, fs2)
              else xfs_update_secondary_sbs ops fs2.

(* xfs_growfs_rt *)
Definition xfs_growfs_rt (ops : growfs_ops) (fs : xfs_fs)
    (newblocks extsize : Z) : Z * xfs_fs :=
  if negb (capable_sys_admin ops) then (- EPERM, fs)
  else if negb (m_has_rtdev (fs_mp fs)) then (- EINVAL, fs)
  else if fs_growlock fs then (- EWOULDBLOCK, fs)
  else
    let '(error, fs') :=
      growfs_rt_locked ops (set_growlock true fs) newblocks extsize in
    (error, set_growlock false fs').

(** ** Vocabulary of the statements *)

(** The sequence counter as [xfs_rtpick_extent] reads it. *)
Definition rtpick_seq (g : rtgroup) : Z :=
  if rbm_newrtbm g then u64 (rbm_atime_sec g) else 0.

(** The claim about the hint as its sentence reads: whatever class
    [xfs_rtany_summary] returns (also [-1]), the hint of the block becomes
    that class plus one whenever this is smaller than the hint was. *)
Definition hint_follows_result (mp : xfs_mount) (lo hi bbno : Z) (g : rtgroup) : Prop :=
  forall found g' c c',
    xfs_rtany_summary mp lo hi bbno g = (Ok found, g') ->
    rtg_rsum_cache g = Some c -> rtg_rsum_cache g' = Some c' ->
    found + 1 < cache_get c bbno ->
    cache_get c' bbno = found + 1.

(** The group with the hint byte of block [bbno] replaced by [v]. *)
Definition with_hint (bbno v : Z) (g : rtgroup) : rtgroup :=
  match rtg_rsum_cache g with
  | Some c => set_rsum_cache (Some (<[Z.to_nat bbno := v]> c)) g
  | None => g
  end.

(** [n - 1, ..., 1, 0] *)
Fixpoint countdown (n : nat) : list Z :=
  match n with
  | O => []
  | S n' => Z.of_nat n' :: countdown n'
  end.

(** Adding [d] to the counter of cell [(L, B)] in the geometry [mp]. *)
Definition summary_add (mp : xfs_mount) (L B d : Z) (m : gmap Z Z) : gmap Z Z :=
  match m !! xfs_rtsumoffs mp L B with
  | Some v => <[xfs_rtsumoffs mp L B := u32 (v + d)]> m
  | None => m
  end.

(** The copy of one cell as the spec words it: a nonzero count is first
    subtracted from the cell of the old geometry, then added to the same
    [(L, B)] cell of the new geometry. *)
Definition copy_cell (omp nmp : xfs_mount) (m : gmap Z Z) (cell : Z * Z) : gmap Z Z :=
  match m !! xfs_rtsumoffs omp cell.1 cell.2 with
  | Some v =>
      if v =? 0 then m
      else summary_add nmp cell.1 cell.2 v (summary_add omp cell.1 cell.2 (- v) m)
  | None => m
  end.

(** All cells of a geometry, levels descending and, within a level, bitmap
    blocks descending. *)
Definition cells_descending (levels blocks : Z) : list (Z * Z) :=
  flat_map (fun L => map (fun B => (L, B)) (countdown (Z.to_nat blocks)))
    (countdown (Z.to_nat levels)).

Definition copy_summary_spec (omp nmp : xfs_mount) (m : gmap Z Z) : gmap Z Z :=
  fold_left (copy_cell omp nmp)
    (cells_descending (m_rsumlevels omp) (sb_rbmblocks omp)) m.

(** Every cell of the old geometry can be read through both geometries. *)
Definition cells_mapped (omp nmp : xfs_mount) (m : gmap Z Z) : Prop :=
  forall L B, 0 <= L < m_rsumlevels omp -> 0 <= B < sb_rbmblocks omp ->
    is_Some (m !! xfs_rtsumoffs omp L B) /\ is_Some (m !! xfs_rtsumoffs nmp L B).

(** Every rtx of [[start, start + len)] is free. *)
Definition range_free (g : rtgroup) (start len : Z) : Prop :=
  forall i, start <= i < start + len -> Z.testbit (rbm g) i = true.

(** [next] is the first allocated rtx of [[start, start + len)]. *)
Definition first_allocated (g : rtgroup) (start len next : Z) : Prop :=
  start <= next < start + len /\
  range_free g start (next - start) /\
  Z.testbit (rbm g) next = false.

(** [[pre, post)] is the maximal free run around [start], inside the group:
    it is free, it cannot be extended to the left, and it ends at the end of
    the group or at an allocated rtx. *)
Definition maximal_free_run (g : rtgroup) (start pre post : Z) : Prop :=
  0 <= pre <= start /\ start < post <= rtg_extents g /\
  range_free g pre (post - pre) /\
  (pre = 0 \/ Z.testbit (rbm g) (pre - 1) = false) /\
  (post = rtg_extents g \/ Z.testbit (rbm g) post = false).

(** [i, i + 1, ...] and [i, i - 1, ...], [n] numbers each. *)
Fixpoint count_up (n : nat) (i : Z) : list Z :=
  match n with
  | O => []
  | S n' => i :: count_up n' (i + 1)
  end.

Fixpoint count_down (n : nat) (i : Z) : list Z :=
  match n with
  | O => []
  | S n' => i :: count_down n' (i - 1)
  end.

(** Size-first allocation as the spec words it.  One class [L]: the bitmap
    blocks in order; a block below [resume] was fast-forwarded over; the
    single-block scan is called only where the summary cell [(L, B)] is
    nonzero; when it ends in NOSPACE and the rtx it hands back lies past the
    next bitmap block, the scan resumes at the block of that rtx. *)
Fixpoint class_scan (mp : xfs_mount) (L minlen maxlen prod next0 : Z)
    (blocks : list Z) (resume : Z) (g : rtgroup) : result (Z * Z) * rtgroup :=
  match blocks with
  | [] => (Err (- ENOSPC), g)
  | B :: rest =>
      if B <? resume then class_scan mp L minlen maxlen prod next0 rest resume g
      else
        match xfs_rtget_summary mp L B g with
        | Err e => (Err e, g)
        | Ok sum =>
            if sum =? 0
            then class_scan mp L minlen maxlen prod next0 rest resume g
            else
              match xfs_rtallocate_extent_block mp B minlen maxlen prod next0 g with
              | (BlkOk len rtx, g') => (Ok (len, rtx), g')
              | (BlkErr e, g') => (Err e, g')
              | (BlkNospace nx, g') =>
                  class_scan mp L minlen maxlen prod next0 rest
                    (if B + 1 <? xfs_rtx_to_rbmblock mp nx
                     then xfs_rtx_to_rbmblock mp nx else resume) g'
              end
        end
  end.

Definition scan_class (mp : xfs_mount) (L minlen maxlen prod next0 : Z) : M (Z * Z) :=
  class_scan mp L minlen maxlen prod next0
    (count_up (Z.to_nat (sb_rbmblocks mp)) 0) 0.

(** The classes in the given order, until one ends otherwise than in
    NOSPACE. *)
Fixpoint first_class (classes : list Z) (try : Z -> M (Z * Z)) : M (Z * Z) :=
  match classes with
  | [] => fail (- ENOSPC)
  | L :: rest =>
      fun g =>
        match try L g with
        | (Err e, g') =>
            if e =? - ENOSPC then first_class rest try g' else (Err e, g')
        | r => r
        end
  end.

(** The two rounds.  [cap] is the length from which the maximum of the
    second round is cut: the sentence of the spec reads [cap = maxlen], the
    code has [cap = maxlen - 1]. *)
Definition size_first (cap : Z) (mp : xfs_mount) (minlen maxlen prod next0 : Z)
    : M (Z * Z) :=
  fun g =>
    let top := Z.log2 maxlen in
    match first_class (count_up (Z.to_nat (m_rsumlevels mp - top)) top)
            (fun L => scan_class mp L minlen maxlen prod next0) g with
    | (Err e, g') =>
        if (e =? - ENOSPC) && (minlen <=? maxlen - 1) then
          let hi := Z.log2 (maxlen - 1) in
          let lo := Z.log2 minlen in
          first_class (count_down (Z.to_nat (hi - lo + 1)) hi)
            (fun L => scan_class mp L (Z.max minlen (2 ^ L))
                        (Z.min cap (2 ^ (L + 1) - 1)) prod next0) g'
        else (Err e, g')
    | r => r
    end.

Definition size_first_as_claimed (mp : xfs_mount) (minlen maxlen prod next0 : Z)
    : M (Z * Z) :=
  size_first maxlen mp minlen maxlen prod next0.

(** [maxblocks] as the sentence of the spec gives it. *)
Definition maxblocks_as_claimed (blkbit_log maxlog : Z) : Z :=
  2 ^ Z.max 0 (maxlog - blkbit_log + 1).

(** The bitmap blocks below [bbno] on which a trace started a single-block
    scan, in the order of the trace. *)
Definition probed_below (bbno : Z) (tr : list event) : list Z :=
  flat_map (fun e => match e with
                     | EvBlock b _ _ _ => if b <? bbno then [b] else []
                     | _ => []
                     end) tr.

(** Strictly decreasing and below [hi]. *)
Fixpoint descending (hi : Z) (l : list Z) : Prop :=
  match l with
  | [] => True
  | x :: rest => x < hi /\ descending x rest
  end.

(** The sentence on the public interface as it reads: a zero-length
    success is reached through the jump back to [retry]. *)
Definition zero_length_after_one_retry (ops : bmap_ops) (mp : xfs_mount)
    (next0 : Z) (ap : xfs_bmalloca) (g : rtgroup) : Prop :=
  forall ap' g',
    xfs_bmap_rtalloc ops mp next0 ap g = (0, ap', g') ->
    ap_length ap' = 0 ->
    exists ap1 hint rl g1,
      bmap_rtalloc_pass ops mp next0 (ap_offset ap) (ap_length ap)
        ap NULLRTBLOCK false false g = PassRetry ap1 hint rl g1.

(** ** Small file systems to evaluate on *)

(** A mount with extent size 1 and the geometry derived from [rextents]. *)
Definition demo_mount (rextents rbmblocks blkbit_log : Z) : xfs_mount :=
  {| sb_rblocks := rextents; sb_rextsize := 1; sb_rextents := rextents;
     sb_rbmblocks := rbmblocks; sb_rextslog := Z.log2 rextents;
     sb_logblocks := 4096; sb_blocklog := 12;
     m_rsumlevels := Z.log2 rextents + 1; m_rsumblocks := 1;
     m_blkbit_log := blkbit_log; m_has_rtdev := true;
     m_has_rmapbt := false; m_has_reflink := false; m_has_quota := false |}.

(** A summary file of [words] words, all zero except the given ones. *)
Definition demo_summary (cells : list (Z * Z)) (words : nat) : gmap Z Z :=
  list_to_map (cells ++ map (fun k => (Z.of_nat k, 0)) (seq 0 words)).

Definition demo_group (extents bm : Z) (sum : gmap Z Z)
    (cache : option (list Z)) : rtgroup :=
  {| rtg_active := true; rtg_extents := extents; rbm := bm; rsum := sum;
     rtg_rsum_cache := cache; rbm_atime_sec := 0; rbm_newrtbm := false;
     tp_frextents := 0; tp_res_frextents := 0; rtg_trace := [] |}.

(** 64 rtx in one bitmap block; rtx 0..8 free, one run of 9 (class 3). *)
Definition mp64 : xfs_mount := demo_mount 64 1 15.
Definition g_run9 : rtgroup :=
  demo_group 64 (Z.ones 9) (demo_summary [(3, 1)] 7) None.

(** The same volume with nothing free. *)
Definition g_full : rtgroup := demo_group 64 0 (demo_summary [] 7) None.

(** The same volume with an all-zero summary and the hint of block 0 at 6. *)
Definition g_hint6 : rtgroup :=
  demo_group 64 0 (demo_summary [] 7) (Some [6]).

(** 48 rtx in three bitmap blocks of 16; only rtx 5 free (class 0, block 0). *)
Definition mp48 : xfs_mount := demo_mount 48 3 4.
Definition g_one_free : rtgroup :=
  demo_group 48 (Z.shiftl 1 5) (demo_summary [(0, 1)] 18) None.

(** The geometry of [mp64] after growing to two bitmap blocks. *)
Definition mp64_two_blocks : xfs_mount := demo_mount 64 2 15.
Definition g_copy : rtgroup :=
  demo_group 64 (Z.ones 9) (demo_summary [(3, 2)] 16) None.

(** A group whose sequence counter stands at 5. *)
Definition g_seq5 : rtgroup := set_atime 5 true g_full.

(** Collaborators that do nothing: no extent size adjustment, no adjacent
    block; and a request on an inode without an extent size hint. *)
Definition demo_bmap_ops : bmap_ops :=
  {| xfs_bmap_extsize_align := fun _ ap => (0, ap_offset ap, ap_length ap);
     xfs_bmap_adjacent := fun ap => (false, ap_blkno ap);
     xfs_bmap_alloc_account := fun ap => ap;
     XFS_MAX_BMBT_EXTLEN := 2 ^ 21 - 1 |}.

Definition demo_ap : xfs_bmalloca :=
  {| ap_offset := 0; ap_length := 4; ap_blkno := 0; ap_wasdel := false;
     ap_initial_user_data := false; ap_extsz_hint := 0 |}.

Definition demo_growfs_ops : growfs_ops :=
  {| capable_sys_admin := true;
     XFS_MAX_RTEXTSIZE := 2 ^ 30; XFS_MIN_RTEXTSIZE := 2 ^ 12;
     xfs_sb_validate_fsb_count := fun _ _ => 0;
     xfs_buf_read_uncached := fun _ => 0;
     xfs_growfs_rtg := fun fs _ _ => (0, fs);
     xfs_growfs_rt_fixup_extsize := fun fs => (0, fs);
     xfs_update_secondary_sbs := fun fs => (0, fs) |}.

Definition demo_fs : xfs_fs :=
  {| fs_mp := mp64; fs_rtg := g_run9; fs_growlock := false |}.

(** The position of offset [i] in the order [0, 1, -1, 2, -2, ...] in which
    the near-hint search visits the bitmap blocks around the hint. *)
Definition near_rank (i : Z) : Z :=
  2 * Z.abs i + (if i <? 0 then 1 else 0).

(** ** Vocabulary of the further properties *)

(** An extent [(len, rtx)] that may be handed out for a request
    [(minlen, maxlen, prod)]: of an admissible length, inside the group, and
    free in the bitmap. *)
Definition extent_admissible (g : rtgroup) (minlen maxlen prod len rtx : Z) : Prop :=
  minlen <= len <= maxlen /\ (1 < prod -> len mod prod = 0) /\
  0 <= rtx /\ rtx + len <= rtg_extents g /\ range_free g rtx len.

(** What the scan has remembered as its best candidate. *)
Definition best_ok (g : rtgroup) (minlen maxlen lo end_ besti bestlen : Z) : Prop :=
  besti = -1 \/
  (lo <= besti <= end_ /\ minlen <= bestlen <= maxlen /\
   besti + bestlen <= rtg_extents g /\ range_free g besti bestlen).

(** [g'] differs from [g] at most in the hint array and in the trace. *)
Definition untouched (g g' : rtgroup) : Prop :=
  rtg_active g' = rtg_active g /\ rtg_extents g' = rtg_extents g /\
  rbm g' = rbm g /\ rsum g' = rsum g /\
  rbm_atime_sec g' = rbm_atime_sec g /\ rbm_newrtbm g' = rbm_newrtbm g /\
  tp_frextents g' = tp_frextents g /\ tp_res_frextents g' = tp_res_frextents g.

(** Every single-block scan a trace started was on a block of the bitmap. *)
Definition probes_inside (mp : xfs_mount) (tr : list event) : Prop :=
  Forall (fun e => match e with
                   | EvBlock b _ _ _ => 0 <= b < sb_rbmblocks mp
                   | _ => True
                   end) tr.

(** The hint array is sound up to class [hi]: for every bitmap block it
    covers, the summary counts no extent at a class from the block's hint up
    to [hi]. *)
Definition hint_sound (mp : xfs_mount) (hi : Z) (g : rtgroup) : Prop :=
  forall c B L,
    rtg_rsum_cache g = Some c -> 0 <= B < Z.of_nat (length c) ->
    cache_get c B <= L <= hi -> xfs_rtget_summary mp L B g = Ok 0.

(* xfs_alloc_rsum_cache.  Whether kvmalloc hands out memory is the
   environment's; the pointer it returns is stored before it is tested, and
   memset fills the array with [(uint8_t)-1]. *)
Definition xfs_alloc_rsum_cache (kvmalloc_ok : bool) (rbmblocks : Z)
    (g : rtgroup) : Z * rtgroup :=
  if kvmalloc_ok
  then (0, set_rsum_cache (Some (replicate (Z.to_nat rbmblocks) (u8 (-1)))) g)
  else (- ENOMEM, set_rsum_cache None g).

(** The state of the summary file once the cells at the old word offsets
    [t] and above have been moved from the geometry [omp] to the geometry
    [nmp]; [m0] is the file before the copy.  Words below [t] are as they
    were, a moved cell holds at its new offset what it held at its old one,
    and every other word from [t] on is zero. *)
Definition relayout_inv (omp nmp : xfs_mount) (m0 : gmap Z Z) (t : Z)
    (m : gmap Z Z) : Prop :=
  (forall k, is_Some (m !! k) <-> is_Some (m0 !! k)) /\
  (forall k, k < t -> m !! k = m0 !! k) /\
  (forall L B, 0 <= L < m_rsumlevels omp -> 0 <= B < sb_rbmblocks omp ->
     t <= L * sb_rbmblocks omp + B ->
     m !! (L * sb_rbmblocks nmp + B) = m0 !! (L * sb_rbmblocks omp + B)) /\
  (forall k v, t <= k -> m !! k = Some v ->
     (forall L B, 0 <= L < m_rsumlevels omp -> 0 <= B < sb_rbmblocks omp ->
        t <= L * sb_rbmblocks omp + B -> k <> L * sb_rbmblocks nmp + B) ->
     v = 0).

(** ** Growing: the trial geometry of a round *)

Definition set_rt_size (rblocks rextsize : Z) (mp : xfs_mount) : xfs_mount :=
  {| sb_rblocks := rblocks; sb_rextsize := rextsize;
     sb_rextents := sb_rextents mp; sb_rbmblocks := sb_rbmblocks mp;
     sb_rextslog := sb_rextslog mp; sb_logblocks := sb_logblocks mp;
     sb_blocklog := sb_blocklog mp; m_rsumlevels := m_rsumlevels mp;
     m_rsumblocks := m_rsumblocks mp; m_blkbit_log := m_blkbit_log mp;
     m_has_rtdev := m_has_rtdev mp; m_has_rmapbt := m_has_rmapbt mp;
     m_has_reflink := m_has_reflink mp; m_has_quota := m_has_quota mp |}.

Definition set_rt_derived (rextents rbmblocks rextslog rsumlevels rsumblocks : Z)
    (mp : xfs_mount) : xfs_mount :=
  {| sb_rblocks := sb_rblocks mp; sb_rextsize := sb_rextsize mp;
     sb_rextents := rextents; sb_rbmblocks := rbmblocks;
     sb_rextslog := rextslog; sb_logblocks := sb_logblocks mp;
     sb_blocklog := sb_blocklog mp; m_rsumlevels := rsumlevels;
     m_rsumblocks := rsumblocks; m_blkbit_log := m_blkbit_log mp;
     m_has_rtdev := m_has_rtdev mp; m_has_rmapbt := m_has_rmapbt mp;
     m_has_reflink := m_has_reflink mp; m_has_quota := m_has_quota mp |}.

(* xfs_growfs_rt_alloc_fake_mount: the copy of the mount that carries the
   geometry of [rblocks] blocks in extents of [rextsize] blocks; [None] when
   kmemdup fails.  [sb_rbmblocks] is a 32-bit field, [sb_rextslog] a byte.
   The feature bits and the reservations of the copy are not among the
   fields of [xfs_mount] kept here. *)
Definition xfs_growfs_rt_alloc_fake_mount (kmemdup_ok : bool) (mp : xfs_mount)
    (rblocks rextsize : Z) : option xfs_mount :=
  if kmemdup_ok then
    let nmp := set_rt_size rblocks rextsize mp in
    let rextents := xfs_rtb_to_rtx nmp (sb_rblocks nmp) in
    let rbmblocks := u32 (xfs_rtbitmap_blockcount nmp rextents) in
    let rextslog := u8 (xfs_compute_rextslog rextents) in
    let rsumlevels := u32 (rextslog + 1) in
    let rsumblocks := xfs_rtsummary_blockcount nmp rsumlevels rbmblocks in
    Some (set_rt_derived rextents rbmblocks rextslog rsumlevels rsumblocks nmp)
  else None.

(** Modelled from the spec: [NBBY * sb_blocksize], the number of bits in a
    bitmap block, is [bits_per_bmblock = block_size * 8] (spec 3), the
    [2 ^ m_blkbit_log] of the conversions above. *)
Definition bits_per_bmblock (mp : xfs_mount) : Z := 2 ^ m_blkbit_log mp.

(* xfs_growfs_rt_bmblock, its first statements: the geometry of the round
   that brings bitmap block [bmbno] into use.  The product is formed in
   64 bits. *)
Definition growfs_rt_bmblock_nmp (kmemdup_ok : bool) (mp : xfs_mount)
    (nrblocks rextsize bmbno : Z) : option xfs_mount :=
  let nrblocks_step :=
    u64 (u64 (u64 (bmbno + 1) * bits_per_bmblock mp) * rextsize) in
  xfs_growfs_rt_alloc_fake_mount kmemdup_ok mp
    (Z.min nrblocks nrblocks_step) rextsize.

(* xfs_growfs_rt_alloc_blocks, the value it stores in [*nrbmblocks]: the
   number of bitmap blocks of the geometry asked for. *)
Definition growfs_rt_target_bmblocks (kmemdup_ok : bool) (mp : xfs_mount)
    (nrblocks rextsize : Z) : option Z :=
  match xfs_growfs_rt_alloc_fake_mount kmemdup_ok mp nrblocks rextsize with
  | Some nmp => Some (sb_rbmblocks nmp)
  | None => None
  end.

(** ** Growing: the driver of the rounds *)

Definition set_rtg_extents (v : Z) (g : rtgroup) : rtgroup :=
  {| rtg_active := rtg_active g; rtg_extents := v; rbm := rbm g;
     rsum := rsum g; rtg_rsum_cache := rtg_rsum_cache g;
     rbm_atime_sec := rbm_atime_sec g; rbm_newrtbm := rbm_newrtbm g;
     tp_frextents := tp_frextents g; tp_res_frextents := tp_res_frextents g;
     rtg_trace := rtg_trace g |}.

Module GrowRtg.

(** What [xfs_growfs_rtg] and [xfs_growfs_rt_alloc_blocks] call and this
    development does not define: the number of metadata inodes of a group,
    [xfs_rtginode_ensure] (its error; the inodes are not part of the group
    state kept here), the two allocators of memory, the block counts the
    bitmap and summary inodes have on disk, [xfs_rtfile_initialize_blocks]
    (its error), [xfs_last_rt_bmblock], the rest of a round
    ([xfs_growfs_rt_bmblock]: its error, the mount and the group it leaves)
    and [xfs_rtgroup_extents]. *)
Record ops : Type := {
  XFS_RTGI_MAX : nat;
  xfs_rtginode_ensure : rtgroup -> Z -> Z;
  kmemdup_ok : bool;
  kvmalloc_ok : Z -> bool;
  orbmblocks : Z;
  orsumblocks : Z;
  xfs_rtfile_initialize_blocks : bool -> Z -> Z -> Z;
  xfs_last_rt_bmblock : xfs_mount -> Z;
  xfs_growfs_rt_bmblock :
    xfs_mount -> rtgroup -> Z -> Z -> Z -> Z * xfs_mount * rtgroup;
  xfs_rtgroup_extents : xfs_mount -> Z
}.

(* xfs_growfs_rt_alloc_blocks: the error and [*nrbmblocks].  The boolean of
   xfs_rtfile_initialize_blocks tells the summary inode from the bitmap
   inode. *)
Definition xfs_growfs_rt_alloc_blocks (o : ops) (mp : xfs_mount)
    (nrblocks rextsize : Z) : result Z :=
  match xfs_growfs_rt_alloc_fake_mount (kmemdup_ok o) mp nrblocks rextsize with
  | None => Err (- ENOMEM)
  | Some nmp =>
      let nrbmblocks := sb_rbmblocks nmp in
      let nrsumblocks := m_rsumblocks nmp in
      let error :=
        xfs_rtfile_initialize_blocks o false (orbmblocks o) nrbmblocks in
      if negb (error =? 0) then Err error
      else
        let error :=
          xfs_rtfile_initialize_blocks o true (orsumblocks o) nrsumblocks in
        if negb (error =? 0) then Err error else Ok nrbmblocks
  end.

(* The loop [for (i = 0; i < XFS_RTGI_MAX; i++)] over the metadata inodes. *)
Fixpoint ensure_inodes (o : ops) (g : rtgroup) (n : nat) (i : Z) : Z :=
  match n with
  | O => 0
  | S n' =>
      let error := xfs_rtginode_ensure o g i in
      if negb (error =? 0) then error else ensure_inodes o g n' (i + 1)
  end.

(* The loop [for (bmbno = ...; bmbno < bmblocks; bmbno++)] over the rounds. *)
Fixpoint rounds (o : ops) (nrblocks rextsize bmblocks : Z) (n : nat)
    (bmbno : Z) (mp : xfs_mount) (g : rtgroup) : Z * xfs_mount * rtgroup :=
  match n with
  | O => (0, mp, g)
  | S n' =>
      if bmbno <? bmblocks then
        let '(error, mp', g') :=
          xfs_growfs_rt_bmblock o mp g nrblocks rextsize bmbno in
        if negb (error =? 0) then (error, mp', g')
        else rounds o nrblocks rextsize bmblocks n' (u64 (bmbno + 1)) mp' g'
      else (0, mp, g)
  end.

(* xfs_growfs_rtg.  [old_rsum_cache] is a pointer: [None] is NULL. *)
Definition xfs_growfs_rtg (o : ops) (mp : xfs_mount) (nrblocks rextsize : Z)
    (g : rtgroup) : Z * xfs_mount * rtgroup :=
  if negb (rtg_active g) then (- EINVAL, mp, g)
  else
    let error := ensure_inodes o g (XFS_RTGI_MAX o) 0 in
    if negb (error =? 0) then (error, mp, g)
    else
      match xfs_growfs_rt_alloc_blocks o mp nrblocks rextsize with
      | Err error => (error, mp, g)
      | Ok bmblocks =>
          let replace := negb (bmblocks =? sb_rbmblocks mp) in
          let old_rsum_cache := if replace then rtg_rsum_cache g else None in
          let '(error, g1) :=
            if replace
            then xfs_alloc_rsum_cache (kvmalloc_ok o bmblocks) bmblocks g
            else (0, g) in
          if negb (error =? 0) then (error, mp, g1)
          else
            let first := xfs_last_rt_bmblock o mp in
            let '(error, mp', g2) :=
              rounds o nrblocks rextsize bmblocks
                (Z.to_nat (bmblocks - first)) first mp g1 in
            if negb (error =? 0) then
              let g3 := set_rtg_extents (xfs_rtgroup_extents o mp') g2 in
              let g4 :=
                match old_rsum_cache with
                | Some c => set_rsum_cache (Some c) g3
                | None => g3
                end in
              (error, mp', g4)
            else (0, mp', g2)
      end.

End GrowRtg.

(** ** More small file systems *)

(** 16 rtx in one bitmap block of 16 bits.  Growing it to a volume of 67
    blocks in extents of 4 blocks gives 16 extents, which fill one bitmap
    block exactly, and 3 blocks are left over. *)
Definition mp16 : xfs_mount := demo_mount 16 1 4.

(** A driver of the rounds whose collaborators all succeed, except that no
    memory is left for a hint array, and one whose first round fails. *)
Definition demo_rtg_ops (kv : bool) (round_error : Z) : GrowRtg.ops :=
  {| GrowRtg.XFS_RTGI_MAX := 2;
     GrowRtg.xfs_rtginode_ensure := fun _ _ => 0;
     GrowRtg.kmemdup_ok := true;
     GrowRtg.kvmalloc_ok := fun _ => kv;
     GrowRtg.orbmblocks := 1;
     GrowRtg.orsumblocks := 1;
     GrowRtg.xfs_rtfile_initialize_blocks := fun _ _ _ => 0;
     GrowRtg.xfs_last_rt_bmblock := fun mp => sb_rbmblocks mp;
     GrowRtg.xfs_growfs_rt_bmblock := fun mp g _ _ _ => (round_error, mp, g);
     GrowRtg.xfs_rtgroup_extents := fun mp => sb_rextents mp |}.

(** ** What the summary counts *)

(** [rtx] is the first rtx of a maximal free run of the group. *)
Definition run_starts (g : rtgroup) (rtx : Z) : bool :=
  (0 <=? rtx) && (rtx <? rtg_extents g) && Z.testbit (rbm g) rtx &&
  ((rtx =? 0) || negb (Z.testbit (rbm g) (rtx - 1))).

(** One past the last rtx of the free run that begins at [rtx]: the first
    allocated rtx from there on, or the end of the group. *)
Definition run_end (g : rtgroup) (rtx : Z) : Z :=
  first_diff (rbm g) true (Z.to_nat (rtg_extents g - rtx)) rtx.

(** 1 when a maximal free run of class [L] (of a length in
    [[2^L, 2^(L+1))]) begins at [rtx], 0 otherwise. *)
Definition run_of_class (g : rtgroup) (L rtx : Z) : Z :=
  if run_starts g rtx && (Z.log2 (run_end g rtx - rtx) =? L) then 1 else 0.

(** [f i + f (i + 1) + ... + f (i + n - 1)] *)
Fixpoint sum_over (f : Z -> Z) (n : nat) (i : Z) : Z :=
  match n with
  | O => 0
  | S n' => f i + sum_over f n' (i + 1)
  end.

(** The number of maximal free runs of class [L] that begin in bitmap block
    [B]; a run may reach into later blocks. *)
Definition runs_in_block (mp : xfs_mount) (g : rtgroup) (L B : Z) : Z :=
  sum_over (run_of_class g L) (Z.to_nat (bits_per_bmblock mp))
    (B * bits_per_bmblock mp).

(** The summary file [m] holds [f L B] in every cell of the geometry. *)
Definition summary_holds (mp : xfs_mount) (m : gmap Z Z) (f : Z -> Z -> Z) : Prop :=
  forall L B, 0 <= L < m_rsumlevels mp -> 0 <= B < sb_rbmblocks mp ->
    m !! xfs_rtsumoffs mp L B = Some (f L B).

(** The summary agrees with the bitmap: every counter is the number of free
    extents of its class that begin in its bitmap block.  This is what
    [xfs_rtalloc_sumlevel] and [xfs_rtany_summary] read the counters as. *)
Definition summary_coherent (mp : xfs_mount) (g : rtgroup) : Prop :=
  summary_holds mp (rsum g) (runs_in_block mp g).

(** 16 rtx in one bitmap block of 16 bits; rtx 2..10 free, one run of 9
    (class 3). *)
Definition g16_run9 : rtgroup :=
  demo_group 16 (Z.shiftl (Z.ones 9) 2) (demo_summary [(3, 1)] 5) None.

(** The geometry after growing [mp16] to two bitmap blocks, and a group in
    the old geometry whose summary file already spans the new matrix. *)
Definition mp32 : xfs_mount := demo_mount 32 2 4.
Definition g16_wide : rtgroup :=
  demo_group 16 (Z.shiftl (Z.ones 9) 2) (demo_summary [(3, 1)] 12) None.

(** * Properties *)

(** ** Integer facts *)

Lemma u32_small x : 0 <= x < 2 ^ 32 -> u32 x = x.
Proof. intros H. unfold u32. apply Z.mod_small. exact H. Qed.

Lemma u64_small x : 0 <= x < 2 ^ 64 -> u64 x = x.
Proof. intros H. unfold u64. apply Z.mod_small. exact H. Qed.

Lemma u8_small x : 0 <= x < 2 ^ 8 -> u8 x = x.
Proof. intros H. unfold u8. apply Z.mod_small. exact H. Qed.

Lemma s32_small x : - 2 ^ 31 <= x < 2 ^ 31 -> s32 x = x.
Proof. intros H. unfold s32. rewrite Z.mod_small; lia. Qed.

Lemma s64_small x : - 2 ^ 63 <= x < 2 ^ 63 -> s64 x = x.
Proof. intros H. unfold s64. rewrite Z.mod_small; lia. Qed.

Lemma align_down_spec x p :
  0 < p -> align_down x p = x - x mod p.
Proof.
  intros Hp. unfold align_down.
  pose proof (Z.div_mod x p ltac:(lia)). lia.
Qed.

Lemma align_up_spec x p :
  0 < p ->
  align_up x p = if x mod p =? 0 then x else x + (p - x mod p).
Proof.
  intros Hp. unfold align_up.
  pose proof (Z.div_mod x p ltac:(lia)) as Hx.
  pose proof (Z.mod_pos_bound x p Hp) as Hb.
  destruct (Z.eqb_spec (x mod p) 0) as [E|E].
  - rewrite E in Hx. rewrite Z.add_0_r in Hx.
    replace (x + p - 1) with (p - 1 + x / p * p) by lia.
    rewrite Z.div_add by lia. rewrite Z.div_small by lia. lia.
  - replace (x + p - 1) with ((x mod p - 1) + (x / p + 1) * p) by lia.
    rewrite Z.div_add by lia. rewrite Z.div_small by lia. lia.
Qed.

(** ** Aligning the requested lengths *)

(** C10.  When rounding [maxlen] down and [minlen] up to multiples of [prod]
    gives [maxlen < minlen], [xfs_rtalloc_align_minmax] sets [prod] to 1 and
    hands back both lengths exactly as they came in; otherwise it stores the
    aligned pair, and that pair satisfies [minlen <= maxlen] with both
    lengths multiples of [prod]. *)
Theorem align_minmax_all_or_nothing (minlen maxlen prod : Z) :
  0 <= minlen -> 0 <= maxlen < 2 ^ 32 -> 0 < prod ->
  minlen + prod <= 2 ^ 32 ->
  let amin := align_up minlen prod in
  let amax := align_down maxlen prod in
  (amax < amin ->
     xfs_rtalloc_align_minmax minlen maxlen prod = (minlen, maxlen, 1)) /\
  (amin <= amax ->
     xfs_rtalloc_align_minmax minlen maxlen prod = (amin, amax, prod) /\
     amin mod prod = 0 /\ amax mod prod = 0).
Proof.
  intros Hmin Hmax Hp Hfit amin amax.
  assert (Emax : (if maxlen mod prod =? 0 then maxlen
                  else u32 (maxlen - maxlen mod prod)) = amax).
  { subst amax. rewrite align_down_spec by lia.
    pose proof (Z.mod_pos_bound maxlen prod Hp).
    pose proof (Z.mod_le maxlen prod ltac:(lia) Hp).
    destruct (Z.eqb_spec (maxlen mod prod) 0); [lia|].
    apply u32_small. lia. }
  assert (Emin : (if minlen mod prod =? 0 then minlen
                  else u32 (minlen + u32 (prod - minlen mod prod))) = amin).
  { subst amin. rewrite align_up_spec by lia.
    pose proof (Z.mod_pos_bound minlen prod Hp).
    pose proof (Z.mod_le minlen prod ltac:(lia) Hp).
    destruct (Z.eqb_spec (minlen mod prod) 0); [lia|].
    rewrite (u32_small (prod - _)) by lia.
    apply u32_small. lia. }
  unfold xfs_rtalloc_align_minmax. cbv zeta. rewrite Emax, Emin.
  split.
  - intros Hlt. destruct (Z.ltb_spec amax amin); [reflexivity|lia].
  - intros Hle. destruct (Z.ltb_spec amax amin); [lia|].
    split; [reflexivity|]. subst amin amax. unfold align_up, align_down.
    split; apply Z.mod_mul; lia.
Qed.

Lemma align_minmax_all_or_nothing_witness :
  xfs_rtalloc_align_minmax 5 50 8 = (8, 48, 8) /\
  xfs_rtalloc_align_minmax 5 7 8 = (5, 7, 1).
Proof.
  split.
  - apply (align_minmax_all_or_nothing 5 50 8); vm_compute; intuition congruence.
  - apply (align_minmax_all_or_nothing 5 7 8); vm_compute; intuition congruence.
Defined.

(** ** The sequence-seeded start *)

Lemma log2_bounds seq :
  0 < seq -> 0 <= Z.log2 seq /\ 2 ^ Z.log2 seq <= seq < 2 * 2 ^ Z.log2 seq.
Proof.
  intros H. pose proof (Z.log2_spec seq H) as [H1 H2].
  pose proof (Z.log2_nonneg seq).
  rewrite Z.pow_succ_r in H2 by lia. lia.
Qed.

Lemma pow2_le_mono a b : 0 <= a <= b -> 2 ^ a <= 2 ^ b.
Proof. intros H. apply Z.pow_le_mono_r; lia. Qed.

(** C8.  With [seq] the stored sequence counter: [xfs_rtpick_extent] returns
    0 when [seq = 0]; otherwise, with [L = floor(log2 seq)] and
    [R = seq - 2^L], it computes [b = (rextents * (2R+1)) >> (L+1)] in 64-bit
    arithmetic, reduces it modulo [rextents] if [b >= rextents] and then
    clamps it so that [b + len <= rextents]; in every case the stored counter
    becomes [seq + 1].  When the product fits 64 bits, [b] is the exact
    fraction and lies below [rextents]. *)
Theorem rtpick_extent_sequence (mp : xfs_mount) (len : Z) (g : rtgroup) :
  0 < sb_rextents mp < 2 ^ 63 -> 0 <= len < 2 ^ 32 ->
  rtpick_seq g < 2 ^ 63 - 1 ->
  let seq := rtpick_seq g in
  let rext := sb_rextents mp in
  let b := fst (xfs_rtpick_extent mp len g) in
  let g' := snd (xfs_rtpick_extent mp len g) in
  rtpick_seq g' = seq + 1 /\
  (seq = 0 -> b = 0) /\
  (0 < seq ->
     let L := Z.log2 seq in
     let R := seq - 2 ^ L in
     let b0 := Z.shiftr (u64 (rext * (2 * R + 1))) (L + 1) in
     let b1 := if rext <=? b0 then b0 mod rext else b0 in
     b = (if rext <? b1 + len then u64 (rext - len) else b1) /\
     (rext * (2 * R + 1) < 2 ^ 64 ->
        b0 = Z.shiftr (rext * (2 * R + 1)) (L + 1) /\ b0 < rext) /\
     (len <= rext -> b + len <= rext)).
Proof.
  intros Hrext Hlen Hseq seq rext b g'.
  assert (Hseq0 : 0 <= seq).
  { subst seq. unfold rtpick_seq. destruct (rbm_newrtbm g); [|lia].
    unfold u64. apply Z.mod_pos_bound. lia. }
  split; [|split].
  - subst g'. unfold xfs_rtpick_extent, rtpick_seq at 1. simpl.
    fold (rtpick_seq g). fold seq.
    rewrite (u64_small (seq + 1)) by lia.
    rewrite s64_small by lia. apply u64_small. lia.
  - intros E. subst b. unfold xfs_rtpick_extent. fold (rtpick_seq g). fold seq.
    rewrite E. reflexivity.
  - intros Hpos L R b0 b1.
    destruct (log2_bounds seq Hpos) as [HL [HLlo HLhi]]. fold L in HL, HLlo, HLhi.
    assert (HLub : L < 63).
    { destruct (Z_lt_ge_dec L 63) as [|Hge]; [assumption|].
      pose proof (pow2_le_mono 63 L ltac:(lia)). lia. }
    assert (Hp63 : 2 ^ L <= 2 ^ 62) by (apply pow2_le_mono; lia).
    assert (HR : 0 <= R < 2 ^ L) by (subst R; lia).
    assert (Hb0 : 0 <= b0).
    { subst b0. apply Z.shiftr_nonneg. unfold u64.
      apply Z.mod_pos_bound. lia. }
    assert (Hb1 : 0 <= b1 < rext).
    { subst b1. destruct (Z.leb_spec rext b0).
      - apply Z.mod_pos_bound. lia.
      - lia. }
    assert (Eb : b = if rext <? b1 + len then u64 (rext - len) else b1).
    { subst b. unfold xfs_rtpick_extent. fold (rtpick_seq g). fold seq.
      unfold xfs_highbit64. destruct (Z.leb_spec seq 0); [lia|]. fold L.
      destruct (Z.eqb_spec L (-1)); [lia|]. simpl negb. cbv iota.
      rewrite (Z.shiftl_mul_pow2 1 L) by lia. rewrite Z.mul_1_l.
      rewrite (u64_small (2 ^ L)) by lia.
      rewrite (u64_small (seq - 2 ^ L)) by lia. fold R.
      rewrite (Z.shiftl_mul_pow2 R 1) by lia. rewrite Z.pow_1_r.
      rewrite (u64_small (R * 2)) by lia.
      rewrite (u64_small (R * 2 + 1)) by lia.
      fold rext. replace (R * 2 + 1) with (2 * R + 1) by lia. fold b0.
      rewrite Z.geb_leb. fold b1.
      rewrite (u64_small (b1 + len)) by lia.
      rewrite Z.gtb_ltb. reflexivity. }
    split; [exact Eb|]. split.
    + intros Hfit.
      assert (E0 : b0 = Z.shiftr (rext * (2 * R + 1)) (L + 1)).
      { subst b0. rewrite u64_small; [reflexivity|].
        split; [|exact Hfit]. apply Z.mul_nonneg_nonneg; lia. }
      split; [exact E0|]. rewrite E0. rewrite Z.shiftr_div_pow2 by lia.
      apply Z.div_lt_upper_bound; [apply Z.pow_pos_nonneg; lia|].
      rewrite Z.pow_add_r by lia. rewrite Z.pow_1_r. nia.
    + intros Hle. rewrite Eb. destruct (Z.ltb_spec rext (b1 + len)).
      * rewrite u64_small by lia. lia.
      * lia.
Qed.

(** ** Rejecting a grow that does not grow *)

(** C9.  A request whose [newblocks] is smaller than or equal to the current
    [sb_rblocks] is rejected and leaves the file system (bitmap, summary,
    superblock, hint array, grow lock) exactly as it was, whatever the grow
    steps proper would do; with the capability, a realtime device and the
    grow lock free the error is [-EINVAL]. *)
Theorem growfs_rt_rejects_no_growth (ops : growfs_ops) (fs : xfs_fs)
    (newblocks extsize : Z) :
  newblocks <= sb_rblocks (fs_mp fs) ->
  snd (xfs_growfs_rt ops fs newblocks extsize) = fs /\
  fst (xfs_growfs_rt ops fs newblocks extsize) < 0 /\
  (capable_sys_admin ops = true -> m_has_rtdev (fs_mp fs) = true ->
   fs_growlock fs = false ->
   xfs_growfs_rt ops fs newblocks extsize = (- EINVAL, fs)).
Proof.
  intros Hle. unfold xfs_growfs_rt.
  assert (Hlocked : forall fs0, fs_mp fs0 = fs_mp fs ->
            growfs_rt_locked ops fs0 newblocks extsize = (- EINVAL, fs0)).
  { intros fs0 E. unfold growfs_rt_locked. rewrite E.
    destruct (Z.leb_spec newblocks (sb_rblocks (fs_mp fs))); [reflexivity|lia]. }
  destruct (capable_sys_admin ops) eqn:Hcap; simpl.
  2:{ repeat split; try reflexivity; try (intros; discriminate). }
  destruct (m_has_rtdev (fs_mp fs)) eqn:Hrt; simpl.
  2:{ repeat split; try reflexivity; try (intros; discriminate). }
  destruct (fs_growlock fs) eqn:Hlock.
  { repeat split; try reflexivity; try (intros; discriminate). }
  rewrite Hlocked by reflexivity.
  assert (E : set_growlock false (set_growlock true fs) = fs).
  { destruct fs as [m r l]. simpl in Hlock. subst l. reflexivity. }
  simpl. rewrite E. repeat split; reflexivity.
Qed.

(** ** The summary scan and its hint *)

Lemma rtany_scan_found mp lo bbno g L v :
  forall n log,
    lo <= L <= log -> (Z.to_nat (log - lo + 1) <= n)%nat ->
    xfs_rtget_summary mp L bbno g = Ok v -> v <> 0 ->
    (forall L', L < L' <= log -> xfs_rtget_summary mp L' bbno g = Ok 0) ->
    rtany_scan mp lo bbno n log g = Ok (L, L).
Proof.
  induction n as [|n IH]; intros log HL Hn Hget Hv Hzero.
  - lia.
  - simpl. destruct (Z.geb_spec log lo); [|lia].
    destruct (Z.eq_dec log L) as [->|Hne].
    + rewrite Hget. destruct (Z.eqb_spec v 0); [contradiction|reflexivity].
    + rewrite (Hzero log) by lia. simpl.
      apply IH; try assumption; try lia.
      intros L' HL'. apply Hzero. lia.
Qed.

Lemma rtany_scan_empty mp lo bbno g :
  forall n log,
    lo - 1 <= log -> (Z.to_nat (log - lo + 1) <= n)%nat ->
    (forall L', lo <= L' <= log -> xfs_rtget_summary mp L' bbno g = Ok 0) ->
    rtany_scan mp lo bbno n log g = Ok (-1, lo - 1).
Proof.
  induction n as [|n IH]; intros log HL Hn Hzero.
  - simpl. f_equal. f_equal. lia.
  - simpl. destruct (Z.geb_spec log lo).
    + rewrite (Hzero log) by lia. simpl.
      apply IH; try lia. intros L' HL'. apply Hzero. lia.
    + f_equal. f_equal. lia.
Qed.

(** C5, as amended.  With [top = min(hi, hint[B] - 1)]: when [lo > top]
    nothing is scanned, the result is [-1] and the hint is left alone; when
    class [L] is the highest class of [[lo, top]] with a nonzero counter the
    result is [L] and the hint becomes [L + 1] if that is smaller; when every
    class of [[lo, top]] is zero the result is [-1] and the hint becomes
    [lo], the lowest class that was looked at. *)
Theorem rtany_summary_hint (mp : xfs_mount) (lo hi bbno : Z) (g : rtgroup)
    (c : list Z) :
  rtg_rsum_cache g = Some c ->
  0 <= lo -> cache_get c bbno <= 255 ->
  let hint := cache_get c bbno in
  let top := Z.min hi (hint - 1) in
  (top < lo -> xfs_rtany_summary mp lo hi bbno g = (Ok (-1), g)) /\
  (forall L v,
     lo <= L <= top ->
     xfs_rtget_summary mp L bbno g = Ok v -> v <> 0 ->
     (forall L', L < L' <= top -> xfs_rtget_summary mp L' bbno g = Ok 0) ->
     xfs_rtany_summary mp lo hi bbno g =
       (Ok L, if L + 1 <? hint then with_hint bbno (L + 1) g else g)) /\
  (lo <= top ->
   (forall L', lo <= L' <= top -> xfs_rtget_summary mp L' bbno g = Ok 0) ->
   xfs_rtany_summary mp lo hi bbno g = (Ok (-1), with_hint bbno lo g)).
Proof.
  intros Hc Hlo Hhint hint top.
  unfold xfs_rtany_summary. rewrite Hc. fold hint. fold top. simpl andb.
  split; [|split].
  - intros Hlt. destruct (Z.gtb_spec lo top); [reflexivity|lia].
  - intros L v HL Hget Hv Hzero.
    destruct (Z.gtb_spec lo top); [lia|].
    rewrite (rtany_scan_found mp lo bbno g L v) by (auto; lia).
    unfold with_hint. rewrite Hc.
    destruct (Z.ltb_spec (L + 1) hint); [|reflexivity].
    rewrite u8_small by lia. reflexivity.
  - intros Hle Hzero.
    destruct (Z.gtb_spec lo top); [lia|].
    rewrite (rtany_scan_empty mp lo bbno g) by (auto; lia).
    unfold with_hint. rewrite Hc.
    replace (lo - 1 + 1) with lo by lia.
    destruct (Z.ltb_spec lo hint); [|lia].
    rewrite u8_small by lia. reflexivity.
Qed.

(** ** Copying the summary to a new geometry *)

Lemma set_rsum_id g : set_rsum (rsum g) g = g.
Proof. destruct g; reflexivity. Qed.

Lemma set_rsum_set_rsum m m' g : set_rsum m (set_rsum m' g) = set_rsum m g.
Proof. reflexivity. Qed.

Lemma u32_add_s32 v d : u32 (v + s32 d) = u32 (v + d).
Proof.
  unfold u32, s32.
  replace (v + ((d + 2 ^ 31) mod 2 ^ 32 - 2 ^ 31))
    with ((d + 2 ^ 31) mod 2 ^ 32 + (v - 2 ^ 31)) by lia.
  rewrite Zplus_mod_idemp_l. f_equal. lia.
Qed.

Lemma rtmodify_summary_mapped mp L B d g v :
  rsum g !! xfs_rtsumoffs mp L B = Some v ->
  xfs_rtmodify_summary mp L B (s32 d) g =
    (Ok tt, set_rsum (summary_add mp L B d (rsum g)) g).
Proof.
  intros H. unfold xfs_rtmodify_summary, summary_add. rewrite H.
  rewrite u32_add_s32. reflexivity.
Qed.

Lemma summary_add_is_Some mp L B d m k :
  is_Some (summary_add mp L B d m !! k) <-> is_Some (m !! k).
Proof.
  unfold summary_add. destruct (m !! xfs_rtsumoffs mp L B) eqn:E; [|tauto].
  destruct (decide (xfs_rtsumoffs mp L B = k)) as [<-|Hne].
  - rewrite lookup_insert_eq, E. split; eauto.
  - rewrite lookup_insert_ne by assumption. tauto.
Qed.

Lemma copy_cell_mapped omp nmp m cell :
  cells_mapped omp nmp m -> cells_mapped omp nmp (copy_cell omp nmp m cell).
Proof.
  intros H L B HL HB. destruct (H L B HL HB) as [H1 H2].
  unfold copy_cell. destruct (m !! xfs_rtsumoffs omp cell.1 cell.2) as [v|]; [|tauto].
  destruct (v =? 0); [tauto|].
  rewrite !summary_add_is_Some. tauto.
Qed.

Lemma fold_copy_cell_mapped omp nmp cells :
  forall m, cells_mapped omp nmp m ->
    cells_mapped omp nmp (fold_left (copy_cell omp nmp) cells m).
Proof.
  induction cells as [|c cells IH]; intros m H; simpl; [exact H|].
  apply IH. apply copy_cell_mapped. exact H.
Qed.

Lemma rtcopy_bbno_spec omp nmp L :
  0 <= L < m_rsumlevels omp -> sb_rbmblocks omp < 2 ^ 32 ->
  forall (k : nat) g,
    Z.of_nat k <= sb_rbmblocks omp ->
    cells_mapped omp nmp (rsum g) ->
    rtcopy_bbno omp nmp L k (u64 (Z.of_nat k - 1)) g =
      (Ok tt,
       set_rsum (fold_left (copy_cell omp nmp)
                   (map (fun B => (L, B)) (countdown k)) (rsum g)) g).
Proof.
  intros HL Hblocks. induction k as [|k IH]; intros g Hk Hmap.
  - simpl. unfold ret. rewrite set_rsum_id. reflexivity.
  - cbn [rtcopy_bbno countdown map fold_left].
    replace (Z.of_nat (S k) - 1) with (Z.of_nat k) by lia.
    rewrite (u64_small (Z.of_nat k)) by lia.
    rewrite s64_small by lia.
    destruct (Z.leb_spec 0 (Z.of_nat k)); [|lia].
    destruct (Hmap L (Z.of_nat k) HL ltac:(lia)) as [[v Hv] [w Hw]].
    unfold bind at 1. unfold lift, xfs_rtget_summary. rewrite Hv.
    unfold copy_cell at 2. cbn [fst snd]. rewrite Hv.
    destruct (Z.eqb_spec v 0) as [E|E].
    + apply IH; [lia|assumption].
    + unfold bind at 1.
      rewrite (rtmodify_summary_mapped omp L (Z.of_nat k) (- v) g v Hv).
      unfold bind at 1.
      assert (Hw' : is_Some (summary_add omp L (Z.of_nat k) (- v) (rsum g)
                               !! xfs_rtsumoffs nmp L (Z.of_nat k))).
      { apply summary_add_is_Some. eauto. }
      destruct Hw' as [w' Hw'].
      rewrite (rtmodify_summary_mapped nmp L (Z.of_nat k) v _ w') by exact Hw'.
      cbn [rsum set_rsum]. rewrite set_rsum_set_rsum.
      rewrite IH.
      * cbn [rsum set_rsum]. rewrite set_rsum_set_rsum. reflexivity.
      * lia.
      * cbn [rsum set_rsum].
        pose proof (copy_cell_mapped omp nmp (rsum g) (L, Z.of_nat k) Hmap) as Hc.
        unfold copy_cell in Hc. cbn [fst snd] in Hc. rewrite Hv in Hc.
        destruct (Z.eqb_spec v 0); [contradiction|exact Hc].
Qed.

Lemma rtcopy_log_spec omp nmp :
  0 < sb_rbmblocks omp < 2 ^ 32 ->
  forall (k : nat) g,
    Z.of_nat k <= m_rsumlevels omp ->
    cells_mapped omp nmp (rsum g) ->
    rtcopy_log omp nmp k (Z.of_nat k - 1) g =
      (Ok tt,
       set_rsum (fold_left (copy_cell omp nmp)
                   (flat_map (fun L => map (fun B => (L, B))
                                         (countdown (Z.to_nat (sb_rbmblocks omp))))
                      (countdown k)) (rsum g)) g).
Proof.
  intros Hblocks. induction k as [|k IH]; intros g Hk Hmap.
  - simpl. unfold ret. rewrite set_rsum_id. reflexivity.
  - cbn [rtcopy_log countdown flat_map].
    replace (Z.of_nat (S k) - 1) with (Z.of_nat k) by lia.
    destruct (Z.leb_spec 0 (Z.of_nat k)); [|lia].
    rewrite (u32_small (sb_rbmblocks omp - 1)) by lia.
    replace (sb_rbmblocks omp - 1 + 1) with (sb_rbmblocks omp) by lia.
    unfold bind at 1.
    pose proof (rtcopy_bbno_spec omp nmp (Z.of_nat k) ltac:(lia) ltac:(lia)
                  (Z.to_nat (sb_rbmblocks omp)) g ltac:(lia) Hmap) as Hin.
    rewrite Z2Nat.id in Hin by lia.
    rewrite (u64_small (sb_rbmblocks omp - 1)) in Hin by lia.
    rewrite Hin. replace (Z.of_nat k - 0) with (Z.of_nat k) by lia.
    rewrite fold_left_app.
    rewrite IH.
    + cbn [rsum set_rsum]. rewrite set_rsum_set_rsum. reflexivity.
    + lia.
    + cbn [rsum set_rsum]. apply fold_copy_cell_mapped. exact Hmap.
Qed.

(** C7.  [xfs_rtcopy_summary] returns 0 whatever happened, also when a
    summary read or update failed partway and left [error] set.  When every
    cell is readable nothing fails, and the summary it leaves is the one
    obtained by visiting the cells with levels descending and bitmap blocks
    descending, subtracting each nonzero count from the old geometry's cell
    before adding it to the same cell of the new geometry. *)
Theorem rtcopy_summary_returns_zero (omp nmp : xfs_mount) (g : rtgroup) :
  fst (xfs_rtcopy_summary omp nmp g) = 0 /\
  (0 < sb_rbmblocks omp < 2 ^ 32 -> 0 <= m_rsumlevels omp < 2 ^ 31 ->
   cells_mapped omp nmp (rsum g) ->
   rtcopy_error omp nmp g = 0 /\
   snd (xfs_rtcopy_summary omp nmp g) =
     xfs_rtbuf_cache_relse
       (set_rsum (copy_summary_spec omp nmp (rsum g)) g)).
Proof.
  split; [reflexivity|].
  intros Hblocks Hlevels Hmap.
  unfold rtcopy_error, xfs_rtcopy_summary, copy_summary_spec, cells_descending.
  cbn [snd].
  assert (E : s32 (u32 (m_rsumlevels omp - 1)) = m_rsumlevels omp - 1).
  { destruct (Z.eq_dec (m_rsumlevels omp) 0) as [E0|E0].
    - rewrite E0. reflexivity.
    - rewrite u32_small by lia. apply s32_small. lia. }
  rewrite E. replace (m_rsumlevels omp - 1 + 1) with (m_rsumlevels omp) by lia.
  pose proof (rtcopy_log_spec omp nmp Hblocks (Z.to_nat (m_rsumlevels omp)) g
                ltac:(lia) Hmap) as Hspec.
  rewrite Z2Nat.id in Hspec by lia.
  rewrite Hspec. split; reflexivity.
Qed.

(** ** The bitmap codec *)

Lemma first_diff_all bm v :
  forall n i,
    (forall k, i <= k < i + Z.of_nat n -> Z.testbit bm k = v) ->
    first_diff bm v n i = i + Z.of_nat n.
Proof.
  induction n as [|n IH]; intros i H.
  - simpl. lia.
  - cbn [first_diff]. rewrite (H i) by lia. rewrite eqb_reflx.
    rewrite IH; [lia|]. intros k Hk. apply H. lia.
Qed.

Lemma first_diff_stop bm v next :
  forall n i,
    i <= next < i + Z.of_nat n ->
    (forall k, i <= k < next -> Z.testbit bm k = v) ->
    Z.testbit bm next <> v ->
    first_diff bm v n i = next.
Proof.
  induction n as [|n IH]; intros i Hr Heq Hne.
  - lia.
  - cbn [first_diff]. destruct (Z.eq_dec i next) as [->|Hi].
    + destruct (Bool.eqb (Z.testbit bm next) v) eqn:E; [|reflexivity].
      apply eqb_prop in E. contradiction.
    + rewrite (Heq i) by lia. rewrite eqb_reflx.
      apply IH; [lia| |assumption]. intros k Hk. apply Heq. lia.
Qed.

Lemma scan_back_spec bm v pre :
  forall n i,
    0 <= pre <= i -> (Z.to_nat (i - pre) <= n)%nat ->
    (forall k, pre <= k < i -> Z.testbit bm k = v) ->
    (pre = 0 \/ Z.testbit bm (pre - 1) <> v) ->
    scan_back bm v n i = pre.
Proof.
  induction n as [|n IH]; intros i Hr Hn Heq Hstop.
  - simpl. lia.
  - cbn [scan_back]. destruct (Z.eq_dec i pre) as [->|Hi].
    + destruct Hstop as [->|Hne]; [reflexivity|].
      destruct (Bool.eqb (Z.testbit bm (pre - 1)) v) eqn:E.
      * apply eqb_prop in E. contradiction.
      * rewrite andb_false_r. reflexivity.
    + destruct (Z.ltb_spec 0 i); [|lia].
      rewrite (Heq (i - 1)) by lia. rewrite eqb_reflx. simpl.
      apply IH; [lia|lia| |assumption]. intros k Hk. apply Heq. lia.
Qed.

Lemma scan_forw_spec bm v limit last :
  forall n i,
    i <= last <= limit -> (Z.to_nat (last - i) <= n)%nat ->
    (forall k, i < k <= last -> Z.testbit bm k = v) ->
    (last = limit \/ Z.testbit bm (last + 1) <> v) ->
    scan_forw bm v limit n i = last.
Proof.
  induction n as [|n IH]; intros i Hr Hn Heq Hstop.
  - simpl. lia.
  - cbn [scan_forw]. destruct (Z.eq_dec i last) as [->|Hi].
    + destruct Hstop as [->|Hne].
      * rewrite Z.ltb_irrefl. reflexivity.
      * destruct (Bool.eqb (Z.testbit bm (last + 1)) v) eqn:E.
        -- apply eqb_prop in E. contradiction.
        -- rewrite andb_false_r. reflexivity.
    + destruct (Z.ltb_spec i limit); [|lia].
      rewrite (Heq (i + 1)) by lia. rewrite eqb_reflx. simpl.
      apply IH; [lia|lia| |assumption]. intros k Hk. apply Heq. lia.
Qed.

Lemma align_down_le x p : 0 <= x -> 0 < p -> 0 <= align_down x p <= x.
Proof.
  intros Hx Hp. rewrite align_down_spec by assumption.
  pose proof (Z.mod_pos_bound x p Hp).
  pose proof (Z.mod_le x p Hx Hp). lia.
Qed.

Lemma rtalloc_align_len_spec x p :
  1 <= p -> xfs_rtalloc_align_len x p = align_down x p.
Proof.
  intros Hp. unfold xfs_rtalloc_align_len, rounddown.
  destruct (Z.ltb_spec 1 p).
  - symmetry. apply align_down_spec. lia.
  - assert (p = 1) by lia. subst p. unfold align_down.
    rewrite Z.div_1_r. lia.
Qed.

Lemma rtallocate_clamp_len_spec extents start maxlen prod :
  0 <= start < extents -> extents < 2 ^ 63 -> 0 <= maxlen < 2 ^ 32 ->
  1 <= prod ->
  xfs_rtallocate_clamp_len extents start maxlen prod =
    align_down (Z.min maxlen (extents - start)) prod.
Proof.
  intros Hs He Hm Hp. unfold xfs_rtallocate_clamp_len.
  rewrite (u64_small (start + maxlen)) by lia.
  replace (Z.min extents (start + maxlen) - start)
    with (Z.min maxlen (extents - start)) by lia.
  rewrite u64_small by lia. rewrite u32_small by lia.
  apply rtalloc_align_len_spec. exact Hp.
Qed.

(** ** Exact allocation *)

(** C2.  A successful exact allocation returns the requested start.  With
    [clamped] the request [maxlen] limited so that [start + maxlen] does not
    pass [rextents] and rounded down to a multiple of [prod]: the search
    fails with NOSPACE when [clamped < minlen]; it returns [clamped] when
    that whole range is free; and when [next] is the first allocated rtx of
    the range, it returns the free prefix [next - start] rounded down to a
    multiple of [prod] if that is at least [minlen], NOSPACE otherwise. *)
Theorem exact_allocate_outcome (mp : xfs_mount) (start minlen maxlen prod : Z)
    (g : rtgroup) :
  0 <= start < rtg_extents g -> rtg_extents g < 2 ^ 63 ->
  0 <= maxlen < 2 ^ 32 -> 0 <= minlen -> 1 <= prod ->
  bmblock_mapped mp start = true ->
  let clamped := align_down (Z.min maxlen (rtg_extents g - start)) prod in
  let r := xfs_rtallocate_extent_exact mp start minlen maxlen prod g in
  (forall len rtx, r = Ok (len, rtx) -> rtx = start) /\
  (clamped < minlen -> r = Err (- ENOSPC)) /\
  (minlen <= clamped -> range_free g start clamped -> r = Ok (clamped, start)) /\
  (forall next,
     minlen <= clamped -> first_allocated g start clamped next ->
     r = if align_down (next - start) prod <? minlen then Err (- ENOSPC)
         else Ok (align_down (next - start) prod, start)).
Proof.
  intros Hs He Hm Hmin Hp Hmapped clamped r.
  assert (Hc : 0 <= clamped <= Z.min maxlen (rtg_extents g - start)).
  { subst clamped. apply align_down_le; lia. }
  assert (Er : r =
    if clamped <? minlen then Err (- ENOSPC)
    else
      let next := first_diff (rbm g) true (Z.to_nat clamped) start in
      if next =? start + clamped then Ok (clamped, start)
      else
        let alloclen := u32 (u64 (next - start)) in
        if alloclen <? minlen then Err (- ENOSPC)
        else
          let alloclen := xfs_rtalloc_align_len alloclen prod in
          if alloclen <? minlen then Err (- ENOSPC) else Ok (alloclen, start)).
  { subst r. unfold xfs_rtallocate_extent_exact.
    rewrite rtallocate_clamp_len_spec by lia. fold clamped.
    unfold xfs_rtcheck_range. rewrite Hmapped. reflexivity. }
  split; [|split; [|split]].
  - intros len rtx. rewrite Er. cbv zeta.
    repeat match goal with
           | |- context [if ?b then _ else _] => destruct b
           end; intros H; inversion H; reflexivity.
  - intros Hlt. rewrite Er. destruct (Z.ltb_spec clamped minlen); [reflexivity|lia].
  - intros Hge Hfree. rewrite Er.
    destruct (Z.ltb_spec clamped minlen); [lia|]. cbv zeta.
    rewrite first_diff_all.
    + rewrite Z2Nat.id by lia. rewrite Z.eqb_refl. reflexivity.
    + intros k Hk. apply Hfree. lia.
  - intros next Hge (Hr & Hfree & Hbit). rewrite Er.
    destruct (Z.ltb_spec clamped minlen); [lia|]. cbv zeta.
    rewrite (first_diff_stop (rbm g) true next).
    + destruct (Z.eqb_spec next (start + clamped)); [lia|].
      rewrite (u64_small (next - start)) by lia.
      rewrite (u32_small (next - start)) by lia.
      rewrite rtalloc_align_len_spec by lia.
      pose proof (align_down_le (next - start) prod ltac:(lia) ltac:(lia)).
      destruct (Z.ltb_spec (next - start) minlen).
      * destruct (Z.ltb_spec (align_down (next - start) prod) minlen);
          [reflexivity|lia].
      * reflexivity.
    + lia.
    + intros k Hk. apply Hfree. lia.
    + rewrite Hbit. discriminate.
Qed.

(** ** Allocating a range out of a free run *)

Lemma rtmodify_summary_ok mp L B d g :
  is_Some (rsum g !! xfs_rtsumoffs mp L B) ->
  xfs_rtmodify_summary mp L B d g =
    (Ok tt, set_rsum (summary_add mp L B d (rsum g)) g).
Proof.
  intros [v H]. unfold xfs_rtmodify_summary, summary_add. rewrite H.
  reflexivity.
Qed.

Lemma highbit64_pos x : 0 < x -> xfs_highbit64 x = Z.log2 x.
Proof.
  intros H. unfold xfs_highbit64. destruct (Z.leb_spec x 0); [lia|reflexivity].
Qed.

Lemma testbit_clear_range bm start len i :
  0 <= start -> 0 <= len -> 0 <= i ->
  Z.testbit (Z.ldiff bm (Z.shiftl (Z.ones len) start)) i =
    if (start <=? i) && (i <? start + len) then false else Z.testbit bm i.
Proof.
  intros Hs Hl Hi. rewrite Z.ldiff_spec, Z.shiftl_spec by assumption.
  rewrite Z.testbit_ones by assumption.
  destruct (Z.leb_spec start i), (Z.leb_spec 0 (i - start)),
    (Z.ltb_spec i (start + len)), (Z.ltb_spec (i - start) len);
    simpl; try lia; try apply andb_false_r; apply andb_true_r.
Qed.

(** C1.  Let [[start, start + len)] be free and [[pre, post)] the maximal
    free run around it ([pre] its first rtx, [post] one past its last).
    [xfs_rtallocate_range] removes one count at class
    [floor(log2(post - pre))] in the bitmap block of [pre], adds one at class
    [floor(log2(start - pre))] in the same block when [pre < start], adds one
    at class [floor(log2(post - (start + len)))] in the bitmap block of
    [start + len] when [post > start + len], and finally clears the [len]
    bits from [start]. *)
Theorem rtallocate_range_effect (mp : xfs_mount) (start len pre post : Z)
    (g : rtgroup) :
  0 <= start -> 0 < len -> start + len <= rtg_extents g ->
  rtg_extents g < 2 ^ 63 ->
  bmblock_mapped mp start = true ->
  bmblock_mapped mp (start + len - 1) = true ->
  range_free g start len ->
  maximal_free_run g start pre post ->
  is_Some (rsum g !! xfs_rtsumoffs mp (Z.log2 (post - pre))
                       (xfs_rtx_to_rbmblock mp pre)) ->
  (pre < start ->
   is_Some (rsum g !! xfs_rtsumoffs mp (Z.log2 (start - pre))
                        (xfs_rtx_to_rbmblock mp pre))) ->
  (start + len < post ->
   is_Some (rsum g !! xfs_rtsumoffs mp (Z.log2 (post - (start + len)))
                        (xfs_rtx_to_rbmblock mp (start + len)))) ->
  let m1 := summary_add mp (Z.log2 (post - pre))
              (xfs_rtx_to_rbmblock mp pre) (-1) (rsum g) in
  let m2 := if pre <? start
            then summary_add mp (Z.log2 (start - pre))
                   (xfs_rtx_to_rbmblock mp pre) 1 m1
            else m1 in
  let m3 := if start + len <? post
            then summary_add mp (Z.log2 (post - (start + len)))
                   (xfs_rtx_to_rbmblock mp (start + len)) 1 m2
            else m2 in
  let bm' := Z.ldiff (rbm g) (Z.shiftl (Z.ones len) start) in
  xfs_rtallocate_range mp start len g = (Ok tt, set_rbm bm' (set_rsum m3 g)) /\
  (forall i, 0 <= i ->
     Z.testbit bm' i =
       if (start <=? i) && (i <? start + len) then false
       else Z.testbit (rbm g) i).
Proof.
  intros Hs Hl He He63 Hmap1 Hmap2 Hfree
    (Hpre & Hpost & Hrun & Hleft & Hright) Hc1 Hc2 Hc3 m1 m2 m3 bm'.
  assert (Hpost' : start + len <= post).
  { destruct (Z_le_gt_dec (start + len) post) as [|Hgt]; [assumption|].
    destruct Hright as [->|Hbit]; [lia|].
    rewrite (Hfree post) in Hbit by lia. discriminate. }
  split; [|intros i Hi; apply testbit_clear_range; lia].
  unfold xfs_rtallocate_range.
  rewrite (u64_small (start + len - 1)) by lia.
  rewrite (u64_small (start + len - 1 + 1)) by lia.
  replace (start + len - 1 + 1) with (start + len) by lia.
  (* preblock *)
  unfold bind at 1. unfold lift, xfs_rtfind_back. rewrite Hmap1.
  rewrite (scan_back_spec (rbm g) _ pre).
  2: lia. 2: lia.
  2:{ intros k Hk. rewrite (Hfree start) by lia. apply Hrun. lia. }
  2:{ destruct Hleft as [->|Hbit]; [left; reflexivity|right].
      rewrite Hbit, (Hfree start) by lia. discriminate. }
  (* postblock *)
  unfold bind at 1. unfold xfs_rtfind_forw. rewrite Hmap2.
  rewrite (u64_small (rtg_extents g - 1)) by lia.
  rewrite (scan_forw_spec (rbm g) _ (rtg_extents g - 1) (post - 1)).
  2: lia. 2: lia.
  2:{ intros k Hk. rewrite (Hfree (start + len - 1)) by lia. apply Hrun. lia. }
  2:{ destruct Hright as [->|Hbit]; [left; reflexivity|right].
      replace (post - 1 + 1) with post by lia.
      rewrite Hbit, (Hfree (start + len - 1)) by lia. discriminate. }
  replace (post - 1 + 1 - pre) with (post - pre) by lia.
  replace (post - 1 - (start + len - 1)) with (post - (start + len)) by lia.
  rewrite (u64_small (post - pre)) by lia.
  rewrite (highbit64_pos (post - pre)) by lia.
  (* the old run leaves its class *)
  unfold bind at 1. rewrite rtmodify_summary_ok by exact Hc1. fold m1.
  (* left remnant *)
  unfold bind at 1.
  assert (E2 : (if pre <? start
                then xfs_rtmodify_summary mp (xfs_highbit64 (u64 (start - pre)))
                       (xfs_rtx_to_rbmblock mp pre) 1
                else ret tt) (set_rsum m1 g) = (Ok tt, set_rsum m2 g)).
  { subst m2. destruct (Z.ltb_spec pre start) as [Hlt|Hge].
    - rewrite (u64_small (start - pre)) by lia.
      rewrite highbit64_pos by lia.
      rewrite rtmodify_summary_ok.
      + reflexivity.
      + cbn [rsum set_rsum]. subst m1. apply summary_add_is_Some. auto.
    - reflexivity. }
  rewrite E2.
  (* right remnant *)
  unfold bind at 1.
  assert (E3 : (if post - 1 >? start + len - 1
                then xfs_rtmodify_summary mp
                       (xfs_highbit64 (u64 (post - (start + len))))
                       (xfs_rtx_to_rbmblock mp (start + len)) 1
                else ret tt) (set_rsum m2 g) = (Ok tt, set_rsum m3 g)).
  { subst m3. rewrite Z.gtb_ltb.
    destruct (Z.ltb_spec (start + len - 1) (post - 1)) as [Hlt|Hge];
      destruct (Z.ltb_spec (start + len) post); try lia.
    - rewrite (u64_small (post - (start + len))) by lia.
      rewrite highbit64_pos by lia.
      rewrite rtmodify_summary_ok.
      + reflexivity.
      + cbn [rsum set_rsum]. subst m2 m1.
        destruct (pre <? start); rewrite ?summary_add_is_Some; auto.
    - reflexivity. }
  rewrite E3.
  unfold xfs_rtmodify_range. cbn [rbm set_rsum].
  rewrite Hmap1. reflexivity.
Qed.

(** ** The single-block scan: what it leaves behind *)

Lemma rtallocate_clamp_len_range extents i maxlen prod :
  0 <= xfs_rtallocate_clamp_len extents i maxlen prod < 2 ^ 32.
Proof.
  unfold xfs_rtallocate_clamp_len, xfs_rtalloc_align_len, rounddown.
  set (x := u32 _).
  assert (Hx : 0 <= x < 2 ^ 32) by (apply Z.mod_pos_bound; lia).
  destruct (Z.ltb_spec 1 prod); [|exact Hx].
  pose proof (Z.mod_pos_bound x prod ltac:(lia)).
  pose proof (Z.mod_le x prod ltac:(lia) ltac:(lia)). lia.
Qed.

Lemma first_diff_range bm v :
  forall n i, i <= first_diff bm v n i <= i + Z.of_nat n.
Proof.
  induction n as [|n IH]; intros i; cbn [first_diff]; [lia|].
  destruct (Bool.eqb _ _); [|lia]. specialize (IH (i + 1)). lia.
Qed.

Lemma rtblock_scan_next mp minlen maxlen prod end_ g :
  end_ < 2 ^ 63 ->
  forall n i next besti bestlen nx b bl,
    0 <= i -> 0 <= next < 2 ^ 64 ->
    rtblock_scan mp minlen maxlen prod end_ n i next besti bestlen g
      = ScanDone nx b bl ->
    0 <= nx < 2 ^ 64.
Proof.
  intros Hend. induction n as [|n IH]; intros i next besti bestlen nx b bl Hi Hn H.
  - simpl in H. inversion H; subst; assumption.
  - cbn [rtblock_scan] in H.
    destruct (Z.leb_spec i end_); [|inversion H; subst; assumption].
    pose proof (rtallocate_clamp_len_range (rtg_extents g) i maxlen prod) as Hc.
    set (scanlen := xfs_rtallocate_clamp_len _ _ _ _) in *.
    destruct (scanlen <? minlen); [inversion H; subst; assumption|].
    unfold xfs_rtcheck_range in H.
    destruct (bmblock_mapped mp i); [|discriminate].
    pose proof (first_diff_range (rbm g) true (Z.to_nat scanlen) i) as Hfd.
    rewrite Z2Nat.id in Hfd by lia.
    set (nx' := first_diff _ _ _ _) in *.
    destruct (nx' =? i + scanlen); [discriminate|].
    destruct (nx' >=? end_).
    { inversion H; subst. lia. }
    destruct (xfs_rtfind_forw mp nx' end_ g); [|discriminate].
    eapply IH; [| |exact H].
    + unfold u64. apply Z.mod_pos_bound. lia.
    + lia.
Qed.

Lemma rtallocate_extent_block_state mp bbno minlen maxlen prod next0 g :
  snd (xfs_rtallocate_extent_block mp bbno minlen maxlen prod next0 g)
    = log_event (EvBlock bbno minlen maxlen prod) g.
Proof.
  unfold xfs_rtallocate_extent_block. cbv zeta.
  destruct (rtblock_scan _ _ _ _ _ _ _ _ _ _ _); try reflexivity.
  destruct (_ =? -1); [reflexivity|]. destruct (_ <? minlen); reflexivity.
Qed.

Lemma rtallocate_extent_block_end mp bbno g :
  0 < rtg_extents g < 2 ^ 63 -> 0 <= bbno -> 0 <= m_blkbit_log mp ->
  (bbno + 1) * 2 ^ m_blkbit_log mp < 2 ^ 64 ->
  u64 (Z.min (rtg_extents g) (xfs_rbmblock_to_rtx mp (u64 (bbno + 1))) - 1)
    < 2 ^ 63.
Proof.
  intros He Hb Hlog Hcap. unfold xfs_rbmblock_to_rtx.
  pose proof (Z.pow_pos_nonneg 2 (m_blkbit_log mp) ltac:(lia) Hlog) as Hp.
  assert (Hb1 : bbno + 1 < 2 ^ 64) by nia.
  rewrite (u64_small (bbno + 1)) by lia.
  rewrite Z.shiftl_mul_pow2 by lia.
  rewrite (u64_small ((bbno + 1) * 2 ^ m_blkbit_log mp)) by nia.
  assert (0 < (bbno + 1) * 2 ^ m_blkbit_log mp) by nia.
  rewrite u64_small by lia. lia.
Qed.

Lemma rtallocate_extent_block_next mp bbno minlen maxlen prod next0 g nx g' :
  0 < rtg_extents g < 2 ^ 63 -> 0 <= bbno -> 0 <= m_blkbit_log mp ->
  (bbno + 1) * 2 ^ m_blkbit_log mp < 2 ^ 64 ->
  0 <= next0 < 2 ^ 64 ->
  xfs_rtallocate_extent_block mp bbno minlen maxlen prod next0 g
    = (BlkNospace nx, g') ->
  0 <= nx < 2 ^ 64.
Proof.
  intros He Hb Hlog Hcap Hn H. unfold xfs_rtallocate_extent_block in H.
  cbv zeta in H. cbn [rtg_extents log_event] in H.
  pose proof (rtallocate_extent_block_end mp bbno g He Hb Hlog Hcap) as Hend.
  set (end_ := u64 _) in H, Hend.
  destruct (rtblock_scan _ _ _ _ _ _ _ _ _ _ _) as [| |nx0 b bl] eqn:E;
    try (inversion H; fail).
  assert (0 <= nx0 < 2 ^ 64).
  { eapply (rtblock_scan_next mp minlen maxlen prod end_ _ Hend); [| |exact E].
    - unfold xfs_rbmblock_to_rtx, u64. apply Z.mod_pos_bound. lia.
    - exact Hn. }
  destruct (b =? -1); [inversion H; subst; assumption|].
  destruct (_ <? minlen); inversion H; subst; assumption.
Qed.

Lemma scan_forw_range bm v limit :
  forall n i, i <= limit -> i <= scan_forw bm v limit n i <= limit.
Proof.
  induction n as [|n IH]; intros i Hi; cbn [scan_forw]; [lia|].
  destruct (Z.ltb_spec i limit); cbn [andb]; [|lia].
  destruct (Bool.eqb _ _); [|lia]. specialize (IH (i + 1)). lia.
Qed.

(** The loop of the single-block scan advances [i] by at least one per
    round, so the fuel [end - i + 1] that [xfs_rtallocate_extent_block] hands
    to it is never used up: more fuel gives the same outcome. *)
Lemma rtblock_scan_fuel mp minlen maxlen prod end_ g :
  end_ < 2 ^ 63 ->
  forall n m i next besti bestlen,
    0 <= i -> (Z.to_nat (end_ - i + 1) <= n)%nat -> (n <= m)%nat ->
    rtblock_scan mp minlen maxlen prod end_ n i next besti bestlen g
      = rtblock_scan mp minlen maxlen prod end_ m i next besti bestlen g.
Proof.
  intros Hend. induction n as [|n IH]; intros m i next besti bestlen Hi Hn Hm.
  - destruct m as [|m]; [reflexivity|]. cbn [rtblock_scan].
    destruct (Z.leb_spec i end_); [lia|reflexivity].
  - destruct m as [|m]; [lia|]. cbn [rtblock_scan].
    destruct (Z.leb_spec i end_); [|reflexivity].
    pose proof (rtallocate_clamp_len_range (rtg_extents g) i maxlen prod) as Hc.
    set (scanlen := xfs_rtallocate_clamp_len _ _ _ _) in *.
    destruct (scanlen <? minlen); [reflexivity|].
    unfold xfs_rtcheck_range.
    destruct (bmblock_mapped mp i); [|reflexivity].
    pose proof (first_diff_range (rbm g) true (Z.to_nat scanlen) i) as Hfd.
    set (nx := first_diff _ _ _ _) in *.
    destruct (nx =? i + scanlen); [reflexivity|].
    destruct (Z.geb_spec nx end_); [reflexivity|].
    unfold xfs_rtfind_forw. destruct (bmblock_mapped mp nx); [|reflexivity].
    pose proof (scan_forw_range (rbm g) (Z.testbit (rbm g) nx) end_
                  (Z.to_nat (end_ - nx)) nx ltac:(lia)) as Hsf.
    set (i' := scan_forw _ _ _ _ _) in *.
    rewrite (u64_small (i' + 1)) by lia.
    apply IH; lia.
Qed.

(** ** Size-first allocation *)

Section SizeFirst.
Variables (mp : xfs_mount) (prod next0 : Z).
Hypothesis Hlog : 0 <= m_blkbit_log mp.
Hypothesis Hnext0 : 0 <= next0 < 2 ^ 64.
Hypothesis Hblocks : sb_rbmblocks mp < 2 ^ 63.
Hypothesis Hlevels : m_rsumlevels mp < 2 ^ 31.
Hypothesis Hcap : sb_rbmblocks mp * 2 ^ m_blkbit_log mp < 2 ^ 64.

Lemma class_scan_skip L minlen maxlen :
  forall n b r g,
    b + Z.of_nat n <= r ->
    class_scan mp L minlen maxlen prod next0 (count_up n b) r g
      = (Err (- ENOSPC), g).
Proof.
  induction n as [|n IH]; intros b r g H; cbn [count_up class_scan].
  - reflexivity.
  - destruct (Z.ltb_spec b r); [|lia]. apply IH. lia.
Qed.

Lemma class_scan_resume L minlen maxlen :
  forall n b r r' g,
    r <= b -> r' <= b ->
    class_scan mp L minlen maxlen prod next0 (count_up n b) r g
      = class_scan mp L minlen maxlen prod next0 (count_up n b) r' g.
Proof.
  induction n as [|n IH]; intros b r r' g Hr Hr'; cbn [count_up class_scan].
  - reflexivity.
  - destruct (Z.ltb_spec b r); [lia|]. destruct (Z.ltb_spec b r'); [lia|].
    destruct (xfs_rtget_summary mp L b g) as [sum|e]; [|reflexivity].
    destruct (sum =? 0); [apply IH; lia|].
    destruct (xfs_rtallocate_extent_block mp b minlen maxlen prod next0 g)
      as [[len rtx|nx|e] g']; try reflexivity.
    destruct (Z.ltb_spec (b + 1) (xfs_rtx_to_rbmblock mp nx));
      [reflexivity|apply IH; lia].
Qed.

Lemma class_scan_drop L minlen maxlen :
  forall k n b r g,
    b + Z.of_nat k <= r ->
    class_scan mp L minlen maxlen prod next0 (count_up (k + n) b) r g
      = class_scan mp L minlen maxlen prod next0
          (count_up n (b + Z.of_nat k)) r g.
Proof.
  induction k as [|k IH]; intros n b r g H.
  - simpl. rewrite Z.add_0_r. reflexivity.
  - cbn [Nat.add count_up class_scan].
    destruct (Z.ltb_spec b r); [|lia].
    rewrite IH by lia. do 2 f_equal. lia.
Qed.

Lemma class_scan_extents L minlen maxlen :
  forall blocks r g,
    rtg_extents (snd (class_scan mp L minlen maxlen prod next0 blocks r g))
      = rtg_extents g.
Proof.
  induction blocks as [|B rest IH]; intros r g; cbn [class_scan].
  - reflexivity.
  - destruct (B <? r); [apply IH|].
    destruct (xfs_rtget_summary mp L B g) as [sum|e]; [|reflexivity].
    destruct (sum =? 0); [apply IH|].
    pose proof (rtallocate_extent_block_state mp B minlen maxlen prod next0 g) as Hs.
    destruct (xfs_rtallocate_extent_block mp B minlen maxlen prod next0 g)
      as [[len rtx|nx|e] g']; cbn [snd] in Hs; subst g'; try reflexivity.
    rewrite IH. reflexivity.
Qed.

Lemma rbmblock_range nx :
  0 <= nx < 2 ^ 64 -> 0 <= xfs_rtx_to_rbmblock mp nx < 2 ^ 64.
Proof.
  intros H. unfold xfs_rtx_to_rbmblock. rewrite Z.shiftr_div_pow2 by exact Hlog.
  pose proof (Z.pow_pos_nonneg 2 (m_blkbit_log mp) ltac:(lia) Hlog) as Hp.
  split; [apply Z.div_pos; lia|].
  apply Z.le_lt_trans with nx; [|lia].
  apply Z.div_le_upper_bound; [lia|]. nia.
Qed.

Lemma rtsumlevel_loop_spec L minlen maxlen :
  forall n i g,
    0 <= i -> 0 < rtg_extents g < 2 ^ 63 ->
    (Z.to_nat (sb_rbmblocks mp - i) <= n)%nat ->
    rtsumlevel_loop mp L minlen maxlen prod next0 n i g
      = class_scan mp L minlen maxlen prod next0
          (count_up (Z.to_nat (sb_rbmblocks mp - i)) i) i g.
Proof.
  induction n as [|n IH]; intros i g Hi He Hn.
  - replace (Z.to_nat (sb_rbmblocks mp - i)) with O by lia. reflexivity.
  - cbn [rtsumlevel_loop]. destruct (Z.ltb_spec i (sb_rbmblocks mp)) as [Hlt|Hge].
    2:{ replace (Z.to_nat (sb_rbmblocks mp - i)) with O by lia. reflexivity. }
    replace (Z.to_nat (sb_rbmblocks mp - i))
      with (S (Z.to_nat (sb_rbmblocks mp - (i + 1)))) by lia.
    cbn [count_up class_scan]. rewrite Z.ltb_irrefl.
    destruct (xfs_rtget_summary mp L i g) as [sum|e]; [|reflexivity].
    rewrite (u64_small (i + 1)) by lia.
    destruct (sum =? 0).
    { rewrite IH by lia. apply class_scan_resume; lia. }
    pose proof (rtallocate_extent_block_state mp i minlen maxlen prod next0 g) as Hs.
    pose proof (rtallocate_extent_block_next mp i minlen maxlen prod next0 g) as Hnx.
    destruct (xfs_rtallocate_extent_block mp i minlen maxlen prod next0 g)
      as [[len rtx|nx|e] g']; cbn [snd] in Hs; try reflexivity.
    assert (Hcapi : (i + 1) * 2 ^ m_blkbit_log mp < 2 ^ 64).
    { pose proof (Z.pow_pos_nonneg 2 (m_blkbit_log mp) ltac:(lia) Hlog). nia. }
    specialize (Hnx nx g' He Hi Hlog Hcapi Hnext0 eq_refl).
    pose proof (rbmblock_range nx Hnx) as Hbn.
    set (bn := xfs_rtx_to_rbmblock mp nx) in *.
    assert (He' : 0 < rtg_extents g' < 2 ^ 63) by (subst g'; exact He).
    rewrite Z.gtb_ltb. destruct (Z.ltb_spec (i + 1) bn) as [Hff|Hno].
    + rewrite (u64_small (bn - 1)) by lia.
      replace (bn - 1 + 1) with bn by lia. rewrite (u64_small bn) by lia.
      rewrite IH by lia.
      destruct (Z_le_gt_dec bn (sb_rbmblocks mp)) as [Hin|Hout].
      * replace (Z.to_nat (sb_rbmblocks mp - (i + 1)))
          with (Z.to_nat (bn - (i + 1)) + Z.to_nat (sb_rbmblocks mp - bn))%nat
          by lia.
        rewrite class_scan_drop by lia.
        do 2 f_equal. lia.
      * replace (Z.to_nat (sb_rbmblocks mp - bn)) with O by lia.
        cbn [count_up class_scan]. symmetry. apply class_scan_skip. lia.
    + rewrite (u64_small (i + 1)) by lia.
      rewrite IH by lia. apply class_scan_resume; lia.
Qed.

Lemma rtalloc_sumlevel_spec L minlen maxlen g :
  0 < rtg_extents g < 2 ^ 63 ->
  xfs_rtalloc_sumlevel mp L minlen maxlen prod next0 g
    = scan_class mp L minlen maxlen prod next0 g.
Proof.
  intros He. unfold xfs_rtalloc_sumlevel, scan_class.
  rewrite rtsumlevel_loop_spec by lia.
  rewrite Z.sub_0_r. reflexivity.
Qed.

Lemma scan_class_extents L minlen maxlen g :
  rtg_extents (snd (scan_class mp L minlen maxlen prod next0 g)) = rtg_extents g.
Proof. apply class_scan_extents. Qed.

Lemma rtsize_up_spec minlen maxlen :
  forall n l g,
    0 <= l -> n = Z.to_nat (m_rsumlevels mp - l) ->
    0 < rtg_extents g < 2 ^ 63 ->
    match rtsize_up mp minlen maxlen prod next0 n l g with
    | (Some r, g') =>
        first_class (count_up n l)
          (fun L => scan_class mp L minlen maxlen prod next0) g = (r, g')
        /\ r <> Err (- ENOSPC)
    | (None, g') =>
        first_class (count_up n l)
          (fun L => scan_class mp L minlen maxlen prod next0) g
          = (Err (- ENOSPC), g')
    end.
Proof.
  induction n as [|n IH]; intros l g Hl Hn He.
  - reflexivity.
  - cbn [rtsize_up count_up first_class].
    rewrite (u32_small l) by lia.
    destruct (Z.ltb_spec l (m_rsumlevels mp)); [|lia].
    rewrite rtalloc_sumlevel_spec by exact He.
    pose proof (scan_class_extents l minlen maxlen g) as Hext.
    destruct (scan_class mp l minlen maxlen prod next0 g) as [[r|e] g1];
      cbn [snd] in Hext.
    + split; [reflexivity|discriminate].
    + destruct (Z.eqb_spec e (- ENOSPC)) as [->|Hne].
      * apply IH; [lia|lia|rewrite Hext; exact He].
      * split; [reflexivity|]. intros E. inversion E. contradiction.
Qed.

Lemma rtsize_down_spec minlen cap :
  1 <= minlen ->
  forall n l g,
    l <= 29 -> n = Z.to_nat (l - Z.log2 minlen + 1) ->
    0 < rtg_extents g < 2 ^ 63 ->
    match rtsize_down mp minlen cap prod next0 n l g with
    | (Some r, g') =>
        first_class (count_down n l)
          (fun L => scan_class mp L (Z.max minlen (2 ^ L))
                      (Z.min cap (2 ^ (L + 1) - 1)) prod next0) g = (r, g')
    | (None, g') =>
        first_class (count_down n l)
          (fun L => scan_class mp L (Z.max minlen (2 ^ L))
                      (Z.min cap (2 ^ (L + 1) - 1)) prod next0) g
          = (Err (- ENOSPC), g')
    end.
Proof.
  intros Hmin. pose proof (Z.log2_nonneg minlen) as Hlo.
  induction n as [|n IH]; intros l g Hl Hn He.
  - reflexivity.
  - cbn [rtsize_down count_down first_class].
    unfold xfs_highbit32. rewrite highbit64_pos by lia.
    destruct (Z.geb_spec l (Z.log2 minlen)); [|lia].
    assert (Hp : 2 ^ l <= 2 ^ 29) by (apply pow2_le_mono; lia).
    assert (Hp' : 2 ^ (l + 1) <= 2 ^ 30) by (apply pow2_le_mono; lia).
    assert (Hp0 : 0 < 2 ^ l) by (apply Z.pow_pos_nonneg; lia).
    assert (Hp0' : 0 < 2 ^ (l + 1)) by (apply Z.pow_pos_nonneg; lia).
    rewrite (Z.shiftl_mul_pow2 1 l), (Z.shiftl_mul_pow2 1 (l + 1)) by lia.
    rewrite !Z.mul_1_l.
    rewrite (s32_small (2 ^ l)), (u32_small (2 ^ l)) by lia.
    rewrite (s32_small (2 ^ (l + 1))) by lia.
    rewrite (s32_small (2 ^ (l + 1) - 1)) by lia.
    rewrite (u32_small (2 ^ (l + 1) - 1)) by lia.
    rewrite rtalloc_sumlevel_spec by exact He.
    pose proof (scan_class_extents l (Z.max minlen (2 ^ l))
                  (Z.min cap (2 ^ (l + 1) - 1)) g) as Hext.
    destruct (scan_class mp l _ _ prod next0 g) as [[r|e] g1];
      cbn [snd] in Hext.
    + reflexivity.
    + destruct (Z.eqb_spec e (- ENOSPC)) as [->|Hne].
      * apply IH; [lia|lia|rewrite Hext; exact He].
      * reflexivity.
Qed.

Lemma rtsize_up_extents minlen maxlen :
  forall n l g,
    0 < rtg_extents g < 2 ^ 63 ->
    rtg_extents (snd (rtsize_up mp minlen maxlen prod next0 n l g))
      = rtg_extents g.
Proof.
  induction n as [|n IH]; intros l g He.
  - reflexivity.
  - cbn [rtsize_up]. destruct (u32 l <? m_rsumlevels mp); [|reflexivity].
    rewrite rtalloc_sumlevel_spec by exact He.
    pose proof (scan_class_extents l minlen maxlen g) as Hx.
    destruct (scan_class mp l minlen maxlen prod next0 g) as [[r|e] g1];
      cbn [snd] in Hx; [exact Hx|].
    destruct (e =? - ENOSPC); [|exact Hx].
    rewrite IH by (rewrite Hx; exact He). exact Hx.
Qed.

(** C3, as amended.  Size-first allocation tries the classes from
    [floor(log2(maxlen))] up to [rsumlevels - 1] with the caller's
    [minlen] and [maxlen], scanning for each class the bitmap blocks in
    order, calling the single-block scan only where the summary cell is
    nonzero and resuming at the block of the returned rtx when that lies
    past the next block.  If every class ends in NOSPACE and
    [minlen <= maxlen - 1], it tries the classes from
    [floor(log2(maxlen - 1))] down to [floor(log2(minlen))], passing for
    class [L] the minimum [max(minlen, 2^L)] and the maximum
    [min(maxlen - 1, 2^(L+1) - 1)]. *)
Theorem size_first_two_rounds (minlen maxlen : Z) (g : rtgroup) :
  0 < rtg_extents g < 2 ^ 63 ->
  1 <= minlen <= maxlen -> maxlen <= 2 ^ 30 ->
  xfs_rtallocate_extent_size mp minlen maxlen prod next0 g
    = size_first (maxlen - 1) mp minlen maxlen prod next0 g.
Proof.
  intros He Hmin Hmax.
  unfold xfs_rtallocate_extent_size, size_first. cbv zeta.
  unfold xfs_highbit32. rewrite (highbit64_pos maxlen) by lia.
  pose proof (Z.log2_nonneg maxlen) as Htop.
  pose proof (rtsize_up_spec minlen maxlen
                (Z.to_nat (m_rsumlevels mp - Z.log2 maxlen)) (Z.log2 maxlen) g
                Htop eq_refl He) as Hup.
  pose proof (rtsize_up_extents minlen maxlen
                (Z.to_nat (m_rsumlevels mp - Z.log2 maxlen)) (Z.log2 maxlen) g
                He) as Hext.
  destruct (rtsize_up mp minlen maxlen prod next0 _ _ g) as [[r|] g1];
    cbn [snd] in Hext.
  - destruct Hup as [Hup Hne]. rewrite Hup.
    destruct r as [r|e]; [reflexivity|].
    destruct (Z.eqb_spec e (- ENOSPC)) as [->|]; [contradiction|reflexivity].
  - rewrite Hup. rewrite Z.eqb_refl. cbn [andb].
    rewrite (u32_small (maxlen - 1)) by lia.
    rewrite Z.gtb_ltb.
    destruct (Z.ltb_spec (maxlen - 1) minlen); destruct (Z.leb_spec minlen (maxlen - 1));
      try lia; [reflexivity|].
    rewrite (highbit64_pos (maxlen - 1)) by lia.
    rewrite (highbit64_pos minlen) by lia.
    assert (Hhi : Z.log2 (maxlen - 1) <= 29).
    { destruct (Z_le_gt_dec (Z.log2 (maxlen - 1)) 29) as [|Hgt]; [assumption|].
      pose proof (log2_bounds (maxlen - 1) ltac:(lia)) as [_ [Hb _]].
      pose proof (pow2_le_mono 30 (Z.log2 (maxlen - 1)) ltac:(lia)). lia. }
    pose proof (rtsize_down_spec minlen (maxlen - 1) ltac:(lia)
                  (Z.to_nat (Z.log2 (maxlen - 1) - Z.log2 minlen + 1))
                  (Z.log2 (maxlen - 1)) g1 Hhi eq_refl
                  ltac:(rewrite Hext; exact He)) as Hdown.
    destruct (rtsize_down mp minlen (maxlen - 1) prod next0 _ _ g1) as [[r|] g2];
      rewrite Hdown; reflexivity.
Qed.
End SizeFirst.

(** ** Near-hint allocation: the negative side *)

Lemma last_cons_default (y : Z) l d d' :
  List.last (y :: l) d = List.last (y :: l) d'.
Proof.
  revert y. induction l as [|z l IH]; intros y; [reflexivity|].
  change (List.last (z :: l) d = List.last (z :: l) d'). apply IH.
Qed.

Lemma descending_snoc hi l x :
  descending hi l -> x < List.last l hi -> descending hi (l ++ [x]).
Proof.
  revert hi. induction l as [|y l IH]; intros hi Hd Hx.
  - simpl in *. auto.
  - destruct Hd as [Hy Hd]. split; [exact Hy|].
    apply IH; [exact Hd|]. destruct l as [|z l]; [exact Hx|].
    rewrite (last_cons_default z l y hi). exact Hx.
Qed.

Lemma probed_below_app bbno t1 t2 :
  probed_below bbno (t1 ++ t2) = probed_below bbno t1 ++ probed_below bbno t2.
Proof. unfold probed_below. apply flat_map_app. Qed.

Lemma rtany_summary_trace mp lo hi bbno g :
  rtg_trace (snd (xfs_rtany_summary mp lo hi bbno g)) = rtg_trace g.
Proof.
  unfold xfs_rtany_summary. cbv zeta.
  destruct (_ && _); [reflexivity|].
  destruct (rtany_scan _ _ _ _ _ _) as [[maxlog log]|e]; [|reflexivity].
  cbn [snd]. destruct (rtg_rsum_cache g); [|reflexivity].
  destruct (_ <? _); reflexivity.
Qed.

Section Near.
Variables (mp : xfs_mount) (bbno minlen prod next0 : Z).
Hypothesis Hbbno : 0 <= bbno < 2 ^ 30.
Hypothesis Hblocks : 1 <= sb_rbmblocks mp <= 2 ^ 30.

Lemma near_maxblocks_spec maxlog :
  0 <= m_blkbit_log mp -> 0 <= maxlog -> maxlog - m_blkbit_log mp <= 29 ->
  near_maxblocks mp maxlog =
    if maxlog =? 0 then 0 else maxblocks_as_claimed (m_blkbit_log mp) maxlog.
Proof.
  intros Hlog Hm Hsmall. unfold near_maxblocks, maxblocks_as_claimed.
  destruct (Z.eqb_spec maxlog 0); [reflexivity|].
  destruct (Z.ltb_spec maxlog (m_blkbit_log mp)).
  - replace (Z.max 0 (maxlog - m_blkbit_log mp + 1)) with 0 by lia. reflexivity.
  - replace (Z.max 0 (maxlog - m_blkbit_log mp + 1))
      with (maxlog - m_blkbit_log mp + 1) by lia.
    rewrite Z.shiftl_mul_pow2 by lia.
    rewrite Z.pow_add_r by lia. rewrite Z.pow_1_r.
    pose proof (pow2_le_mono (maxlog - m_blkbit_log mp) 29 ltac:(lia)).
    pose proof (Z.pow_pos_nonneg 2 (maxlog - m_blkbit_log mp) ltac:(lia) ltac:(lia)).
    rewrite s32_small by lia. lia.
Qed.

Lemma near_neg_scan_all_nospace maxavail :
  forall n i j g j' g',
    near_neg_scan mp bbno minlen maxavail prod next0 n i j g = (None, j', g') ->
    n = Z.to_nat (j - i + 1) ->
    rtg_trace g' =
      rtg_trace g ++
      map (fun k => EvBlock (u64 (bbno + k)) minlen maxavail prod)
        (count_down n j)
    /\ j' = j - Z.of_nat n.
Proof.
  induction n as [|n IH]; intros i j g j' g' H Hn.
  - simpl in H. inversion H; subst. simpl. rewrite app_nil_r. split; [reflexivity|lia].
  - cbn [near_neg_scan] in H. destruct (Z.geb_spec j i); [|lia].
    pose proof (rtallocate_extent_block_state mp (u64 (bbno + j)) minlen maxavail
                  prod next0 g) as Hs.
    destruct (xfs_rtallocate_extent_block mp (u64 (bbno + j)) minlen maxavail
                prod next0 g) as [[len rtx|nx|e] g1]; cbn [snd] in Hs;
      try discriminate.
    destruct (IH i (j - 1) g1 j' g' H ltac:(lia)) as [Ht Hj].
    split; [|lia]. rewrite Ht. subst g1. cbn [rtg_trace log_event count_down map].
    rewrite <- app_assoc. reflexivity.
Qed.

Lemma near_neg_scan_descending maxavail t0 :
  forall n i j g new o j' g',
    near_neg_scan mp bbno minlen maxavail prod next0 n i j g = (o, j', g') ->
    rtg_trace g = t0 ++ new ->
    0 <= bbno + i -> j <= -1 ->
    descending bbno (probed_below bbno new) ->
    bbno + j < List.last (probed_below bbno new) bbno ->
    exists new',
      rtg_trace g' = t0 ++ new' /\
      descending bbno (probed_below bbno new') /\
      (o = None ->
       j' <= j /\ bbno + j' < List.last (probed_below bbno new') bbno).
Proof.
  induction n as [|n IH]; intros i j g new o j' g' H Ht Hi Hj Hd Hlast.
  - simpl in H. inversion H; subst. exists new. repeat split; auto; lia.
  - cbn [near_neg_scan] in H. destruct (Z.geb_spec j i).
    2:{ inversion H; subst. exists new. repeat split; auto; lia. }
    pose proof (rtallocate_extent_block_state mp (u64 (bbno + j)) minlen maxavail
                  prod next0 g) as Hs.
    rewrite (u64_small (bbno + j)) in * by lia.
    assert (Hnew : probed_below bbno (new ++ [EvBlock (bbno + j) minlen maxavail prod])
                   = probed_below bbno new ++ [bbno + j]).
    { rewrite probed_below_app. cbn [probed_below flat_map].
      destruct (Z.ltb_spec (bbno + j) bbno); [|lia]. reflexivity. }
    assert (Hd' : descending bbno
                    (probed_below bbno
                       (new ++ [EvBlock (bbno + j) minlen maxavail prod]))).
    { rewrite Hnew. apply descending_snoc; assumption. }
    destruct (xfs_rtallocate_extent_block mp (bbno + j) minlen maxavail
                prod next0 g) as [[len rtx|nx|e] g1]; cbn [snd] in Hs.
    + inversion H; subst. eexists. split; [|split; [exact Hd'|discriminate]].
      cbn [rtg_trace log_event]. rewrite Ht, <- app_assoc. reflexivity.
    + destruct (IH i (j - 1) g1 (new ++ [EvBlock (bbno + j) minlen maxavail prod])
                  o j' g' H) as (new' & Ht' & Hdn & Hnone).
      * subst g1. cbn [rtg_trace log_event]. rewrite Ht, <- app_assoc. reflexivity.
      * exact Hi.
      * lia.
      * exact Hd'.
      * rewrite Hnew, last_last. lia.
      * exists new'. split; [exact Ht'|]. split; [exact Hdn|].
        intros Ho. destruct (Hnone Ho). split; [lia|assumption].
    + inversion H; subst. eexists. split; [|split; [exact Hd'|discriminate]].
      cbn [rtg_trace log_event]. rewrite Ht, <- app_assoc. reflexivity.
Qed.

Lemma near_probe_descending maxlen t0 i j maxlog g new o j' g' :
  near_probe mp bbno minlen maxlen prod next0 i j maxlog g = (o, j', g') ->
  rtg_trace g = t0 ++ new ->
  0 <= bbno + i -> i <= 2 ^ 30 -> j <= -1 ->
  descending bbno (probed_below bbno new) ->
  bbno + j < List.last (probed_below bbno new) bbno ->
  exists new',
    rtg_trace g' = t0 ++ new' /\
    descending bbno (probed_below bbno new') /\
    (o = None ->
     j' <= -1 /\ bbno + j' < List.last (probed_below bbno new') bbno).
Proof.
  intros H Ht Hi Hi' Hj Hd Hlast. unfold near_probe in H.
  destruct (maxlog >=? 0).
  2:{ inversion H; subst. exists new. auto. }
  cbv zeta in H. destruct (Z.geb_spec i 0).
  - set (maxavail := u32 _) in H.
    pose proof (rtallocate_extent_block_state mp (u64 (bbno + i)) minlen maxavail
                  prod next0 g) as Hs.
    rewrite (u64_small (bbno + i)) in * by lia.
    assert (Hnew : probed_below bbno (new ++ [EvBlock (bbno + i) minlen maxavail prod])
                   = probed_below bbno new).
    { rewrite probed_below_app. cbn [probed_below flat_map].
      destruct (Z.ltb_spec (bbno + i) bbno); [lia|]. apply app_nil_r. }
    destruct (xfs_rtallocate_extent_block mp (bbno + i) minlen maxavail
                prod next0 g) as [[len rtx|nx|e] g1]; cbn [snd] in Hs;
      inversion H; subst;
      (eexists; split;
       [cbn [rtg_trace log_event]; rewrite Ht, <- app_assoc; reflexivity|]);
      rewrite Hnew; auto.
  - set (maxavail := u32 _) in H.
    set (jn := Z.min _ j) in H.
    destruct (near_neg_scan_descending maxavail t0 _ i jn g new o j' g' H Ht Hi
                ltac:(lia) Hd ltac:(lia)) as (new' & Ht' & Hdn & Hnone).
    exists new'. split; [exact Ht'|]. split; [exact Hdn|].
    intros Ho. destruct (Hnone Ho). split; [lia|assumption].
Qed.

Lemma near_next_i_range i i' :
  - bbno <= i <= 2 ^ 30 -> near_next_i mp bbno i = Some i' ->
  - bbno <= i' <= 2 ^ 30.
Proof.
  intros Hi H. unfold near_next_i in H. cbv zeta in H.
  rewrite (u32_small (sb_rbmblocks mp - 1)) in H by lia.
  rewrite (s32_small bbno) in H by lia.
  rewrite (s32_small (bbno - i)), (s32_small (bbno + i)) in H by lia.
  destruct (Z.ltb_spec 0 i); destruct (Z.leb_spec i 0); try lia; cbn [andb] in H.
  - destruct (Z.leb_spec 0 (bbno - i)); [inversion H; lia|].
    rewrite (u32_small (bbno + i)) in H by lia.
    destruct (Z.ltb_spec (bbno + i) (sb_rbmblocks mp - 1)); [inversion H; lia|].
    discriminate.
  - rewrite (u32_small (bbno - i)) in H by lia.
    destruct (Z.ltb_spec (bbno - i) (sb_rbmblocks mp - 1)); [inversion H; lia|].
    destruct (Z.ltb_spec 0 (bbno + i)); [inversion H; lia|discriminate].
Qed.

Lemma rtnear_loop_descending maxlen log2len t0 :
  forall n i j g new r g',
    rtnear_loop mp bbno minlen maxlen prod next0 log2len n i j g = (r, g') ->
    rtg_trace g = t0 ++ new ->
    - bbno <= i <= 2 ^ 30 -> j <= -1 ->
    descending bbno (probed_below bbno new) ->
    bbno + j < List.last (probed_below bbno new) bbno ->
    exists new',
      rtg_trace g' = t0 ++ new' /\ descending bbno (probed_below bbno new').
Proof.
  induction n as [|n IH]; intros i j g new r g' H Ht Hi Hj Hd Hlast.
  - simpl in H. inversion H; subst. exists new. auto.
  - cbn [rtnear_loop] in H.
    pose proof (rtany_summary_trace mp log2len (s32 (u32 (m_rsumlevels mp - 1)))
                  (u64 (bbno + i)) g) as Htr.
    destruct (xfs_rtany_summary mp log2len _ (u64 (bbno + i)) g) as [[maxlog|e] g1];
      cbn [snd] in Htr.
    2:{ inversion H; subst. exists new. rewrite Htr. auto. }
    destruct (near_probe mp bbno minlen maxlen prod next0 i j maxlog g1)
      as [[o j1] g2] eqn:Ep.
    destruct (near_probe_descending maxlen t0 i j maxlog g1 new o j1 g2 Ep
                ltac:(rewrite Htr; exact Ht) ltac:(lia) ltac:(lia) Hj Hd Hlast)
      as (new2 & Ht2 & Hd2 & Hnone).
    destruct o as [r0|].
    + inversion H; subst. exists new2. auto.
    + destruct (Hnone eq_refl) as [Hj1 Hlast1].
      destruct (near_next_i mp bbno i) as [i'|] eqn:En.
      * pose proof (near_next_i_range i i' Hi En).
        eapply IH; eauto.
      * inversion H; subst. exists new2. auto.
Qed.
Lemma near_next_i_rank i i' :
  - bbno <= i <= Z.max 0 (sb_rbmblocks mp - 1 - bbno) ->
  near_next_i mp bbno i = Some i' ->
  - bbno <= i' <= Z.max 0 (sb_rbmblocks mp - 1 - bbno)
  /\ near_rank i < near_rank i'.
Proof.
  intros Hi H. unfold near_next_i in H. cbv zeta in H. unfold near_rank.
  rewrite (u32_small (sb_rbmblocks mp - 1)) in H by lia.
  rewrite (s32_small bbno) in H by lia.
  rewrite (s32_small (bbno - i)), (s32_small (bbno + i)) in H by lia.
  destruct (Z.ltb_spec 0 i); destruct (Z.leb_spec i 0); try lia; cbn [andb] in H.
  - destruct (Z.leb_spec 0 (bbno - i)).
    { inversion H; subst i'.
      destruct (Z.ltb_spec i 0); destruct (Z.ltb_spec (- i) 0); lia. }
    rewrite (u32_small (bbno + i)) in H by lia.
    destruct (Z.ltb_spec (bbno + i) (sb_rbmblocks mp - 1)); [|discriminate].
    inversion H; subst i'.
    destruct (Z.ltb_spec i 0); destruct (Z.ltb_spec (i + 1) 0); lia.
  - rewrite (u32_small (bbno - i)) in H by lia.
    destruct (Z.ltb_spec (bbno - i) (sb_rbmblocks mp - 1)).
    { inversion H; subst i'.
      destruct (Z.ltb_spec i 0); destruct (Z.ltb_spec (1 - i) 0); lia. }
    destruct (Z.ltb_spec 0 (bbno + i)); [|discriminate].
    inversion H; subst i'.
    destruct (Z.ltb_spec i 0); destruct (Z.ltb_spec (i - 1) 0); lia.
Qed.

(** The offsets [0, 1, -1, 2, -2, ...] of the near-hint search climb in
    [near_rank], which is bounded by the size of the bitmap, so the search
    leaves its loop by [break] or [return] before the fuel that
    [xfs_rtallocate_extent_near] hands to it is used up: more fuel gives the
    same outcome. *)
Lemma rtnear_loop_fuel maxlen log2len :
  forall n m i j g,
    - bbno <= i <= Z.max 0 (sb_rbmblocks mp - 1 - bbno) ->
    (Z.to_nat (2 * Z.max bbno (sb_rbmblocks mp) + 2 - near_rank i) <= n)%nat ->
    (n <= m)%nat ->
    rtnear_loop mp bbno minlen maxlen prod next0 log2len n i j g
      = rtnear_loop mp bbno minlen maxlen prod next0 log2len m i j g.
Proof.
  induction n as [|n IH]; intros m i j g Hi Hn Hm.
  - exfalso. revert Hn. unfold near_rank.
    destruct (Z.ltb_spec i 0); lia.
  - destruct m as [|m]; [lia|]. cbn [rtnear_loop].
    destruct (xfs_rtany_summary mp log2len _ (u64 (bbno + i)) g)
      as [[maxlog|e] g1]; [|reflexivity].
    destruct (near_probe mp bbno minlen maxlen prod next0 i j maxlog g1)
      as [[[r0|] j1] g2]; [reflexivity|].
    destruct (near_next_i mp bbno i) as [i'|] eqn:En; [|reflexivity].
    destruct (near_next_i_rank i i' Hi En) as [Hi' Hr].
    apply IH; lia.
Qed.
End Near.

(** C6, as amended.  On the negative side of the hint, with [maxlog] the
    class the summary reports, [maxblocks] is 0 when [maxlog = 0] and
    [2^max(0, maxlog - log2(bits_per_bmblock) + 1)] otherwise (so 1 for
    [0 < maxlog < log2(bits_per_bmblock)]).  One pass at offset [i < 0] whose
    probes all end in NOSPACE scans the blocks at offsets
    [min(i + maxblocks, j)] down to [i], where [j] is the highest offset not
    yet covered, and over a whole near-hint search the blocks scanned below
    the block of the hint are strictly decreasing: none is scanned twice. *)
Theorem near_negative_side (mp : xfs_mount)
    (start minlen maxlen prod next0 : Z) (g : rtgroup) :
  let bbno :=
    xfs_rtx_to_rbmblock mp (Z.min start (u64 (rtg_extents g - 1))) in
  0 <= bbno < 2 ^ 30 -> 1 <= sb_rbmblocks mp <= 2 ^ 30 ->
  0 <= m_blkbit_log mp ->
  (forall maxlog,
     0 <= maxlog -> maxlog - m_blkbit_log mp <= 29 ->
     near_maxblocks mp maxlog =
       if maxlog =? 0 then 0
       else maxblocks_as_claimed (m_blkbit_log mp) maxlog) /\
  (forall i j maxlog g0 j' g',
     - 2 ^ 30 <= i < 0 -> 0 <= maxlog <= 62 ->
     maxlog - m_blkbit_log mp <= 29 ->
     near_probe mp bbno minlen maxlen prod next0 i j maxlog g0 = (None, j', g') ->
     let first := Z.min (i + near_maxblocks mp maxlog) j in
     let maxavail := Z.min maxlen (2 ^ (maxlog + 1) - 1) in
     rtg_trace g' =
       rtg_trace g0 ++
       map (fun k => EvBlock (u64 (bbno + k)) minlen (u32 maxavail) prod)
         (count_down (Z.to_nat (first - i + 1)) first)) /\
  (forall r g',
     xfs_rtallocate_extent_near mp start minlen maxlen prod next0 g = (r, g') ->
     exists new,
       rtg_trace g' = rtg_trace g ++ new /\
       descending bbno (probed_below bbno new)).
Proof.
  intros bbno Hbbno Hblocks Hlog. split; [|split].
  - intros maxlog Hm Hsmall. apply near_maxblocks_spec; assumption.
  - intros i j maxlog g0 j' g' Hi Hm Hsmall H first maxavail.
    unfold near_probe in H. destruct (Z.geb_spec maxlog 0); [|lia].
    cbv zeta in H. destruct (Z.geb_spec i 0); [lia|].
    assert (Hmb : 0 <= near_maxblocks mp maxlog <= 2 ^ 30).
    { rewrite near_maxblocks_spec by lia.
      destruct (maxlog =? 0); [lia|]. unfold maxblocks_as_claimed.
      pose proof (pow2_le_mono (Z.max 0 (maxlog - m_blkbit_log mp + 1)) 30
                    ltac:(lia)).
      pose proof (Z.pow_pos_nonneg 2 (Z.max 0 (maxlog - m_blkbit_log mp + 1))
                    ltac:(lia) ltac:(lia)). lia. }
    rewrite (s32_small (i + near_maxblocks mp maxlog)) in H by lia.
    fold first in H.
    rewrite (Z.shiftl_mul_pow2 1 (maxlog + 1)) in H by lia.
    rewrite Z.mul_1_l in H.
    pose proof (pow2_le_mono (maxlog + 1) 63 ltac:(lia)).
    pose proof (Z.pow_pos_nonneg 2 (maxlog + 1) ltac:(lia) ltac:(lia)).
    rewrite (u64_small (2 ^ (maxlog + 1) - 1)) in H by lia.
    fold maxavail in H.
    destruct (near_neg_scan_all_nospace mp bbno minlen prod next0 _ _ _ _ _ _ _ H
                eq_refl) as [Ht _].
    exact Ht.
  - intros r g' H. unfold xfs_rtallocate_extent_near in H. cbv zeta in H.
    fold bbno in H.
    destruct (xfs_rtallocate_extent_exact mp _ minlen maxlen prod g) as [r0|e].
    { inversion H; subst. exists []. rewrite app_nil_r. simpl. auto. }
    destruct (negb (e =? - ENOSPC)).
    { inversion H; subst. exists []. rewrite app_nil_r. simpl. auto. }
    eapply (rtnear_loop_descending mp bbno minlen prod next0 Hbbno Hblocks
              maxlen _ (rtg_trace g) _ 0 (-1) g [] r g' H).
    + rewrite app_nil_r. reflexivity.
    + lia.
    + lia.
    + exact I.
    + simpl. lia.
Qed.

(** ** The top-level allocator and its public interface *)

Lemma rtallocate_align_keeps_noalign ops mp ap ap1 ralen raminlen prod noalign1 :
  xfs_rtallocate_align ops mp ap true = Ok (ap1, ralen, raminlen, prod, noalign1) ->
  noalign1 = true.
Proof.
  unfold xfs_rtallocate_align. cbv zeta.
  destruct (xfs_bmap_extsize_align ops (sb_rextsize mp) ap) as [[e off] len].
  destruct (negb (e =? 0)); [discriminate|].
  match goal with
  | |- context [if 1 <? ?p then ?a else ?b] =>
      destruct (if 1 <? p then a else b) as [[x y] z]
  end.
  intros H. inversion H. reflexivity.
Qed.

Lemma bmap_rtalloc_pass_noalign ops mp next0 oo ol ap hint rl g :
  exists e ap' g',
    bmap_rtalloc_pass ops mp next0 oo ol ap hint rl true g = PassDone e ap' g'.
Proof.
  unfold bmap_rtalloc_pass.
  destruct (xfs_rtallocate_align ops mp ap true)
    as [[[[[ap1 ralen] raminlen] prod] noalign1]|e] eqn:Ea; [|eauto].
  apply rtallocate_align_keeps_noalign in Ea. subst noalign1.
  destruct (xfs_bmap_adjacent ops ap1) as [adj blk].
  destruct (xfs_rtallocate _ _ _ _ _ _ _ _ _ _) as [[[[bno blen]|e] rl'] g'];
    [eauto|].
  destruct (e =? - ENOSPC); simpl; eauto.
Qed.

(** C4, as amended.  In the top-level allocator, with a nonzero start a
    NOSPACE of the near-hint search is swallowed: the buffer cache is
    released and size-first is tried on what results; any other error of the
    near-hint search, and any error of size-first, NOSPACE included, is what
    [xfs_rtallocate] returns.  At the public interface a NOSPACE of
    [xfs_rtallocate] leads to one jump back to [retry] when the pass ran with
    alignment, and to a successful return with zero length when it ran
    without; a pass entered without alignment never jumps back, so there is
    at most one retry and none when the first pass already ran without
    alignment.  Other errors are returned as they are. *)
Theorem near_nospace_falls_back (ops : bmap_ops) (mp : xfs_mount) (next0 : Z) :
  (forall start minlen maxlen prod g g1,
     start <> 0 ->
     xfs_rtallocate_extent_near mp start minlen maxlen prod next0 g
       = (Err (- ENOSPC), g1) ->
     rtallocate_search mp start minlen maxlen prod next0 g
       = xfs_rtallocate_extent_size mp minlen maxlen prod next0
           (xfs_rtbuf_cache_relse g1)) /\
  (forall start minlen maxlen prod g e g1,
     start <> 0 ->
     xfs_rtallocate_extent_near mp start minlen maxlen prod next0 g
       = (Err e, g1) ->
     e <> - ENOSPC -> e <> 0 ->
     rtallocate_search mp start minlen maxlen prod next0 g = (Err e, g1)) /\
  (forall bno_hint minlen maxlen prod wasdel iud rl g start g0 e g2,
     rtg_active g = true ->
     rtallocate_start mp bno_hint maxlen iud
       (log_event (EvRtallocate minlen maxlen prod) g) = (start, g0) ->
     rtallocate_search mp start minlen maxlen prod next0 g0 = (Err e, g2) ->
     xfs_rtallocate mp bno_hint minlen maxlen prod wasdel iud rl next0 g
       = (Err e, true, xfs_rtbuf_cache_relse g2)) /\
  (forall oo ol ap hint rl noalign g ap1 ralen raminlen prod noalign1,
     xfs_rtallocate_align ops mp ap noalign
       = Ok (ap1, ralen, raminlen, prod, noalign1) ->
     let ap2 :=
       set_ap_result (snd (xfs_bmap_adjacent ops ap1)) (ap_length ap1) ap1 in
     let hint' :=
       if fst (xfs_bmap_adjacent ops ap1)
       then snd (xfs_bmap_adjacent ops ap1) else hint in
     forall e rl' g1,
       xfs_rtallocate mp hint' raminlen ralen prod (ap_wasdel ap2)
         (ap_initial_user_data ap2) rl next0 g = (Err e, rl', g1) ->
       (noalign = true -> noalign1 = true) /\
       bmap_rtalloc_pass ops mp next0 oo ol ap hint rl noalign g =
         if e =? - ENOSPC then
           if noalign1 then PassDone 0 (set_ap_result NULLFSBLOCK 0 ap2) g1
           else PassRetry (set_ap_range oo ol ap2) hint' rl' g1
         else PassDone e ap2 g1) /\
  (forall ap g,
     match bmap_rtalloc_pass ops mp next0 (ap_offset ap) (ap_length ap)
             ap NULLRTBLOCK false false g with
     | PassDone e ap' g' => xfs_bmap_rtalloc ops mp next0 ap g = (e, ap', g')
     | PassRetry ap1 hint rl g1 =>
         exists e ap' g',
           bmap_rtalloc_pass ops mp next0 (ap_offset ap) (ap_length ap)
             ap1 hint rl true g1 = PassDone e ap' g' /\
           xfs_bmap_rtalloc ops mp next0 ap g = (e, ap', g')
     end).
Proof.
  split; [|split; [|split; [|split]]].
  - intros start minlen maxlen prod g g1 Hs Hn. unfold rtallocate_search.
    destruct (Z.eqb_spec start 0); [contradiction|]. cbn [negb].
    rewrite Hn. rewrite Z.eqb_refl. reflexivity.
  - intros start minlen maxlen prod g e g1 Hs Hn He He0. unfold rtallocate_search.
    destruct (Z.eqb_spec start 0); [contradiction|]. cbn [negb].
    rewrite Hn. destruct (Z.eqb_spec e (- ENOSPC)); [contradiction|].
    destruct (Z.eqb_spec e 0); [contradiction|reflexivity].
  - intros bno_hint minlen maxlen prod wasdel iud rl g start g0 e g2 Ha Hst Hse.
    unfold xfs_rtallocate. cbv zeta. cbn [rtg_active log_event]. rewrite Ha.
    cbn [negb]. rewrite Hst, Hse. reflexivity.
  - intros oo ol ap hint rl noalign g ap1 ralen raminlen prod noalign1 Ha
      ap2 hint' e rl' g1 Hr. split.
    + intros ->. eapply rtallocate_align_keeps_noalign. exact Ha.
    + unfold bmap_rtalloc_pass. rewrite Ha.
      subst ap2 hint'. destruct (xfs_bmap_adjacent ops ap1) as [adj blk].
      cbn [fst snd] in *. rewrite Hr.
      destruct (e =? - ENOSPC); [|reflexivity].
      destruct noalign1; reflexivity.
  - intros ap g. unfold xfs_bmap_rtalloc. cbn [bmap_rtalloc_retry].
    destruct (bmap_rtalloc_pass ops mp next0 (ap_offset ap) (ap_length ap)
                ap NULLRTBLOCK false false g) as [e ap' g'|ap1 hint rl g1];
      [reflexivity|].
    destruct (bmap_rtalloc_pass_noalign ops mp next0 (ap_offset ap) (ap_length ap)
                ap1 hint rl g1) as (e & ap' & g' & Hp).
    exists e, ap', g'. rewrite Hp. split; reflexivity.
Qed.

(** * Further properties *)

Lemma first_diff_prefix bm v :
  forall n i k, i <= k < first_diff bm v n i -> Z.testbit bm k = v.
Proof.
  induction n as [|n IH]; intros i k Hk; cbn [first_diff] in Hk; [lia|].
  destruct (Bool.eqb (Z.testbit bm i) v) eqn:E; [|lia].
  destruct (Z.eq_dec k i) as [->|Hne]; [apply eqb_prop; exact E|].
  apply (IH (i + 1)). lia.
Qed.

Lemma rtalloc_align_len_le x p :
  0 <= x ->
  0 <= xfs_rtalloc_align_len x p <= x /\
  (1 < p -> xfs_rtalloc_align_len x p mod p = 0).
Proof.
  intros Hx. unfold xfs_rtalloc_align_len, rounddown.
  destruct (Z.ltb_spec 1 p).
  - pose proof (Z.mod_pos_bound x p ltac:(lia)).
    pose proof (Z.mod_le x p Hx ltac:(lia)).
    split; [lia|]. intros _.
    rewrite Zminus_mod, Z.mod_mod by lia. rewrite Z.sub_diag. apply Z.mod_0_l. lia.
  - split; [lia|]. lia.
Qed.

Lemma rtallocate_clamp_len_inside extents i maxlen prod :
  0 <= i < extents -> extents < 2 ^ 63 -> 0 <= maxlen < 2 ^ 32 ->
  let l := xfs_rtallocate_clamp_len extents i maxlen prod in
  0 <= l <= maxlen /\ i + l <= extents /\ (1 < prod -> l mod prod = 0).
Proof.
  intros Hi He Hm l. subst l. unfold xfs_rtallocate_clamp_len.
  rewrite (u64_small (i + maxlen)) by lia.
  rewrite (u64_small (Z.min extents (i + maxlen) - i)) by lia.
  rewrite u32_small by lia.
  destruct (rtalloc_align_len_le (Z.min extents (i + maxlen) - i) prod ltac:(lia))
    as [H1 H2].
  repeat split; try lia; exact H2.
Qed.

Lemma rtblock_scan_sound mp minlen maxlen prod end_ lo g :
  0 <= lo -> end_ < rtg_extents g -> rtg_extents g < 2 ^ 63 ->
  0 <= maxlen < 2 ^ 32 ->
  forall n i next besti bestlen,
    lo <= i ->
    best_ok g minlen maxlen lo end_ besti bestlen ->
    match rtblock_scan mp minlen maxlen prod end_ n i next besti bestlen g with
    | ScanRet len rtx =>
        lo <= rtx <= end_ /\ extent_admissible g minlen maxlen prod len rtx
    | ScanDone _ b bl => best_ok g minlen maxlen lo end_ b bl
    | ScanErr _ => True
    end.
Proof.
  intros Hlo Hend He Hm.
  induction n as [|n IH]; intros i next besti bestlen Hi Hb; cbn [rtblock_scan].
  - exact Hb.
  - destruct (Z.leb_spec i end_); [|exact Hb].
    destruct (rtallocate_clamp_len_inside (rtg_extents g) i maxlen prod
                ltac:(lia) He Hm) as (Hc1 & Hc2 & Hc3).
    set (scanlen := xfs_rtallocate_clamp_len _ _ _ _) in *.
    destruct (Z.ltb_spec scanlen minlen); [exact Hb|].
    unfold xfs_rtcheck_range.
    destruct (bmblock_mapped mp i); [|exact I].
    pose proof (first_diff_range (rbm g) true (Z.to_nat scanlen) i) as Hfd.
    pose proof (first_diff_prefix (rbm g) true (Z.to_nat scanlen) i) as Hfree.
    rewrite Z2Nat.id in Hfd by lia.
    set (nx := first_diff _ _ _ _) in *.
    destruct (Z.eqb_spec nx (i + scanlen)) as [E|E].
    { split; [lia|]. unfold extent_admissible. repeat split; try lia; try assumption.
      intros k Hk. apply Hfree. lia. }
    rewrite (u64_small (nx - i)) by lia.
    set (better := (minlen <? maxlen) && (nx - i >=? minlen) && (nx - i >? bestlen)).
    assert (Hb' : best_ok g minlen maxlen lo end_
                    (if better then i else besti)
                    (if better then u32 (nx - i) else bestlen)).
    { destruct better eqn:Eb; [|exact Hb].
      unfold better in Eb. apply andb_prop in Eb. destruct Eb as [Eb _].
      apply andb_prop in Eb. destruct Eb as [_ Eb].
      rewrite u32_small by lia. right. repeat split; try lia.
      intros k Hk. apply Hfree. lia. }
    destruct (nx >=? end_); [exact Hb'|].
    destruct (xfs_rtfind_forw mp nx end_ g) as [i'|e] eqn:Ef; [|exact I].
    apply IH; [|exact Hb'].
    unfold xfs_rtfind_forw in Ef. destruct (bmblock_mapped mp nx); [|discriminate].
    inversion Ef; subst i'. clear Ef.
    destruct (Z.le_gt_cases nx end_) as [Hle|Hgt].
    + pose proof (scan_forw_range (rbm g) (Z.testbit (rbm g) nx) end_
                    (Z.to_nat (end_ - nx)) nx Hle) as Hsf.
      rewrite u64_small by lia. lia.
    + replace (Z.to_nat (end_ - nx)) with O by lia. cbn [scan_forw].
      rewrite u64_small by lia. lia.
Qed.

Lemma rbmblock_to_rtx_small mp bbno :
  0 <= bbno -> 0 <= m_blkbit_log mp -> bbno * 2 ^ m_blkbit_log mp < 2 ^ 64 ->
  xfs_rbmblock_to_rtx mp bbno = bbno * 2 ^ m_blkbit_log mp.
Proof.
  intros Hb Hlog Hcap. unfold xfs_rbmblock_to_rtx.
  rewrite Z.shiftl_mul_pow2 by lia. apply u64_small.
  pose proof (Z.pow_pos_nonneg 2 (m_blkbit_log mp) ltac:(lia) Hlog). nia.
Qed.

Lemma rtx_to_rbmblock_in mp bbno rtx :
  0 <= m_blkbit_log mp ->
  bbno * 2 ^ m_blkbit_log mp <= rtx < (bbno + 1) * 2 ^ m_blkbit_log mp ->
  xfs_rtx_to_rbmblock mp rtx = bbno.
Proof.
  intros Hlog H. unfold xfs_rtx_to_rbmblock.
  rewrite Z.shiftr_div_pow2 by lia.
  pose proof (Z.pow_pos_nonneg 2 (m_blkbit_log mp) ltac:(lia) Hlog).
  symmetry. apply (Z.div_unique rtx _ bbno (rtx - bbno * 2 ^ m_blkbit_log mp)); lia.
Qed.

Lemma rtallocate_extent_block_admits (mp : xfs_mount)
    (bbno minlen maxlen prod next0 : Z) (g : rtgroup) (len rtx : Z) (g' : rtgroup) :
  0 < rtg_extents g < 2 ^ 63 -> 0 <= bbno -> 0 <= m_blkbit_log mp ->
  (bbno + 1) * 2 ^ m_blkbit_log mp < 2 ^ 64 ->
  0 <= minlen -> 0 <= maxlen < 2 ^ 32 ->
  xfs_rtallocate_extent_block mp bbno minlen maxlen prod next0 g
    = (BlkOk len rtx, g') ->
  extent_admissible g minlen maxlen prod len rtx /\
  xfs_rtx_to_rbmblock mp rtx = bbno /\
  g' = log_event (EvBlock bbno minlen maxlen prod) g.
Proof.
  intros He Hb Hlog Hcap Hmin Hm H.
  pose proof (rtallocate_extent_block_state mp bbno minlen maxlen prod next0 g) as Hs.
  rewrite H in Hs. cbn [snd] in Hs.
  pose proof (Z.pow_pos_nonneg 2 (m_blkbit_log mp) ltac:(lia) Hlog) as Hp.
  unfold xfs_rtallocate_extent_block in H. cbv zeta in H.
  cbn [rtg_extents log_event] in H.
  rewrite (u64_small (bbno + 1)) in H by nia.
  rewrite (rbmblock_to_rtx_small mp (bbno + 1)) in H by lia.
  rewrite (rbmblock_to_rtx_small mp bbno) in H by nia.
  rewrite (u64_small (Z.min _ _ - 1)) in H by nia.
  set (end_ := Z.min _ _ - 1) in H.
  set (lo := bbno * 2 ^ m_blkbit_log mp) in H.
  set (gl := log_event _ g) in H.
  pose proof (rtblock_scan_sound mp minlen maxlen prod end_ lo gl
                ltac:(nia) ltac:(cbn; lia) ltac:(cbn; lia) Hm
                (Z.to_nat (end_ - lo + 1)) lo next0 (-1) 0 (Z.le_refl _)
                (or_introl eq_refl)) as Hscan.
  assert (Hadm : forall l r, extent_admissible gl minlen maxlen prod l r ->
                             extent_admissible g minlen maxlen prod l r).
  { intros l r Ha. exact Ha. }
  destruct (rtblock_scan _ _ _ _ _ _ _ _ _ _ _) as [l r|e|nx b bl].
  - inversion H; subst. destruct Hscan as [Hr Ha]. split; [apply Hadm; exact Ha|].
    split; [|reflexivity]. apply rtx_to_rbmblock_in; [exact Hlog|].
    unfold end_, lo in Hr. lia.
  - inversion H.
  - destruct (Z.eqb_spec b (-1)); [inversion H|].
    destruct (Z.ltb_spec (xfs_rtalloc_align_len bl prod) minlen); [inversion H|].
    inversion H; subst. destruct Hscan as [Hc|(Hr & Hl & Hin & Hfree)]; [contradiction|].
    destruct (rtalloc_align_len_le bl prod ltac:(lia)) as [Hal Hmul].
    split; [|split; [|reflexivity]].
    + unfold extent_admissible. repeat split; try lia; try assumption.
      * cbn in Hin. lia.
      * intros k Hk. apply Hfree. lia.
    + apply rtx_to_rbmblock_in; [exact Hlog|]. unfold end_, lo in Hr. lia.
Qed.

(** X1.  An extent that [xfs_rtallocate_extent_block] returns for bitmap
    block [bbno] is admissible: its length lies between [minlen] and [maxlen]
    and is a multiple of [prod] when [prod > 1], it lies inside the group,
    and every rtx of it is free in the bitmap.  It starts in block [bbno],
    and the scan leaves the group as it was (one more event in the trace). *)
Theorem rtallocate_extent_block_sound (mp : xfs_mount)
    (bbno minlen maxlen prod next0 : Z) (g : rtgroup) (len rtx : Z) (g' : rtgroup) :
  0 < rtg_extents g < 2 ^ 63 -> 0 <= bbno -> 0 <= m_blkbit_log mp ->
  (bbno + 1) * 2 ^ m_blkbit_log mp < 2 ^ 64 ->
  0 <= minlen -> 0 <= maxlen < 2 ^ 32 ->
  xfs_rtallocate_extent_block mp bbno minlen maxlen prod next0 g
    = (BlkOk len rtx, g') ->
  extent_admissible g minlen maxlen prod len rtx /\
  xfs_rtx_to_rbmblock mp rtx = bbno /\
  g' = log_event (EvBlock bbno minlen maxlen prod) g.
Proof. apply rtallocate_extent_block_admits. Qed.

Lemma untouched_refl g : untouched g g.
Proof. unfold untouched. tauto. Qed.

Lemma untouched_trans g1 g2 g3 :
  untouched g1 g2 -> untouched g2 g3 -> untouched g1 g3.
Proof. unfold untouched. intuition congruence. Qed.

Lemma untouched_log_event e g : untouched g (log_event e g).
Proof. unfold untouched. cbn. tauto. Qed.

Lemma untouched_set_rsum_cache c g : untouched g (set_rsum_cache c g).
Proof. unfold untouched. cbn. tauto. Qed.

Lemma rtany_summary_untouched mp lo hi bbno g :
  untouched g (snd (xfs_rtany_summary mp lo hi bbno g)).
Proof.
  unfold xfs_rtany_summary. cbv zeta.
  destruct (_ && _); [apply untouched_refl|].
  destruct (rtany_scan _ _ _ _ _ _) as [[maxlog log]|e]; [|apply untouched_refl].
  cbn [snd]. destruct (rtg_rsum_cache g); [|apply untouched_refl].
  destruct (_ <? _); [apply untouched_set_rsum_cache|apply untouched_refl].
Qed.

Lemma extent_admissible_untouched g g' minlen maxlen prod len rtx :
  untouched g g' ->
  extent_admissible g' minlen maxlen prod len rtx ->
  extent_admissible g minlen maxlen prod len rtx.
Proof.
  intros (_ & He & Hb & _) (H1 & H2 & H3 & H4 & H5).
  unfold extent_admissible, range_free in *. rewrite <- He, <- Hb. tauto.
Qed.

Lemma extent_admissible_widen g minlen maxlen minlen' maxlen' prod len rtx :
  minlen <= minlen' -> maxlen' <= maxlen ->
  extent_admissible g minlen' maxlen' prod len rtx ->
  extent_admissible g minlen maxlen prod len rtx.
Proof. unfold extent_admissible. intuition lia. Qed.

Lemma probes_inside_app mp t1 t2 :
  probes_inside mp t1 -> probes_inside mp t2 -> probes_inside mp (t1 ++ t2).
Proof. unfold probes_inside. intros H1 H2. apply Forall_app. auto. Qed.

(** The extent an exact search returns. *)
Lemma rtallocate_extent_exact_sound mp start minlen maxlen prod g len rtx :
  0 <= start < rtg_extents g -> rtg_extents g < 2 ^ 63 ->
  0 <= minlen -> 0 <= maxlen < 2 ^ 32 ->
  xfs_rtallocate_extent_exact mp start minlen maxlen prod g = Ok (len, rtx) ->
  rtx = start /\ extent_admissible g minlen maxlen prod len rtx.
Proof.
  intros Hs He Hmin Hm H. unfold xfs_rtallocate_extent_exact in H. cbv zeta in H.
  destruct (rtallocate_clamp_len_inside (rtg_extents g) start maxlen prod
              Hs He Hm) as (Hc1 & Hc2 & Hc3).
  set (scanlen := xfs_rtallocate_clamp_len _ _ _ _) in *.
  destruct (Z.ltb_spec scanlen minlen); [discriminate|].
  unfold xfs_rtcheck_range in H. destruct (bmblock_mapped mp start); [|discriminate].
  pose proof (first_diff_range (rbm g) true (Z.to_nat scanlen) start) as Hfd.
  pose proof (first_diff_prefix (rbm g) true (Z.to_nat scanlen) start) as Hfree.
  rewrite Z2Nat.id in Hfd by lia.
  set (nx := first_diff _ _ _ _) in *.
  destruct (Z.eqb_spec nx (start + scanlen)) as [E|E].
  { inversion H; subst. split; [reflexivity|].
    unfold extent_admissible. repeat split; try lia; try assumption.
    intros k Hk. apply Hfree. lia. }
  rewrite (u64_small (nx - start)) in H by lia.
  rewrite (u32_small (nx - start)) in H by lia.
  destruct (Z.ltb_spec (nx - start) minlen); [discriminate|].
  destruct (rtalloc_align_len_le (nx - start) prod ltac:(lia)) as [Hal Hmul].
  destruct (Z.ltb_spec (xfs_rtalloc_align_len (nx - start) prod) minlen);
    [discriminate|].
  inversion H; subst. split; [reflexivity|].
  unfold extent_admissible. repeat split; try lia; try assumption.
  intros k Hk. apply Hfree. lia.
Qed.

Section Searches.
Variables (mp : xfs_mount) (minlen maxlen prod next0 : Z) (g0 : rtgroup).
Hypothesis He : 0 < rtg_extents g0 < 2 ^ 63.
Hypothesis Hlog : 0 <= m_blkbit_log mp.
Hypothesis Hcap : sb_rbmblocks mp * 2 ^ m_blkbit_log mp < 2 ^ 64.
Hypothesis Hmin : 0 <= minlen.
Hypothesis Hmax : 0 <= maxlen < 2 ^ 32.

Lemma block_in_search_sound b minlen' maxlen' g r g' :
  untouched g0 g -> 0 <= b < sb_rbmblocks mp ->
  minlen <= minlen' -> 0 <= maxlen' <= maxlen ->
  xfs_rtallocate_extent_block mp b minlen' maxlen' prod next0 g = (r, g') ->
  untouched g0 g' /\
  rtg_trace g' = rtg_trace g ++ [EvBlock b minlen' maxlen' prod] /\
  (forall len rtx, r = BlkOk len rtx ->
     extent_admissible g0 minlen maxlen prod len rtx).
Proof.
  intros Hu Hb Hmn Hmx H.
  pose proof (rtallocate_extent_block_state mp b minlen' maxlen' prod next0 g) as Hs.
  rewrite H in Hs. cbn [snd] in Hs.
  split; [|split].
  - subst g'. eapply untouched_trans; [exact Hu|apply untouched_log_event].
  - subst g'. reflexivity.
  - intros len rtx ->.
    pose proof (Z.pow_pos_nonneg 2 (m_blkbit_log mp) ltac:(lia) Hlog) as Hp.
    pose proof Hu as (_ & Hext & _).
    destruct (rtallocate_extent_block_admits mp b minlen' maxlen' prod next0 g
                len rtx g' ltac:(lia) ltac:(lia) Hlog ltac:(nia) ltac:(lia)
                ltac:(lia) H) as (Ha & _ & _).
    apply (extent_admissible_widen g0 minlen maxlen minlen' maxlen');
      [lia|lia|].
    apply (extent_admissible_untouched g0 g); [exact Hu|exact Ha].
Qed.

(** *** Size-first *)

Lemma rtsumlevel_loop_sound l minlen' maxlen' :
  minlen <= minlen' -> 0 <= maxlen' <= maxlen ->
  forall n i g r g',
    rtsumlevel_loop mp l minlen' maxlen' prod next0 n i g = (r, g') ->
    untouched g0 g -> 0 <= i ->
    untouched g0 g' /\
    (forall len rtx, r = Ok (len, rtx) ->
       extent_admissible g0 minlen maxlen prod len rtx).
Proof.
  intros Hmn Hmx. induction n as [|n IH]; intros i g r g' H Hu Hi.
  - simpl in H. inversion H; subst. split; [exact Hu|discriminate].
  - cbn [rtsumlevel_loop] in H.
    destruct (Z.ltb_spec i (sb_rbmblocks mp)).
    2:{ inversion H; subst. split; [exact Hu|discriminate]. }
    destruct (xfs_rtget_summary mp l i g) as [sum|e].
    2:{ inversion H; subst. split; [exact Hu|discriminate]. }
    destruct (sum =? 0).
    { eapply IH; [exact H|exact Hu|]. apply Z.mod_pos_bound. lia. }
    destruct (xfs_rtallocate_extent_block mp i minlen' maxlen' prod next0 g)
      as [br g1] eqn:Eb.
    destruct (block_in_search_sound i minlen' maxlen' g br g1 Hu ltac:(lia)
                Hmn Hmx Eb) as (Hu1 & _ & Hok).
    destruct br as [len rtx|nx|e].
    + inversion H; subst. split; [exact Hu1|].
      intros len' rtx' E. inversion E; subst. apply Hok. reflexivity.
    + eapply IH; [exact H|exact Hu1|]. apply Z.mod_pos_bound. lia.
    + inversion H; subst. split; [exact Hu1|discriminate].
Qed.

Lemma rtsize_up_sound :
  forall n l g o g',
    rtsize_up mp minlen maxlen prod next0 n l g = (o, g') ->
    untouched g0 g ->
    untouched g0 g' /\
    (forall len rtx, o = Some (Ok (len, rtx)) ->
       extent_admissible g0 minlen maxlen prod len rtx).
Proof.
  induction n as [|n IH]; intros l g o g' H Hu.
  - simpl in H. inversion H; subst. split; [exact Hu|discriminate].
  - cbn [rtsize_up] in H. destruct (u32 l <? m_rsumlevels mp).
    2:{ inversion H; subst. split; [exact Hu|discriminate]. }
    unfold xfs_rtalloc_sumlevel in H.
    destruct (rtsumlevel_loop mp l minlen maxlen prod next0 _ 0 g)
      as [r g1] eqn:El.
    destruct (rtsumlevel_loop_sound l minlen maxlen ltac:(lia) ltac:(lia)
                _ 0 g r g1 El Hu ltac:(lia)) as [Hu1 Hok].
    destruct r as [[len rtx]|e].
    + inversion H; subst. split; [exact Hu1|].
      intros len' rtx' E. inversion E; subst. apply Hok. reflexivity.
    + destruct (e =? - ENOSPC).
      * eapply IH; [exact H|exact Hu1].
      * inversion H; subst. split; [exact Hu1|discriminate].
Qed.

Lemma rtsize_down_sound cap :
  0 <= cap <= maxlen ->
  forall n l g o g',
    rtsize_down mp minlen cap prod next0 n l g = (o, g') ->
    untouched g0 g ->
    untouched g0 g' /\
    (forall len rtx, o = Some (Ok (len, rtx)) ->
       extent_admissible g0 minlen maxlen prod len rtx).
Proof.
  intros Hcapl. induction n as [|n IH]; intros l g o g' H Hu.
  - simpl in H. inversion H; subst. split; [exact Hu|discriminate].
  - cbn [rtsize_down] in H. destruct (l >=? xfs_highbit32 minlen).
    2:{ inversion H; subst. split; [exact Hu|discriminate]. }
    unfold xfs_rtalloc_sumlevel in H.
    set (mn := Z.max minlen _) in H. set (mx := Z.min cap _) in H.
    assert (Hmx : 0 <= mx <= maxlen).
    { subst mx. pose proof (Z.mod_pos_bound (s32 (s32 (Z.shiftl 1 (l + 1)) - 1))
                              (2 ^ 32) ltac:(lia)) as Hb.
      unfold u32. lia. }
    destruct (rtsumlevel_loop mp l mn mx prod next0 _ 0 g) as [r g1] eqn:El.
    destruct (rtsumlevel_loop_sound l mn mx ltac:(subst mn; lia) Hmx
                _ 0 g r g1 El Hu ltac:(lia)) as [Hu1 Hok].
    destruct r as [[len rtx]|e].
    + inversion H; subst. split; [exact Hu1|].
      intros len' rtx' E. inversion E; subst. apply Hok. reflexivity.
    + destruct (e =? - ENOSPC).
      * eapply IH; [exact H|exact Hu1].
      * inversion H; subst. split; [exact Hu1|discriminate].
Qed.

Lemma rtallocate_extent_size_sound_from g r g' :
  1 <= maxlen ->
  xfs_rtallocate_extent_size mp minlen maxlen prod next0 g = (r, g') ->
  untouched g0 g ->
  untouched g0 g' /\
  (forall len rtx, r = Ok (len, rtx) ->
     extent_admissible g0 minlen maxlen prod len rtx).
Proof.
  intros Hm1 H Hu. unfold xfs_rtallocate_extent_size in H. cbv zeta in H.
  destruct (rtsize_up mp minlen maxlen prod next0 _ _ g) as [o g1] eqn:Eu.
  destruct (rtsize_up_sound _ _ g o g1 Eu Hu) as [Hu1 Hok1].
  destruct o as [r1|].
  { inversion H; subst. split; [exact Hu1|].
    intros len rtx E. apply Hok1. rewrite E. reflexivity. }
  rewrite (u32_small (maxlen - 1)) in H by lia.
  destruct (minlen >? maxlen - 1).
  { inversion H; subst. split; [exact Hu1|discriminate]. }
  destruct (rtsize_down mp minlen (maxlen - 1) prod next0 _ _ g1) as [o g2] eqn:Ed.
  destruct (rtsize_down_sound (maxlen - 1) ltac:(lia) _ _ g1 o g2 Ed Hu1)
    as [Hu2 Hok2].
  destruct o as [r2|].
  - inversion H; subst. split; [exact Hu2|].
    intros len rtx E. apply Hok2. rewrite E. reflexivity.
  - inversion H; subst. split; [exact Hu2|discriminate].
Qed.

(** *** Near the hint *)

Variable bbno : Z.
Hypothesis Hbbno : 0 <= bbno < sb_rbmblocks mp.
Hypothesis Hblocks : sb_rbmblocks mp <= 2 ^ 30.

Lemma near_neg_scan_sound maxavail :
  0 <= maxavail <= maxlen ->
  forall n i j g o j' g',
    near_neg_scan mp bbno minlen maxavail prod next0 n i j g = (o, j', g') ->
    untouched g0 g -> - bbno <= i -> j <= -1 ->
    untouched g0 g' /\
    (exists new, rtg_trace g' = rtg_trace g ++ new /\ probes_inside mp new) /\
    (forall len rtx, o = Some (Ok (len, rtx)) ->
       extent_admissible g0 minlen maxlen prod len rtx).
Proof.
  intros Hma. induction n as [|n IH]; intros i j g o j' g' H Hu Hi Hj.
  - simpl in H. inversion H; subst. split; [exact Hu|]. split; [|discriminate].
    exists []. rewrite app_nil_r. split; [reflexivity|constructor].
  - cbn [near_neg_scan] in H. destruct (Z.geb_spec j i).
    2:{ inversion H; subst. split; [exact Hu|]. split; [|discriminate].
        exists []. rewrite app_nil_r. split; [reflexivity|constructor]. }
    rewrite (u64_small (bbno + j)) in H by lia.
    destruct (xfs_rtallocate_extent_block mp (bbno + j) minlen maxavail prod next0 g)
      as [br g1] eqn:Eb.
    destruct (block_in_search_sound (bbno + j) minlen maxavail g br g1 Hu
                ltac:(lia) ltac:(lia) Hma Eb) as (Hu1 & Ht1 & Hok).
    assert (Hin : probes_inside mp [EvBlock (bbno + j) minlen maxavail prod]).
    { constructor; [lia|constructor]. }
    destruct br as [len rtx|nx|e].
    + inversion H; subst. split; [exact Hu1|]. split.
      * eexists. split; [exact Ht1|exact Hin].
      * intros len' rtx' E. inversion E; subst. apply Hok. reflexivity.
    + destruct (IH i (j - 1) g1 o j' g' H Hu1 Hi ltac:(lia))
        as (Hu2 & (new & Ht2 & Hin2) & Hok2).
      split; [exact Hu2|]. split; [|exact Hok2].
      exists ([EvBlock (bbno + j) minlen maxavail prod] ++ new).
      split; [rewrite Ht2, Ht1, <- app_assoc; reflexivity|].
      apply probes_inside_app; assumption.
    + inversion H; subst. split; [exact Hu1|]. split; [|discriminate].
      eexists. split; [exact Ht1|exact Hin].
Qed.

Lemma near_probe_sound i j maxlog g o j' g' :
  near_probe mp bbno minlen maxlen prod next0 i j maxlog g = (o, j', g') ->
  untouched g0 g -> - bbno <= i <= sb_rbmblocks mp - 1 - bbno -> j <= -1 ->
  untouched g0 g' /\
  (exists new, rtg_trace g' = rtg_trace g ++ new /\ probes_inside mp new) /\
  (forall len rtx, o = Some (Ok (len, rtx)) ->
     extent_admissible g0 minlen maxlen prod len rtx) /\
  (o = None -> j' <= -1).
Proof.
  intros H Hu Hi Hj. unfold near_probe in H.
  destruct (maxlog >=? 0).
  2:{ inversion H; subst. split; [exact Hu|]. split; [|split; [discriminate|auto]].
      exists []. rewrite app_nil_r. split; [reflexivity|constructor]. }
  cbv zeta in H.
  set (maxavail := u32 _) in H.
  assert (Hma : 0 <= maxavail <= maxlen).
  { subst maxavail.
    pose proof (Z.mod_pos_bound (Z.shiftl 1 (maxlog + 1) - 1) (2 ^ 64) ltac:(lia)).
    unfold u64. rewrite u32_small by lia. lia. }
  destruct (Z.geb_spec i 0).
  - rewrite (u64_small (bbno + i)) in H by lia.
    destruct (xfs_rtallocate_extent_block mp (bbno + i) minlen maxavail prod next0 g)
      as [br g1] eqn:Eb.
    destruct (block_in_search_sound (bbno + i) minlen maxavail g br g1 Hu
                ltac:(lia) ltac:(lia) Hma Eb) as (Hu1 & Ht1 & Hok).
    assert (Hin : probes_inside mp [EvBlock (bbno + i) minlen maxavail prod]).
    { constructor; [lia|constructor]. }
    destruct br as [len rtx|nx|e]; inversion H; subst;
      (split; [exact Hu1|]); (split; [eexists; split; [exact Ht1|exact Hin]|]);
      split; try discriminate; auto.
    intros len' rtx' E. inversion E; subst. apply Hok. reflexivity.
  - set (jn := Z.min _ j) in H.
    destruct (near_neg_scan_sound maxavail Hma _ i jn g o j' g' H Hu
                ltac:(lia) ltac:(lia)) as (Hu1 & Htr & Hok).
    split; [exact Hu1|]. split; [exact Htr|]. split; [exact Hok|].
    intros ->.
    destruct (near_neg_scan_all_nospace mp bbno minlen prod next0 maxavail
                _ i jn g j' g' H eq_refl) as [_ Hj'].
    lia.
Qed.

Lemma rtnear_loop_sound log2len :
  forall n i j g r g',
    rtnear_loop mp bbno minlen maxlen prod next0 log2len n i j g = (r, g') ->
    untouched g0 g -> - bbno <= i <= sb_rbmblocks mp - 1 - bbno -> j <= -1 ->
    untouched g0 g' /\
    (exists new, rtg_trace g' = rtg_trace g ++ new /\ probes_inside mp new) /\
    (forall len rtx, r = Ok (len, rtx) ->
       extent_admissible g0 minlen maxlen prod len rtx).
Proof.
  induction n as [|n IH]; intros i j g r g' H Hu Hi Hj.
  - simpl in H. inversion H; subst. split; [exact Hu|]. split; [|discriminate].
    exists []. rewrite app_nil_r. split; [reflexivity|constructor].
  - cbn [rtnear_loop] in H.
    pose proof (rtany_summary_trace mp log2len (s32 (u32 (m_rsumlevels mp - 1)))
                  (u64 (bbno + i)) g) as Htr.
    pose proof (rtany_summary_untouched mp log2len
                  (s32 (u32 (m_rsumlevels mp - 1))) (u64 (bbno + i)) g) as Hua.
    destruct (xfs_rtany_summary mp log2len _ (u64 (bbno + i)) g) as [[maxlog|e] g1];
      cbn [snd] in Htr, Hua.
    2:{ inversion H; subst. split; [eapply untouched_trans; eassumption|].
        split; [|discriminate].
        exists []. rewrite app_nil_r. split; [exact Htr|constructor]. }
    assert (Hu1 : untouched g0 g1) by (eapply untouched_trans; eassumption).
    destruct (near_probe mp bbno minlen maxlen prod next0 i j maxlog g1)
      as [[o j1] g2] eqn:Ep.
    destruct (near_probe_sound i j maxlog g1 o j1 g2 Ep Hu1 Hi Hj)
      as (Hu2 & (new & Ht2 & Hin2) & Hok & Hj1).
    rewrite Htr in Ht2.
    destruct o as [r0|].
    + inversion H; subst. split; [exact Hu2|]. split; [eauto|].
      intros len rtx E. apply Hok. rewrite E. reflexivity.
    + destruct (near_next_i mp bbno i) as [i'|] eqn:En.
      * destruct (near_next_i_rank mp bbno ltac:(lia) ltac:(lia) i i'
                    ltac:(lia) En) as [Hi' _].
        destruct (IH i' j1 g2 r g' H Hu2 ltac:(lia) (Hj1 eq_refl))
          as (Hu3 & (new3 & Ht3 & Hin3) & Hok3).
        split; [exact Hu3|]. split; [|exact Hok3].
        exists (new ++ new3). split; [rewrite Ht3, Ht2, <- app_assoc; reflexivity|].
        apply probes_inside_app; assumption.
      * inversion H; subst. split; [exact Hu2|]. split; [eauto|discriminate].
Qed.

End Searches.

Lemma untouched_sym g1 g2 : untouched g1 g2 -> untouched g2 g1.
Proof. unfold untouched. intuition congruence. Qed.

(** *** What the searches read *)

Lemma rtblock_scan_ext mp minlen maxlen prod end_ g1 g2 :
  rtg_extents g1 = rtg_extents g2 -> rbm g1 = rbm g2 ->
  forall n i next besti bestlen,
    rtblock_scan mp minlen maxlen prod end_ n i next besti bestlen g1
      = rtblock_scan mp minlen maxlen prod end_ n i next besti bestlen g2.
Proof.
  intros He Hb. induction n as [|n IH]; intros i next besti bestlen;
    cbn [rtblock_scan]; [reflexivity|].
  unfold xfs_rtcheck_range, xfs_rtfind_forw. rewrite He, Hb.
  destruct (i <=? end_); [|reflexivity].
  destruct (_ <? minlen); [reflexivity|].
  destruct (bmblock_mapped mp i); [|reflexivity].
  destruct (_ =? _); [reflexivity|].
  destruct (_ >=? end_); [reflexivity|].
  destruct (bmblock_mapped mp _); [|reflexivity].
  apply IH.
Qed.

Lemma rtallocate_extent_block_ext mp bbno minlen maxlen prod next0 g1 g2 :
  untouched g1 g2 ->
  fst (xfs_rtallocate_extent_block mp bbno minlen maxlen prod next0 g1)
    = fst (xfs_rtallocate_extent_block mp bbno minlen maxlen prod next0 g2).
Proof.
  intros (_ & He & Hb & _). unfold xfs_rtallocate_extent_block. cbv zeta.
  cbn [rtg_extents log_event]. rewrite He.
  rewrite (rtblock_scan_ext mp minlen maxlen prod _
             (log_event (EvBlock bbno minlen maxlen prod) g1)
             (log_event (EvBlock bbno minlen maxlen prod) g2)
             ltac:(cbn; congruence) ltac:(cbn; congruence)).
  destruct (rtblock_scan _ _ _ _ _ _ _ _ _ _ _); try reflexivity.
  destruct (_ =? -1); [reflexivity|]. destruct (_ <? minlen); reflexivity.
Qed.

Lemma rtallocate_extent_block_untouched mp bbno minlen maxlen prod next0 g :
  untouched g (snd (xfs_rtallocate_extent_block mp bbno minlen maxlen prod next0 g)).
Proof. rewrite rtallocate_extent_block_state. apply untouched_log_event. Qed.

Lemma rtget_summary_ext mp l i g1 g2 :
  untouched g1 g2 -> xfs_rtget_summary mp l i g1 = xfs_rtget_summary mp l i g2.
Proof. intros (_ & _ & _ & Hs & _). unfold xfs_rtget_summary. rewrite Hs. reflexivity. Qed.

Lemma rtsumlevel_loop_ext mp l minlen maxlen prod next0 :
  forall n i g1 g2,
    untouched g1 g2 ->
    fst (rtsumlevel_loop mp l minlen maxlen prod next0 n i g1)
      = fst (rtsumlevel_loop mp l minlen maxlen prod next0 n i g2) /\
    untouched g1 (snd (rtsumlevel_loop mp l minlen maxlen prod next0 n i g1)) /\
    untouched g2 (snd (rtsumlevel_loop mp l minlen maxlen prod next0 n i g2)).
Proof.
  induction n as [|n IH]; intros i g1 g2 Hu; cbn [rtsumlevel_loop].
  - cbn. auto using untouched_refl.
  - destruct (i <? sb_rbmblocks mp); [|cbn; auto using untouched_refl].
    rewrite (rtget_summary_ext mp l i g1 g2 Hu).
    destruct (xfs_rtget_summary mp l i g2) as [sum|e];
      [|cbn; auto using untouched_refl].
    destruct (sum =? 0); [apply IH; exact Hu|].
    pose proof (rtallocate_extent_block_ext mp i minlen maxlen prod next0 g1 g2 Hu)
      as Hf.
    pose proof (rtallocate_extent_block_untouched mp i minlen maxlen prod next0 g1)
      as H1.
    pose proof (rtallocate_extent_block_untouched mp i minlen maxlen prod next0 g2)
      as H2.
    destruct (xfs_rtallocate_extent_block mp i minlen maxlen prod next0 g1)
      as [r1 g1'].
    destruct (xfs_rtallocate_extent_block mp i minlen maxlen prod next0 g2)
      as [r2 g2'].
    cbn [fst snd] in *. subst r2.
    destruct r1 as [len rtx|nx|e]; [cbn; auto| |cbn; auto].
    assert (Hu' : untouched g1' g2').
    { eapply untouched_trans; [apply untouched_sym; exact H1|].
      eapply untouched_trans; [exact Hu|exact H2]. }
    destruct (IH (u64 ((if xfs_rtx_to_rbmblock mp nx >? u64 (i + 1)
                        then u64 (xfs_rtx_to_rbmblock mp nx - 1) else i) + 1))
                g1' g2' Hu') as (Ha & Hb & Hc).
    split; [exact Ha|].
    split; eapply untouched_trans; eassumption.
Qed.

Lemma rtsize_up_ext mp minlen maxlen prod next0 :
  forall n l g1 g2,
    untouched g1 g2 ->
    fst (rtsize_up mp minlen maxlen prod next0 n l g1)
      = fst (rtsize_up mp minlen maxlen prod next0 n l g2) /\
    untouched g1 (snd (rtsize_up mp minlen maxlen prod next0 n l g1)) /\
    untouched g2 (snd (rtsize_up mp minlen maxlen prod next0 n l g2)).
Proof.
  induction n as [|n IH]; intros l g1 g2 Hu; cbn [rtsize_up].
  - cbn. auto using untouched_refl.
  - destruct (u32 l <? m_rsumlevels mp); [|cbn; auto using untouched_refl].
    unfold xfs_rtalloc_sumlevel.
    destruct (rtsumlevel_loop_ext mp l minlen maxlen prod next0
                (Z.to_nat (sb_rbmblocks mp)) 0 g1 g2 Hu) as (Hf & H1 & H2).
    destruct (rtsumlevel_loop mp l minlen maxlen prod next0 _ 0 g1) as [r1 g1'].
    destruct (rtsumlevel_loop mp l minlen maxlen prod next0 _ 0 g2) as [r2 g2'].
    cbn [fst snd] in *. subst r2.
    destruct r1 as [r|e]; [cbn; auto|].
    destruct (e =? - ENOSPC); [|cbn; auto].
    assert (Hu' : untouched g1' g2').
    { eapply untouched_trans; [apply untouched_sym; exact H1|].
      eapply untouched_trans; [exact Hu|exact H2]. }
    destruct (IH (l + 1) g1' g2' Hu') as (Ha & Hb & Hc).
    split; [exact Ha|]. split; eapply untouched_trans; eassumption.
Qed.

Lemma rtsize_down_ext mp minlen maxlen prod next0 :
  forall n l g1 g2,
    untouched g1 g2 ->
    fst (rtsize_down mp minlen maxlen prod next0 n l g1)
      = fst (rtsize_down mp minlen maxlen prod next0 n l g2) /\
    untouched g1 (snd (rtsize_down mp minlen maxlen prod next0 n l g1)) /\
    untouched g2 (snd (rtsize_down mp minlen maxlen prod next0 n l g2)).
Proof.
  induction n as [|n IH]; intros l g1 g2 Hu; cbn [rtsize_down].
  - cbn. auto using untouched_refl.
  - destruct (l >=? xfs_highbit32 minlen); [|cbn; auto using untouched_refl].
    unfold xfs_rtalloc_sumlevel.
    set (mn := Z.max minlen _). set (mx := Z.min maxlen _).
    destruct (rtsumlevel_loop_ext mp l mn mx prod next0
                (Z.to_nat (sb_rbmblocks mp)) 0 g1 g2 Hu) as (Hf & H1 & H2).
    destruct (rtsumlevel_loop mp l mn mx prod next0 _ 0 g1) as [r1 g1'].
    destruct (rtsumlevel_loop mp l mn mx prod next0 _ 0 g2) as [r2 g2'].
    cbn [fst snd] in *. subst r2.
    destruct r1 as [r|e]; [cbn; auto|].
    destruct (e =? - ENOSPC); [|cbn; auto].
    assert (Hu' : untouched g1' g2').
    { eapply untouched_trans; [apply untouched_sym; exact H1|].
      eapply untouched_trans; [exact Hu|exact H2]. }
    destruct (IH (l - 1) g1' g2' Hu') as (Ha & Hb & Hc).
    split; [exact Ha|]. split; eapply untouched_trans; eassumption.
Qed.

Lemma rtallocate_extent_size_ext mp minlen maxlen prod next0 g1 g2 :
  untouched g1 g2 ->
  fst (xfs_rtallocate_extent_size mp minlen maxlen prod next0 g1)
    = fst (xfs_rtallocate_extent_size mp minlen maxlen prod next0 g2) /\
  untouched g1 (snd (xfs_rtallocate_extent_size mp minlen maxlen prod next0 g1)) /\
  untouched g2 (snd (xfs_rtallocate_extent_size mp minlen maxlen prod next0 g2)).
Proof.
  intros Hu. unfold xfs_rtallocate_extent_size. cbv zeta.
  destruct (rtsize_up_ext mp minlen maxlen prod next0
              (Z.to_nat (m_rsumlevels mp - xfs_highbit32 maxlen))
              (xfs_highbit32 maxlen) g1 g2 Hu) as (Hf & H1 & H2).
  destruct (rtsize_up mp minlen maxlen prod next0 _ _ g1) as [o1 g1'].
  destruct (rtsize_up mp minlen maxlen prod next0 _ _ g2) as [o2 g2'].
  cbn [fst snd] in *. subst o2.
  destruct o1 as [r|]; [cbn; auto|].
  destruct (minlen >? u32 (maxlen - 1)); [cbn; auto|].
  assert (Hu' : untouched g1' g2').
  { eapply untouched_trans; [apply untouched_sym; exact H1|].
    eapply untouched_trans; [exact Hu|exact H2]. }
  destruct (rtsize_down_ext mp minlen (u32 (maxlen - 1)) prod next0
              (Z.to_nat (xfs_highbit32 (u32 (maxlen - 1)) - xfs_highbit32 minlen + 1))
              (xfs_highbit32 (u32 (maxlen - 1))) g1' g2' Hu') as (Hf' & H1' & H2').
  destruct (rtsize_down mp minlen _ prod next0 _ _ g1') as [o1 g1''].
  destruct (rtsize_down mp minlen _ prod next0 _ _ g2') as [o2 g2''].
  cbn [fst snd] in *. subst o2.
  destruct o1 as [r|]; cbn [fst snd];
    (split; [reflexivity|]); split; eapply untouched_trans; eassumption.
Qed.

(** *** The near-hint search changes nothing but the hint and the trace *)

Lemma near_neg_scan_untouched mp bbno minlen maxavail prod next0 :
  forall n i j g,
    untouched g (snd (near_neg_scan mp bbno minlen maxavail prod next0 n i j g)).
Proof.
  induction n as [|n IH]; intros i j g; cbn [near_neg_scan];
    [apply untouched_refl|].
  destruct (j >=? i); [|apply untouched_refl].
  pose proof (rtallocate_extent_block_untouched mp (u64 (bbno + j)) minlen maxavail
                prod next0 g) as H1.
  destruct (xfs_rtallocate_extent_block mp (u64 (bbno + j)) minlen maxavail prod
              next0 g) as [[len rtx|nx|e] g1]; cbn [snd] in *; try exact H1.
  eapply untouched_trans; [exact H1|apply IH].
Qed.

Lemma near_probe_untouched mp bbno minlen maxlen prod next0 i j maxlog g :
  untouched g (snd (near_probe mp bbno minlen maxlen prod next0 i j maxlog g)).
Proof.
  unfold near_probe. destruct (maxlog >=? 0); [|apply untouched_refl].
  cbv zeta. destruct (i >=? 0).
  - match goal with
    | |- context [xfs_rtallocate_extent_block ?a ?b ?c ?d ?e ?f ?h] =>
        pose proof (rtallocate_extent_block_untouched a b c d e f h) as H1;
        destruct (xfs_rtallocate_extent_block a b c d e f h) as [[len rtx|nx|e0] g1]
    end; exact H1.
  - apply near_neg_scan_untouched.
Qed.

Lemma rtnear_loop_untouched mp bbno minlen maxlen prod next0 log2len :
  forall n i j g,
    untouched g
      (snd (rtnear_loop mp bbno minlen maxlen prod next0 log2len n i j g)).
Proof.
  induction n as [|n IH]; intros i j g; cbn [rtnear_loop]; [apply untouched_refl|].
  pose proof (rtany_summary_untouched mp log2len (s32 (u32 (m_rsumlevels mp - 1)))
                (u64 (bbno + i)) g) as H1.
  destruct (xfs_rtany_summary mp log2len _ (u64 (bbno + i)) g) as [[maxlog|e] g1];
    cbn [snd] in *; [|exact H1].
  pose proof (near_probe_untouched mp bbno minlen maxlen prod next0 i j maxlog g1)
    as H2.
  destruct (near_probe mp bbno minlen maxlen prod next0 i j maxlog g1)
    as [[[r|] j1] g2]; cbn [snd] in *.
  - eapply untouched_trans; eassumption.
  - destruct (near_next_i mp bbno i) as [i'|].
    + eapply untouched_trans; [exact H1|].
      eapply untouched_trans; [exact H2|apply IH].
    + eapply untouched_trans; eassumption.
Qed.

Lemma rtallocate_extent_near_untouched mp start minlen maxlen prod next0 g :
  untouched g (snd (xfs_rtallocate_extent_near mp start minlen maxlen prod next0 g)).
Proof.
  unfold xfs_rtallocate_extent_near. cbv zeta.
  destruct (xfs_rtallocate_extent_exact mp _ minlen maxlen prod g);
    [apply untouched_refl|].
  destruct (negb _); [apply untouched_refl|]. apply rtnear_loop_untouched.
Qed.

(** *** Closed statements *)

Lemma near_start_block mp start g :
  0 <= start -> 0 < rtg_extents g < 2 ^ 63 -> 0 <= m_blkbit_log mp ->
  rtg_extents g <= sb_rbmblocks mp * 2 ^ m_blkbit_log mp ->
  let start' := Z.min start (u64 (rtg_extents g - 1)) in
  0 <= start' < rtg_extents g /\
  0 <= xfs_rtx_to_rbmblock mp start' < sb_rbmblocks mp.
Proof.
  intros Hs He Hlog Hcov start'. subst start'.
  rewrite (u64_small (rtg_extents g - 1)) by lia.
  split; [lia|]. unfold xfs_rtx_to_rbmblock. rewrite Z.shiftr_div_pow2 by lia.
  pose proof (Z.pow_pos_nonneg 2 (m_blkbit_log mp) ltac:(lia) Hlog) as Hp.
  split; [apply Z.div_pos; lia|].
  apply Z.div_lt_upper_bound; lia.
Qed.

Lemma rtallocate_extent_near_facts mp start minlen maxlen prod next0 g r g' :
  0 <= start -> 0 < rtg_extents g < 2 ^ 63 -> 0 <= m_blkbit_log mp ->
  rtg_extents g <= sb_rbmblocks mp * 2 ^ m_blkbit_log mp ->
  sb_rbmblocks mp <= 2 ^ 30 ->
  sb_rbmblocks mp * 2 ^ m_blkbit_log mp < 2 ^ 64 ->
  0 <= minlen -> 0 <= maxlen < 2 ^ 32 ->
  xfs_rtallocate_extent_near mp start minlen maxlen prod next0 g = (r, g') ->
  (exists new, rtg_trace g' = rtg_trace g ++ new /\ probes_inside mp new) /\
  (forall len rtx, r = Ok (len, rtx) ->
     extent_admissible g minlen maxlen prod len rtx).
Proof.
  intros Hs He Hlog Hcov Hblocks Hcap Hmin Hmax H.
  destruct (near_start_block mp start g Hs He Hlog Hcov) as [Hs' Hb].
  unfold xfs_rtallocate_extent_near in H. cbv zeta in H.
  set (start' := Z.min start _) in *.
  destruct (xfs_rtallocate_extent_exact mp start' minlen maxlen prod g)
    as [[len0 rtx0]|e] eqn:Ee.
  { inversion H; subst. split.
    - exists []. rewrite app_nil_r. split; [reflexivity|constructor].
    - intros len rtx E. inversion E; subst.
      eapply rtallocate_extent_exact_sound; [exact Hs'|lia|exact Hmin|exact Hmax|].
      exact Ee. }
  destruct (negb (e =? - ENOSPC)).
  { inversion H; subst. split; [|discriminate].
    exists []. rewrite app_nil_r. split; [reflexivity|constructor]. }
  destruct (rtnear_loop_sound mp minlen maxlen prod next0 g He Hlog Hcap Hmin Hmax
              (xfs_rtx_to_rbmblock mp start') Hb Hblocks _ _ 0 (-1) g r g' H
              (untouched_refl g) ltac:(lia) ltac:(lia)) as (_ & Htr & Hok).
  split; assumption.
Qed.

(** X2.  An extent that the size-first search returns is admissible for the
    request: between [minlen] and [maxlen] long, a multiple of [prod] when
    [prod > 1], inside the group and free in the bitmap, in both rounds of
    the search; the search changes nothing but the trace. *)
Theorem rtallocate_extent_size_sound (mp : xfs_mount)
    (minlen maxlen prod next0 : Z) (g : rtgroup) (len rtx : Z) (g' : rtgroup) :
  0 < rtg_extents g < 2 ^ 63 -> 0 <= m_blkbit_log mp ->
  sb_rbmblocks mp * 2 ^ m_blkbit_log mp < 2 ^ 64 ->
  0 <= minlen -> 1 <= maxlen < 2 ^ 32 ->
  xfs_rtallocate_extent_size mp minlen maxlen prod next0 g = (Ok (len, rtx), g') ->
  extent_admissible g minlen maxlen prod len rtx /\ untouched g g'.
Proof.
  intros He Hlog Hcap Hmin Hmax H.
  destruct (rtallocate_extent_size_sound_from mp minlen maxlen prod next0 g
              He Hlog Hcap Hmin ltac:(lia) g (Ok (len, rtx)) g' ltac:(lia) H
              (untouched_refl g)) as [Hu Hok].
  split; [apply Hok; reflexivity|exact Hu].
Qed.

(** X3.  An extent that the near-hint search returns, from the exact probe at
    the hint or from any block scan around it, is admissible for the request
    and free in the bitmap; the search changes nothing but the hint array and
    the trace. *)
Theorem rtallocate_extent_near_sound (mp : xfs_mount)
    (start minlen maxlen prod next0 : Z) (g : rtgroup) (len rtx : Z) (g' : rtgroup) :
  0 <= start -> 0 < rtg_extents g < 2 ^ 63 -> 0 <= m_blkbit_log mp ->
  rtg_extents g <= sb_rbmblocks mp * 2 ^ m_blkbit_log mp ->
  sb_rbmblocks mp <= 2 ^ 30 ->
  sb_rbmblocks mp * 2 ^ m_blkbit_log mp < 2 ^ 64 ->
  0 <= minlen -> 0 <= maxlen < 2 ^ 32 ->
  xfs_rtallocate_extent_near mp start minlen maxlen prod next0 g
    = (Ok (len, rtx), g') ->
  extent_admissible g minlen maxlen prod len rtx /\ untouched g g'.
Proof.
  intros Hs He Hlog Hcov Hblocks Hcap Hmin Hmax H.
  destruct (rtallocate_extent_near_facts mp start minlen maxlen prod next0 g _ g'
              Hs He Hlog Hcov Hblocks Hcap Hmin Hmax H) as [_ Hok].
  split; [apply Hok; reflexivity|].
  pose proof (rtallocate_extent_near_untouched mp start minlen maxlen prod next0 g)
    as Hu.
  rewrite H in Hu. exact Hu.
Qed.

(** X4.  When the bitmap covers the group, every block scan the near-hint
    search starts is on a block of the bitmap: the offsets it walks, positive
    and negative, never leave [[0, sb_rbmblocks)], whatever the start and
    whatever the summary reports. *)
Theorem rtallocate_extent_near_inside (mp : xfs_mount)
    (start minlen maxlen prod next0 : Z) (g : rtgroup) :
  0 <= start -> 0 < rtg_extents g < 2 ^ 63 -> 0 <= m_blkbit_log mp ->
  rtg_extents g <= sb_rbmblocks mp * 2 ^ m_blkbit_log mp ->
  sb_rbmblocks mp <= 2 ^ 30 ->
  sb_rbmblocks mp * 2 ^ m_blkbit_log mp < 2 ^ 64 ->
  0 <= minlen -> 0 <= maxlen < 2 ^ 32 ->
  exists new,
    rtg_trace (snd (xfs_rtallocate_extent_near mp start minlen maxlen prod next0 g))
      = rtg_trace g ++ new /\
    probes_inside mp new.
Proof.
  intros Hs He Hlog Hcov Hblocks Hcap Hmin Hmax.
  destruct (xfs_rtallocate_extent_near mp start minlen maxlen prod next0 g)
    as [r g'] eqn:E.
  destruct (rtallocate_extent_near_facts mp start minlen maxlen prod next0 g r g'
              Hs He Hlog Hcov Hblocks Hcap Hmin Hmax E) as [Htr _].
  exact Htr.
Qed.

(** X5.  In [xfs_rtallocate] the size-first search runs whenever [error] is
    0 after the near-hint search, also when the near-hint search has found an
    extent, and it overwrites [len] and [rtx].  So unless the near-hint
    search ends in an error other than NOSPACE, the extent the searches hand
    on is the one size-first finds on the same bitmap and summary: it does
    not depend on the start position. *)
Theorem rtallocate_search_ignores_start (mp : xfs_mount)
    (start minlen maxlen prod next0 : Z) (g : rtgroup) :
  (forall e g1,
     xfs_rtallocate_extent_near mp start minlen maxlen prod next0 g = (Err e, g1) ->
     e = - ENOSPC) ->
  fst (rtallocate_search mp start minlen maxlen prod next0 g)
    = fst (xfs_rtallocate_extent_size mp minlen maxlen prod next0 g).
Proof.
  intros Hsoft. unfold rtallocate_search.
  destruct (negb (start =? 0)); [|reflexivity].
  pose proof (rtallocate_extent_near_untouched mp start minlen maxlen prod next0 g)
    as Hu.
  destruct (xfs_rtallocate_extent_near mp start minlen maxlen prod next0 g)
    as [[r|e] g1]; cbn [snd] in Hu.
  - cbn [Z.eqb]. apply rtallocate_extent_size_ext. apply untouched_sym. exact Hu.
  - rewrite (Hsoft e g1 eq_refl). rewrite Z.eqb_refl. cbn [Z.eqb].
    apply rtallocate_extent_size_ext. apply untouched_sym.
    eapply untouched_trans; [exact Hu|apply untouched_log_event].
Qed.

(** *** xfs_rtallocate *)

Lemma rtmodify_summary_bits mp L B d g r g' :
  xfs_rtmodify_summary mp L B d g = (r, g') ->
  rtg_extents g' = rtg_extents g /\ rbm g' = rbm g /\
  tp_frextents g' = tp_frextents g /\ tp_res_frextents g' = tp_res_frextents g.
Proof.
  unfold xfs_rtmodify_summary. destruct (rsum g !! _); intros H; inversion H; subst;
    cbn; auto.
Qed.

Lemma rtallocate_range_bits mp start len g r g' :
  xfs_rtallocate_range mp start len g = (r, g') ->
  rtg_extents g' = rtg_extents g /\
  tp_frextents g' = tp_frextents g /\ tp_res_frextents g' = tp_res_frextents g /\
  rbm g' = match r with
           | Ok _ => Z.ldiff (rbm g) (Z.shiftl (Z.ones len) start)
           | Err _ => rbm g
           end.
Proof.
  unfold xfs_rtallocate_range, bind, lift. cbv zeta.
  destruct (xfs_rtfind_back mp start g) as [pre|e];
    [|intros H; inversion H; subst; auto].
  destruct (xfs_rtfind_forw mp _ _ g) as [post|e];
    [|intros H; inversion H; subst; auto].
  destruct (xfs_rtmodify_summary mp _ _ (-1) g) as [[[]|e] g1] eqn:E1;
    apply rtmodify_summary_bits in E1; destruct E1 as (A1 & B1 & C1 & D1);
    [|intros H; inversion H; subst; auto].
  assert (E2 : forall c L B (r2 : result unit) g2,
             (if c : bool then xfs_rtmodify_summary mp L B 1 else ret tt) g1 = (r2, g2) ->
             rtg_extents g2 = rtg_extents g /\ rbm g2 = rbm g /\
             tp_frextents g2 = tp_frextents g /\
             tp_res_frextents g2 = tp_res_frextents g).
  { intros c L B r2 g2 H. destruct c.
    - apply rtmodify_summary_bits in H. intuition congruence.
    - inversion H; subst. auto. }
  match goal with
  | |- context [(if pre <? start then ?a else ?b) g1] =>
      destruct ((if pre <? start then a else b) g1) as [[[]|e] g2] eqn:E2'
  end;
    apply E2 in E2'; destruct E2' as (A2 & B2 & C2 & D2);
    [|intros H; inversion H; subst; auto].
  assert (E3 : forall c L B (r3 : result unit) g3,
             (if c : bool then xfs_rtmodify_summary mp L B 1 else ret tt) g2 = (r3, g3) ->
             rtg_extents g3 = rtg_extents g /\ rbm g3 = rbm g /\
             tp_frextents g3 = tp_frextents g /\
             tp_res_frextents g3 = tp_res_frextents g).
  { intros c L B r3 g3 H. destruct c.
    - apply rtmodify_summary_bits in H. intuition congruence.
    - inversion H; subst. auto. }
  match goal with
  | |- context [(if post >? ?x then ?a else ?b) g2] =>
      destruct ((if post >? x then a else b) g2) as [[[]|e] g3] eqn:E3'
  end;
    apply E3 in E3'; destruct E3' as (A3 & B3 & C3 & D3);
    [|intros H; inversion H; subst; auto].
  unfold xfs_rtmodify_range. destruct (bmblock_mapped mp start);
    intros H; inversion H; subst; cbn; rewrite ?B3; auto.
Qed.

Lemma rtallocate_start_bits mp bno_hint maxlen iud g start g' :
  rtallocate_start mp bno_hint maxlen iud g = (start, g') ->
  rtg_active g' = rtg_active g /\ rtg_extents g' = rtg_extents g /\
  rbm g' = rbm g /\ rsum g' = rsum g /\
  tp_frextents g' = tp_frextents g /\ tp_res_frextents g' = tp_res_frextents g.
Proof.
  unfold rtallocate_start, xfs_rtpick_extent.
  destruct (negb _); [intros H; inversion H; subst; auto 10|].
  destruct iud; intros H; inversion H; subst; cbn; auto 10.
Qed.

Lemma rtallocate_search_untouched mp start minlen maxlen prod next0 g :
  untouched g (snd (rtallocate_search mp start minlen maxlen prod next0 g)).
Proof.
  unfold rtallocate_search.
  assert (Hsz : forall g1, untouched g g1 ->
            untouched g (snd (xfs_rtallocate_extent_size mp minlen maxlen prod
                                next0 g1))).
  { intros g1 Hu. eapply untouched_trans; [exact Hu|].
    apply (rtallocate_extent_size_ext mp minlen maxlen prod next0 g1 g1
             (untouched_refl g1)). }
  destruct (negb (start =? 0)); [|cbn [Z.eqb]; apply Hsz, untouched_refl].
  pose proof (rtallocate_extent_near_untouched mp start minlen maxlen prod next0 g)
    as Hu.
  destruct (xfs_rtallocate_extent_near mp start minlen maxlen prod next0 g)
    as [[r|e] g1]; cbn [snd] in Hu.
  - cbn [Z.eqb]. apply Hsz. exact Hu.
  - destruct (e =? - ENOSPC).
    + cbn [Z.eqb]. apply Hsz. eapply untouched_trans; [exact Hu|].
      apply untouched_log_event.
    + destruct (e =? 0); [apply Hsz; exact Hu|exact Hu].
Qed.

(** X6.  When [xfs_rtallocate] returns an error, whichever step failed, the
    bitmap, the size of the group and both free-extent deltas of the
    transaction are as they were: the bits are written last, after every
    summary update has succeeded, and the deltas after the bits. *)
Theorem rtallocate_failure_keeps_bitmap (mp : xfs_mount)
    (bno_hint minlen maxlen prod : Z) (wasdel iud rl : bool) (next0 : Z)
    (g : rtgroup) (e : Z) (rl' : bool) (g' : rtgroup) :
  xfs_rtallocate mp bno_hint minlen maxlen prod wasdel iud rl next0 g
    = (Err e, rl', g') ->
  rbm g' = rbm g /\ rtg_extents g' = rtg_extents g /\
  tp_frextents g' = tp_frextents g /\ tp_res_frextents g' = tp_res_frextents g.
Proof.
  unfold xfs_rtallocate. cbv zeta. cbn [rtg_active log_event].
  destruct (negb (rtg_active g)).
  { intros H. inversion H; subst. cbn. auto. }
  destruct (rtallocate_start mp bno_hint maxlen iud _) as [start gp] eqn:Es.
  apply rtallocate_start_bits in Es. cbn in Es.
  destruct Es as (_ & Es1 & Es2 & _ & Es3 & Es4).
  pose proof (rtallocate_search_untouched mp start minlen maxlen prod next0 gp) as Hu.
  destruct (rtallocate_search mp start minlen maxlen prod next0 gp)
    as [[[len rtx]|e1] g1]; cbn [snd] in Hu;
    destruct Hu as (_ & U1 & U2 & _ & _ & _ & U3 & U4).
  2:{ intros H. inversion H; subst. cbn. repeat split; congruence. }
  destruct (xfs_rtallocate_range mp rtx len g1) as [[[]|e2] g2] eqn:Er;
    apply rtallocate_range_bits in Er; destruct Er as (R1 & R2 & R3 & R4).
  - destruct wasdel; intros H; inversion H.
  - intros H. inversion H; subst. cbn. repeat split; congruence.
Qed.

(** X7.  When [xfs_rtallocate] succeeds, the block range it returns is that
    of an extent [(len, rtx)] which was admissible for the request and free
    before the call; afterwards exactly the bits of [[rtx, rtx + len)] are
    cleared and every other bit is as before, [len] has been subtracted from
    the reserved delta when [wasdel] and from the free delta otherwise, and
    the group is locked. *)
Theorem rtallocate_success_effect (mp : xfs_mount)
    (bno_hint minlen maxlen prod : Z) (wasdel iud rl : bool) (next0 : Z)
    (g : rtgroup) (bno blen : Z) (rl' : bool) (g' : rtgroup) :
  0 < rtg_extents g < 2 ^ 63 -> 0 <= m_blkbit_log mp ->
  sb_rbmblocks mp * 2 ^ m_blkbit_log mp < 2 ^ 64 ->
  0 <= minlen -> 1 <= maxlen < 2 ^ 32 ->
  xfs_rtallocate mp bno_hint minlen maxlen prod wasdel iud rl next0 g
    = (Ok (bno, blen), rl', g') ->
  exists len rtx,
    bno = xfs_rtx_to_rtb mp rtx /\ blen = xfs_rtxlen_to_extlen mp len /\
    extent_admissible g minlen maxlen prod len rtx /\
    (forall i, 0 <= i ->
       Z.testbit (rbm g') i =
         if (rtx <=? i) && (i <? rtx + len) then false
         else Z.testbit (rbm g) i) /\
    rtg_extents g' = rtg_extents g /\
    tp_frextents g' = tp_frextents g - (if wasdel then 0 else len) /\
    tp_res_frextents g' = tp_res_frextents g - (if wasdel then len else 0) /\
    rl' = true.
Proof.
  intros He Hlog Hcap Hmin Hmax. unfold xfs_rtallocate. cbv zeta.
  cbn [rtg_active log_event].
  destruct (negb (rtg_active g)); [intros H; inversion H|].
  destruct (rtallocate_start mp bno_hint maxlen iud _) as [start gp] eqn:Es.
  apply rtallocate_start_bits in Es. cbn in Es.
  destruct Es as (_ & Es1 & Es2 & _ & Es3 & Es4).
  destruct (rtallocate_search mp start minlen maxlen prod next0 gp)
    as [[[len rtx]|e1] g1] eqn:Esr; [|intros H; inversion H].
  assert (Hadm : extent_admissible gp minlen maxlen prod len rtx /\ untouched gp g1).
  { unfold rtallocate_search in Esr.
    assert (Hsz : forall gs, untouched gp gs ->
              xfs_rtallocate_extent_size mp minlen maxlen prod next0 gs
                = (Ok (len, rtx), g1) ->
              extent_admissible gp minlen maxlen prod len rtx /\ untouched gp g1).
    { intros gs Hu Hs.
      destruct (rtallocate_extent_size_sound_from mp minlen maxlen prod next0 gp
                  ltac:(lia) Hlog Hcap Hmin ltac:(lia) gs _ g1 ltac:(lia) Hs Hu)
        as [Hu1 Hok].
      split; [apply Hok; reflexivity|exact Hu1]. }
    destruct (negb (start =? 0)); [|cbn [Z.eqb] in Esr; eapply Hsz;
                                    [apply untouched_refl|exact Esr]].
    pose proof (rtallocate_extent_near_untouched mp start minlen maxlen prod next0 gp)
      as Hu.
    destruct (xfs_rtallocate_extent_near mp start minlen maxlen prod next0 gp)
      as [[r|e] gn]; cbn [snd] in Hu.
    - cbn [Z.eqb] in Esr. eapply Hsz; [exact Hu|exact Esr].
    - destruct (e =? - ENOSPC).
      + cbn [Z.eqb] in Esr. eapply Hsz; [|exact Esr].
        eapply untouched_trans; [exact Hu|apply untouched_log_event].
      + destruct (e =? 0); [eapply Hsz; [exact Hu|exact Esr]|discriminate]. }
  destruct Hadm as [Hadm Hu].
  destruct Hu as (_ & U1 & U2 & _ & _ & _ & U3 & U4).
  destruct (xfs_rtallocate_range mp rtx len g1) as [[[]|e2] g2] eqn:Er;
    apply rtallocate_range_bits in Er; destruct Er as (R1 & R2 & R3 & R4);
    [|intros H; inversion H].
  assert (Hadm' : extent_admissible g minlen maxlen prod len rtx).
  { unfold extent_admissible, range_free in *. rewrite Es1, Es2 in Hadm. exact Hadm. }
  pose proof Hadm' as (Hl & _ & Hr & _ & _).
  intros H. exists len, rtx.
  assert (Hbits : forall g3, rbm g3 = rbm g2 ->
            forall i, 0 <= i ->
              Z.testbit (rbm g3) i =
                if (rtx <=? i) && (i <? rtx + len) then false
                else Z.testbit (rbm g) i).
  { intros g3 E3 i Hi. rewrite E3, R4, U2, Es2.
    apply testbit_clear_range; lia. }
  destruct wasdel; inversion H; subst; cbn;
    (split; [reflexivity|]); (split; [reflexivity|]); (split; [exact Hadm'|]);
    (split; [apply Hbits; reflexivity|]); repeat split; lia.
Qed.

Lemma rtany_scan_cache mp lo bbno c g :
  forall n log,
    rtany_scan mp lo bbno n log (set_rsum_cache c g) = rtany_scan mp lo bbno n log g.
Proof.
  induction n as [|n IH]; intros log; cbn [rtany_scan]; [reflexivity|].
  destruct (log >=? lo); [|reflexivity].
  change (xfs_rtget_summary mp log bbno (set_rsum_cache c g))
    with (xfs_rtget_summary mp log bbno g).
  destruct (xfs_rtget_summary mp log bbno g) as [sum|e]; [|reflexivity].
  destruct (sum =? 0); [apply IH|reflexivity].
Qed.

(** Classes known to be empty at the top of the range cost fuel and nothing
    else. *)
Lemma rtany_scan_zero_prefix mp lo bbno g mid :
  lo - 1 <= mid ->
  forall (k n : nat) log,
    log = mid + Z.of_nat k ->
    (forall L, mid < L <= log -> xfs_rtget_summary mp L bbno g = Ok 0) ->
    rtany_scan mp lo bbno (k + n) log g = rtany_scan mp lo bbno n mid g.
Proof.
  intros Hmid. induction k as [|k IH]; intros n log Hlog Hz.
  - replace log with mid by lia. reflexivity.
  - cbn [Nat.add rtany_scan]. destruct (Z.geb_spec log lo); [|lia].
    rewrite (Hz log) by lia. cbn [Z.eqb].
    apply IH; [lia|]. intros L HL. apply Hz. lia.
Qed.

(** What a finished scan has seen. *)
Lemma rtany_scan_seen mp lo bbno g :
  forall n start maxlog log,
    lo - 1 <= start ->
    rtany_scan mp lo bbno n start g = Ok (maxlog, log) ->
    lo - 1 <= log <= start /\
    (forall L, log < L <= start -> xfs_rtget_summary mp L bbno g = Ok 0).
Proof.
  induction n as [|n IH]; intros start maxlog log Hs H; cbn [rtany_scan] in H.
  - inversion H; subst. split; [lia|]. intros L HL. lia.
  - destruct (Z.geb_spec start lo).
    2:{ inversion H; subst. split; [lia|]. intros L HL. lia. }
    destruct (xfs_rtget_summary mp start bbno g) as [sum|e] eqn:Eg; [|discriminate].
    destruct (Z.eqb_spec sum 0) as [->|Hne].
    + destruct (IH (start - 1) maxlog log ltac:(lia) H) as [Hr Hz].
      split; [lia|]. intros L HL.
      destruct (Z.eq_dec L start) as [->|]; [exact Eg|]. apply Hz. lia.
    + inversion H; subst. split; [lia|]. intros L HL. lia.
Qed.

Lemma cache_get_insert_eq c B v :
  0 <= B < Z.of_nat (length c) -> cache_get (<[Z.to_nat B := v]> c) B = v.
Proof.
  intros HB. unfold cache_get.
  rewrite list_lookup_insert_eq by lia. reflexivity.
Qed.

Lemma cache_get_insert_ne c B B' v :
  0 <= B -> 0 <= B' -> B <> B' ->
  cache_get (<[Z.to_nat B := v]> c) B' = cache_get c B'.
Proof.
  intros HB HB' Hne. unfold cache_get.
  rewrite list_lookup_insert_ne by lia. reflexivity.
Qed.

Lemma rtany_summary_transparent mp lo hi bbno g :
  0 <= lo ->
  (forall c, rtg_rsum_cache g = Some c ->
     0 <= bbno < Z.of_nat (length c) /\ cache_get c bbno <= 255) ->
  hint_sound mp hi g ->
  fst (xfs_rtany_summary mp lo hi bbno g)
    = fst (xfs_rtany_summary mp lo hi bbno (set_rsum_cache None g)) /\
  hint_sound mp hi (snd (xfs_rtany_summary mp lo hi bbno g)).
Proof.
  intros Hlo Hc Hs.
  unfold xfs_rtany_summary at 2. cbn [rtg_rsum_cache set_rsum_cache andb].
  rewrite rtany_scan_cache.
  unfold xfs_rtany_summary.
  destruct (rtg_rsum_cache g) as [c|] eqn:Ec.
  2:{ cbn [andb]. destruct (rtany_scan _ _ _ _ _ _) as [[m l]|e]; cbn [fst snd];
        (split; [reflexivity|exact Hs]). }
  destruct (Hc c eq_refl) as [Hb H255]. cbn [andb].
  set (h := cache_get c bbno) in *.
  assert (Hzero : forall L, h <= L <= hi -> xfs_rtget_summary mp L bbno g = Ok 0).
  { intros L HL. apply (Hs c bbno L Ec Hb HL). }
  destruct (Z.gtb_spec lo (Z.min hi (h - 1))) as [Hgt|Hle].
  - (* nothing to scan below the hint *)
    split; [|cbn [snd]; exact Hs]. cbn [fst].
    destruct (Z.le_gt_cases lo hi) as [Hlh|Hlh].
    + rewrite (rtany_scan_empty mp lo bbno g (Z.to_nat (hi - lo + 1)) hi
                 ltac:(lia) ltac:(lia)).
      * reflexivity.
      * intros L HL. apply Hzero. lia.
    + replace (Z.to_nat (hi - lo + 1)) with O by lia. reflexivity.
  - (* the classes above the hint are empty *)
    pose proof (rtany_scan_zero_prefix mp lo bbno g (Z.min hi (h - 1)) ltac:(lia)
                  (Z.to_nat (hi - Z.min hi (h - 1)))
                  (Z.to_nat (Z.min hi (h - 1) - lo + 1)) hi ltac:(lia)) as Hpre.
    rewrite <- Z2Nat.inj_add in Hpre by lia.
    replace (hi - Z.min hi (h - 1) + (Z.min hi (h - 1) - lo + 1))
      with (hi - lo + 1) in Hpre by lia.
    rewrite Hpre by (intros L HL; apply Hzero; lia).
    destruct (rtany_scan mp lo bbno _ (Z.min hi (h - 1)) g) as [[m l]|e] eqn:Escan;
      cbn [fst snd]; [|split; [reflexivity|exact Hs]].
    split; [reflexivity|].
    destruct (rtany_scan_seen mp lo bbno g _ (Z.min hi (h - 1)) m l ltac:(lia)
                Escan) as [Hl Hseen].
    destruct (Z.ltb_spec (l + 1) h); [|exact Hs].
    intros c' B L Ec' HB HL. cbn [rtg_rsum_cache set_rsum_cache] in Ec'.
    inversion Ec'; subst c'. clear Ec'.
    change (xfs_rtget_summary mp L B (set_rsum_cache _ g))
      with (xfs_rtget_summary mp L B g).
    rewrite length_insert in HB.
    destruct (Z.eq_dec B bbno) as [->|Hne].
    + rewrite cache_get_insert_eq in HL by exact Hb.
      rewrite u8_small in HL by lia.
      destruct (Z.le_gt_cases L (Z.min hi (h - 1))).
      * apply Hseen. lia.
      * apply Hzero. lia.
    + rewrite cache_get_insert_ne in HL by lia.
      apply (Hs c B L Ec HB HL).
Qed.

(** X8.  The hint array never changes an answer.  If the hint is sound (the
    summary counts nothing at a class from a block's hint up to [hi]), then
    [xfs_rtany_summary] returns what it returns on the same group without a
    hint array, and the hint it leaves is sound again. *)
Theorem rtany_summary_hint_transparent (mp : xfs_mount) (lo hi bbno : Z)
    (g : rtgroup) :
  0 <= lo ->
  (forall c, rtg_rsum_cache g = Some c ->
     0 <= bbno < Z.of_nat (length c) /\ cache_get c bbno <= 255) ->
  hint_sound mp hi g ->
  fst (xfs_rtany_summary mp lo hi bbno g)
    = fst (xfs_rtany_summary mp lo hi bbno (set_rsum_cache None g)) /\
  hint_sound mp hi (snd (xfs_rtany_summary mp lo hi bbno g)).
Proof. apply rtany_summary_transparent. Qed.

Lemma cache_get_replicate n v B :
  0 <= B < Z.of_nat n -> cache_get (replicate n v) B = v.
Proof.
  intros HB. unfold cache_get.
  rewrite lookup_replicate_2 by lia. reflexivity.
Qed.

(** X9.  [xfs_alloc_rsum_cache] stores the pointer before it tests it: when
    no memory is left it returns [-ENOMEM] and the group has no hint array
    any more.  Otherwise every byte of the new array is 255, bitmap and
    summary are untouched, and for classes up to 254 the first query on any
    block answers as without a hint array and leaves a sound hint. *)
Theorem alloc_rsum_cache_fresh (mp : xfs_mount) (rbmblocks : Z) (g : rtgroup) :
  (fst (xfs_alloc_rsum_cache false rbmblocks g) = - ENOMEM /\
   rtg_rsum_cache (snd (xfs_alloc_rsum_cache false rbmblocks g)) = None) /\
  fst (xfs_alloc_rsum_cache true rbmblocks g) = 0 /\
  (forall lo hi bbno,
     0 <= lo -> hi <= 254 -> 0 <= bbno < rbmblocks ->
     let g1 := snd (xfs_alloc_rsum_cache true rbmblocks g) in
     untouched g g1 /\
     fst (xfs_rtany_summary mp lo hi bbno g1)
       = fst (xfs_rtany_summary mp lo hi bbno (set_rsum_cache None g)) /\
     hint_sound mp hi (snd (xfs_rtany_summary mp lo hi bbno g1))).
Proof.
  split; [split; reflexivity|]. split; [reflexivity|].
  intros lo hi bbno Hlo Hhi Hb g1. subst g1. cbn [xfs_alloc_rsum_cache snd].
  split; [apply untouched_set_rsum_cache|].
  set (g1 := set_rsum_cache _ g).
  assert (Hs : hint_sound mp hi g1).
  { intros c B L Ec HB HL. cbn in Ec. inversion Ec; subst c.
    rewrite length_replicate in HB.
    rewrite cache_get_replicate in HL by lia. change (u8 (-1)) with 255 in HL. lia. }
  destruct (rtany_summary_transparent mp lo hi bbno g1 Hlo) as [Hf Hs'].
  - intros c Ec. cbn in Ec. inversion Ec; subst c.
    rewrite length_replicate. split; [lia|].
    rewrite cache_get_replicate by lia. change (u8 (-1)) with 255. lia.
  - exact Hs.
  - split; [|exact Hs']. rewrite Hf. reflexivity.
Qed.

Lemma rtcopy_summary_fold omp nmp g :
  0 < sb_rbmblocks omp < 2 ^ 32 -> 0 <= m_rsumlevels omp < 2 ^ 31 ->
  cells_mapped omp nmp (rsum g) ->
  snd (xfs_rtcopy_summary omp nmp g) =
    xfs_rtbuf_cache_relse (set_rsum (copy_summary_spec omp nmp (rsum g)) g).
Proof.
  intros Hblocks Hlevels Hmap.
  unfold xfs_rtcopy_summary, copy_summary_spec, cells_descending. cbn [snd].
  assert (E : s32 (u32 (m_rsumlevels omp - 1)) = m_rsumlevels omp - 1).
  { destruct (Z.eq_dec (m_rsumlevels omp) 0) as [E0|E0].
    - rewrite E0. reflexivity.
    - rewrite u32_small by lia. apply s32_small. lia. }
  rewrite E. replace (m_rsumlevels omp - 1 + 1) with (m_rsumlevels omp) by lia.
  pose proof (rtcopy_log_spec omp nmp Hblocks (Z.to_nat (m_rsumlevels omp)) g
                ltac:(lia) Hmap) as Hspec.
  rewrite Z2Nat.id in Hspec by lia.
  rewrite Hspec. reflexivity.
Qed.

Lemma countdown_In n x : In x (countdown n) <-> 0 <= x < Z.of_nat n.
Proof.
  induction n as [|n IH]; cbn [countdown In]; [lia|]. rewrite IH. lia.
Qed.

Lemma countdown_app n m :
  countdown (n + m) = map (fun x => x + Z.of_nat m) (countdown n) ++ countdown m.
Proof.
  induction n as [|n IH]; [reflexivity|].
  cbn [Nat.add countdown map app]. rewrite IH. f_equal. lia.
Qed.

(** The cells in the order of the copy are the word offsets of the old
    matrix, counted down. *)
Lemma cells_descending_offsets levels blocks :
  0 < blocks ->
  cells_descending levels blocks =
    map (fun o => (o / blocks, o mod blocks))
      (countdown (Z.to_nat levels * Z.to_nat blocks)).
Proof.
  intros Hb. unfold cells_descending.
  induction (Z.to_nat levels) as [|k IH]; [reflexivity|].
  cbn [countdown flat_map]. rewrite IH.
  replace (S k * Z.to_nat blocks)%nat with (Z.to_nat blocks + k * Z.to_nat blocks)%nat
    by lia.
  rewrite countdown_app, map_app, map_map. f_equal.
  apply map_ext_in. intros B HB. apply countdown_In in HB.
  rewrite Nat2Z.inj_mul, Z2Nat.id by lia.
  rewrite Z.div_add, Z.mod_add by lia.
  rewrite Z.div_small, Z.mod_small by lia. f_equal; lia.
Qed.

Section Relayout.
Variables (omp nmp : xfs_mount) (m0 : gmap Z Z).
Local Notation "'ob'" := (sb_rbmblocks omp).
Local Notation "'nb'" := (sb_rbmblocks nmp).
Local Notation "'lv'" := (m_rsumlevels omp).
Hypothesis Hob : 0 < ob <= nb.
Hypothesis Hlv : 0 <= lv.
Hypothesis Hmapped : cells_mapped omp nmp m0.
Hypothesis Hval : forall k v, m0 !! k = Some v -> 0 <= v < 2 ^ 32.
Hypothesis Hzero : forall k v, m0 !! k = Some v -> k < 0 \/ lv * ob <= k -> v = 0.

Lemma new_offset_ge L B : 0 <= L -> 0 <= B -> L * ob + B <= L * nb + B.
Proof. intros HL HB. nia. Qed.

Lemma new_offset_mono L B L' B' :
  0 <= L -> 0 <= B < ob -> 0 <= L' -> 0 <= B' < ob ->
  L * ob + B < L' * ob + B' -> L * nb + B < L' * nb + B'.
Proof.
  intros HL HB HL' HB' H.
  destruct (Z.lt_trichotomy L L') as [Hlt|[->|Hgt]]; [nia|nia|nia].
Qed.

Lemma old_offset_cell o L B :
  0 <= B < ob -> o = L * ob + B -> L = o / ob /\ B = o mod ob.
Proof.
  intros HB ->. replace (L * ob + B) with (B + L * ob) by lia.
  rewrite Z.div_add, Z.mod_add by lia.
  rewrite Z.div_small, Z.mod_small by lia. lia.
Qed.

Lemma relayout_step o m :
  0 <= o < lv * ob ->
  relayout_inv omp nmp m0 (o + 1) m ->
  relayout_inv omp nmp m0 o (copy_cell omp nmp m (o / ob, o mod ob)).
Proof.
  intros Ho (Hdom & Hlow & Hmoved & Hrest).
  set (L := o / ob). set (B := o mod ob).
  assert (HB : 0 <= B < ob) by (apply Z.mod_pos_bound; lia).
  assert (HoLB : o = L * ob + B).
  { subst L B. rewrite (Z.div_mod o ob) at 1 by lia. lia. }
  assert (HL : 0 <= L < lv).
  { split; [apply Z.div_pos; lia|]. apply Z.div_lt_upper_bound; lia. }
  set (n := L * nb + B).
  assert (Hn : o <= n) by (subst n; rewrite HoLB; apply new_offset_ge; lia).
  destruct (Hmapped L B HL HB) as [[v Hv] [w Hw]].
  unfold xfs_rtsumoffs in Hv, Hw. fold n in Hw.
  rewrite <- HoLB in Hv.
  assert (Hmo : m !! o = Some v) by (rewrite Hlow by lia; exact Hv).
  pose proof (Hval o v Hv) as Hvr.
  assert (Hother : forall L' B', 0 <= L' < lv -> 0 <= B' < ob ->
                     o + 1 <= L' * ob + B' -> n < L' * nb + B').
  { intros L' B' HL' HB' Hlt. subst n. apply new_offset_mono; lia. }
  assert (Hmn : n <> o -> m !! n = Some 0).
  { intros Hne.
    assert (Hs : is_Some (m !! n)) by (apply Hdom; eauto).
    destruct Hs as [w' Hw']. rewrite Hw'. f_equal.
    apply (Hrest n w' ltac:(lia) Hw').
    intros L' B' HL' HB' Hlt. pose proof (Hother L' B' HL' HB' Hlt). lia. }
  (* what the copy of the cell leaves *)
  assert (Hcopy : forall k,
            copy_cell omp nmp m (L, B) !! k =
              if decide (k = n) then Some v
              else if decide (k = o) then Some 0 else m !! k).
  { intros k. unfold copy_cell, summary_add, xfs_rtsumoffs. cbn [fst snd].
    rewrite <- HoLB. fold n. rewrite Hmo.
    destruct (Z.eqb_spec v 0) as [Hv0|Hv0].
    - subst v. destruct (decide (k = n)) as [->|Hkn].
      + destruct (Z.eq_dec n o) as [->|Hne]; [exact Hmo|apply Hmn; exact Hne].
      + destruct (decide (k = o)) as [->|Hko]; [exact Hmo|reflexivity].
    - replace (u32 (v + - v)) with 0 by (rewrite Z.add_opp_diag_r; reflexivity).
      assert (E1 : <[o:=0]> m !! n = Some 0).
      { destruct (Z.eq_dec n o) as [->|Hne].
        - apply lookup_insert_eq.
        - rewrite lookup_insert_ne by lia. apply Hmn. exact Hne. }
      rewrite E1. rewrite Z.add_0_l, u32_small by lia.
      destruct (decide (k = n)) as [->|Hkn]; [apply lookup_insert_eq|].
      rewrite lookup_insert_ne by lia.
      destruct (decide (k = o)) as [->|Hko]; [apply lookup_insert_eq|].
      rewrite lookup_insert_ne by lia. reflexivity. }
  unfold relayout_inv. split; [|split; [|split]].
  - intros k. rewrite Hcopy.
    destruct (decide (k = n)) as [->|Hkn]; [split; eauto|].
    destruct (decide (k = o)) as [->|Hko]; [split; eauto|]. apply Hdom.
  - intros k Hk. rewrite Hcopy.
    destruct (decide (k = n)); [lia|]. destruct (decide (k = o)); [lia|].
    apply Hlow. lia.
  - intros L' B' HL' HB' Hle. rewrite Hcopy.
    destruct (Z.eq_dec (L' * ob + B') o) as [Heq|Hne].
    + destruct (old_offset_cell o L' B' HB' (eq_sym Heq)) as [E1 E2].
      fold L in E1. fold B in E2. subst L' B'.
      rewrite decide_True by reflexivity. rewrite <- HoLB. symmetry. exact Hv.
    + pose proof (Hother L' B' HL' HB' ltac:(lia)).
      pose proof (new_offset_ge L' B' ltac:(lia) ltac:(lia)).
      rewrite decide_False by lia. rewrite decide_False by lia.
      apply Hmoved; try assumption. lia.
  - intros k v' Hk Hlook Hnot. rewrite Hcopy in Hlook.
    destruct (decide (k = n)) as [->|Hkn].
    { exfalso. apply (Hnot L B HL HB ltac:(lia)). reflexivity. }
    destruct (decide (k = o)) as [->|Hko]; [congruence|].
    apply (Hrest k v' ltac:(lia) Hlook).
    intros L' B' HL' HB' Hle. apply Hnot; try assumption. lia.
Qed.

Lemma relayout_fold :
  forall (N : nat) m,
    Z.of_nat N <= lv * ob ->
    relayout_inv omp nmp m0 (Z.of_nat N) m ->
    relayout_inv omp nmp m0 0
      (fold_left (copy_cell omp nmp)
         (map (fun o => (o / ob, o mod ob)) (countdown N)) m).
Proof.
  induction N as [|N IH]; intros m HN Hinv; [exact Hinv|].
  cbn [countdown map fold_left]. apply IH; [lia|].
  apply relayout_step; [lia|].
  replace (Z.of_nat N + 1) with (Z.of_nat (S N)) by lia. exact Hinv.
Qed.

Lemma relayout_start : relayout_inv omp nmp m0 (lv * ob) m0.
Proof.
  unfold relayout_inv. split; [tauto|]. split; [auto|]. split.
  - intros L B HL HB Hle. nia.
  - intros k v Hk Hlook _. apply (Hzero k v Hlook). lia.
Qed.

Lemma copy_summary_spec_relayout :
  relayout_inv omp nmp m0 0 (copy_summary_spec omp nmp m0).
Proof.
  unfold copy_summary_spec.
  rewrite cells_descending_offsets by lia.
  apply relayout_fold.
  - rewrite Nat2Z.inj_mul, !Z2Nat.id by lia. lia.
  - rewrite Nat2Z.inj_mul, !Z2Nat.id by lia. apply relayout_start.
Qed.

End Relayout.

(** X10.  Growing relays the summary out in place: both geometries address
    the same file.  When the new geometry has at least as many bitmap blocks
    as the old, every counter is a 32-bit value and the words beyond the old
    matrix are zero, then after [xfs_rtcopy_summary] each cell [(L, B)] of
    the old matrix reads, in the new geometry, what it read in the old
    before the copy, and every word that is not the new home of such a cell
    is zero. *)
Theorem rtcopy_summary_relayout (omp nmp : xfs_mount) (g : rtgroup) :
  0 < sb_rbmblocks omp <= sb_rbmblocks nmp -> sb_rbmblocks omp < 2 ^ 32 ->
  0 <= m_rsumlevels omp < 2 ^ 31 ->
  cells_mapped omp nmp (rsum g) ->
  (forall k v, rsum g !! k = Some v -> 0 <= v < 2 ^ 32) ->
  (forall k v, rsum g !! k = Some v ->
     k < 0 \/ m_rsumlevels omp * sb_rbmblocks omp <= k -> v = 0) ->
  let g' := snd (xfs_rtcopy_summary omp nmp g) in
  (forall L B, 0 <= L < m_rsumlevels omp -> 0 <= B < sb_rbmblocks omp ->
     xfs_rtget_summary nmp L B g' = xfs_rtget_summary omp L B g) /\
  (forall k v, rsum g' !! k = Some v ->
     (forall L B, 0 <= L < m_rsumlevels omp -> 0 <= B < sb_rbmblocks omp ->
        k <> xfs_rtsumoffs nmp L B) ->
     v = 0).
Proof.
  intros Hob Hob32 Hlv Hmapped Hval Hzero g'. subst g'.
  rewrite rtcopy_summary_fold by (try assumption; lia).
  destruct (copy_summary_spec_relayout omp nmp (rsum g) Hob ltac:(lia) Hmapped
              Hval Hzero) as (_ & Hlow & Hmoved & Hrest).
  cbn [xfs_rtbuf_cache_relse log_event rsum set_rsum]. split.
  - intros L B HL HB. unfold xfs_rtget_summary, xfs_rtsumoffs.
    cbn [xfs_rtbuf_cache_relse rsum log_event set_rsum].
    rewrite (Hmoved L B HL HB) by nia. reflexivity.
  - intros k v Hlook Hnot.
    destruct (Z.lt_ge_cases k 0) as [Hneg|Hpos].
    + rewrite Hlow in Hlook by lia. apply (Hzero k v Hlook). lia.
    + apply (Hrest k v Hpos Hlook). intros L B HL HB _. apply Hnot; assumption.
Qed.

Lemma rtallocate_align_error ops mp ap noalign e :
  xfs_rtallocate_align ops mp ap noalign = Err e ->
  exists align ap', fst (fst (xfs_bmap_extsize_align ops align ap')) = e.
Proof.
  unfold xfs_rtallocate_align. cbv zeta.
  destruct noalign.
  - destruct (xfs_bmap_extsize_align ops (sb_rextsize mp) ap) as [[e0 off] len] eqn:E.
    destruct (Z.eqb_spec e0 0); cbn [negb].
    + destruct (if 1 <? _ then _ else _) as [[x y] z]. discriminate.
    + intros H. inversion H; subst. exists (sb_rextsize mp), ap. rewrite E. reflexivity.
  - match goal with
    | |- context [xfs_bmap_extsize_align ops ?a ap] =>
        destruct (xfs_bmap_extsize_align ops a ap) as [[e0 off] len] eqn:E
    end.
    destruct (Z.eqb_spec e0 0); cbn [negb].
    + destruct (if 1 <? _ then _ else _) as [[x y] z]. discriminate.
    + intros H. inversion H; subst. eexists _, ap. rewrite E. reflexivity.
Qed.

Lemma bmap_rtalloc_pass_done ops mp next0 oo ol ap hint rl noalign g e ap' g' :
  (forall align ap0, fst (fst (xfs_bmap_extsize_align ops align ap0)) <> - ENOSPC) ->
  bmap_rtalloc_pass ops mp next0 oo ol ap hint rl noalign g = PassDone e ap' g' ->
  e <> - ENOSPC.
Proof.
  intros Hops. unfold bmap_rtalloc_pass.
  destruct (xfs_rtallocate_align ops mp ap noalign)
    as [[[[[ap1 ralen] raminlen] prod] noalign1]|e0] eqn:Ea.
  2:{ intros H. inversion H; subst.
      destruct (rtallocate_align_error ops mp _ noalign e Ea) as (al & ap0 & <-).
      apply Hops. }
  destruct (xfs_bmap_adjacent ops ap1) as [adj blk].
  destruct (xfs_rtallocate _ _ _ _ _ _ _ _ _ _) as [[[[bno blen]|e1] rl'] g1].
  - intros H. inversion H; subst. discriminate.
  - destruct (Z.eqb_spec e1 (- ENOSPC)).
    + destruct (negb noalign1); intros H; inversion H; subst. discriminate.
    + intros H. inversion H; subst. assumption.
Qed.

(** X11.  [xfs_bmap_rtalloc] never returns [-ENOSPC] of its own: a NOSPACE
    of the allocator ends, after at most one retry, in a successful return
    with [NULLFSBLOCK] and length 0.  The only way [-ENOSPC] could come out
    is from [xfs_bmap_extsize_align]. *)
Theorem bmap_rtalloc_never_nospace (ops : bmap_ops) (mp : xfs_mount) (next0 : Z)
    (ap : xfs_bmalloca) (g : rtgroup) :
  (forall align ap0, fst (fst (xfs_bmap_extsize_align ops align ap0)) <> - ENOSPC) ->
  fst (fst (xfs_bmap_rtalloc ops mp next0 ap g)) <> - ENOSPC.
Proof.
  intros Hops. unfold xfs_bmap_rtalloc. cbn [bmap_rtalloc_retry].
  destruct (bmap_rtalloc_pass ops mp next0 (ap_offset ap) (ap_length ap) ap
              NULLRTBLOCK false false g) as [e ap' g'|ap1 hint rl g1] eqn:E1.
  - cbn [fst]. eapply bmap_rtalloc_pass_done; eassumption.
  - destruct (bmap_rtalloc_pass_noalign ops mp next0 (ap_offset ap) (ap_length ap)
                ap1 hint rl g1) as (e & ap' & g' & Hp).
    rewrite Hp. cbn [fst]. eapply bmap_rtalloc_pass_done; eassumption.
Qed.

(** *** xfs_growfs_rt *)



(** *** Termination of the two open-ended loops *)

(** X13.  The [for (;;)] loop of the near-hint search ends by itself: from
    offset 0 it leaves by [break] or [return] within
    [2 * max(bbno, sb_rbmblocks) + 3] passes, so that more passes allowed
    give the same result. *)
Theorem rtallocate_extent_near_terminates (mp : xfs_mount)
    (bbno minlen maxlen prod next0 log2len : Z) (g : rtgroup) (extra : nat) :
  0 <= bbno < sb_rbmblocks mp -> sb_rbmblocks mp <= 2 ^ 30 ->
  rtnear_loop mp bbno minlen maxlen prod next0 log2len
    (Z.to_nat (2 * Z.max bbno (sb_rbmblocks mp) + 3) + extra) 0 (-1) g
  = rtnear_loop mp bbno minlen maxlen prod next0 log2len
      (Z.to_nat (2 * Z.max bbno (sb_rbmblocks mp) + 3)) 0 (-1) g.
Proof.
  intros Hb Hblocks. symmetry.
  apply (rtnear_loop_fuel mp bbno minlen prod next0 ltac:(lia) ltac:(lia)).
  - lia.
  - change (near_rank 0) with 0. lia.
  - lia.
Qed.

(** X14.  The loop of the single-block scan, whose counter is overwritten
    by [xfs_rtfind_forw], still advances in every round: it ends within
    [end - i + 1] rounds, so that more rounds allowed give the same
    result. *)
Theorem rtallocate_extent_block_terminates (mp : xfs_mount)
    (minlen maxlen prod end_ i next besti bestlen : Z) (g : rtgroup) (extra : nat) :
  0 <= i -> end_ < 2 ^ 63 ->
  rtblock_scan mp minlen maxlen prod end_ (Z.to_nat (end_ - i + 1) + extra)
    i next besti bestlen g
  = rtblock_scan mp minlen maxlen prod end_ (Z.to_nat (end_ - i + 1))
      i next besti bestlen g.
Proof.
  intros Hi Hend. symmetry. apply rtblock_scan_fuel; [exact Hend|exact Hi|lia|lia].
Qed.

Lemma first_diff_stops bm v :
  forall n i,
    first_diff bm v n i < i + Z.of_nat n ->
    Z.testbit bm (first_diff bm v n i) = negb v.
Proof.
  induction n as [|n IH]; intros i H; cbn [first_diff] in *; [lia|].
  destruct (Bool.eqb (Z.testbit bm i) v) eqn:E.
  - apply IH. lia.
  - apply eqb_false_iff in E. destruct (Z.testbit bm i), v; try reflexivity;
      contradiction.
Qed.

Lemma scan_forw_run bm v limit :
  forall n i k, i < k <= scan_forw bm v limit n i -> Z.testbit bm k = v.
Proof.
  induction n as [|n IH]; intros i k Hk; cbn [scan_forw] in Hk; [lia|].
  destruct (i <? limit); cbn [andb] in Hk; [|lia].
  destruct (Bool.eqb (Z.testbit bm (i + 1)) v) eqn:E; [|lia].
  destruct (Z.eq_dec k (i + 1)) as [->|Hne]; [apply eqb_prop; exact E|].
  apply (IH (i + 1)). lia.
Qed.

Lemma bmblock_mapped_in mp bbno i :
  0 <= m_blkbit_log mp -> 0 <= bbno < sb_rbmblocks mp ->
  bbno * 2 ^ m_blkbit_log mp <= i < (bbno + 1) * 2 ^ m_blkbit_log mp ->
  bmblock_mapped mp i = true.
Proof.
  intros Hlog Hb Hi. unfold bmblock_mapped.
  rewrite (rtx_to_rbmblock_in mp bbno i Hlog Hi).
  pose proof (Z.pow_pos_nonneg 2 (m_blkbit_log mp) ltac:(lia) Hlog).
  destruct (Z.leb_spec 0 i); [|nia]. destruct (Z.ltb_spec bbno (sb_rbmblocks mp)); [|lia].
  reflexivity.
Qed.

Lemma rtblock_scan_finds mp bbno minlen maxlen prod end_ a g :
  0 <= m_blkbit_log mp -> 0 <= bbno < sb_rbmblocks mp ->
  rtg_extents g < 2 ^ 63 ->
  1 <= minlen <= maxlen -> maxlen < 2 ^ 32 ->
  (1 < prod -> maxlen mod prod = 0) ->
  bbno * 2 ^ m_blkbit_log mp <= a <= end_ ->
  end_ < (bbno + 1) * 2 ^ m_blkbit_log mp ->
  a + maxlen <= rtg_extents g -> range_free g a maxlen ->
  forall n i next besti bestlen,
    bbno * 2 ^ m_blkbit_log mp <= i <= a -> (Z.to_nat (a - i + 1) <= n)%nat ->
    exists rtx,
      rtblock_scan mp minlen maxlen prod end_ n i next besti bestlen g
        = ScanRet maxlen rtx /\ i <= rtx <= a.
Proof.
  intros Hlog Hb He Hlen Hmax Hprod Ha Hend Hfit Hfree.
  pose proof (Z.pow_pos_nonneg 2 (m_blkbit_log mp) ltac:(lia) Hlog) as Hp.
  induction n as [|n IH]; intros i next besti bestlen Hi Hn; [lia|].
  cbn [rtblock_scan]. destruct (Z.leb_spec i end_); [|lia].
  assert (Hscan : xfs_rtallocate_clamp_len (rtg_extents g) i maxlen prod = maxlen).
  { unfold xfs_rtallocate_clamp_len.
    rewrite (u64_small (i + maxlen)) by nia.
    replace (Z.min (rtg_extents g) (i + maxlen) - i) with maxlen by lia.
    rewrite u64_small, u32_small by lia.
    unfold xfs_rtalloc_align_len, rounddown.
    destruct (Z.ltb_spec 1 prod); [|reflexivity]. rewrite Hprod by lia. lia. }
  rewrite Hscan. destruct (Z.ltb_spec maxlen minlen); [lia|].
  unfold xfs_rtcheck_range.
  rewrite (bmblock_mapped_in mp bbno i Hlog Hb) by lia.
  pose proof (first_diff_range (rbm g) true (Z.to_nat maxlen) i) as Hfd.
  pose proof (first_diff_stops (rbm g) true (Z.to_nat maxlen) i) as Hstop.
  pose proof (first_diff_prefix (rbm g) true (Z.to_nat maxlen) i) as Hpre.
  rewrite Z2Nat.id in Hfd, Hstop by lia.
  set (nx := first_diff _ _ _ _) in *.
  destruct (Z.eqb_spec nx (i + maxlen)) as [E|E].
  { exists i. split; [reflexivity|lia]. }
  specialize (Hstop ltac:(lia)). cbn [negb] in Hstop.
  assert (Hnxa : nx < a).
  { destruct (Z.lt_ge_cases nx a) as [|Hge]; [assumption|exfalso].
    rewrite (Hfree nx) in Hstop by lia. discriminate. }
  destruct (Z.geb_spec nx end_); [lia|].
  unfold xfs_rtfind_forw.
  rewrite (bmblock_mapped_in mp bbno nx Hlog Hb) by lia.
  rewrite Hstop.
  pose proof (scan_forw_range (rbm g) false end_ (Z.to_nat (end_ - nx)) nx
                ltac:(lia)) as Hsf.
  pose proof (scan_forw_run (rbm g) false end_ (Z.to_nat (end_ - nx)) nx) as Hrun.
  set (i' := scan_forw _ _ _ _ _) in *.
  assert (Hi'a : i' < a).
  { destruct (Z.lt_ge_cases i' a) as [|Hge]; [assumption|exfalso].
    specialize (Hrun a ltac:(lia)). rewrite (Hfree a) in Hrun by lia. discriminate. }
  rewrite (u64_small (i' + 1)) by nia.
  destruct (IH (i' + 1) nx
              (if (minlen <? maxlen) && (u64 (nx - i) >=? minlen)
                  && (u64 (nx - i) >? bestlen) then i else besti)
              (if (minlen <? maxlen) && (u64 (nx - i) >=? minlen)
                  && (u64 (nx - i) >? bestlen) then u32 (u64 (nx - i)) else bestlen)
              ltac:(lia) ltac:(lia)) as (rtx & Hr & Hrange).
  exists rtx. split; [exact Hr|lia].
Qed.

Lemma rtallocate_extent_block_finds (mp : xfs_mount)
    (bbno minlen maxlen prod next0 a : Z) (g : rtgroup) :
  0 < rtg_extents g < 2 ^ 63 -> 0 <= m_blkbit_log mp ->
  0 <= bbno < sb_rbmblocks mp ->
  sb_rbmblocks mp * 2 ^ m_blkbit_log mp < 2 ^ 64 ->
  1 <= minlen <= maxlen -> maxlen < 2 ^ 32 ->
  (1 < prod -> maxlen mod prod = 0) ->
  xfs_rtx_to_rbmblock mp a = bbno -> 0 <= a ->
  a + maxlen <= rtg_extents g -> range_free g a maxlen ->
  exists rtx,
    xfs_rtallocate_extent_block mp bbno minlen maxlen prod next0 g
      = (BlkOk maxlen rtx, log_event (EvBlock bbno minlen maxlen prod) g) /\
    xfs_rbmblock_to_rtx mp bbno <= rtx <= a.
Proof.
  intros He Hlog Hb Hcap Hlen Hmax Hprod Hblk Ha0 Hfit Hfree.
  pose proof (Z.pow_pos_nonneg 2 (m_blkbit_log mp) ltac:(lia) Hlog) as Hp.
  assert (Ha : bbno * 2 ^ m_blkbit_log mp <= a < (bbno + 1) * 2 ^ m_blkbit_log mp).
  { unfold xfs_rtx_to_rbmblock in Hblk. rewrite Z.shiftr_div_pow2 in Hblk by lia.
    subst bbno. pose proof (Z.div_mod a (2 ^ m_blkbit_log mp) ltac:(lia)).
    pose proof (Z.mod_pos_bound a (2 ^ m_blkbit_log mp) ltac:(lia)). nia. }
  unfold xfs_rtallocate_extent_block. cbv zeta. cbn [rtg_extents log_event].
  rewrite (u64_small (bbno + 1)) by nia.
  rewrite (rbmblock_to_rtx_small mp (bbno + 1)) by nia.
  rewrite (rbmblock_to_rtx_small mp bbno) by nia.
  rewrite (u64_small (Z.min _ _ - 1)) by nia.
  set (end_ := Z.min _ _ - 1).
  set (lo := bbno * 2 ^ m_blkbit_log mp).
  set (gl := log_event _ g).
  destruct (rtblock_scan_finds mp bbno minlen maxlen prod end_ a gl Hlog Hb
              ltac:(cbn; lia) Hlen Hmax Hprod ltac:(unfold end_; lia)
              ltac:(unfold end_; lia) ltac:(cbn; lia) Hfree
              (Z.to_nat (end_ - lo + 1)) lo next0 (-1) 0
              ltac:(unfold lo; lia) ltac:(unfold end_, lo; lia))
    as (rtx & Hr & Hrange).
  rewrite Hr. exists rtx. split; [reflexivity|]. unfold lo in Hrange. lia.
Qed.

(** X15.  The single-block scan misses nothing: when [maxlen] consecutive
    free rtx start at some [a] of bitmap block [bbno] and end inside the
    group (and [maxlen] is a multiple of [prod]), then
    [xfs_rtallocate_extent_block] on that block returns an extent of exactly
    [maxlen] rtx starting at or before [a], never NOSPACE and never an
    error. *)
Theorem rtallocate_extent_block_finds_run (mp : xfs_mount)
    (bbno minlen maxlen prod next0 a : Z) (g : rtgroup) :
  0 < rtg_extents g < 2 ^ 63 -> 0 <= m_blkbit_log mp ->
  0 <= bbno < sb_rbmblocks mp ->
  sb_rbmblocks mp * 2 ^ m_blkbit_log mp < 2 ^ 64 ->
  1 <= minlen <= maxlen -> maxlen < 2 ^ 32 ->
  (1 < prod -> maxlen mod prod = 0) ->
  xfs_rtx_to_rbmblock mp a = bbno -> 0 <= a ->
  a + maxlen <= rtg_extents g -> range_free g a maxlen ->
  exists rtx,
    xfs_rtallocate_extent_block mp bbno minlen maxlen prod next0 g
      = (BlkOk maxlen rtx, log_event (EvBlock bbno minlen maxlen prod) g) /\
    xfs_rbmblock_to_rtx mp bbno <= rtx <= a.
Proof. apply rtallocate_extent_block_finds. Qed.

Lemma ceil_div_bounds x b :
  0 <= x -> 0 < b ->
  let c := (x + b - 1) / b in
  (c - 1) * b < x <= c * b \/ (x = 0 /\ c = 0).
Proof.
  intros Hx Hb c. subst c.
  pose proof (Z.div_mod (x + b - 1) b ltac:(lia)) as Hdm.
  pose proof (Z.mod_pos_bound (x + b - 1) b Hb) as Hm.
  destruct (Z.eq_dec x 0) as [->|Hne].
  - right. split; [reflexivity|]. apply Z.div_small. lia.
  - left. nia.
Qed.

Lemma ceil_div_exact n b : 0 <= n -> 0 < b -> (n * b + b - 1) / b = n.
Proof.
  intros Hn Hb. replace (n * b + b - 1) with ((b - 1) + n * b) by lia.
  rewrite Z.div_add by lia. rewrite Z.div_small by lia. lia.
Qed.

Section Rounds.
Variables (mp : xfs_mount) (nrblocks rextsize : Z).
Hypothesis Hlog : 0 <= m_blkbit_log mp.
Hypothesis Hext : 0 < rextsize.
Hypothesis Hnr : 0 <= nrblocks.
Hypothesis Hbm32 : xfs_rtbitmap_blockcount mp (nrblocks / rextsize) < 2 ^ 32.
Hypothesis Hcap :
  xfs_rtbitmap_blockcount mp (nrblocks / rextsize) * bits_per_bmblock mp * rextsize
    < 2 ^ 64.

Lemma bits_pos : 0 < bits_per_bmblock mp.
Proof. unfold bits_per_bmblock. apply Z.pow_pos_nonneg; lia. Qed.

Lemma target_blockcount_bounds :
  let bm := xfs_rtbitmap_blockcount mp (nrblocks / rextsize) in
  0 <= bm /\
  ((bm - 1) * bits_per_bmblock mp < nrblocks / rextsize <= bm * bits_per_bmblock mp
   \/ (nrblocks / rextsize = 0 /\ bm = 0)).
Proof.
  intros bm. subst bm. unfold xfs_rtbitmap_blockcount. fold (bits_per_bmblock mp).
  pose proof bits_pos as Hb.
  assert (Hx : 0 <= nrblocks / rextsize) by (apply Z.div_pos; lia).
  split; [apply Z.div_pos; lia|]. apply ceil_div_bounds; assumption.
Qed.

Lemma fake_mount_fields rblocks :
  0 <= rblocks ->
  xfs_rtbitmap_blockcount mp (rblocks / rextsize) < 2 ^ 32 ->
  exists nmp,
    xfs_growfs_rt_alloc_fake_mount true mp rblocks rextsize = Some nmp /\
    sb_rblocks nmp = rblocks /\ sb_rextsize nmp = rextsize /\
    sb_rextents nmp = rblocks / rextsize /\
    sb_rbmblocks nmp = xfs_rtbitmap_blockcount mp (rblocks / rextsize) /\
    sb_rextslog nmp = u8 (xfs_compute_rextslog (rblocks / rextsize)) /\
    m_rsumlevels nmp = u32 (u8 (xfs_compute_rextslog (rblocks / rextsize)) + 1) /\
    m_rsumblocks nmp =
      xfs_rtsummary_blockcount mp
        (u32 (u8 (xfs_compute_rextslog (rblocks / rextsize)) + 1))
        (xfs_rtbitmap_blockcount mp (rblocks / rextsize)).
Proof.
  intros Hr H32. eexists. split; [reflexivity|].
  cbn. unfold xfs_rtb_to_rtx. cbn.
  assert (E : u32 (xfs_rtbitmap_blockcount (set_rt_size rblocks rextsize mp)
                     (rblocks / rextsize))
              = xfs_rtbitmap_blockcount mp (rblocks / rextsize)).
  { change (xfs_rtbitmap_blockcount (set_rt_size rblocks rextsize mp))
      with (xfs_rtbitmap_blockcount mp).
    apply u32_small. split; [|exact H32].
    unfold xfs_rtbitmap_blockcount. fold (bits_per_bmblock mp).
    pose proof bits_pos. apply Z.div_pos; [|lia].
    assert (0 <= rblocks / rextsize) by (apply Z.div_pos; lia). lia. }
  rewrite E. repeat split; reflexivity.
Qed.

End Rounds.

(** X16.  The rounds of a grow.  With [bmblocks] the bitmap blocks of the
    geometry asked for: the round of a bitmap block [bmbno] before the last
    projects a geometry of exactly [bmbno + 1] full bitmap blocks; the round
    of the last block projects the extent count, bitmap blocks, summary
    levels and summary blocks of the geometry asked for.  Its [sb_rblocks] is
    [min(nrblocks, bmblocks * bits * rextsize)], less than one extent below
    [nrblocks], and strictly below it when the extents fill the bitmap
    blocks exactly and [nrblocks] is not a multiple of [rextsize]. *)
Theorem growfs_rt_round_geometry (mp : xfs_mount) (nrblocks rextsize : Z) :
  0 <= m_blkbit_log mp -> 0 < rextsize -> 0 <= nrblocks ->
  let bits := bits_per_bmblock mp in
  let rextents := nrblocks / rextsize in
  let bmblocks := xfs_rtbitmap_blockcount mp rextents in
  bmblocks < 2 ^ 32 -> bmblocks * bits * rextsize < 2 ^ 64 ->
  growfs_rt_target_bmblocks true mp nrblocks rextsize = Some bmblocks /\
  (forall bmbno,
     0 <= bmbno -> bmbno + 1 < bmblocks ->
     exists nmp,
       growfs_rt_bmblock_nmp true mp nrblocks rextsize bmbno = Some nmp /\
       sb_rblocks nmp = (bmbno + 1) * bits * rextsize /\
       sb_rextents nmp = (bmbno + 1) * bits /\
       sb_rbmblocks nmp = bmbno + 1) /\
  (1 <= bmblocks ->
   exists nmp tmp,
     growfs_rt_bmblock_nmp true mp nrblocks rextsize (bmblocks - 1) = Some nmp /\
     xfs_growfs_rt_alloc_fake_mount true mp nrblocks rextsize = Some tmp /\
     sb_rextents nmp = rextents /\ sb_rextents tmp = rextents /\
     sb_rbmblocks nmp = sb_rbmblocks tmp /\
     sb_rextslog nmp = sb_rextslog tmp /\
     m_rsumlevels nmp = m_rsumlevels tmp /\
     m_rsumblocks nmp = m_rsumblocks tmp /\
     sb_rblocks nmp = Z.min nrblocks (bmblocks * bits * rextsize) /\
     nrblocks - rextsize < sb_rblocks nmp <= nrblocks /\
     (rextents mod bits = 0 -> nrblocks mod rextsize <> 0 ->
      sb_rblocks nmp < nrblocks)).
Proof.
  intros Hlog Hext Hnr bits rextents bmblocks Hbm32 Hcap.
  pose proof (bits_pos mp Hlog) as Hbits. fold bits in Hbits.
  destruct (target_blockcount_bounds mp nrblocks rextsize Hlog Hext Hnr)
    as [Hbm0 Hbm]. fold bits rextents bmblocks in Hbm0, Hbm.
  assert (Hre : 0 <= rextents) by (apply Z.div_pos; lia).
  assert (Hdm : nrblocks = rextsize * rextents + nrblocks mod rextsize)
    by (apply Z.div_mod; lia).
  pose proof (Z.mod_pos_bound nrblocks rextsize Hext) as Hmod.
  split; [|split].
  - unfold growfs_rt_target_bmblocks.
    destruct (fake_mount_fields mp rextsize Hlog Hext nrblocks Hnr Hbm32)
      as (tmp & -> & _ & _ & _ & Hb & _). rewrite Hb. reflexivity.
  - intros bmbno Hb0 Hb1.
    assert (Hstep : (bmbno + 1) * bits * rextsize <= nrblocks) by nia.
    unfold growfs_rt_bmblock_nmp. cbv zeta. fold bits.
    rewrite (u64_small (bmbno + 1)) by nia.
    rewrite (u64_small ((bmbno + 1) * bits)) by nia.
    rewrite (u64_small ((bmbno + 1) * bits * rextsize)) by nia.
    rewrite Z.min_r by lia.
    assert (Ediv : (bmbno + 1) * bits * rextsize / rextsize = (bmbno + 1) * bits)
      by (apply Z.div_mul; lia).
    assert (Ebc : xfs_rtbitmap_blockcount mp ((bmbno + 1) * bits) = bmbno + 1).
    { unfold xfs_rtbitmap_blockcount. fold (bits_per_bmblock mp). fold bits.
      apply ceil_div_exact; lia. }
    destruct (fake_mount_fields mp rextsize Hlog Hext
                ((bmbno + 1) * bits * rextsize) ltac:(nia)
                ltac:(rewrite Ediv, Ebc; lia))
      as (nmp & Hn & H1 & _ & H3 & H4 & _).
    exists nmp. rewrite Hn, H1, H3, H4, Ediv, Ebc. auto.
  - intros Hbm1. destruct Hbm as [Hbm|[_ Hbm]]; [|lia].
    unfold growfs_rt_bmblock_nmp. cbv zeta. fold bits.
    replace (bmblocks - 1 + 1) with bmblocks by lia.
    rewrite (u64_small bmblocks) by nia.
    rewrite (u64_small (bmblocks * bits)) by nia.
    rewrite (u64_small (bmblocks * bits * rextsize)) by nia.
    set (rb := Z.min nrblocks (bmblocks * bits * rextsize)).
    assert (Ediv : rb / rextsize = rextents).
    { subst rb. destruct (Z.le_gt_cases nrblocks (bmblocks * bits * rextsize)).
      - rewrite Z.min_l by lia. reflexivity.
      - rewrite Z.min_r by lia. rewrite Z.div_mul by lia.
        assert (bmblocks * bits <= rextents); [|lia].
        apply Z.div_le_lower_bound; lia. }
    destruct (fake_mount_fields mp rextsize Hlog Hext rb ltac:(subst rb; nia)
                ltac:(rewrite Ediv; exact Hbm32))
      as (nmp & Hn & N1 & _ & N3 & N4 & N5 & N6 & N7).
    destruct (fake_mount_fields mp rextsize Hlog Hext nrblocks Hnr Hbm32)
      as (tmp & Ht & T1 & _ & T3 & T4 & T5 & T6 & T7).
    exists nmp, tmp. rewrite Hn, Ht.
    rewrite N1, N3, N4, N5, N6, N7, T3, T4, T5, T6, T7, Ediv.
    fold rextents.
    repeat split; try reflexivity; try (subst rb; nia).
    intros Hmul Hrem. subst rb.
    assert (rextents = bmblocks * bits).
    { apply Z.mod_divide in Hmul; [|lia]. destruct Hmul as [q Hq].
      assert (q = bmblocks) by nia. subst q. exact Hq. }
    nia.
Qed.

(** X17.  The hint array when [xfs_growfs_rtg] fails after the block
    allocation, with a changed number of bitmap blocks.  When the new array
    cannot be allocated the function returns [-ENOMEM] through [out_rele],
    where nothing is restored: the group is left without a hint array.  When
    a round fails, [out_error] sets [rtg_extents] back to what the mount says
    and puts the old hint array back. *)
Theorem growfs_rtg_hint_on_failure (o : GrowRtg.ops) (mp : xfs_mount)
    (nrblocks rextsize bmblocks : Z) (g : rtgroup) :
  rtg_active g = true ->
  GrowRtg.ensure_inodes o g (GrowRtg.XFS_RTGI_MAX o) 0 = 0 ->
  GrowRtg.xfs_growfs_rt_alloc_blocks o mp nrblocks rextsize = Ok bmblocks ->
  bmblocks <> sb_rbmblocks mp ->
  let r := GrowRtg.xfs_growfs_rtg o mp nrblocks rextsize g in
  (GrowRtg.kvmalloc_ok o bmblocks = false ->
   r = (- ENOMEM, mp, set_rsum_cache None g)) /\
  (GrowRtg.kvmalloc_ok o bmblocks = true ->
   fst (fst r) <> 0 ->
   rtg_extents (snd r) = GrowRtg.xfs_rtgroup_extents o (snd (fst r)) /\
   (forall c, rtg_rsum_cache g = Some c -> rtg_rsum_cache (snd r) = Some c)).
Proof.
  intros Hact Hens Hab Hne r. subst r. unfold GrowRtg.xfs_growfs_rtg.
  rewrite Hact, Hens, Hab. cbn [negb Z.eqb].
  destruct (Z.eqb_spec bmblocks (sb_rbmblocks mp)); [contradiction|]. cbn [negb].
  split.
  - intros Hkv. unfold xfs_alloc_rsum_cache. rewrite Hkv. reflexivity.
  - intros Hkv. unfold xfs_alloc_rsum_cache. rewrite Hkv. cbn [negb Z.eqb].
    destruct (GrowRtg.rounds _ _ _ _ _ _ _ _) as [[e mp'] g2].
    destruct (Z.eqb_spec e 0); cbn [negb fst snd]; [intros H; contradiction|].
    intros _. split.
    + destruct (rtg_rsum_cache g); reflexivity.
    + intros c Hc. rewrite Hc. reflexivity.
Qed.

(** ** Size-first finds what the summary points at *)

Lemma range_free_untouched g0 g a n :
  untouched g0 g -> range_free g0 a n -> range_free g a n.
Proof.
  intros (_ & _ & Hb & _) H i Hi. rewrite Hb. apply H. exact Hi.
Qed.

Lemma rtblock_scan_no_error mp b minlen maxlen prod end_ g :
  0 <= m_blkbit_log mp -> 0 <= b < sb_rbmblocks mp ->
  end_ < (b + 1) * 2 ^ m_blkbit_log mp -> end_ < 2 ^ 63 ->
  forall n i next besti bestlen e,
    b * 2 ^ m_blkbit_log mp <= i ->
    rtblock_scan mp minlen maxlen prod end_ n i next besti bestlen g
      <> ScanErr e.
Proof.
  intros Hlog Hb Hend Hend63.
  pose proof (Z.pow_pos_nonneg 2 (m_blkbit_log mp) ltac:(lia) Hlog) as Hp.
  induction n as [|n IH]; intros i next besti bestlen e Hi; cbn [rtblock_scan];
    [discriminate|].
  destruct (Z.leb_spec i end_); [|discriminate].
  pose proof (rtallocate_clamp_len_range (rtg_extents g) i maxlen prod) as Hc.
  set (scanlen := xfs_rtallocate_clamp_len _ _ _ _) in *.
  destruct (scanlen <? minlen); [discriminate|].
  unfold xfs_rtcheck_range.
  rewrite (bmblock_mapped_in mp b i Hlog Hb) by lia.
  pose proof (first_diff_range (rbm g) true (Z.to_nat scanlen) i) as Hfd.
  set (nx := first_diff _ _ _ _) in *.
  destruct (nx =? i + scanlen); [discriminate|].
  destruct (Z.geb_spec nx end_); [discriminate|].
  unfold xfs_rtfind_forw.
  rewrite (bmblock_mapped_in mp b nx Hlog Hb) by lia.
  pose proof (scan_forw_range (rbm g) (Z.testbit (rbm g) nx) end_
                (Z.to_nat (end_ - nx)) nx ltac:(lia)) as Hsf.
  set (i' := scan_forw _ _ _ _ _) in *.
  apply IH. rewrite u64_small by lia. lia.
Qed.

Lemma rtallocate_extent_block_no_error mp b minlen maxlen prod next0 g e :
  0 < rtg_extents g < 2 ^ 63 -> 0 <= m_blkbit_log mp ->
  0 <= b < sb_rbmblocks mp ->
  sb_rbmblocks mp * 2 ^ m_blkbit_log mp < 2 ^ 64 ->
  fst (xfs_rtallocate_extent_block mp b minlen maxlen prod next0 g) <> BlkErr e.
Proof.
  intros He Hlog Hb Hcap.
  pose proof (Z.pow_pos_nonneg 2 (m_blkbit_log mp) ltac:(lia) Hlog) as Hp.
  unfold xfs_rtallocate_extent_block. cbv zeta. cbn [rtg_extents log_event].
  rewrite (u64_small (b + 1)) by nia.
  rewrite (rbmblock_to_rtx_small mp (b + 1)) by nia.
  rewrite (rbmblock_to_rtx_small mp b) by nia.
  rewrite (u64_small (Z.min _ _ - 1)) by nia.
  set (end_ := Z.min _ _ - 1).
  pose proof (rtblock_scan_no_error mp b minlen maxlen prod end_
                (log_event (EvBlock b minlen maxlen prod) g) Hlog Hb
                ltac:(unfold end_; lia) ltac:(unfold end_; lia)
                (Z.to_nat (end_ - b * 2 ^ m_blkbit_log mp + 1))
                (b * 2 ^ m_blkbit_log mp) next0 (-1) 0) as Hne.
  destruct (rtblock_scan _ _ _ _ _ _ _ _ _ _ _) as [l r|e0|nx bi bl].
  - discriminate.
  - exfalso. apply (Hne e0 ltac:(lia)). reflexivity.
  - destruct (_ =? -1); [discriminate|]. destruct (_ <? minlen); discriminate.
Qed.

(** In a block that ends before [a], where [maxlen] free rtx start, the rtx
    a failed scan hands back lies before [a]. *)
Lemma rtblock_scan_next_below mp minlen maxlen prod end_ a g :
  rtg_extents g < 2 ^ 63 -> minlen <= maxlen -> 0 <= maxlen < 2 ^ 32 ->
  (1 < prod -> maxlen mod prod = 0) ->
  end_ < a -> a + maxlen <= rtg_extents g -> range_free g a maxlen ->
  forall n i next besti bestlen nx bi bl,
    0 <= i ->
    (0 <= next < a \/ (i <= end_ /\ (1 <= n)%nat)) ->
    rtblock_scan mp minlen maxlen prod end_ n i next besti bestlen g
      = ScanDone nx bi bl ->
    0 <= nx < a.
Proof.
  intros He Hlen Hmax Hprod Hend Hfit Hfree.
  induction n as [|n IH]; intros i next besti bestlen nx bi bl Hi Hnext H;
    cbn [rtblock_scan] in H.
  - inversion H; subst. lia.
  - destruct (Z.leb_spec i end_); [|inversion H; subst; lia].
    assert (Hscan : xfs_rtallocate_clamp_len (rtg_extents g) i maxlen prod = maxlen).
    { unfold xfs_rtallocate_clamp_len.
      rewrite (u64_small (i + maxlen)) by lia.
      replace (Z.min (rtg_extents g) (i + maxlen) - i) with maxlen by lia.
      rewrite u64_small, u32_small by lia.
      unfold xfs_rtalloc_align_len, rounddown.
      destruct (Z.ltb_spec 1 prod); [|reflexivity]. rewrite Hprod by lia. lia. }
    rewrite Hscan in H. destruct (Z.ltb_spec maxlen minlen); [lia|].
    unfold xfs_rtcheck_range in H.
    destruct (bmblock_mapped mp i); [|discriminate].
    pose proof (first_diff_range (rbm g) true (Z.to_nat maxlen) i) as Hfd.
    pose proof (first_diff_stops (rbm g) true (Z.to_nat maxlen) i) as Hstop.
    rewrite Z2Nat.id in Hfd, Hstop by lia.
    set (nx' := first_diff _ _ _ _) in *.
    destruct (Z.eqb_spec nx' (i + maxlen)); [discriminate|].
    specialize (Hstop ltac:(lia)). cbn [negb] in Hstop.
    assert (Hnxa : 0 <= nx' < a).
    { split; [lia|]. destruct (Z.lt_ge_cases nx' a) as [|Hge]; [assumption|exfalso].
      rewrite (Hfree nx') in Hstop by lia. discriminate. }
    destruct (nx' >=? end_); [inversion H; subst; exact Hnxa|].
    destruct (xfs_rtfind_forw mp nx' end_ g) as [i'|e]; [|discriminate].
    eapply IH; [|left; exact Hnxa|exact H].
    apply Z.mod_pos_bound. lia.
Qed.

Section Liveness.
Variables (mp : xfs_mount) (minlen maxlen prod next0 a : Z) (g0 : rtgroup).
Hypothesis He : 0 < rtg_extents g0 < 2 ^ 63.
Hypothesis Hlog : 0 <= m_blkbit_log mp.
Hypothesis Hcap : sb_rbmblocks mp * 2 ^ m_blkbit_log mp < 2 ^ 64.
Hypothesis Hlen : 1 <= minlen <= maxlen.
Hypothesis Hmax : maxlen < 2 ^ 32.
Hypothesis Hprod : 1 < prod -> maxlen mod prod = 0.
Hypothesis Ha : 0 <= a.
Hypothesis Hfit : a + maxlen <= rtg_extents g0.
Hypothesis Hfree : range_free g0 a maxlen.
Hypothesis Hblk : xfs_rtx_to_rbmblock mp a < sb_rbmblocks mp.
Hypothesis Hnext0 : 0 <= next0 < 2 ^ 64.

Lemma block_of_run :
  0 <= xfs_rtx_to_rbmblock mp a /\
  xfs_rtx_to_rbmblock mp a * 2 ^ m_blkbit_log mp <= a
    < (xfs_rtx_to_rbmblock mp a + 1) * 2 ^ m_blkbit_log mp.
Proof.
  unfold xfs_rtx_to_rbmblock. rewrite Z.shiftr_div_pow2 by lia.
  pose proof (Z.pow_pos_nonneg 2 (m_blkbit_log mp) ltac:(lia) Hlog) as Hp.
  pose proof (Z.div_mod a (2 ^ m_blkbit_log mp) ltac:(lia)).
  pose proof (Z.mod_pos_bound a (2 ^ m_blkbit_log mp) ltac:(lia)).
  split; [apply Z.div_pos; lia|nia].
Qed.

Lemma block_before_run b g nx g' :
  untouched g0 g -> 0 <= b < xfs_rtx_to_rbmblock mp a ->
  xfs_rtallocate_extent_block mp b minlen maxlen prod next0 g
    = (BlkNospace nx, g') ->
  0 <= nx < a.
Proof.
  intros Hu Hb H.
  pose proof (Z.pow_pos_nonneg 2 (m_blkbit_log mp) ltac:(lia) Hlog) as Hp.
  destruct block_of_run as [_ Hrun].
  pose proof Hu as (_ & Hext & _).
  unfold xfs_rtallocate_extent_block in H. cbv zeta in H.
  cbn [rtg_extents log_event] in H.
  rewrite (u64_small (b + 1)) in H by nia.
  rewrite (rbmblock_to_rtx_small mp (b + 1)) in H by nia.
  rewrite (rbmblock_to_rtx_small mp b) in H by nia.
  rewrite (u64_small (Z.min _ _ - 1)) in H by nia.
  set (end_ := Z.min _ _ - 1) in H.
  set (lo := b * 2 ^ m_blkbit_log mp) in H.
  set (gl := log_event _ g) in H.
  assert (Hdone : forall n0 bi bl,
            rtblock_scan mp minlen maxlen prod end_ (Z.to_nat (end_ - lo + 1))
              lo next0 (-1) 0 gl = ScanDone n0 bi bl -> 0 <= n0 < a).
  { intros n0 bi bl Hs.
    eapply (rtblock_scan_next_below mp minlen maxlen prod end_ a gl);
      [cbn; lia|lia|lia|exact Hprod|unfold end_; nia|cbn; lia| | |
       |exact Hs].
    - apply (range_free_untouched g0 gl); [|exact Hfree].
      eapply untouched_trans; [exact Hu|apply untouched_log_event].
    - unfold lo. nia.
    - right. unfold end_, lo. split; [nia|]. nia. }
  destruct (rtblock_scan _ _ _ _ _ _ _ _ _ _ _) as [l r|e|n0 bi bl];
    try discriminate.
  specialize (Hdone n0 bi bl eq_refl).
  destruct (_ =? -1); [inversion H; subst; exact Hdone|].
  destruct (_ <? minlen); inversion H; subst; exact Hdone.
Qed.

Lemma rtsumlevel_loop_reaches l :
  (forall B, 0 <= B < sb_rbmblocks mp ->
     is_Some (rsum g0 !! xfs_rtsumoffs mp l B)) ->
  forall n i g,
    untouched g0 g -> 0 <= i ->
    (i <= xfs_rtx_to_rbmblock mp a -> (Z.to_nat (sb_rbmblocks mp - i) <= n)%nat) ->
    match rtsumlevel_loop mp l minlen maxlen prod next0 n i g with
    | (Ok _, _) => True
    | (Err e, _) =>
        e = - ENOSPC /\
        (i <= xfs_rtx_to_rbmblock mp a ->
         xfs_rtget_summary mp l (xfs_rtx_to_rbmblock mp a) g0 = Ok 0)
    end.
Proof.
  intros Hread.
  pose proof (Z.pow_pos_nonneg 2 (m_blkbit_log mp) ltac:(lia) Hlog) as Hp.
  destruct block_of_run as [HB0 Hrun].
  set (Ba := xfs_rtx_to_rbmblock mp a) in *.
  induction n as [|n IH]; intros i g Hu Hi Hfuel; cbn [rtsumlevel_loop].
  - split; [reflexivity|]. intros Hle. specialize (Hfuel Hle). lia.
  - destruct (Z.ltb_spec i (sb_rbmblocks mp)).
    2:{ split; [reflexivity|]. intros Hle. lia. }
    rewrite <- (rtget_summary_ext mp l i g0 g Hu).
    destruct (Hread i ltac:(lia)) as [sum Hsum].
    unfold xfs_rtget_summary at 1. rewrite Hsum.
    destruct (Z.eqb_spec sum 0) as [Hs0|Hs0].
    + specialize (IH (u64 (i + 1)) g Hu ltac:(apply Z.mod_pos_bound; lia)).
      rewrite (u64_small (i + 1)) in * by nia.
      specialize (IH ltac:(intros; lia)).
      destruct (rtsumlevel_loop mp l minlen maxlen prod next0 n (i + 1) g)
        as [[r|e] g']; [exact I|].
      destruct IH as [-> IH]. split; [reflexivity|]. intros Hle.
      destruct (Z.eq_dec i Ba) as [->|Hne].
      * unfold xfs_rtget_summary. rewrite Hsum, Hs0. reflexivity.
      * apply IH. lia.
    + pose proof Hu as (_ & Hext & _).
      pose proof (rtallocate_extent_block_no_error mp i minlen maxlen prod next0 g)
        as Hnoerr.
      pose proof (rtallocate_extent_block_untouched mp i minlen maxlen prod next0 g)
        as Hu1.
      destruct (xfs_rtallocate_extent_block mp i minlen maxlen prod next0 g)
        as [[len rtx|nx|e] g1] eqn:Eb; cbn [fst snd] in *.
      * exact I.
      * assert (Hug1 : untouched g0 g1) by (eapply untouched_trans; eassumption).
        destruct (Z.lt_trichotomy i Ba) as [Hlt|[Heq|Hgt]].
        -- (* before the block of the run *)
           pose proof (block_before_run i g nx g1 Hu ltac:(fold Ba; lia) Eb) as Hnx.
           assert (Hbn : 0 <= xfs_rtx_to_rbmblock mp nx <= Ba).
           { unfold Ba, xfs_rtx_to_rbmblock. rewrite !Z.shiftr_div_pow2 by lia.
             split; [apply Z.div_pos; lia|apply Z.div_le_mono; lia]. }
           rewrite (u64_small (i + 1)) by nia.
           set (i' := if xfs_rtx_to_rbmblock mp nx >? i + 1
                      then u64 (xfs_rtx_to_rbmblock mp nx - 1) else i).
           assert (Hi' : i <= i' /\ i' + 1 <= Ba).
           { subst i'. destruct (Z.gtb_spec (xfs_rtx_to_rbmblock mp nx) (i + 1)).
             - rewrite u64_small by nia. lia.
             - lia. }
           rewrite (u64_small (i' + 1)) by nia.
           specialize (IH (i' + 1) g1 Hug1 ltac:(lia) ltac:(intros; lia)).
           destruct (rtsumlevel_loop mp l minlen maxlen prod next0 n (i' + 1) g1)
             as [[r|e] g']; [exact I|].
           destruct IH as [-> IH]. split; [reflexivity|]. intros _. apply IH. lia.
        -- (* the block of the run: the scan cannot fail *)
           exfalso. subst i.
           destruct (rtallocate_extent_block_finds mp Ba minlen maxlen prod next0 a g
                       ltac:(lia) Hlog ltac:(lia) Hcap Hlen Hmax Hprod eq_refl Ha
                       ltac:(lia) (range_free_untouched g0 g a maxlen Hu Hfree))
             as (rtx & Hr & _).
           rewrite Hr in Eb. discriminate.
        -- (* past it *)
           pose proof (rtallocate_extent_block_next mp i minlen maxlen prod next0 g
                         nx g1 ltac:(lia) ltac:(lia) Hlog ltac:(nia) Hnext0 Eb)
             as Hnx.
           assert (Hbn : 0 <= xfs_rtx_to_rbmblock mp nx < 2 ^ 64).
           { unfold xfs_rtx_to_rbmblock. rewrite Z.shiftr_div_pow2 by lia.
             split; [apply Z.div_pos; lia|].
             apply Z.div_lt_upper_bound; [lia|]. nia. }
           rewrite (u64_small (i + 1)) by nia.
           set (i' := if xfs_rtx_to_rbmblock mp nx >? i + 1
                      then u64 (xfs_rtx_to_rbmblock mp nx - 1) else i).
           assert (Hi' : i <= i' < 2 ^ 64 - 1).
           { subst i'. destruct (Z.gtb_spec (xfs_rtx_to_rbmblock mp nx) (i + 1)).
             - rewrite u64_small by lia. lia.
             - nia. }
           rewrite (u64_small (i' + 1)) by lia.
           specialize (IH (i' + 1) g1 Hug1 ltac:(lia) ltac:(intros; lia)).
           destruct (rtsumlevel_loop mp l minlen maxlen prod next0 n (i' + 1) g1)
             as [[r|e] g']; [exact I|].
           destruct IH as [-> IH]. split; [reflexivity|]. intros. lia.
      * exfalso. apply (Hnoerr e); [lia|exact Hlog|lia|exact Hcap|reflexivity].
Qed.

Lemma rtsize_up_reaches L :
  0 <= L < m_rsumlevels mp -> m_rsumlevels mp < 2 ^ 31 ->
  (forall l B, 0 <= l <= L -> 0 <= B < sb_rbmblocks mp ->
     is_Some (rsum g0 !! xfs_rtsumoffs mp l B)) ->
  (forall v, xfs_rtget_summary mp L (xfs_rtx_to_rbmblock mp a) g0 = Ok v ->
     v <> 0) ->
  forall n l g,
    untouched g0 g -> 0 <= l <= L -> (Z.to_nat (L - l + 1) <= n)%nat ->
    exists r g',
      rtsize_up mp minlen maxlen prod next0 n l g = (Some (Ok r), g').
Proof.
  intros HL Hlev Hread Hnz.
  destruct block_of_run as [HB0 _].
  induction n as [|n IH]; intros l g Hu Hl Hn; [lia|].
  cbn [rtsize_up]. rewrite (u32_small l) by lia.
  destruct (Z.ltb_spec l (m_rsumlevels mp)); [|lia].
  unfold xfs_rtalloc_sumlevel.
  pose proof (rtsumlevel_loop_reaches l
                ltac:(intros B HB; apply Hread; [lia|exact HB])
                (Z.to_nat (sb_rbmblocks mp)) 0 g Hu ltac:(lia)
                ltac:(intros; lia)) as Hreach.
  pose proof (rtsumlevel_loop_ext mp l minlen maxlen prod next0
                (Z.to_nat (sb_rbmblocks mp)) 0 g g (untouched_refl g))
    as (_ & Hu1 & _).
  destruct (rtsumlevel_loop mp l minlen maxlen prod next0 _ 0 g) as [[r|e] g1];
    cbn [snd] in Hu1; [eauto|].
  destruct Hreach as [-> Hz]. rewrite Z.eqb_refl.
  specialize (Hz HB0).
  destruct (Z.eq_dec l L) as [->|Hne].
  - exfalso. apply (Hnz 0 Hz). reflexivity.
  - apply IH; [eapply untouched_trans; eassumption|lia|lia].
Qed.
End Liveness.

Lemma rtallocate_extent_size_finds mp minlen maxlen prod next0 a L g :
  0 < rtg_extents g < 2 ^ 63 -> 0 <= m_blkbit_log mp ->
  sb_rbmblocks mp * 2 ^ m_blkbit_log mp < 2 ^ 64 ->
  m_rsumlevels mp < 2 ^ 31 ->
  1 <= minlen <= maxlen -> maxlen < 2 ^ 32 ->
  (1 < prod -> maxlen mod prod = 0) ->
  0 <= next0 < 2 ^ 64 ->
  0 <= a -> a + maxlen <= rtg_extents g -> range_free g a maxlen ->
  xfs_rtx_to_rbmblock mp a < sb_rbmblocks mp ->
  Z.log2 maxlen <= L < m_rsumlevels mp ->
  (forall l B, 0 <= l <= L -> 0 <= B < sb_rbmblocks mp ->
     is_Some (rsum g !! xfs_rtsumoffs mp l B)) ->
  (forall v, xfs_rtget_summary mp L (xfs_rtx_to_rbmblock mp a) g = Ok v ->
     v <> 0) ->
  exists len rtx g',
    xfs_rtallocate_extent_size mp minlen maxlen prod next0 g
      = (Ok (len, rtx), g').
Proof.
  intros He Hlog Hcap Hlev Hlen Hmax Hprod Hnext0 Ha Hfit Hfree Hblk HL Hread Hnz.
  unfold xfs_rtallocate_extent_size. cbv zeta.
  assert (Eh : xfs_highbit32 maxlen = Z.log2 maxlen).
  { unfold xfs_highbit32. apply highbit64_pos. lia. }
  rewrite Eh.
  pose proof (Z.log2_nonneg maxlen) as Hl0.
  destruct (rtsize_up_reaches mp minlen maxlen prod next0 a g He Hlog Hcap Hlen
              Hmax Hprod Ha Hfit Hfree Hblk Hnext0 L ltac:(lia) Hlev Hread Hnz
              (Z.to_nat (m_rsumlevels mp - Z.log2 maxlen)) (Z.log2 maxlen) g
              (untouched_refl g) ltac:(lia) ltac:(lia)) as ([len rtx] & g' & Hr).
  rewrite Hr. eauto.
Qed.

(** X18.  Size-first finds what the summary points at.  Let [maxlen]
    consecutive free rtx start at [a], inside the group, and let the summary
    count an extent for the bitmap block of [a] at some class [L] from
    [floor(log2(maxlen))] on, as it does when the free run they belong to
    starts in that block.  Then, if the summary words of the classes up to
    [L] can be read, the first round of [xfs_rtallocate_extent_size] returns
    an extent: it answers neither NOSPACE nor an error, and the fast-forward
    over bitmap blocks never skips the block of [a]. *)
Theorem rtallocate_extent_size_finds_run (mp : xfs_mount)
    (minlen maxlen prod next0 a L : Z) (g : rtgroup) :
  0 < rtg_extents g < 2 ^ 63 -> 0 <= m_blkbit_log mp ->
  sb_rbmblocks mp * 2 ^ m_blkbit_log mp < 2 ^ 64 ->
  m_rsumlevels mp < 2 ^ 31 ->
  1 <= minlen <= maxlen -> maxlen < 2 ^ 32 ->
  (1 < prod -> maxlen mod prod = 0) ->
  0 <= next0 < 2 ^ 64 ->
  0 <= a -> a + maxlen <= rtg_extents g -> range_free g a maxlen ->
  xfs_rtx_to_rbmblock mp a < sb_rbmblocks mp ->
  Z.log2 maxlen <= L < m_rsumlevels mp ->
  (forall l B, 0 <= l <= L -> 0 <= B < sb_rbmblocks mp ->
     is_Some (rsum g !! xfs_rtsumoffs mp l B)) ->
  (forall v, xfs_rtget_summary mp L (xfs_rtx_to_rbmblock mp a) g = Ok v ->
     v <> 0) ->
  exists len rtx g',
    xfs_rtallocate_extent_size mp minlen maxlen prod next0 g
      = (Ok (len, rtx), g').
Proof. apply rtallocate_extent_size_finds. Qed.

(** ** The summary stays the count of the free runs *)

Lemma sum_over_ext f h :
  forall n i, (forall k, i <= k < i + Z.of_nat n -> f k = h k) ->
    sum_over f n i = sum_over h n i.
Proof.
  induction n as [|n IH]; intros i H; cbn [sum_over]; [reflexivity|].
  rewrite (H i) by lia. rewrite (IH (i + 1)); [reflexivity|].
  intros k Hk. apply H. lia.
Qed.

Lemma sum_over_add f h :
  forall n i, sum_over (fun k => f k + h k) n i = sum_over f n i + sum_over h n i.
Proof.
  induction n as [|n IH]; intros i; cbn [sum_over]; [reflexivity|].
  rewrite IH. lia.
Qed.

Lemma sum_over_delta r0 c :
  forall n i,
    sum_over (fun k => if k =? r0 then c else 0) n i =
      if (i <=? r0) && (r0 <? i + Z.of_nat n) then c else 0.
Proof.
  induction n as [|n IH]; intros i; cbn [sum_over].
  - destruct (Z.leb_spec i r0), (Z.ltb_spec r0 (i + Z.of_nat 0)); cbn; try lia;
      reflexivity.
  - rewrite IH.
    destruct (Z.eqb_spec i r0), (Z.leb_spec i r0), (Z.leb_spec (i + 1) r0),
      (Z.ltb_spec r0 (i + 1 + Z.of_nat n)), (Z.ltb_spec r0 (i + Z.of_nat (S n)));
      cbn; lia.
Qed.

Lemma sum_over_bounds f :
  (forall k, 0 <= f k <= 1) ->
  forall n i, 0 <= sum_over f n i <= Z.of_nat n.
Proof.
  intros Hf. induction n as [|n IH]; intros i; cbn [sum_over]; [lia|].
  specialize (IH (i + 1)). specialize (Hf i). lia.
Qed.

Lemma sum_over_ge f r0 :
  (forall k, 0 <= f k) ->
  forall n i, i <= r0 < i + Z.of_nat n -> f r0 <= sum_over f n i.
Proof.
  intros Hf. induction n as [|n IH]; intros i Hr; cbn [sum_over]; [lia|].
  destruct (Z.eq_dec i r0) as [->|Hne].
  - assert (0 <= sum_over f n (r0 + 1)); [|lia].
    clear -Hf. generalize (r0 + 1). induction n as [|n IH]; intros j;
      cbn [sum_over]; [lia|]. specialize (IH (j + 1)). specialize (Hf j). lia.
  - specialize (IH (i + 1) ltac:(lia)). specialize (Hf i). lia.
Qed.

Lemma first_diff_agree bm bm' v p :
  forall n i, i <= p -> Z.testbit bm p <> v ->
    (forall k, i <= k <= p -> Z.testbit bm' k = Z.testbit bm k) ->
    first_diff bm' v n i = first_diff bm v n i.
Proof.
  induction n as [|n IH]; intros i Hi Hp Heq; cbn [first_diff]; [reflexivity|].
  rewrite (Heq i) by lia.
  destruct (Bool.eqb (Z.testbit bm i) v) eqn:E; [|reflexivity].
  apply eqb_prop in E.
  assert (i <> p) by (intros ->; contradiction).
  apply IH; [lia|assumption|]. intros k Hk. apply Heq. lia.
Qed.

Lemma first_diff_ext bm bm' v :
  forall n i,
    (forall k, i <= k < i + Z.of_nat n -> Z.testbit bm' k = Z.testbit bm k) ->
    first_diff bm' v n i = first_diff bm v n i.
Proof.
  induction n as [|n IH]; intros i Heq; cbn [first_diff]; [reflexivity|].
  rewrite (Heq i) by lia.
  destruct (Bool.eqb (Z.testbit bm i) v); [|reflexivity].
  apply IH. intros k Hk. apply Heq. lia.
Qed.

Lemma run_end_at g r e :
  0 <= r < e -> e <= rtg_extents g ->
  range_free g r (e - r) ->
  (e = rtg_extents g \/ Z.testbit (rbm g) e = false) ->
  run_end g r = e.
Proof.
  intros Hr He Hfree Hstop. unfold run_end.
  destruct (Z.eq_dec e (rtg_extents g)) as [->|Hne].
  - rewrite first_diff_all.
    + rewrite Z2Nat.id by lia. lia.
    + intros k Hk. rewrite Z2Nat.id in Hk by lia. apply Hfree. lia.
  - destruct Hstop as [->|Hbit]; [contradiction|].
    apply first_diff_stop.
    + rewrite Z2Nat.id by lia. lia.
    + intros k Hk. apply Hfree. lia.
    + rewrite Hbit. discriminate.
Qed.

Lemma run_starts_true g r :
  0 <= r < rtg_extents g -> Z.testbit (rbm g) r = true ->
  (r = 0 \/ Z.testbit (rbm g) (r - 1) = false) ->
  run_starts g r = true.
Proof.
  intros Hr Hb Hl. unfold run_starts.
  destruct (Z.leb_spec 0 r); [|lia].
  destruct (Z.ltb_spec r (rtg_extents g)); [|lia].
  rewrite Hb. cbn [andb].
  destruct Hl as [->|Hl]; [reflexivity|].
  rewrite Hl. apply orb_true_r.
Qed.

Lemma run_starts_inside g r :
  1 <= r -> Z.testbit (rbm g) (r - 1) = true -> run_starts g r = false.
Proof.
  intros Hr Hb. unfold run_starts. rewrite Hb.
  destruct (Z.eqb_spec r 0); [lia|]. cbn. apply andb_false_r.
Qed.

Lemma run_starts_allocated g r :
  Z.testbit (rbm g) r = false -> run_starts g r = false.
Proof.
  intros Hb. unfold run_starts. rewrite Hb.
  rewrite andb_false_r. reflexivity.
Qed.

Lemma run_starts_outside g r :
  r < 0 \/ rtg_extents g <= r -> run_starts g r = false.
Proof.
  intros H. unfold run_starts.
  destruct (Z.leb_spec 0 r), (Z.ltb_spec r (rtg_extents g)); try lia; reflexivity.
Qed.

Lemma run_starts_ext g g' r :
  rtg_extents g' = rtg_extents g ->
  Z.testbit (rbm g') r = Z.testbit (rbm g) r ->
  (1 <= r -> Z.testbit (rbm g') (r - 1) = Z.testbit (rbm g) (r - 1)) ->
  run_starts g' r = run_starts g r.
Proof.
  intros He Hb Hl. unfold run_starts. rewrite He, Hb.
  destruct (Z.eqb_spec r 0) as [->|Hne].
  - reflexivity.
  - destruct (Z.leb_spec 0 r); [|reflexivity].
    rewrite Hl by lia. reflexivity.
Qed.

Lemma run_of_class_range g L r : 0 <= run_of_class g L r <= 1.
Proof. unfold run_of_class. destruct (_ && _); lia. Qed.

(** The change of the indicator of run starts when the free range
    [[start, start + len)] is cut out of the maximal free run
    [[pre, post)]. *)
Lemma run_of_class_after g g' start len pre post L r :
  0 <= start -> 0 < len -> start + len <= rtg_extents g ->
  range_free g start len ->
  maximal_free_run g start pre post ->
  rtg_extents g' = rtg_extents g ->
  (forall i, 0 <= i ->
     Z.testbit (rbm g') i =
       if (start <=? i) && (i <? start + len) then false
       else Z.testbit (rbm g) i) ->
  run_of_class g' L r =
    run_of_class g L r
    + (if r =? pre then (if L =? Z.log2 (post - pre) then -1 else 0) else 0)
    + (if r =? pre
       then (if (pre <? start) && (L =? Z.log2 (start - pre)) then 1 else 0)
       else 0)
    + (if r =? start + len
       then (if (start + len <? post) && (L =? Z.log2 (post - (start + len)))
             then 1 else 0)
       else 0).
Proof.
  intros Hs Hl He Hfree (Hpre & Hpost & Hrun & Hleft & Hright) HE Hbits.
  assert (Hpost' : start + len <= post).
  { destruct (Z_le_gt_dec (start + len) post) as [|Hgt]; [assumption|].
    destruct Hright as [->|Hbit]; [lia|].
    rewrite (Hfree post) in Hbit by lia. discriminate. }
  assert (Hsame : forall i, 0 <= i -> i < start \/ start + len <= i ->
            Z.testbit (rbm g') i = Z.testbit (rbm g) i).
  { intros i Hi Ho. rewrite Hbits by assumption.
    destruct (Z.leb_spec start i), (Z.ltb_spec i (start + len)); cbn; try lia;
      reflexivity. }
  assert (Hclr : forall i, start <= i < start + len ->
            Z.testbit (rbm g') i = false).
  { intros i Hi. rewrite Hbits by lia.
    destruct (Z.leb_spec start i), (Z.ltb_spec i (start + len)); cbn; try lia;
      reflexivity. }
  assert (Hz : forall a b : bool, (if a && b then 1 else 0) =
                                  (if a then if b then 1 else 0 else 0)).
  { intros [] []; reflexivity. }
  unfold run_of_class.
  destruct (Z_lt_ge_dec r 0) as [Hneg|Hnn].
  { rewrite !run_starts_outside by lia. cbn [andb].
    destruct (Z.eqb_spec r pre); [lia|].
    destruct (Z.eqb_spec r (start + len)); [lia|]. reflexivity. }
  destruct (Z_lt_ge_dec r (rtg_extents g)) as [Hin|Hout].
  2:{ rewrite !run_starts_outside by lia. cbn [andb].
      destruct (Z.eqb_spec r pre); [lia|].
      destruct (Z.eqb_spec r (start + len)); [|reflexivity].
      destruct (Z.ltb_spec (start + len) post); [lia|]. reflexivity. }
  destruct (Z_lt_ge_dec r pre) as [Hb|Hb].
  { (* a run before the one that is cut *)
    assert (Hp : Z.testbit (rbm g) (pre - 1) = false).
    { destruct Hleft as [->|H]; [lia|exact H]. }
    rewrite (run_starts_ext g g' r HE) by (intros; apply Hsame; lia).
    assert (Ee : run_end g' r = run_end g r).
    { unfold run_end. rewrite HE. apply (first_diff_agree _ _ _ (pre - 1)).
      - lia.
      - rewrite Hp. discriminate.
      - intros k Hk. apply Hsame; lia. }
    rewrite Ee.
    destruct (Z.eqb_spec r pre); [lia|].
    destruct (Z.eqb_spec r (start + len)); [lia|]. lia. }
  destruct (Z.eq_dec r pre) as [->|Hne].
  { (* the run that is cut *)
    assert (Sg : run_starts g pre = true).
    { apply run_starts_true; [lia|apply Hrun; lia|exact Hleft]. }
    assert (Eg : run_end g pre = post).
    { apply run_end_at; [lia|lia|exact Hrun|exact Hright]. }
    rewrite Sg, Eg. cbn [andb]. rewrite Z.eqb_refl.
    destruct (Z.eqb_spec pre (start + len)); [lia|].
    rewrite (Z.eqb_sym (Z.log2 (post - pre)) L).
    destruct (Z.ltb_spec pre start) as [Hlt|Hge].
    - assert (Sg' : run_starts g' pre = true).
      { apply run_starts_true.
        - lia.
        - rewrite Hsame by lia. apply Hrun. lia.
        - destruct (Z.eq_dec pre 0) as [->|Hp0]; [left; reflexivity|right].
          destruct Hleft as [->|H]; [lia|].
          rewrite Hsame by lia. exact H. }
      assert (Eg' : run_end g' pre = start).
      { apply run_end_at; [lia|lia| |right; apply Hclr; lia].
        intros k Hk. rewrite Hsame by lia. apply Hrun. lia. }
      rewrite Sg', Eg'. cbn [andb].
      rewrite (Z.eqb_sym (Z.log2 (start - pre)) L).
      destruct (L =? Z.log2 (post - pre)), (L =? Z.log2 (start - pre)); lia.
    - assert (pre = start) by lia. subst pre.
      rewrite (run_starts_allocated g') by (apply Hclr; lia). cbn [andb].
      destruct (L =? Z.log2 (post - start)); lia. }
  destruct (Z.eqb_spec r pre); [lia|].
  destruct (Z_lt_ge_dec r post) as [Hc|Hc].
  { (* inside the run that is cut *)
    rewrite (run_starts_inside g r) by (first [lia | apply Hrun; lia]). cbn [andb].
    destruct (Z.eqb_spec r (start + len)) as [->|Hn].
    - destruct (Z.ltb_spec (start + len) post); [|lia].
      assert (Sg' : run_starts g' (start + len) = true).
      { apply run_starts_true.
        - lia.
        - rewrite Hsame by lia. apply Hrun. lia.
        - right. apply Hclr. lia. }
      assert (Eg' : run_end g' (start + len) = post).
      { apply run_end_at; [lia|lia| |].
        - intros k Hk. rewrite Hsame by lia. apply Hrun. lia.
        - destruct Hright as [->|Hr]; [left; congruence|right].
          rewrite Hsame by lia. exact Hr. }
      rewrite Sg', Eg'. cbn [andb].
      rewrite (Z.eqb_sym (Z.log2 (post - (start + len))) L).
      destruct (L =? Z.log2 (post - (start + len))); lia.
    - assert (Sg' : run_starts g' r = false).
      { destruct (Z_lt_ge_dec r start).
        - apply run_starts_inside; [lia|]. rewrite Hsame by lia.
          apply Hrun. lia.
        - destruct (Z_lt_ge_dec r (start + len)).
          + apply run_starts_allocated. apply Hclr. lia.
          + apply run_starts_inside; [lia|]. rewrite Hsame by lia.
            apply Hrun. lia. }
      rewrite Sg'. cbn [andb]. lia. }
  (* a run behind the one that is cut *)
  assert (Ee : run_end g' r = run_end g r).
  { unfold run_end. rewrite HE. apply first_diff_ext.
    intros k Hk. apply Hsame; lia. }
  assert (Es : run_starts g' r = run_starts g r).
  { destruct (Z.eq_dec r post) as [->|Hn].
    - destruct Hright as [->|Hr]; [lia|].
      rewrite !run_starts_allocated; [reflexivity|exact Hr|].
      rewrite Hsame by lia. exact Hr.
    - apply (run_starts_ext g g' r HE); intros; apply Hsame; lia. }
  rewrite Ee, Es.
  destruct (Z.eqb_spec r (start + len)); [|lia].
  destruct (Z.ltb_spec (start + len) post); [lia|]. cbn [andb]. lia.
Qed.

Lemma rtsumoffs_inj mp L B L' B' :
  0 <= B < sb_rbmblocks mp -> 0 <= B' < sb_rbmblocks mp ->
  xfs_rtsumoffs mp L B = xfs_rtsumoffs mp L' B' -> L = L' /\ B = B'.
Proof.
  unfold xfs_rtsumoffs. intros HB HB' H.
  assert (L = L') by nia. subst L'. split; [reflexivity|lia].
Qed.

Lemma summary_add_holds mp m f (c : bool) L0 B0 d :
  summary_holds mp m f ->
  (c = true ->
     0 <= L0 < m_rsumlevels mp /\ 0 <= B0 < sb_rbmblocks mp /\
     0 <= f L0 B0 + d < 2 ^ 32) ->
  summary_holds mp (if c then summary_add mp L0 B0 d m else m)
    (fun L B => f L B + if c && (L =? L0) && (B =? B0) then d else 0).
Proof.
  intros H Hc L B HL HB. destruct c; cbn [andb].
  2:{ rewrite Z.add_0_r. apply H; assumption. }
  destruct (Hc eq_refl) as (HL0 & HB0 & Hv).
  unfold summary_add. rewrite (H L0 B0) by assumption.
  destruct (Z.eqb_spec L L0) as [->|HnL]; cbn [andb].
  - destruct (Z.eqb_spec B B0) as [->|HnB].
    + rewrite lookup_insert_eq. rewrite u32_small by exact Hv. reflexivity.
    + rewrite lookup_insert_ne.
      * rewrite Z.add_0_r. apply H; assumption.
      * intros E. apply rtsumoffs_inj in E; [|assumption|assumption]. lia.
  - rewrite lookup_insert_ne.
    + rewrite Z.add_0_r. apply H; assumption.
    + intros E. apply rtsumoffs_inj in E; [|assumption|assumption]. lia.
Qed.

Lemma summary_holds_ext mp m f h :
  summary_holds mp m f ->
  (forall L B, 0 <= L < m_rsumlevels mp -> 0 <= B < sb_rbmblocks mp ->
     f L B = h L B) ->
  summary_holds mp m h.
Proof.
  intros H E L B HL HB. rewrite <- E by assumption. apply H; assumption.
Qed.

Lemma runs_in_block_ext mp g g' L B :
  rtg_extents g' = rtg_extents g -> rbm g' = rbm g ->
  runs_in_block mp g' L B = runs_in_block mp g L B.
Proof.
  intros He Hb. unfold runs_in_block. apply sum_over_ext. intros k _.
  unfold run_of_class, run_starts, run_end. rewrite He, Hb. reflexivity.
Qed.

Lemma summary_coherent_ext mp g g' :
  rtg_extents g' = rtg_extents g -> rbm g' = rbm g -> rsum g' = rsum g ->
  summary_coherent mp g -> summary_coherent mp g'.
Proof.
  intros He Hb Hs H L B HL HB. rewrite Hs.
  rewrite (runs_in_block_ext mp g g') by assumption. apply H; assumption.
Qed.

Lemma runs_in_block_range mp g L B :
  0 <= m_blkbit_log mp ->
  0 <= runs_in_block mp g L B <= 2 ^ m_blkbit_log mp.
Proof.
  intros Hlog. unfold runs_in_block, bits_per_bmblock.
  pose proof (sum_over_bounds (run_of_class g L) (run_of_class_range g L)
                (Z.to_nat (2 ^ m_blkbit_log mp)) (B * 2 ^ m_blkbit_log mp)) as H.
  rewrite Z2Nat.id in H by (apply Z.pow_nonneg; lia). exact H.
Qed.

(** A bitmap block holds the rtx whose number shifts down to it. *)
Lemma in_block_iff mp B r :
  0 <= m_blkbit_log mp ->
  (B * bits_per_bmblock mp <=? r) &&
  (r <? B * bits_per_bmblock mp + Z.of_nat (Z.to_nat (bits_per_bmblock mp)))
  = (B =? xfs_rtx_to_rbmblock mp r).
Proof.
  intros Hlog. unfold bits_per_bmblock, xfs_rtx_to_rbmblock.
  rewrite Z.shiftr_div_pow2 by assumption.
  assert (Hp : 0 < 2 ^ m_blkbit_log mp) by (apply Z.pow_pos_nonneg; lia).
  rewrite Z2Nat.id by lia.
  pose proof (Z.mul_div_le r _ Hp). pose proof (Z.mul_succ_div_gt r _ Hp).
  destruct (Z.eqb_spec B (r / 2 ^ m_blkbit_log mp)) as [->|Hne].
  - destruct (Z.leb_spec (r / 2 ^ m_blkbit_log mp * 2 ^ m_blkbit_log mp) r),
      (Z.ltb_spec r (r / 2 ^ m_blkbit_log mp * 2 ^ m_blkbit_log mp
                     + 2 ^ m_blkbit_log mp)); cbn; try lia; reflexivity.
  - destruct (Z.leb_spec (B * 2 ^ m_blkbit_log mp) r),
      (Z.ltb_spec r (B * 2 ^ m_blkbit_log mp + 2 ^ m_blkbit_log mp));
      cbn; try reflexivity.
    exfalso. apply Hne.
    apply (Z.div_unique_pos r _ B (r - B * 2 ^ m_blkbit_log mp)); lia.
Qed.

Lemma run_start_exists bm :
  forall n start, start = Z.of_nat n -> Z.testbit bm start = true ->
    exists pre, 0 <= pre <= start /\
      (forall k, pre <= k <= start -> Z.testbit bm k = true) /\
      (pre = 0 \/ Z.testbit bm (pre - 1) = false).
Proof.
  induction n as [|n IH]; intros start Hs Hb.
  - exists 0. split; [lia|]. split; [|left; reflexivity].
    intros k Hk. assert (k = start) by lia. subst k. exact Hb.
  - destruct (Z.testbit bm (start - 1)) eqn:E.
    + destruct (IH (start - 1) ltac:(lia) E) as (pre & Hr & Hf & Hl).
      exists pre. split; [lia|]. split; [|exact Hl].
      intros k Hk. destruct (Z.eq_dec k start) as [->|Hne]; [exact Hb|].
      apply Hf. lia.
    + exists start. split; [lia|]. split; [|right; exact E].
      intros k Hk. assert (k = start) by lia. subst k. exact Hb.
Qed.

Lemma maximal_free_run_exists g start :
  0 <= start < rtg_extents g -> Z.testbit (rbm g) start = true ->
  exists pre post, maximal_free_run g start pre post.
Proof.
  intros Hs Hb.
  destruct (run_start_exists (rbm g) (Z.to_nat start) start ltac:(lia) Hb)
    as (pre & Hr & Hf & Hl).
  set (post := first_diff (rbm g) true (Z.to_nat (rtg_extents g - start)) start).
  pose proof (first_diff_range (rbm g) true (Z.to_nat (rtg_extents g - start)) start)
    as Hrange.
  rewrite Z2Nat.id in Hrange by lia. fold post in Hrange.
  pose proof (first_diff_stops (rbm g) true (Z.to_nat (rtg_extents g - start)) start)
    as Hstop.
  rewrite Z2Nat.id in Hstop by lia. fold post in Hstop. cbn [negb] in Hstop.
  assert (start < post).
  { destruct (Z.eq_dec post start) as [E|]; [|lia].
    rewrite E in Hstop. rewrite Hstop in Hb by lia. discriminate. }
  exists pre, post. unfold maximal_free_run. split; [lia|]. split; [lia|].
  split; [|split; [exact Hl|]].
  - intros i Hi. destruct (Z_lt_ge_dec i start).
    + apply Hf. lia.
    + apply (first_diff_prefix (rbm g) true
               (Z.to_nat (rtg_extents g - start)) start). fold post. lia.
  - destruct (Z.eq_dec post (rtg_extents g)); [left; assumption|right].
    apply Hstop. lia.
Qed.

(** What [xfs_rtallocate_range] leaves behind when it cuts a free range out
    of the maximal free run [[pre, post)]. *)
Lemma rtallocate_range_run mp start len pre post g :
  0 <= start -> 0 < len -> start + len <= rtg_extents g ->
  rtg_extents g < 2 ^ 63 ->
  bmblock_mapped mp start = true ->
  bmblock_mapped mp (start + len - 1) = true ->
  range_free g start len ->
  maximal_free_run g start pre post ->
  is_Some (rsum g !! xfs_rtsumoffs mp (Z.log2 (post - pre))
                       (xfs_rtx_to_rbmblock mp pre)) ->
  (pre < start ->
   is_Some (rsum g !! xfs_rtsumoffs mp (Z.log2 (start - pre))
                        (xfs_rtx_to_rbmblock mp pre))) ->
  (start + len < post ->
   is_Some (rsum g !! xfs_rtsumoffs mp (Z.log2 (post - (start + len)))
                        (xfs_rtx_to_rbmblock mp (start + len)))) ->
  let m1 := summary_add mp (Z.log2 (post - pre))
              (xfs_rtx_to_rbmblock mp pre) (-1) (rsum g) in
  let m2 := if pre <? start
            then summary_add mp (Z.log2 (start - pre))
                   (xfs_rtx_to_rbmblock mp pre) 1 m1
            else m1 in
  let m3 := if start + len <? post
            then summary_add mp (Z.log2 (post - (start + len)))
                   (xfs_rtx_to_rbmblock mp (start + len)) 1 m2
            else m2 in
  xfs_rtallocate_range mp start len g =
    (Ok tt, set_rbm (Z.ldiff (rbm g) (Z.shiftl (Z.ones len) start))
              (set_rsum m3 g)).
Proof.
  intros Hs Hl He He63 Hmap1 Hmap2 Hfree
    (Hpre & Hpost & Hrun & Hleft & Hright) Hc1 Hc2 Hc3 m1 m2 m3.
  assert (Hpost' : start + len <= post).
  { destruct (Z_le_gt_dec (start + len) post) as [|Hgt]; [assumption|].
    destruct Hright as [->|Hbit]; [lia|].
    rewrite (Hfree post) in Hbit by lia. discriminate. }
  unfold xfs_rtallocate_range.
  rewrite (u64_small (start + len - 1)) by lia.
  rewrite (u64_small (start + len - 1 + 1)) by lia.
  replace (start + len - 1 + 1) with (start + len) by lia.
  unfold bind at 1. unfold lift, xfs_rtfind_back. rewrite Hmap1.
  rewrite (scan_back_spec (rbm g) _ pre).
  2: lia. 2: lia.
  2:{ intros k Hk. rewrite (Hfree start) by lia. apply Hrun. lia. }
  2:{ destruct Hleft as [->|Hbit]; [left; reflexivity|right].
      rewrite Hbit, (Hfree start) by lia. discriminate. }
  unfold bind at 1. unfold xfs_rtfind_forw. rewrite Hmap2.
  rewrite (u64_small (rtg_extents g - 1)) by lia.
  rewrite (scan_forw_spec (rbm g) _ (rtg_extents g - 1) (post - 1)).
  2: lia. 2: lia.
  2:{ intros k Hk. rewrite (Hfree (start + len - 1)) by lia. apply Hrun. lia. }
  2:{ destruct Hright as [->|Hbit]; [left; reflexivity|right].
      replace (post - 1 + 1) with post by lia.
      rewrite Hbit, (Hfree (start + len - 1)) by lia. discriminate. }
  replace (post - 1 + 1 - pre) with (post - pre) by lia.
  replace (post - 1 - (start + len - 1)) with (post - (start + len)) by lia.
  rewrite (u64_small (post - pre)) by lia.
  rewrite (highbit64_pos (post - pre)) by lia.
  unfold bind at 1. rewrite rtmodify_summary_ok by exact Hc1. fold m1.
  unfold bind at 1.
  assert (E2 : (if pre <? start
                then xfs_rtmodify_summary mp (xfs_highbit64 (u64 (start - pre)))
                       (xfs_rtx_to_rbmblock mp pre) 1
                else ret tt) (set_rsum m1 g) = (Ok tt, set_rsum m2 g)).
  { subst m2. destruct (Z.ltb_spec pre start) as [Hlt|Hge].
    - rewrite (u64_small (start - pre)) by lia.
      rewrite highbit64_pos by lia.
      rewrite rtmodify_summary_ok.
      + reflexivity.
      + cbn [rsum set_rsum]. subst m1. apply summary_add_is_Some. auto.
    - reflexivity. }
  rewrite E2.
  unfold bind at 1.
  assert (E3 : (if post - 1 >? start + len - 1
                then xfs_rtmodify_summary mp
                       (xfs_highbit64 (u64 (post - (start + len))))
                       (xfs_rtx_to_rbmblock mp (start + len)) 1
                else ret tt) (set_rsum m2 g) = (Ok tt, set_rsum m3 g)).
  { subst m3. rewrite Z.gtb_ltb.
    destruct (Z.ltb_spec (start + len - 1) (post - 1)) as [Hlt|Hge];
      destruct (Z.ltb_spec (start + len) post); try lia.
    - rewrite (u64_small (post - (start + len))) by lia.
      rewrite highbit64_pos by lia.
      rewrite rtmodify_summary_ok.
      + reflexivity.
      + cbn [rsum set_rsum]. subst m2 m1.
        destruct (pre <? start); rewrite ?summary_add_is_Some; auto.
    - reflexivity. }
  rewrite E3.
  unfold xfs_rtmodify_range. cbn [rbm set_rsum].
  rewrite Hmap1. reflexivity.
Qed.

Lemma rtallocate_range_coherent mp start len g :
  0 <= m_blkbit_log mp < 32 ->
  0 < rtg_extents g < 2 ^ 63 ->
  rtg_extents g <= sb_rbmblocks mp * 2 ^ m_blkbit_log mp ->
  rtg_extents g < 2 ^ m_rsumlevels mp ->
  0 <= start -> 0 < len -> start + len <= rtg_extents g ->
  range_free g start len ->
  summary_coherent mp g ->
  exists g',
    xfs_rtallocate_range mp start len g = (Ok tt, g') /\
    summary_coherent mp g' /\
    rtg_extents g' = rtg_extents g /\
    rbm g' = Z.ldiff (rbm g) (Z.shiftl (Z.ones len) start).
Proof.
  intros Hlog He Hcap Hlev Hs Hl Hend Hfree Hcoh.
  destruct (maximal_free_run_exists g start ltac:(lia) (Hfree start ltac:(lia)))
    as (pre & post & Hrun).
  pose proof Hrun as (Hpre & Hpost & Hrf & Hleft & Hright).
  assert (Hpost' : start + len <= post).
  { destruct (Z_le_gt_dec (start + len) post) as [|Hgt]; [assumption|].
    destruct Hright as [->|Hbit]; [lia|].
    rewrite (Hfree post) in Hbit by lia. discriminate. }
  assert (Hp : 0 < 2 ^ m_blkbit_log mp) by (apply Z.pow_pos_nonneg; lia).
  assert (Hp31 : 2 ^ m_blkbit_log mp <= 2 ^ 31)
    by (apply Z.pow_le_mono_r; lia).
  assert (Hblk : forall r, 0 <= r < rtg_extents g ->
            0 <= xfs_rtx_to_rbmblock mp r < sb_rbmblocks mp).
  { intros r Hr. unfold xfs_rtx_to_rbmblock.
    rewrite Z.shiftr_div_pow2 by lia. split.
    - apply Z.div_pos; lia.
    - apply Z.div_lt_upper_bound; [lia|]. lia. }
  assert (Hcls : forall x, 0 < x <= rtg_extents g ->
            0 <= Z.log2 x < m_rsumlevels mp).
  { intros x Hx. split; [apply Z.log2_nonneg|].
    apply Z.log2_lt_pow2; lia. }
  assert (Hmap : forall r, 0 <= r < rtg_extents g -> bmblock_mapped mp r = true).
  { intros r Hr. unfold bmblock_mapped. pose proof (Hblk r Hr).
    destruct (Z.leb_spec 0 r); [|lia].
    destruct (Z.ltb_spec (xfs_rtx_to_rbmblock mp r) (sb_rbmblocks mp)); [|lia].
    reflexivity. }
  set (L0 := Z.log2 (post - pre)).
  set (L1 := Z.log2 (start - pre)).
  set (L2 := Z.log2 (post - (start + len))).
  set (Bpre := xfs_rtx_to_rbmblock mp pre).
  set (Bnext := xfs_rtx_to_rbmblock mp (start + len)).
  rewrite (rtallocate_range_run mp start len pre post g); try assumption;
    try lia.
  2:{ apply Hmap. lia. }
  2:{ apply Hmap. lia. }
  2:{ eexists. apply Hcoh; [apply Hcls|apply Hblk]; lia. }
  2:{ intros Hlt. eexists. apply Hcoh; [apply Hcls|apply Hblk]; lia. }
  2:{ intros Hlt. eexists. apply Hcoh; [apply Hcls|apply Hblk]; lia. }
  fold L0 L1 L2 Bpre Bnext.
  eexists. split; [reflexivity|]. split; [|split; reflexivity].
  set (g' := set_rbm _ _).
  unfold summary_coherent. subst g'. cbn [rsum set_rbm set_rsum].
  set (g' := set_rbm _ _).
  (* the run that is cut is counted in its cell *)
  assert (Hin : Bpre * bits_per_bmblock mp <= pre
                < Bpre * bits_per_bmblock mp
                  + Z.of_nat (Z.to_nat (bits_per_bmblock mp))).
  { pose proof (in_block_iff mp Bpre pre ltac:(lia)) as E.
    fold Bpre in E. rewrite Z.eqb_refl in E.
    apply andb_true_iff in E. destruct E as [E1 E2].
    apply Z.leb_le in E1. apply Z.ltb_lt in E2. lia. }
  assert (Hcnt : 1 <= runs_in_block mp g L0 Bpre).
  { unfold runs_in_block.
    assert (E : run_of_class g L0 pre = 1).
    { unfold run_of_class.
      rewrite run_starts_true; [|lia|apply Hrf; lia|exact Hleft].
      rewrite (run_end_at g pre post); [|lia|lia|exact Hrf|exact Hright].
      fold L0. rewrite Z.eqb_refl. reflexivity. }
    rewrite <- E. apply sum_over_ge; [|exact Hin].
    intros k. apply run_of_class_range. }
  pose proof (fun L B => runs_in_block_range mp g L B ltac:(lia)) as Hf0.
  pose proof (summary_add_holds mp (rsum g) (runs_in_block mp g) true
                L0 Bpre (-1) Hcoh) as H1.
  cbn [andb] in H1.
  specialize (H1 ltac:(intros _; split; [apply Hcls; lia|];
                       split; [apply Hblk; lia|]; specialize (Hf0 L0 Bpre); lia)).
  set (f1 := fun L B => runs_in_block mp g L B
                        + (if (L =? L0) && (B =? Bpre) then -1 else 0)) in H1.
  assert (Hf1 : forall L B, 0 <= f1 L B <= 2 ^ 31).
  { intros L B. unfold f1. specialize (Hf0 L B).
    destruct (Z.eqb_spec L L0) as [->|]; cbn [andb]; [|lia].
    destruct (Z.eqb_spec B Bpre) as [->|]; lia. }
  pose proof (summary_add_holds mp _ f1 (pre <? start) L1 Bpre 1 H1) as H2.
  specialize (H2 ltac:(intros Hc; apply Z.ltb_lt in Hc;
                       split; [apply Hcls; lia|];
                       split; [apply Hblk; lia|]; specialize (Hf1 L1 Bpre); lia)).
  set (f2 := fun L B => f1 L B
                        + (if (pre <? start) && (L =? L1) && (B =? Bpre)
                           then 1 else 0)) in H2.
  assert (Hf2 : forall L B, 0 <= f2 L B <= 2 ^ 31 + 1).
  { intros L B. unfold f2. specialize (Hf1 L B).
    destruct ((pre <? start) && (L =? L1) && (B =? Bpre)); lia. }
  pose proof (summary_add_holds mp _ f2 (start + len <? post) L2 Bnext 1 H2) as H3.
  specialize (H3 ltac:(intros Hc; apply Z.ltb_lt in Hc;
                       split; [apply Hcls; lia|];
                       split; [apply Hblk; lia|]; specialize (Hf2 L2 Bnext); lia)).
  eapply summary_holds_ext; [exact H3|].
  intros L B HL HB. cbv beta. unfold f2, f1.
  unfold runs_in_block at 2.
  rewrite (sum_over_ext (run_of_class g' L)
             (fun k => run_of_class g L k
                + (if k =? pre then (if L =? L0 then -1 else 0) else 0)
                + (if k =? pre
                   then (if (pre <? start) && (L =? L1) then 1 else 0)
                   else 0)
                + (if k =? start + len
                   then (if (start + len <? post) && (L =? L2) then 1 else 0)
                   else 0))).
  2:{ intros k _. apply (run_of_class_after g g' start len pre post L k);
        try assumption; try lia; try reflexivity.
      intros i Hi. subst g'. cbn [rbm set_rbm].
      apply testbit_clear_range; lia. }
  rewrite (sum_over_add
             (fun k => run_of_class g L k
                + (if k =? pre then (if L =? L0 then -1 else 0) else 0)
                + (if k =? pre
                   then (if (pre <? start) && (L =? L1) then 1 else 0)
                   else 0))
             (fun k => if k =? start + len
                   then (if (start + len <? post) && (L =? L2) then 1 else 0)
                   else 0)).
  rewrite (sum_over_add
             (fun k => run_of_class g L k
                + (if k =? pre then (if L =? L0 then -1 else 0) else 0))
             (fun k => if k =? pre
                   then (if (pre <? start) && (L =? L1) then 1 else 0)
                   else 0)).
  rewrite (sum_over_add (run_of_class g L)
             (fun k => if k =? pre then (if L =? L0 then -1 else 0) else 0)).
  rewrite !sum_over_delta, !in_block_iff by lia.
  fold Bpre Bnext. unfold runs_in_block.
  generalize (sum_over (run_of_class g L) (Z.to_nat (bits_per_bmblock mp))
                (B * bits_per_bmblock mp)).
  intros s.
  destruct (B =? Bpre); destruct (B =? Bnext); destruct (L =? L0);
    destruct (L =? L1); destruct (L =? L2); destruct (pre <? start);
    destruct (start + len <? post); cbn [andb]; lia.
Qed.

(** X19.  [xfs_rtallocate_range] keeps the summary the count of the free
    extents.  If every counter is the number of maximal free runs of its
    class that begin in its bitmap block, and [[start, start + len)] is free
    and inside the group, then the call succeeds and the counters are again
    those numbers for the bitmap with the range allocated: the run around
    the range leaves its class, and what is left of it in front and behind
    enters the classes of the two lengths, in the blocks where they begin. *)
Theorem rtallocate_range_keeps_summary (mp : xfs_mount) (start len : Z)
    (g : rtgroup) :
  0 <= m_blkbit_log mp < 32 ->
  0 < rtg_extents g < 2 ^ 63 ->
  rtg_extents g <= sb_rbmblocks mp * 2 ^ m_blkbit_log mp ->
  rtg_extents g < 2 ^ m_rsumlevels mp ->
  0 <= start -> 0 < len -> start + len <= rtg_extents g ->
  range_free g start len ->
  summary_coherent mp g ->
  exists g',
    xfs_rtallocate_range mp start len g = (Ok tt, g') /\
    summary_coherent mp g' /\
    rtg_extents g' = rtg_extents g /\
    rbm g' = Z.ldiff (rbm g) (Z.shiftl (Z.ones len) start).
Proof. apply rtallocate_range_coherent. Qed.

Lemma rtallocate_search_admits mp start minlen maxlen prod next0 g len rtx g' :
  0 < rtg_extents g < 2 ^ 63 -> 0 <= m_blkbit_log mp ->
  sb_rbmblocks mp * 2 ^ m_blkbit_log mp < 2 ^ 64 ->
  0 <= minlen -> 1 <= maxlen < 2 ^ 32 ->
  rtallocate_search mp start minlen maxlen prod next0 g = (Ok (len, rtx), g') ->
  extent_admissible g minlen maxlen prod len rtx /\ untouched g g'.
Proof.
  intros He Hlog Hcap Hmin Hmax Esr. unfold rtallocate_search in Esr.
  assert (Hsz : forall gs, untouched g gs ->
            xfs_rtallocate_extent_size mp minlen maxlen prod next0 gs
              = (Ok (len, rtx), g') ->
            extent_admissible g minlen maxlen prod len rtx /\ untouched g g').
  { intros gs Hu Hs.
    destruct (rtallocate_extent_size_sound_from mp minlen maxlen prod next0 g
                ltac:(lia) Hlog Hcap Hmin ltac:(lia) gs _ g' ltac:(lia) Hs Hu)
      as [Hu1 Hok].
    split; [apply Hok; reflexivity|exact Hu1]. }
  destruct (negb (start =? 0)); [|cbn [Z.eqb] in Esr; eapply Hsz;
                                  [apply untouched_refl|exact Esr]].
  pose proof (rtallocate_extent_near_untouched mp start minlen maxlen prod next0 g)
    as Hu.
  destruct (xfs_rtallocate_extent_near mp start minlen maxlen prod next0 g)
    as [[r|e] gn]; cbn [snd] in Hu.
  - cbn [Z.eqb] in Esr. eapply Hsz; [exact Hu|exact Esr].
  - destruct (e =? - ENOSPC).
    + cbn [Z.eqb] in Esr. eapply Hsz; [|exact Esr].
      eapply untouched_trans; [exact Hu|apply untouched_log_event].
    + destruct (e =? 0); [eapply Hsz; [exact Hu|exact Esr]|discriminate].
Qed.

(** X20.  [xfs_rtallocate] keeps the summary the count of the free extents,
    whatever it returns.  The searches write neither bitmap nor summary; the
    extent they hand to [xfs_rtallocate_range] is free and inside the group,
    so that the range update cannot fail half way and leaves the counters in
    step with the bitmap; a failed search leaves both as they were. *)
Theorem rtallocate_keeps_summary (mp : xfs_mount)
    (bno_hint minlen maxlen prod : Z) (wasdel iud rl : bool) (next0 : Z)
    (g : rtgroup) :
  0 <= m_blkbit_log mp < 32 ->
  0 < rtg_extents g < 2 ^ 63 ->
  rtg_extents g <= sb_rbmblocks mp * 2 ^ m_blkbit_log mp ->
  sb_rbmblocks mp * 2 ^ m_blkbit_log mp < 2 ^ 64 ->
  rtg_extents g < 2 ^ m_rsumlevels mp ->
  1 <= minlen -> 1 <= maxlen < 2 ^ 32 ->
  summary_coherent mp g ->
  summary_coherent mp
    (snd (xfs_rtallocate mp bno_hint minlen maxlen prod wasdel iud rl next0 g)).
Proof.
  intros Hlog He Hfit Hcap Hlev Hmin Hmax Hcoh.
  unfold xfs_rtallocate. cbv zeta. cbn [rtg_active log_event].
  destruct (negb (rtg_active g)).
  { cbn [snd]. revert Hcoh. apply summary_coherent_ext; reflexivity. }
  destruct (rtallocate_start mp bno_hint maxlen iud _) as [start gp] eqn:Es.
  apply rtallocate_start_bits in Es. cbn in Es.
  destruct Es as (_ & Es1 & Es2 & Es3 & _ & _).
  assert (Hgp : summary_coherent mp gp).
  { revert Hcoh. apply summary_coherent_ext; assumption. }
  pose proof (rtallocate_search_untouched mp start minlen maxlen prod next0 gp) as Hu.
  destruct (rtallocate_search mp start minlen maxlen prod next0 gp)
    as [[[len rtx]|e1] g1] eqn:Esr; cbn [snd] in Hu.
  2:{ cbn [snd]. destruct Hu as (_ & U1 & U2 & U3 & _).
      revert Hgp. apply summary_coherent_ext; cbn; assumption. }
  destruct (rtallocate_search_admits mp start minlen maxlen prod next0 gp len rtx g1
              ltac:(lia) ltac:(lia) Hcap ltac:(lia) Hmax Esr)
    as [(Hl & _ & Hr & Hin & Hfree) _].
  destruct Hu as (_ & U1 & U2 & U3 & _).
  assert (Hg1 : summary_coherent mp g1).
  { revert Hgp. apply summary_coherent_ext; assumption. }
  destruct (rtallocate_range_coherent mp rtx len g1) as (g2 & Er & Hg2 & _ & _);
    try assumption; try lia.
  { unfold range_free. rewrite U2. exact Hfree. }
  rewrite Er.
  destruct wasdel; cbn [snd]; revert Hg2; apply summary_coherent_ext;
    reflexivity.
Qed.

(** ** Size-first finds every free extent that is long enough *)

Lemma rtallocate_clamp_len_plain extents i mx prod :
  prod <= 1 -> 0 <= i < extents -> extents < 2 ^ 63 -> 0 <= mx < 2 ^ 32 ->
  xfs_rtallocate_clamp_len extents i mx prod = Z.min mx (extents - i).
Proof.
  intros Hp Hi He Hm. unfold xfs_rtallocate_clamp_len.
  rewrite (u64_small (i + mx)) by lia.
  replace (Z.min extents (i + mx) - i) with (Z.min mx (extents - i)) by lia.
  rewrite u64_small, u32_small by lia.
  unfold xfs_rtalloc_align_len. destruct (Z.ltb_spec 1 prod); [lia|reflexivity].
Qed.

(** In the bitmap block where a free run of at least [mn] rtx begins, the
    scan ends with a candidate of at least [mn] rtx, unless it returns an
    extent on the way. *)
Lemma rtblock_scan_best mp B mn mx prod end_ pre post g :
  0 <= m_blkbit_log mp -> rtg_extents g < 2 ^ 63 ->
  prod <= 1 -> 1 <= mn <= mx -> mx < 2 ^ 32 ->
  0 <= B -> B * 2 ^ m_blkbit_log mp <= pre <= end_ -> end_ < rtg_extents g ->
  maximal_free_run g pre pre post -> mn <= post - pre ->
  forall n i next besti bestlen,
    B * 2 ^ m_blkbit_log mp <= i ->
    ((besti = -1 /\ bestlen = 0) \/ (besti <> -1 /\ mn <= bestlen)) ->
    ((i <= pre /\ (Z.to_nat (pre - i + 1) <= n)%nat) \/
     (besti <> -1 /\ mn <= bestlen)) ->
    match rtblock_scan mp mn mx prod end_ n i next besti bestlen g with
    | ScanDone _ bi bl => bi <> -1 /\ mn <= bl
    | _ => True
    end.
Proof.
  intros Hlog He Hprod Hlen Hmx HB Hpre Hend
    (_ & Hpost & Hrun & Hleft & Hright) HR.
  pose proof (Z.pow_pos_nonneg 2 (m_blkbit_log mp) ltac:(lia) Hlog) as Hp.
  induction n as [|n IH]; intros i next besti bestlen Hi HI Hph;
    cbn [rtblock_scan].
  { destruct Hph as [[? ?]|?]; [lia|assumption]. }
  destruct (Z.leb_spec i end_) as [Hie|Hie].
  2:{ destruct Hph as [[? ?]|?]; [lia|assumption]. }
  rewrite rtallocate_clamp_len_plain by lia.
  set (scanlen := Z.min mx (rtg_extents g - i)).
  destruct (Z.ltb_spec scanlen mn) as [Hsm|Hsm].
  { destruct Hph as [[? ?]|?]; [unfold scanlen in Hsm; lia|assumption]. }
  unfold xfs_rtcheck_range.
  destruct (bmblock_mapped mp i); [|exact I].
  pose proof (first_diff_range (rbm g) true (Z.to_nat scanlen) i) as Hfd.
  pose proof (first_diff_stops (rbm g) true (Z.to_nat scanlen) i) as Hstop.
  pose proof (first_diff_prefix (rbm g) true (Z.to_nat scanlen) i) as Hpfx.
  rewrite Z2Nat.id in Hfd, Hstop by lia.
  set (nx := first_diff _ _ _ _) in *.
  destruct (Z.eqb_spec nx (i + scanlen)) as [|Hne]; [exact I|].
  specialize (Hstop ltac:(lia)). cbn [negb] in Hstop.
  rewrite (u64_small (nx - i)) by lia.
  remember ((mn <? mx) && (nx - i >=? mn) && (nx - i >? bestlen)) as better
    eqn:Ebetter.
  assert (Hbetter : better = true ->
            (if better then i else besti) <> -1 /\
            mn <= (if better then u32 (nx - i) else bestlen)).
  { intros Eb. rewrite Eb. rewrite Eb in Ebetter. symmetry in Ebetter.
    apply andb_true_iff in Ebetter. destruct Ebetter as [Eb1 _].
    apply andb_true_iff in Eb1. destruct Eb1 as [_ Eb1].
    apply Z.geb_le in Eb1. rewrite u32_small by (unfold scanlen in *; lia).
    split; lia. }
  assert (Hkeep : besti <> -1 /\ mn <= bestlen ->
            (if better then i else besti) <> -1 /\
            mn <= (if better then u32 (nx - i) else bestlen)).
  { intros Hb. destruct better; [apply Hbetter; reflexivity|exact Hb]. }
  assert (HI' : ((if better then i else besti) = -1 /\
                 (if better then u32 (nx - i) else bestlen) = 0) \/
                ((if better then i else besti) <> -1 /\
                 mn <= (if better then u32 (nx - i) else bestlen))).
  { destruct better; [right; apply Hbetter; reflexivity|exact HI]. }
  set (besti' := if better then i else besti) in *.
  set (bestlen' := if better then u32 (nx - i) else bestlen) in *.
  assert (Hph' : (i < pre /\ nx < pre) \/ (besti' <> -1 /\ mn <= bestlen')).
  { destruct Hph as [[Hip _]|Hb]; [|right; apply Hkeep; exact Hb].
    destruct (Z.eq_dec i pre) as [->|Hnp].
    - right.
      assert (Hnp : post <= nx).
      { destruct (Z_lt_ge_dec nx post); [|lia].
        rewrite (Hrun nx) in Hstop by lia. discriminate. }
      destruct (Z.ltb_spec mn mx); [|unfold scanlen in *; lia].
      destruct (Z.geb_spec (nx - pre) mn); [|lia].
      cbn [andb] in Ebetter.
      destruct (Z.gtb_spec (nx - pre) bestlen) as [Hgt|Hle].
      + apply Hbetter. exact Ebetter.
      + apply Hkeep. destruct HI as [[_ ->]|Hb]; [lia|exact Hb].
    - left. split; [lia|].
      destruct (Z_lt_ge_dec nx pre); [assumption|exfalso].
      destruct Hleft as [->|Hbit]; [lia|].
      rewrite (Hpfx (pre - 1)) in Hbit by lia. discriminate. }
  destruct (Z.geb_spec nx end_) as [Hge|Hlt].
  { destruct Hph' as [[? ?]|?]; [lia|assumption]. }
  unfold xfs_rtfind_forw.
  destruct (bmblock_mapped mp nx); [|exact I].
  rewrite Hstop.
  pose proof (scan_forw_range (rbm g) false end_ (Z.to_nat (end_ - nx)) nx
                ltac:(lia)) as Hsf.
  pose proof (scan_forw_run (rbm g) false end_ (Z.to_nat (end_ - nx)) nx) as Hsr.
  set (i' := scan_forw _ _ _ _ _) in *.
  rewrite (u64_small (i' + 1)) by lia.
  apply IH; [lia|exact HI'|].
  destruct Hph as [[Hip Hn]|Hb]; [|right; apply Hkeep; exact Hb].
  destruct Hph' as [[_ Hnp]|Hb]; [left|right; exact Hb].
  assert (i' < pre).
  { destruct (Z_lt_ge_dec i' pre); [assumption|exfalso].
    specialize (Hsr pre ltac:(lia)).
    rewrite (Hrun pre) in Hsr by lia. discriminate. }
  split; lia.
Qed.

(** In a bitmap block that ends before such a run, the rtx a failed scan
    hands back lies before the run. *)
Lemma rtblock_scan_next_before mp mn mx prod end_ pre post g :
  rtg_extents g < 2 ^ 63 -> prod <= 1 -> 1 <= mn <= mx -> mx < 2 ^ 32 ->
  maximal_free_run g pre pre post -> mn <= post - pre ->
  end_ < pre ->
  forall n i next besti bestlen nx bi bl,
    0 <= i ->
    (0 <= next < pre \/ (i <= end_ /\ (1 <= n)%nat)) ->
    rtblock_scan mp mn mx prod end_ n i next besti bestlen g
      = ScanDone nx bi bl ->
    0 <= nx < pre.
Proof.
  intros He Hprod Hlen Hmx (_ & Hpost & Hrun & Hleft & Hright) HR Hend.
  induction n as [|n IH]; intros i next besti bestlen nx bi bl Hi Hnext H;
    cbn [rtblock_scan] in H.
  - inversion H; subst. lia.
  - destruct (Z.leb_spec i end_); [|inversion H; subst; lia].
    rewrite rtallocate_clamp_len_plain in H by lia.
    set (scanlen := Z.min mx (rtg_extents g - i)) in *.
    destruct (Z.ltb_spec scanlen mn); [unfold scanlen in *; lia|].
    unfold xfs_rtcheck_range in H.
    destruct (bmblock_mapped mp i); [|discriminate].
    pose proof (first_diff_range (rbm g) true (Z.to_nat scanlen) i) as Hfd.
    pose proof (first_diff_stops (rbm g) true (Z.to_nat scanlen) i) as Hstop.
    pose proof (first_diff_prefix (rbm g) true (Z.to_nat scanlen) i) as Hpfx.
    rewrite Z2Nat.id in Hfd, Hstop by lia.
    set (nx' := first_diff _ _ _ _) in *.
    destruct (Z.eqb_spec nx' (i + scanlen)); [discriminate|].
    specialize (Hstop ltac:(lia)). cbn [negb] in Hstop.
    assert (Hnxa : 0 <= nx' < pre).
    { split; [lia|].
      destruct (Z_lt_ge_dec nx' pre); [assumption|exfalso].
      destruct Hleft as [->|Hbit]; [lia|].
      rewrite (Hpfx (pre - 1)) in Hbit by lia. discriminate. }
    destruct (nx' >=? end_); [inversion H; subst; exact Hnxa|].
    destruct (xfs_rtfind_forw mp nx' end_ g) as [i'|e]; [|discriminate].
    eapply IH; [|left; exact Hnxa|exact H].
    apply Z.mod_pos_bound. lia.
Qed.

Lemma block_before_start mp b mn mx prod next0 pre post g nx g' :
  0 < rtg_extents g < 2 ^ 63 -> 0 <= m_blkbit_log mp ->
  sb_rbmblocks mp * 2 ^ m_blkbit_log mp < 2 ^ 64 ->
  prod <= 1 -> 1 <= mn <= mx -> mx < 2 ^ 32 ->
  maximal_free_run g pre pre post -> mn <= post - pre ->
  0 <= b < sb_rbmblocks mp -> (b + 1) * 2 ^ m_blkbit_log mp <= pre ->
  xfs_rtallocate_extent_block mp b mn mx prod next0 g = (BlkNospace nx, g') ->
  0 <= nx < pre.
Proof.
  intros He Hlog Hcap Hprod Hlen Hmx Hrun HR Hb Hbp H.
  pose proof (Z.pow_pos_nonneg 2 (m_blkbit_log mp) ltac:(lia) Hlog) as Hp.
  unfold xfs_rtallocate_extent_block in H. cbv zeta in H.
  cbn [rtg_extents log_event] in H.
  rewrite (u64_small (b + 1)) in H by nia.
  rewrite (rbmblock_to_rtx_small mp (b + 1)) in H by nia.
  rewrite (rbmblock_to_rtx_small mp b) in H by nia.
  rewrite (u64_small (Z.min _ _ - 1)) in H by nia.
  set (end_ := Z.min _ _ - 1) in H.
  set (lo := b * 2 ^ m_blkbit_log mp) in H.
  set (gl := log_event _ g) in H.
  assert (Hdone : forall n0 bi bl,
            rtblock_scan mp mn mx prod end_ (Z.to_nat (end_ - lo + 1))
              lo next0 (-1) 0 gl = ScanDone n0 bi bl -> 0 <= n0 < pre).
  { intros n0 bi bl Hs.
    eapply (rtblock_scan_next_before mp mn mx prod end_ pre post gl);
      [cbn; lia|exact Hprod|exact Hlen|exact Hmx|exact Hrun|exact HR
      |unfold end_; lia| | |exact Hs].
    - unfold lo. nia.
    - right. destruct Hrun as (_ & ? & _). unfold end_, lo. split; nia. }
  destruct (rtblock_scan _ _ _ _ _ _ _ _ _ _ _) as [l r|e|n0 bi bl];
    try discriminate.
  specialize (Hdone n0 bi bl eq_refl).
  destruct (_ =? -1); [inversion H; subst; exact Hdone|].
  destruct (_ <? mn); inversion H; subst; exact Hdone.
Qed.

Lemma block_of_start mp mn mx prod next0 pre post g :
  0 < rtg_extents g < 2 ^ 63 -> 0 <= m_blkbit_log mp ->
  sb_rbmblocks mp * 2 ^ m_blkbit_log mp < 2 ^ 64 ->
  prod <= 1 -> 1 <= mn <= mx -> mx < 2 ^ 32 ->
  maximal_free_run g pre pre post -> mn <= post - pre ->
  xfs_rtx_to_rbmblock mp pre < sb_rbmblocks mp ->
  exists len rtx,
    fst (xfs_rtallocate_extent_block mp (xfs_rtx_to_rbmblock mp pre)
           mn mx prod next0 g) = BlkOk len rtx.
Proof.
  intros He Hlog Hcap Hprod Hlen Hmx Hrun HR HB.
  pose proof (Z.pow_pos_nonneg 2 (m_blkbit_log mp) ltac:(lia) Hlog) as Hp.
  pose proof Hrun as (Hpre & Hpost & _).
  set (B := xfs_rtx_to_rbmblock mp pre) in *.
  assert (HBr : 0 <= B /\
                B * 2 ^ m_blkbit_log mp <= pre < (B + 1) * 2 ^ m_blkbit_log mp).
  { unfold B, xfs_rtx_to_rbmblock. rewrite Z.shiftr_div_pow2 by lia.
    pose proof (Z.div_mod pre (2 ^ m_blkbit_log mp) ltac:(lia)).
    pose proof (Z.mod_pos_bound pre (2 ^ m_blkbit_log mp) ltac:(lia)).
    split; [apply Z.div_pos; lia|nia]. }
  destruct HBr as [HB0 HBr].
  pose proof (rtallocate_extent_block_no_error mp B mn mx prod next0 g)
    as Hnoerr.
  unfold xfs_rtallocate_extent_block in *. cbv zeta in *.
  cbn [rtg_extents log_event] in *.
  rewrite (u64_small (B + 1)) in * by nia.
  rewrite (rbmblock_to_rtx_small mp (B + 1)) in * by nia.
  rewrite (rbmblock_to_rtx_small mp B) in * by nia.
  rewrite (u64_small (Z.min _ _ - 1)) in * by nia.
  set (end_ := Z.min _ _ - 1) in *.
  set (lo := B * 2 ^ m_blkbit_log mp) in *.
  set (gl := log_event _ g) in *.
  pose proof (rtblock_scan_best mp B mn mx prod end_ pre post gl Hlog
                ltac:(cbn; lia) Hprod Hlen Hmx HB0
                ltac:(unfold end_; lia) ltac:(unfold end_; cbn; lia)
                Hrun HR (Z.to_nat (end_ - lo + 1)) lo next0 (-1) 0
                ltac:(unfold lo; lia) ltac:(left; split; reflexivity)
                ltac:(left; unfold end_, lo; split; lia)) as Hbest.
  destruct (rtblock_scan _ _ _ _ _ _ _ _ _ _ _) as [l r|e|n0 bi bl].
  - eauto.
  - exfalso. apply (Hnoerr e); [lia|exact Hlog|lia|exact Hcap|reflexivity].
  - destruct Hbest as [Hbi Hbl].
    destruct (Z.eqb_spec bi (-1)); [contradiction|].
    unfold xfs_rtalloc_align_len. destruct (Z.ltb_spec 1 prod); [lia|].
    destruct (Z.ltb_spec bl mn); [lia|]. eauto.
Qed.

Section Aim.
Variables (mp : xfs_mount) (mn mx prod next0 Bt : Z) (g0 : rtgroup).
Hypothesis He : 0 < rtg_extents g0 < 2 ^ 63.
Hypothesis Hlog : 0 <= m_blkbit_log mp.
Hypothesis Hcap : sb_rbmblocks mp * 2 ^ m_blkbit_log mp < 2 ^ 64.
Hypothesis Hnext0 : 0 <= next0 < 2 ^ 64.
Hypothesis HBt : Bt < sb_rbmblocks mp.
Hypothesis Hbefore :
  forall b g nx g', untouched g0 g -> 0 <= b < Bt ->
    xfs_rtallocate_extent_block mp b mn mx prod next0 g = (BlkNospace nx, g') ->
    0 <= nx < (Bt + 1) * 2 ^ m_blkbit_log mp.
Hypothesis Hat :
  forall g, untouched g0 g -> 0 <= Bt ->
    exists len rtx,
      fst (xfs_rtallocate_extent_block mp Bt mn mx prod next0 g) = BlkOk len rtx.

(** One level of the summary, walked towards the bitmap block [Bt]: the walk
    returns an extent, or it ends with NOSPACE, and then it has seen a zero
    counter for [Bt] if it started at or before that block. *)
Lemma rtsumlevel_loop_aims l :
  (forall B, 0 <= B < sb_rbmblocks mp ->
     is_Some (rsum g0 !! xfs_rtsumoffs mp l B)) ->
  forall n i g,
    untouched g0 g -> 0 <= i ->
    (i <= Bt -> (Z.to_nat (sb_rbmblocks mp - i) <= n)%nat) ->
    match rtsumlevel_loop mp l mn mx prod next0 n i g with
    | (Ok _, _) => True
    | (Err e, _) =>
        e = - ENOSPC /\
        (i <= Bt -> xfs_rtget_summary mp l Bt g0 = Ok 0)
    end.
Proof.
  intros Hread.
  pose proof (Z.pow_pos_nonneg 2 (m_blkbit_log mp) ltac:(lia) Hlog) as Hp.
  induction n as [|n IH]; intros i g Hu Hi Hfuel; cbn [rtsumlevel_loop].
  - split; [reflexivity|]. intros Hle. specialize (Hfuel Hle). lia.
  - destruct (Z.ltb_spec i (sb_rbmblocks mp)).
    2:{ split; [reflexivity|]. intros Hle. lia. }
    rewrite <- (rtget_summary_ext mp l i g0 g Hu).
    destruct (Hread i ltac:(lia)) as [sum Hsum].
    unfold xfs_rtget_summary at 1. rewrite Hsum.
    destruct (Z.eqb_spec sum 0) as [Hs0|Hs0].
    + specialize (IH (u64 (i + 1)) g Hu ltac:(apply Z.mod_pos_bound; lia)).
      rewrite (u64_small (i + 1)) in * by nia.
      specialize (IH ltac:(intros; lia)).
      destruct (rtsumlevel_loop mp l mn mx prod next0 n (i + 1) g)
        as [[r|e] g']; [exact I|].
      destruct IH as [-> IH]. split; [reflexivity|]. intros Hle.
      destruct (Z.eq_dec i Bt) as [->|Hne].
      * unfold xfs_rtget_summary. rewrite Hsum, Hs0. reflexivity.
      * apply IH; lia.
    + pose proof Hu as (_ & Hext & _).
      pose proof (rtallocate_extent_block_no_error mp i mn mx prod next0 g)
        as Hnoerr.
      pose proof (rtallocate_extent_block_untouched mp i mn mx prod next0 g)
        as Hu1.
      destruct (xfs_rtallocate_extent_block mp i mn mx prod next0 g)
        as [[len rtx|nx|e] g1] eqn:Eb; cbn [fst snd] in *.
      * exact I.
      * assert (Hug1 : untouched g0 g1) by (eapply untouched_trans; eassumption).
        destruct (Z.lt_trichotomy i Bt) as [Hlt|[Heq|Hgt]].
        -- (* before the block aimed at *)
           pose proof (Hbefore i g nx g1 Hu ltac:(lia) Eb) as Hnx.
           assert (Hbn : 0 <= xfs_rtx_to_rbmblock mp nx <= Bt).
           { unfold xfs_rtx_to_rbmblock. rewrite !Z.shiftr_div_pow2 by lia.
             split; [apply Z.div_pos; lia|].
             assert (nx / 2 ^ m_blkbit_log mp < Bt + 1); [|lia].
             apply Z.div_lt_upper_bound; lia. }
           rewrite (u64_small (i + 1)) by nia.
           set (i' := if xfs_rtx_to_rbmblock mp nx >? i + 1
                      then u64 (xfs_rtx_to_rbmblock mp nx - 1) else i).
           assert (Hi' : i <= i' /\ i' + 1 <= Bt).
           { subst i'. destruct (Z.gtb_spec (xfs_rtx_to_rbmblock mp nx) (i + 1)).
             - rewrite u64_small by nia. lia.
             - lia. }
           rewrite (u64_small (i' + 1)) by nia.
           specialize (IH (i' + 1) g1 Hug1 ltac:(lia) ltac:(intros; lia)).
           destruct (rtsumlevel_loop mp l mn mx prod next0 n (i' + 1) g1)
             as [[r|e] g']; [exact I|].
           destruct IH as [-> IH]. split; [reflexivity|]. intros _.
           apply IH; lia.
        -- (* the block aimed at: the scan cannot fail *)
           exfalso. subst i.
           destruct (Hat g Hu ltac:(lia)) as (len & rtx & Hr).
           rewrite Eb in Hr. discriminate.
        -- (* past it *)
           pose proof (rtallocate_extent_block_next mp i mn mx prod next0 g
                         nx g1 ltac:(lia) ltac:(lia) Hlog ltac:(nia) Hnext0 Eb)
             as Hnx.
           assert (Hbn : 0 <= xfs_rtx_to_rbmblock mp nx < 2 ^ 64).
           { unfold xfs_rtx_to_rbmblock. rewrite Z.shiftr_div_pow2 by lia.
             split; [apply Z.div_pos; lia|].
             apply Z.div_lt_upper_bound; [lia|]. nia. }
           rewrite (u64_small (i + 1)) by nia.
           set (i' := if xfs_rtx_to_rbmblock mp nx >? i + 1
                      then u64 (xfs_rtx_to_rbmblock mp nx - 1) else i).
           assert (Hi' : i <= i' < 2 ^ 64 - 1).
           { subst i'. destruct (Z.gtb_spec (xfs_rtx_to_rbmblock mp nx) (i + 1)).
             - rewrite u64_small by lia. lia.
             - nia. }
           rewrite (u64_small (i' + 1)) by lia.
           specialize (IH (i' + 1) g1 Hug1 ltac:(lia) ltac:(intros; lia)).
           destruct (rtsumlevel_loop mp l mn mx prod next0 n (i' + 1) g1)
             as [[r|e] g']; [exact I|].
           destruct IH as [-> IH]. split; [reflexivity|]. intros. lia.
      * exfalso. apply (Hnoerr e); [lia|exact Hlog|lia|exact Hcap|reflexivity].
Qed.

End Aim.

Lemma class_bounds l :
  0 <= l <= 31 ->
  u32 (s32 (Z.shiftl 1 l)) = 2 ^ l /\
  u32 (s32 (s32 (Z.shiftl 1 (l + 1)) - 1)) = 2 ^ (l + 1) - 1.
Proof.
  intros Hl.
  assert (Hin : In l (map Z.of_nat (seq 0 32))).
  { apply in_map_iff. exists (Z.to_nat l). split; [lia|]. apply in_seq. lia. }
  cbn in Hin.
  repeat (destruct Hin as [<-|Hin]; [split; reflexivity|]).
  contradiction.
Qed.

Lemma rtalloc_sumlevel_no_error mp l mn mx prod next0 g0 g :
  0 < rtg_extents g0 < 2 ^ 63 -> 0 <= m_blkbit_log mp ->
  sb_rbmblocks mp * 2 ^ m_blkbit_log mp < 2 ^ 64 ->
  0 <= next0 < 2 ^ 64 -> 0 <= sb_rbmblocks mp ->
  (forall B, 0 <= B < sb_rbmblocks mp ->
     is_Some (rsum g0 !! xfs_rtsumoffs mp l B)) ->
  untouched g0 g ->
  match xfs_rtalloc_sumlevel mp l mn mx prod next0 g with
  | (Ok _, _) => True
  | (Err e, _) => e = - ENOSPC
  end.
Proof.
  intros He Hlog Hcap Hn0 Hb Hread Hu. unfold xfs_rtalloc_sumlevel.
  pose proof (rtsumlevel_loop_aims mp mn mx prod next0 (-1) g0 He Hlog Hcap Hn0
                ltac:(lia) ltac:(intros; lia) ltac:(intros; lia) l Hread
                (Z.to_nat (sb_rbmblocks mp)) 0 g Hu ltac:(lia)
                ltac:(intros; lia)) as H.
  destruct (rtsumlevel_loop _ _ _ _ _ _ _ _ _) as [[r|e] g1]; [exact I|].
  apply H.
Qed.

Lemma rtsize_up_no_error mp minlen maxlen prod next0 g0 :
  0 < rtg_extents g0 < 2 ^ 63 -> 0 <= m_blkbit_log mp ->
  sb_rbmblocks mp * 2 ^ m_blkbit_log mp < 2 ^ 64 ->
  0 <= next0 < 2 ^ 64 -> 0 <= sb_rbmblocks mp ->
  m_rsumlevels mp < 2 ^ 31 ->
  (forall l B, 0 <= l < m_rsumlevels mp -> 0 <= B < sb_rbmblocks mp ->
     is_Some (rsum g0 !! xfs_rtsumoffs mp l B)) ->
  forall n l g,
    untouched g0 g -> 0 <= l < 2 ^ 32 ->
    match rtsize_up mp minlen maxlen prod next0 n l g with
    | (Some (Ok _), _) => True
    | (Some (Err _), _) => False
    | (None, g') => untouched g0 g'
    end.
Proof.
  intros He Hlog Hcap Hn0 Hb Hlev Hread.
  induction n as [|n IH]; intros l g Hu Hl; cbn [rtsize_up]; [exact Hu|].
  rewrite (u32_small l) by lia.
  destruct (Z.ltb_spec l (m_rsumlevels mp)); [|exact Hu].
  pose proof (rtalloc_sumlevel_no_error mp l minlen maxlen prod next0 g0 g
                He Hlog Hcap Hn0 Hb
                ltac:(intros B HB; apply Hread; [lia|exact HB]) Hu) as Hs.
  pose proof (rtsumlevel_loop_ext mp l minlen maxlen prod next0
                (Z.to_nat (sb_rbmblocks mp)) 0 g g (untouched_refl g))
    as (_ & Hu1 & _).
  unfold xfs_rtalloc_sumlevel in *.
  destruct (rtsumlevel_loop mp l minlen maxlen prod next0 _ 0 g) as [[r|e] g1];
    cbn [snd] in Hu1; [exact I|].
  subst e. rewrite Z.eqb_refl.
  apply IH; [eapply untouched_trans; eassumption|lia].
Qed.

Lemma maximal_free_run_untouched g0 g start pre post :
  untouched g0 g -> maximal_free_run g0 start pre post ->
  maximal_free_run g start pre post.
Proof.
  intros (_ & He & Hb & _). unfold maximal_free_run, range_free.
  rewrite He, Hb. tauto.
Qed.

Section Complete.
Variables (mp : xfs_mount) (minlen mx1 prod next0 pre post : Z) (g0 : rtgroup).
Hypothesis He : 0 < rtg_extents g0 < 2 ^ 63.
Hypothesis Hlog : 0 <= m_blkbit_log mp.
Hypothesis Hcap : sb_rbmblocks mp * 2 ^ m_blkbit_log mp < 2 ^ 64.
Hypothesis Hfit : rtg_extents g0 <= sb_rbmblocks mp * 2 ^ m_blkbit_log mp.
Hypothesis Hnext0 : 0 <= next0 < 2 ^ 64.
Hypothesis Hprod : prod <= 1.
Hypothesis Hrun : maximal_free_run g0 pre pre post.
Hypothesis Hlen : 1 <= minlen <= post - pre.
Hypothesis Hmx : post - pre <= mx1 < 2 ^ 32.
Hypothesis Hread :
  forall l B, 0 <= l <= Z.log2 mx1 -> 0 <= B < sb_rbmblocks mp ->
    is_Some (rsum g0 !! xfs_rtsumoffs mp l B).
Hypothesis Hcount :
  forall v, xfs_rtget_summary mp (Z.log2 (post - pre))
              (xfs_rtx_to_rbmblock mp pre) g0 = Ok v -> v <> 0.

Lemma start_block :
  0 <= xfs_rtx_to_rbmblock mp pre < sb_rbmblocks mp /\
  xfs_rtx_to_rbmblock mp pre * 2 ^ m_blkbit_log mp <= pre
    < (xfs_rtx_to_rbmblock mp pre + 1) * 2 ^ m_blkbit_log mp.
Proof.
  pose proof (Z.pow_pos_nonneg 2 (m_blkbit_log mp) ltac:(lia) Hlog) as Hp.
  destruct Hrun as (Hpre & Hpost & _).
  unfold xfs_rtx_to_rbmblock. rewrite Z.shiftr_div_pow2 by lia.
  pose proof (Z.div_mod pre (2 ^ m_blkbit_log mp) ltac:(lia)).
  pose proof (Z.mod_pos_bound pre (2 ^ m_blkbit_log mp) ltac:(lia)).
  split; [split|nia].
  - apply Z.div_pos; lia.
  - apply Z.div_lt_upper_bound; lia.
Qed.

(** The second loop, entered at or above the class of the run, returns an
    extent at that class at the latest. *)
Lemma rtsize_down_reaches :
  forall n l g,
    untouched g0 g -> Z.log2 (post - pre) <= l <= Z.log2 mx1 ->
    (Z.to_nat (l - Z.log2 (post - pre) + 1) <= n)%nat ->
    exists r g',
      rtsize_down mp minlen mx1 prod next0 n l g = (Some (Ok r), g').
Proof.
  pose proof (Z.pow_pos_nonneg 2 (m_blkbit_log mp) ltac:(lia) Hlog) as Hp.
  destruct start_block as [HB HBr].
  set (B := xfs_rtx_to_rbmblock mp pre) in *.
  set (R := post - pre) in *.
  assert (HlR : 0 <= Z.log2 R) by apply Z.log2_nonneg.
  assert (Hl31 : Z.log2 mx1 <= 31).
  { assert (Z.log2 mx1 < 32); [|lia]. apply Z.log2_lt_pow2; lia. }
  assert (Hlm : Z.log2 minlen <= Z.log2 R) by (apply Z.log2_le_mono; lia).
  destruct (Z.log2_spec R ltac:(lia)) as [HR1 HR2].
  induction n as [|n IH]; intros l g Hu Hl Hn; [lia|].
  cbn [rtsize_down]. unfold xfs_highbit32. rewrite highbit64_pos by lia.
  destruct (Z.geb_spec l (Z.log2 minlen)); [|lia].
  destruct (class_bounds l ltac:(lia)) as [E1 E2]. rewrite E1, E2.
  set (mn := Z.max minlen (2 ^ l)).
  set (mx := Z.min mx1 (2 ^ (l + 1) - 1)).
  pose proof (rtsumlevel_loop_ext mp l mn mx prod next0
                (Z.to_nat (sb_rbmblocks mp)) 0 g g (untouched_refl g))
    as (_ & Hu1 & _).
  destruct (Z.eq_dec l (Z.log2 R)) as [El|Hne].
  - (* the class of the run *)
    assert (Hmn : 1 <= mn <= R /\ R <= mx /\ mx < 2 ^ 32).
    { unfold mn, mx. rewrite El.
      replace (2 ^ Z.succ (Z.log2 R)) with (2 ^ (Z.log2 R + 1)) in HR2
        by (f_equal; lia).
      lia. }
    unfold xfs_rtalloc_sumlevel.
    pose proof (rtsumlevel_loop_aims mp mn mx prod next0 B g0 He Hlog Hcap
                  Hnext0 ltac:(lia)) as Haim.
    specialize (Haim
      ltac:(intros b gb nx gb' Hub Hb Eb;
            pose proof Hub as (_ & Hext & _);
            pose proof (block_before_start mp b mn mx prod next0 pre post gb nx gb'
                          ltac:(lia) Hlog Hcap Hprod ltac:(lia) ltac:(lia)
                          (maximal_free_run_untouched g0 gb pre pre post Hub Hrun)
                          ltac:(fold R; lia) ltac:(lia) ltac:(nia) Eb);
            lia)
      ltac:(intros gb Hub _;
            pose proof Hub as (_ & Hext & _);
            apply (block_of_start mp mn mx prod next0 pre post gb
                     ltac:(lia) Hlog Hcap Hprod ltac:(lia) ltac:(lia)
                     (maximal_free_run_untouched g0 gb pre pre post Hub Hrun)
                     ltac:(fold R; lia) ltac:(fold B; lia)))
      l ltac:(intros b Hb; apply Hread; [lia|exact Hb])
      (Z.to_nat (sb_rbmblocks mp)) 0 g Hu ltac:(lia) ltac:(intros; lia)).
    destruct (rtsumlevel_loop mp l mn mx prod next0 _ 0 g) as [[r|e] g1];
      [eauto|].
    exfalso. destruct Haim as [_ Hz]. specialize (Hz ltac:(lia)).
    rewrite El in Hz. apply (Hcount 0 Hz). reflexivity.
  - (* a class above it *)
    pose proof (rtalloc_sumlevel_no_error mp l mn mx prod next0 g0 g He Hlog
                  Hcap Hnext0 ltac:(lia)
                  ltac:(intros b Hb; apply Hread; [lia|exact Hb]) Hu) as Hs.
    unfold xfs_rtalloc_sumlevel in *.
    destruct (rtsumlevel_loop mp l mn mx prod next0 _ 0 g) as [[r|e] g1];
      cbn [snd] in Hu1; [eauto|].
    subst e. rewrite Z.eqb_refl.
    apply IH; [eapply untouched_trans; eassumption|lia|lia].
Qed.

End Complete.

Lemma run_counted mp g pre post :
  0 <= m_blkbit_log mp -> maximal_free_run g pre pre post ->
  1 <= runs_in_block mp g (Z.log2 (post - pre)) (xfs_rtx_to_rbmblock mp pre).
Proof.
  intros Hlog (Hpre & Hpost & Hrf & Hleft & Hright).
  set (B := xfs_rtx_to_rbmblock mp pre).
  assert (Hin : B * bits_per_bmblock mp <= pre
                < B * bits_per_bmblock mp
                  + Z.of_nat (Z.to_nat (bits_per_bmblock mp))).
  { pose proof (in_block_iff mp B pre Hlog) as E.
    fold B in E. rewrite Z.eqb_refl in E.
    apply andb_true_iff in E. destruct E as [E1 E2].
    apply Z.leb_le in E1. apply Z.ltb_lt in E2. lia. }
  unfold runs_in_block.
  assert (E : run_of_class g (Z.log2 (post - pre)) pre = 1).
  { unfold run_of_class.
    rewrite run_starts_true; [|lia|apply Hrf; lia|exact Hleft].
    rewrite (run_end_at g pre post); [|lia|lia|exact Hrf|exact Hright].
    rewrite Z.eqb_refl. reflexivity. }
  rewrite <- E. apply sum_over_ge; [|exact Hin].
  intros k. apply run_of_class_range.
Qed.

Lemma rtallocate_extent_size_finds_any (mp : xfs_mount)
    (minlen maxlen prod next0 a : Z) (g : rtgroup) :
  0 <= m_blkbit_log mp ->
  0 < rtg_extents g < 2 ^ 63 ->
  rtg_extents g <= sb_rbmblocks mp * 2 ^ m_blkbit_log mp ->
  sb_rbmblocks mp * 2 ^ m_blkbit_log mp < 2 ^ 64 ->
  rtg_extents g < 2 ^ m_rsumlevels mp -> m_rsumlevels mp < 2 ^ 31 ->
  prod <= 1 -> 1 <= minlen <= maxlen -> maxlen < 2 ^ 32 ->
  maxlen <= 2 ^ m_rsumlevels mp ->
  0 <= next0 < 2 ^ 64 ->
  summary_coherent mp g ->
  0 <= a -> a + minlen <= rtg_extents g -> range_free g a minlen ->
  exists len rtx g',
    xfs_rtallocate_extent_size mp minlen maxlen prod next0 g
      = (Ok (len, rtx), g') /\
    extent_admissible g minlen maxlen prod len rtx.
Proof.
  intros Hlog He Hfit Hcap Hlev Hlev31 Hprod Hlen Hmax Hcls Hn0 Hcoh Ha Hin Hfree.
  pose proof (Z.pow_pos_nonneg 2 (m_blkbit_log mp) ltac:(lia) Hlog) as Hp.
  assert (Hfound : exists len rtx g',
            xfs_rtallocate_extent_size mp minlen maxlen prod next0 g
              = (Ok (len, rtx), g')).
  2:{ destruct Hfound as (len & rtx & g' & Hs). exists len, rtx, g'.
      split; [exact Hs|].
      destruct (rtallocate_extent_size_sound_from mp minlen maxlen prod next0 g
                  He Hlog Hcap ltac:(lia) ltac:(lia) g _ g' ltac:(lia) Hs
                  (untouched_refl g)) as [_ Hok].
      apply Hok. reflexivity. }
  destruct (maximal_free_run_exists g a ltac:(lia) (Hfree a ltac:(lia)))
    as (pre & post & (Hpre & Hpost & Hrf & Hleft & Hright)).
  assert (Hpost' : a + minlen <= post).
  { destruct (Z_le_gt_dec (a + minlen) post) as [|Hgt]; [assumption|].
    destruct Hright as [->|Hbit]; [lia|].
    rewrite (Hfree post) in Hbit by lia. discriminate. }
  assert (Hrun : maximal_free_run g pre pre post).
  { unfold maximal_free_run. repeat split; try assumption; lia. }
  set (R := post - pre).
  assert (HR : minlen <= R <= rtg_extents g) by (unfold R; lia).
  assert (HlR : 0 <= Z.log2 R < m_rsumlevels mp).
  { split; [apply Z.log2_nonneg|]. apply Z.log2_lt_pow2; lia. }
  assert (HB : 0 <= xfs_rtx_to_rbmblock mp pre < sb_rbmblocks mp).
  { unfold xfs_rtx_to_rbmblock. rewrite Z.shiftr_div_pow2 by lia. split.
    - apply Z.div_pos; lia.
    - apply Z.div_lt_upper_bound; lia. }
  assert (Hread : forall l B, 0 <= l < m_rsumlevels mp ->
            0 <= B < sb_rbmblocks mp ->
            is_Some (rsum g !! xfs_rtsumoffs mp l B)).
  { intros l B Hl Hb. eexists. apply Hcoh; assumption. }
  assert (Hcount : forall v,
            xfs_rtget_summary mp (Z.log2 R) (xfs_rtx_to_rbmblock mp pre) g = Ok v ->
            v <> 0).
  { intros v Hv. unfold xfs_rtget_summary in Hv.
    rewrite (Hcoh (Z.log2 R) _ HlR HB) in Hv. inversion Hv; subst v.
    pose proof (run_counted mp g pre post Hlog Hrun). fold R in H. lia. }
  destruct (Z_le_gt_dec maxlen R) as [Hbig|Hsmall].
  - (* a run of at least [maxlen]: the first loop finds it *)
    apply (rtallocate_extent_size_finds mp minlen maxlen prod next0 pre
             (Z.log2 R) g); try assumption; try lia.
    + intros i Hi. apply Hrf. unfold R in *. lia.
    + split; [apply Z.log2_le_mono; lia|lia].
    + intros l B Hl Hb. apply Hread; [lia|exact Hb].
  - (* a shorter run: the second loop reaches its class *)
    unfold xfs_rtallocate_extent_size.
    unfold xfs_highbit32. rewrite (highbit64_pos maxlen) by lia.
    pose proof (rtsize_up_no_error mp minlen maxlen prod next0 g He Hlog Hcap
                  Hn0 ltac:(lia) Hlev31 Hread
                  (Z.to_nat (m_rsumlevels mp - Z.log2 maxlen)) (Z.log2 maxlen) g
                  (untouched_refl g)
                  ltac:(split; [apply Z.log2_nonneg|];
                        assert (Z.log2 maxlen < 32); [|lia];
                        apply Z.log2_lt_pow2; lia)) as Hup.
    destruct (rtsize_up mp minlen maxlen prod next0 _ _ g) as [[[r|e]|] g1].
    + destruct r as [len rtx]. eauto.
    + contradiction.
    + rewrite (u32_small (maxlen - 1)) by lia.
      destruct (Z.gtb_spec minlen (maxlen - 1)); [lia|].
      rewrite (highbit64_pos (maxlen - 1)) by lia.
      rewrite (highbit64_pos minlen) by lia.
      assert (Hl1 : Z.log2 (maxlen - 1) < m_rsumlevels mp).
      { apply Z.log2_lt_pow2; lia. }
      destruct (rtsize_down_reaches mp minlen (maxlen - 1) prod next0 pre post g
                  He Hlog Hcap Hfit Hn0 Hprod Hrun ltac:(fold R; lia)
                  ltac:(fold R; lia)
                  ltac:(intros l B Hl Hb; apply Hread; [lia|exact Hb])
                  Hcount
                  (Z.to_nat (Z.log2 (maxlen - 1) - Z.log2 minlen + 1))
                  (Z.log2 (maxlen - 1)) g1 Hup
                  ltac:(fold R; split; [apply Z.log2_le_mono; lia|lia])
                  ltac:(fold R;
                        pose proof (Z.log2_le_mono minlen R ltac:(lia)); lia))
        as ([len rtx] & g2 & Hd).
      rewrite Hd. eauto.
Qed.

(** X21.  Size-first finds every free extent that is long enough.  Let the
    summary count the free runs of the bitmap, and let the request be without
    alignment ([prod <= 1]) and its [maxlen] within the classes of the
    summary.  If [minlen] free rtx in a row exist anywhere in the group,
    [xfs_rtallocate_extent_size] returns an extent, and one that is
    admissible for the request: with such a summary it answers NOSPACE only
    when no free run reaches [minlen], and it never reports an error. *)
Theorem rtallocate_extent_size_complete (mp : xfs_mount)
    (minlen maxlen prod next0 a : Z) (g : rtgroup) :
  0 <= m_blkbit_log mp ->
  0 < rtg_extents g < 2 ^ 63 ->
  rtg_extents g <= sb_rbmblocks mp * 2 ^ m_blkbit_log mp ->
  sb_rbmblocks mp * 2 ^ m_blkbit_log mp < 2 ^ 64 ->
  rtg_extents g < 2 ^ m_rsumlevels mp -> m_rsumlevels mp < 2 ^ 31 ->
  prod <= 1 -> 1 <= minlen <= maxlen -> maxlen < 2 ^ 32 ->
  maxlen <= 2 ^ m_rsumlevels mp ->
  0 <= next0 < 2 ^ 64 ->
  summary_coherent mp g ->
  0 <= a -> a + minlen <= rtg_extents g -> range_free g a minlen ->
  exists len rtx g',
    xfs_rtallocate_extent_size mp minlen maxlen prod next0 g
      = (Ok (len, rtx), g') /\
    extent_admissible g minlen maxlen prod len rtx.
Proof. apply rtallocate_extent_size_finds_any. Qed.

(** ** The allocator does not fail while space is left *)

Lemma rtany_scan_no_error mp low bbno g :
  (forall l, low <= l -> 0 <= l < m_rsumlevels mp ->
     is_Some (rsum g !! xfs_rtsumoffs mp l bbno)) ->
  0 <= low ->
  forall n log e, log < m_rsumlevels mp ->
    rtany_scan mp low bbno n log g <> Err e.
Proof.
  intros Hread Hlow. induction n as [|n IH]; intros log e Hl;
    cbn [rtany_scan]; [discriminate|].
  destruct (Z.geb_spec log low); [|discriminate].
  unfold xfs_rtget_summary.
  destruct (Hread log ltac:(lia) ltac:(lia)) as [v ->].
  destruct (v =? 0); [|discriminate]. apply IH. lia.
Qed.

Lemma rtany_summary_no_error mp low high bbno g e :
  (forall l, 0 <= l < m_rsumlevels mp ->
     is_Some (rsum g !! xfs_rtsumoffs mp l bbno)) ->
  0 <= low -> high < m_rsumlevels mp ->
  fst (xfs_rtany_summary mp low high bbno g) <> Err e.
Proof.
  intros Hread Hlow Hhigh. unfold xfs_rtany_summary. cbv zeta.
  destruct (_ && _); [discriminate|].
  set (high' := match rtg_rsum_cache g with
                | Some c => Z.min high (cache_get c bbno - 1)
                | None => high
                end).
  assert (Hh : high' < m_rsumlevels mp).
  { unfold high'. destruct (rtg_rsum_cache g); lia. }
  pose proof (rtany_scan_no_error mp low bbno g
                ltac:(intros l _ Hl; apply Hread; exact Hl) Hlow
                (Z.to_nat (high' - low + 1)) high') as Hne.
  destruct (rtany_scan mp low bbno _ high' g) as [[maxlog log]|e0].
  - discriminate.
  - exfalso. apply (Hne e0 Hh). reflexivity.
Qed.

Lemma rtallocate_extent_exact_no_error mp start minlen maxlen prod g e :
  bmblock_mapped mp start = true ->
  xfs_rtallocate_extent_exact mp start minlen maxlen prod g = Err e ->
  e = - ENOSPC.
Proof.
  intros Hm. unfold xfs_rtallocate_extent_exact, xfs_rtcheck_range. cbv zeta.
  rewrite Hm.
  repeat match goal with
         | |- context [if ?b then _ else _] => destruct b
         end; intros H; inversion H; reflexivity.
Qed.

Section NearErrors.
Variables (mp : xfs_mount) (minlen maxlen prod next0 : Z) (g0 : rtgroup).
Variable bbno : Z.
Hypothesis He : 0 < rtg_extents g0 < 2 ^ 63.
Hypothesis Hlog : 0 <= m_blkbit_log mp.
Hypothesis Hcap : sb_rbmblocks mp * 2 ^ m_blkbit_log mp < 2 ^ 64.
Hypothesis Hmin : 1 <= minlen.
Hypothesis Hmax : 0 <= maxlen < 2 ^ 32.
Hypothesis Hbbno : 0 <= bbno < sb_rbmblocks mp.
Hypothesis Hblocks : sb_rbmblocks mp <= 2 ^ 30.
Hypothesis Hlevels : 0 < m_rsumlevels mp < 2 ^ 31.
Hypothesis Hread :
  forall l B, 0 <= l < m_rsumlevels mp -> 0 <= B < sb_rbmblocks mp ->
    is_Some (rsum g0 !! xfs_rtsumoffs mp l B).

Lemma near_neg_scan_no_error maxavail :
  forall n i j g o j' g' e,
    near_neg_scan mp bbno minlen maxavail prod next0 n i j g = (o, j', g') ->
    untouched g0 g -> - bbno <= i -> j <= -1 ->
    o <> Some (Err e).
Proof.
  induction n as [|n IH]; intros i j g o j' g' e H Hu Hi Hj.
  - simpl in H. inversion H; subst. discriminate.
  - cbn [near_neg_scan] in H. destruct (Z.geb_spec j i).
    2:{ inversion H; subst. discriminate. }
    rewrite (u64_small (bbno + j)) in H by lia.
    pose proof Hu as (_ & Hext & _).
    pose proof (rtallocate_extent_block_no_error mp (bbno + j) minlen maxavail
                  prod next0 g) as Hne.
    pose proof (rtallocate_extent_block_untouched mp (bbno + j) minlen maxavail
                  prod next0 g) as Hu1.
    destruct (xfs_rtallocate_extent_block mp (bbno + j) minlen maxavail prod next0 g)
      as [[len rtx|nx|e0] g1]; cbn [fst snd] in *.
    + inversion H; subst. discriminate.
    + eapply (IH i (j - 1) g1); [exact H| |exact Hi|lia].
      eapply untouched_trans; eassumption.
    + exfalso. apply (Hne e0); [lia|exact Hlog|lia|exact Hcap|reflexivity].
Qed.

Lemma near_probe_no_error i j maxlog g o j' g' e :
  near_probe mp bbno minlen maxlen prod next0 i j maxlog g = (o, j', g') ->
  untouched g0 g -> - bbno <= i <= sb_rbmblocks mp - 1 - bbno -> j <= -1 ->
  o <> Some (Err e).
Proof.
  intros H Hu Hi Hj. unfold near_probe in H.
  destruct (maxlog >=? 0).
  2:{ inversion H; subst. discriminate. }
  cbv zeta in H.
  set (maxavail := u32 _) in H.
  destruct (Z.geb_spec i 0).
  - rewrite (u64_small (bbno + i)) in H by lia.
    pose proof Hu as (_ & Hext & _).
    pose proof (rtallocate_extent_block_no_error mp (bbno + i) minlen maxavail
                  prod next0 g) as Hne.
    destruct (xfs_rtallocate_extent_block mp (bbno + i) minlen maxavail prod next0 g)
      as [[len rtx|nx|e0] g1]; cbn [fst] in *; inversion H; subst;
      try discriminate.
    exfalso. apply (Hne e0); [lia|exact Hlog|lia|exact Hcap|reflexivity].
  - set (jn := Z.min _ j) in H.
    apply (near_neg_scan_no_error maxavail _ i jn g o j' g' e H Hu);
      unfold jn; lia.
Qed.

Lemma rtnear_loop_no_error :
  forall n i j g r g',
    rtnear_loop mp bbno minlen maxlen prod next0 (xfs_highbit32 minlen) n i j g
      = (r, g') ->
    untouched g0 g -> - bbno <= i <= sb_rbmblocks mp - 1 - bbno -> j <= -1 ->
    match r with
    | Ok _ => True
    | Err e => e = - ENOSPC
    end.
Proof.
  induction n as [|n IH]; intros i j g r g' H Hu Hi Hj.
  - simpl in H. inversion H; subst. reflexivity.
  - cbn [rtnear_loop] in H.
    pose proof (rtany_summary_untouched mp (xfs_highbit32 minlen)
                  (s32 (u32 (m_rsumlevels mp - 1))) (u64 (bbno + i)) g) as Hua.
    pose proof (rtany_summary_no_error mp (xfs_highbit32 minlen)
                  (s32 (u32 (m_rsumlevels mp - 1))) (u64 (bbno + i)) g) as Hne.
    destruct (xfs_rtany_summary mp _ _ (u64 (bbno + i)) g) as [[maxlog|e] g1];
      cbn [fst snd] in Hua, Hne.
    2:{ exfalso. apply (Hne e); [| | |reflexivity].
        - intros l Hl. rewrite (u64_small (bbno + i)) by lia.
          destruct Hu as (_ & _ & _ & Hs & _). rewrite Hs.
          apply Hread; lia.
        - unfold xfs_highbit32. rewrite highbit64_pos by lia.
          apply Z.log2_nonneg.
        - rewrite u32_small, s32_small by lia. lia. }
    assert (Hu1 : untouched g0 g1) by (eapply untouched_trans; eassumption).
    destruct (near_probe mp bbno minlen maxlen prod next0 i j maxlog g1)
      as [[o j1] g2] eqn:Ep.
    pose proof (near_probe_no_error i j maxlog g1 o j1 g2) as Hpe.
    destruct (near_probe_sound mp minlen maxlen prod next0 g0 He Hlog Hcap
                ltac:(lia) Hmax bbno Hbbno Hblocks i j maxlog g1 o j1 g2 Ep Hu1
                Hi Hj) as (Hu2 & _ & _ & Hj1).
    destruct o as [r0|].
    + inversion H; subst. destruct r as [x|e]; [exact I|].
      exfalso. apply (Hpe e Ep Hu1 Hi Hj). reflexivity.
    + destruct (near_next_i mp bbno i) as [i'|] eqn:En.
      * destruct (near_next_i_rank mp bbno ltac:(lia) ltac:(lia) i i'
                    ltac:(lia) En) as [Hi' _].
        apply (IH i' j1 g2 r g' H Hu2 ltac:(lia) (Hj1 eq_refl)).
      * inversion H; subst. reflexivity.
Qed.

End NearErrors.

Lemma rtallocate_extent_near_no_error mp start minlen maxlen prod next0 g r g' :
  0 <= start -> 0 < rtg_extents g < 2 ^ 63 -> 0 <= m_blkbit_log mp ->
  rtg_extents g <= sb_rbmblocks mp * 2 ^ m_blkbit_log mp ->
  sb_rbmblocks mp <= 2 ^ 30 ->
  sb_rbmblocks mp * 2 ^ m_blkbit_log mp < 2 ^ 64 ->
  0 < m_rsumlevels mp < 2 ^ 31 ->
  1 <= minlen -> 0 <= maxlen < 2 ^ 32 ->
  (forall l B, 0 <= l < m_rsumlevels mp -> 0 <= B < sb_rbmblocks mp ->
     is_Some (rsum g !! xfs_rtsumoffs mp l B)) ->
  xfs_rtallocate_extent_near mp start minlen maxlen prod next0 g = (r, g') ->
  match r with
  | Ok _ => True
  | Err e => e = - ENOSPC
  end.
Proof.
  intros Hs He Hlog Hcov Hblocks Hcap Hlev Hmin Hmax Hread H.
  destruct (near_start_block mp start g Hs He Hlog Hcov) as [Hs' Hb].
  unfold xfs_rtallocate_extent_near in H. cbv zeta in H.
  set (start' := Z.min start _) in *.
  pose proof (rtallocate_extent_exact_no_error mp start' minlen maxlen prod g)
    as Hex.
  destruct (xfs_rtallocate_extent_exact mp start' minlen maxlen prod g)
    as [[len0 rtx0]|e] eqn:Ee.
  { inversion H; subst. exact I. }
  assert (Hmapped : bmblock_mapped mp start' = true).
  { unfold bmblock_mapped.
    destruct (Z.leb_spec 0 start'); [|lia].
    destruct (Z.ltb_spec (xfs_rtx_to_rbmblock mp start') (sb_rbmblocks mp)); [|lia].
    reflexivity. }
  rewrite (Hex e Hmapped eq_refl) in H. cbn [Z.eqb negb] in H.
  rewrite Z.eqb_refl in H. cbn [negb] in H.
  apply (rtnear_loop_no_error mp minlen maxlen prod next0 g
           (xfs_rtx_to_rbmblock mp start') He Hlog Hcap Hmin Hmax Hb Hblocks Hlev
           Hread _ 0 (-1) g r g' H (untouched_refl g)); lia.
Qed.

Lemma rtallocate_start_nonneg mp bno_hint maxlen iud g :
  0 <= bno_hint -> 0 < sb_rextsize mp -> 0 < sb_rextents mp ->
  0 <= fst (rtallocate_start mp bno_hint maxlen iud g).
Proof.
  intros Hh Hx Hr. unfold rtallocate_start.
  destruct (negb (bno_hint =? 0)).
  { cbn [fst]. unfold xfs_rtb_to_rtx. apply Z.div_pos; lia. }
  destruct iud; [|cbn; lia].
  unfold xfs_rtpick_extent. cbv zeta. cbn [fst].
  destruct (negb _); [|lia].
  set (b0 := Z.shiftr _ _).
  assert (Hb0 : 0 <= b0).
  { unfold b0. apply Z.shiftr_nonneg. apply Z.mod_pos_bound. lia. }
  set (b1 := if b0 >=? sb_rextents mp then b0 mod sb_rextents mp else b0).
  assert (Hb1 : 0 <= b1).
  { unfold b1. destruct (b0 >=? sb_rextents mp); [|exact Hb0].
    apply Z.mod_pos_bound. lia. }
  destruct (_ >? _); [apply Z.mod_pos_bound; lia|exact Hb1].
Qed.

Lemma rtallocate_search_finds mp start minlen maxlen prod next0 a g :
  0 <= start ->
  0 <= m_blkbit_log mp ->
  0 < rtg_extents g < 2 ^ 63 ->
  rtg_extents g <= sb_rbmblocks mp * 2 ^ m_blkbit_log mp ->
  sb_rbmblocks mp <= 2 ^ 30 ->
  sb_rbmblocks mp * 2 ^ m_blkbit_log mp < 2 ^ 64 ->
  rtg_extents g < 2 ^ m_rsumlevels mp -> m_rsumlevels mp < 2 ^ 31 ->
  prod <= 1 -> 1 <= minlen <= maxlen -> maxlen < 2 ^ 32 ->
  maxlen <= 2 ^ m_rsumlevels mp ->
  0 <= next0 < 2 ^ 64 ->
  summary_coherent mp g ->
  0 <= a -> a + minlen <= rtg_extents g -> range_free g a minlen ->
  exists len rtx g',
    rtallocate_search mp start minlen maxlen prod next0 g = (Ok (len, rtx), g') /\
    extent_admissible g minlen maxlen prod len rtx /\ untouched g g'.
Proof.
  intros Hs Hlog He Hfit Hblocks Hcap Hlev Hlev31 Hprod Hlen Hmax Hcls Hn0 Hcoh
    Ha Hin Hfree.
  assert (Hlev0 : 0 < m_rsumlevels mp).
  { destruct (Z_le_gt_dec (m_rsumlevels mp) 0) as [Hle|]; [exfalso|lia].
    assert (2 ^ m_rsumlevels mp <= 2 ^ 0) by (apply Z.pow_le_mono_r; lia).
    change (2 ^ 0) with 1 in *. lia. }
  assert (Hsz : forall gs, untouched g gs ->
            exists len rtx g',
              xfs_rtallocate_extent_size mp minlen maxlen prod next0 gs
                = (Ok (len, rtx), g') /\
              extent_admissible g minlen maxlen prod len rtx /\ untouched g g').
  { intros gs Hu. pose proof Hu as (_ & U1 & U2 & U3 & _).
    destruct (rtallocate_extent_size_finds_any mp minlen maxlen prod next0 a gs)
      as (len & rtx & g' & Hr & Hadm); try assumption; try lia.
    { revert Hcoh. apply summary_coherent_ext; assumption. }
    { apply (range_free_untouched g gs); assumption. }
    exists len, rtx, g'. split; [exact Hr|]. split.
    - apply (extent_admissible_untouched g gs); assumption.
    - eapply untouched_trans; [exact Hu|].
      pose proof (rtallocate_extent_size_ext mp minlen maxlen prod next0 gs gs
                    (untouched_refl gs)) as (_ & Hu2 & _).
      rewrite Hr in Hu2. exact Hu2. }
  unfold rtallocate_search.
  destruct (negb (start =? 0)); [|cbn [Z.eqb]; apply Hsz, untouched_refl].
  pose proof (rtallocate_extent_near_untouched mp start minlen maxlen prod next0 g)
    as Hu.
  pose proof (rtallocate_extent_near_no_error mp start minlen maxlen prod next0 g)
    as Hne.
  destruct (xfs_rtallocate_extent_near mp start minlen maxlen prod next0 g)
    as [[r|e] gn]; cbn [snd] in Hu.
  - cbn [Z.eqb]. apply Hsz. exact Hu.
  - rewrite (Hne (Err e) gn Hs He Hlog Hfit Hblocks Hcap ltac:(lia) ltac:(lia)
               ltac:(lia)
               ltac:(intros l B Hl HB; eexists; apply Hcoh; assumption)
               eq_refl).
    rewrite Z.eqb_refl. cbn [Z.eqb]. apply Hsz.
    eapply untouched_trans; [exact Hu|apply untouched_log_event].
Qed.

(** X22.  [xfs_rtallocate] does not fail while space is left.  Let the
    group be active, the summary count the free runs of the bitmap, the
    request be without alignment ([prod <= 1]) and its [maxlen] within the
    classes of the summary.  If [minlen] free rtx in a row exist anywhere in
    the group, then the call succeeds, whatever the hint: it returns the
    block range of an extent that was free and admissible for the request,
    and it leaves the summary the count of the free runs of the new
    bitmap. *)
Theorem rtallocate_finds_space (mp : xfs_mount)
    (bno_hint minlen maxlen prod : Z) (wasdel iud rl : bool) (next0 a : Z)
    (g : rtgroup) :
  rtg_active g = true ->
  0 <= m_blkbit_log mp < 32 ->
  0 < rtg_extents g < 2 ^ 63 ->
  rtg_extents g <= sb_rbmblocks mp * 2 ^ m_blkbit_log mp ->
  sb_rbmblocks mp <= 2 ^ 30 ->
  rtg_extents g < 2 ^ m_rsumlevels mp -> m_rsumlevels mp < 2 ^ 31 ->
  0 < sb_rextsize mp -> 0 < sb_rextents mp -> 0 <= bno_hint ->
  prod <= 1 -> 1 <= minlen <= maxlen -> maxlen < 2 ^ 32 ->
  maxlen <= 2 ^ m_rsumlevels mp ->
  0 <= next0 < 2 ^ 64 ->
  summary_coherent mp g ->
  0 <= a -> a + minlen <= rtg_extents g -> range_free g a minlen ->
  exists len rtx g',
    xfs_rtallocate mp bno_hint minlen maxlen prod wasdel iud rl next0 g
      = (Ok (xfs_rtx_to_rtb mp rtx, xfs_rtxlen_to_extlen mp len), true, g') /\
    extent_admissible g minlen maxlen prod len rtx /\
    summary_coherent mp g'.
Proof.
  intros Hact Hlog He Hfit Hblocks Hlev Hlev31 Hx Hr Hh Hprod Hlen Hmax Hcls Hn0
    Hcoh Ha Hin Hfree.
  assert (Hcap : sb_rbmblocks mp * 2 ^ m_blkbit_log mp < 2 ^ 64).
  { assert (2 ^ m_blkbit_log mp <= 2 ^ 31) by (apply Z.pow_le_mono_r; lia).
    assert (0 <= sb_rbmblocks mp).
    { pose proof (Z.pow_pos_nonneg 2 (m_blkbit_log mp) ltac:(lia) ltac:(lia)).
      nia. }
    nia. }
  unfold xfs_rtallocate. cbv zeta. cbn [rtg_active log_event].
  rewrite Hact. cbn [negb].
  pose proof (rtallocate_start_nonneg mp bno_hint maxlen iud
                (log_event (EvRtallocate minlen maxlen prod) g) Hh Hx Hr) as Hs0.
  destruct (rtallocate_start mp bno_hint maxlen iud _) as [start gp] eqn:Es.
  cbn [fst] in Hs0.
  apply rtallocate_start_bits in Es. cbn in Es.
  destruct Es as (_ & Es1 & Es2 & Es3 & _ & _).
  assert (Hgp : summary_coherent mp gp).
  { revert Hcoh. apply summary_coherent_ext; assumption. }
  destruct (rtallocate_search_finds mp start minlen maxlen prod next0 a gp)
    as (len & rtx & g1 & Esr & Hadm & Hu); try assumption; try lia.
  { unfold range_free. rewrite Es2. exact Hfree. }
  rewrite Esr.
  pose proof Hadm as (Hl & _ & Hrx & Hinx & Hfx).
  pose proof Hu as (_ & U1 & U2 & U3 & _).
  destruct (rtallocate_range_coherent mp rtx len g1) as (g2 & Er & Hg2 & _ & _);
    try assumption; try lia.
  { unfold range_free. rewrite U2. exact Hfx. }
  { revert Hgp. apply summary_coherent_ext; assumption. }
  rewrite Er.
  assert (Hadm' : extent_admissible g minlen maxlen prod len rtx).
  { unfold extent_admissible, range_free in *. rewrite Es1, Es2 in Hadm.
    exact Hadm. }
  exists len, rtx.
  destruct wasdel; eexists; (split; [reflexivity|]); (split; [exact Hadm'|]);
    revert Hg2; apply summary_coherent_ext; reflexivity.
Qed.

(** ** Growing keeps the summary the count of the free runs *)

Lemma sum_over_zero f :
  forall n i, (forall k, i <= k < i + Z.of_nat n -> f k = 0) ->
    sum_over f n i = 0.
Proof.
  induction n as [|n IH]; intros i H; cbn [sum_over]; [reflexivity|].
  rewrite (H i) by lia. rewrite IH; [reflexivity|].
  intros k Hk. apply H. lia.
Qed.

Lemma runs_in_block_beyond mp g L B :
  0 <= m_blkbit_log mp -> rtg_extents g <= B * 2 ^ m_blkbit_log mp ->
  runs_in_block mp g L B = 0.
Proof.
  intros Hlog HB. unfold runs_in_block, bits_per_bmblock.
  apply sum_over_zero. intros k Hk. unfold run_of_class.
  rewrite run_starts_outside by lia. reflexivity.
Qed.

Lemma runs_in_block_class mp g L B lv :
  0 < rtg_extents g < 2 ^ lv -> lv <= L ->
  runs_in_block mp g L B = 0.
Proof.
  intros He HL. unfold runs_in_block. apply sum_over_zero. intros k _.
  unfold run_of_class.
  destruct (run_starts g k) eqn:Es; [|reflexivity]. cbn [andb].
  assert (Hk : 0 <= k < rtg_extents g).
  { destruct (Z_lt_ge_dec k 0); [rewrite run_starts_outside in Es by lia;
                                  discriminate|].
    destruct (Z_lt_ge_dec k (rtg_extents g)); [lia|].
    rewrite run_starts_outside in Es by lia. discriminate. }
  pose proof (first_diff_range (rbm g) true (Z.to_nat (rtg_extents g - k)) k)
    as Hr.
  rewrite Z2Nat.id in Hr by lia. fold (run_end g k) in Hr.
  assert (Z.log2 (run_end g k - k) < lv).
  { destruct (Z.eq_dec (run_end g k - k) 0) as [->|].
    - cbn. destruct (Z_le_gt_dec lv 0); [|lia]. exfalso.
      assert (2 ^ lv <= 2 ^ 0) by (apply Z.pow_le_mono_r; lia).
      change (2 ^ 0) with 1 in *. lia.
    - apply Z.log2_lt_pow2; lia. }
  destruct (Z.eqb_spec (Z.log2 (run_end g k - k)) L); [lia|reflexivity].
Qed.

(** X23.  Growing keeps the summary the count of the free runs.  Let the
    new geometry have the block size of the old, at least as many bitmap
    blocks and levels, and let the summary file span the new matrix with
    zeros beyond the old one.  If in the old geometry every counter is the
    number of maximal free runs of its class that begin in its bitmap block,
    then after [xfs_rtcopy_summary] the same holds in the new geometry: the
    counters of the old cells have moved to their new places, and the cells
    of the new blocks and of the new levels read zero, as no run begins
    there. *)
Theorem rtcopy_summary_keeps_coherent (omp nmp : xfs_mount) (g : rtgroup) :
  m_blkbit_log nmp = m_blkbit_log omp -> 0 <= m_blkbit_log omp < 32 ->
  0 < sb_rbmblocks omp <= sb_rbmblocks nmp -> sb_rbmblocks omp < 2 ^ 32 ->
  m_rsumlevels omp <= m_rsumlevels nmp -> m_rsumlevels omp < 2 ^ 31 ->
  0 < rtg_extents g < 2 ^ m_rsumlevels omp ->
  rtg_extents g <= sb_rbmblocks omp * 2 ^ m_blkbit_log omp ->
  summary_coherent omp g ->
  (forall k, 0 <= k < m_rsumlevels nmp * sb_rbmblocks nmp ->
     is_Some (rsum g !! k)) ->
  (forall k v, rsum g !! k = Some v ->
     k < 0 \/ m_rsumlevels omp * sb_rbmblocks omp <= k -> v = 0) ->
  summary_coherent nmp (snd (xfs_rtcopy_summary omp nmp g)).
Proof.
  intros Hbl Hlog Hob Hob32 Hlvn Hlv31 He Hfit Hcoh Hspan Hzero.
  assert (Hlv0 : 0 < m_rsumlevels omp).
  { destruct (Z_le_gt_dec (m_rsumlevels omp) 0); [exfalso|lia].
    assert (2 ^ m_rsumlevels omp <= 2 ^ 0) by (apply Z.pow_le_mono_r; lia).
    change (2 ^ 0) with 1 in *. lia. }
  pose proof (Z.pow_pos_nonneg 2 (m_blkbit_log omp) ltac:(lia) ltac:(lia)) as Hp.
  assert (Hp31 : 2 ^ m_blkbit_log omp <= 2 ^ 31)
    by (apply Z.pow_le_mono_r; lia).
  assert (Hmapped : cells_mapped omp nmp (rsum g)).
  { intros L B HL HB. split.
    - eexists. apply Hcoh; assumption.
    - apply Hspan. unfold xfs_rtsumoffs. nia. }
  assert (Hval : forall k v, rsum g !! k = Some v -> 0 <= v < 2 ^ 32).
  { intros k v Hk.
    destruct (Z_lt_ge_dec k 0); [rewrite (Hzero k v Hk) by lia; lia|].
    destruct (Z_lt_ge_dec k (m_rsumlevels omp * sb_rbmblocks omp));
      [|rewrite (Hzero k v Hk) by lia; lia].
    pose proof (Z.div_mod k (sb_rbmblocks omp) ltac:(lia)) as Hdm.
    pose proof (Z.mod_pos_bound k (sb_rbmblocks omp) ltac:(lia)) as Hm.
    assert (HL : 0 <= k / sb_rbmblocks omp < m_rsumlevels omp).
    { split; [apply Z.div_pos; lia|].
      apply Z.div_lt_upper_bound; lia. }
    pose proof (Hcoh _ _ HL Hm) as Hc. unfold xfs_rtsumoffs in Hc.
    replace (k / sb_rbmblocks omp * sb_rbmblocks omp + k mod sb_rbmblocks omp)
      with k in Hc by lia.
    rewrite Hc in Hk. inversion Hk; subst v.
    pose proof (runs_in_block_range omp g (k / sb_rbmblocks omp)
                  (k mod sb_rbmblocks omp) ltac:(lia)). lia. }
  rewrite rtcopy_summary_fold by (try assumption; lia).
  destruct (copy_summary_spec_relayout omp nmp (rsum g) Hob ltac:(lia) Hmapped
              Hval Hzero) as (Hpres & Hlow & Hmoved & Hrest).
  intros L B HL HB.
  cbn [xfs_rtbuf_cache_relse log_event rsum set_rsum].
  rewrite (runs_in_block_ext nmp g _ L B) by reflexivity.
  assert (Esame : runs_in_block nmp g L B = runs_in_block omp g L B).
  { unfold runs_in_block, bits_per_bmblock. rewrite Hbl. reflexivity. }
  destruct (Z_lt_ge_dec L (m_rsumlevels omp)) as [HLo|HLo];
    [destruct (Z_lt_ge_dec B (sb_rbmblocks omp)) as [HBo|HBo]|].
  - (* a cell of the old matrix, at its new place *)
    unfold xfs_rtsumoffs. rewrite Hmoved by nia.
    rewrite Esame. apply Hcoh; lia.
  - (* a new bitmap block *)
    rewrite Esame, runs_in_block_beyond by nia.
    destruct (proj2 (Hpres (xfs_rtsumoffs nmp L B))) as [v Hv].
    { apply Hspan. unfold xfs_rtsumoffs. nia. }
    rewrite Hv. f_equal. apply (Hrest (xfs_rtsumoffs nmp L B) v ltac:(unfold xfs_rtsumoffs; nia) Hv).
    intros L' B' HL' HB' _ E.
    apply (rtsumoffs_inj nmp L B L' B') in E; [lia|lia|lia].
  - (* a new level *)
    rewrite Esame, (runs_in_block_class omp g L B (m_rsumlevels omp)) by lia.
    destruct (proj2 (Hpres (xfs_rtsumoffs nmp L B))) as [v Hv].
    { apply Hspan. unfold xfs_rtsumoffs. nia. }
    rewrite Hv. f_equal. apply (Hrest (xfs_rtsumoffs nmp L B) v ltac:(unfold xfs_rtsumoffs; nia) Hv).
    intros L' B' HL' HB' _ E.
    apply (rtsumoffs_inj nmp L B L' B') in E; [lia|lia|lia].
Qed.

(** * Evaluations on the small file systems *)

(* Closed comparisons between numerals. *)
Ltac by_compute := vm_compute; intuition congruence.

Lemma rtpick_extent_sequence_witness :
  fst (xfs_rtpick_extent mp64 10 g_seq5) = 24 /\
  rtpick_seq (snd (xfs_rtpick_extent mp64 10 g_seq5)) = 6.
Proof.
  assert (H1 : 0 < sb_rextents mp64 < 2 ^ 63) by by_compute.
  assert (H2 : 0 <= 10 < 2 ^ 32) by lia.
  assert (H3 : rtpick_seq g_seq5 < 2 ^ 63 - 1) by (vm_compute; reflexivity).
  destruct (rtpick_extent_sequence mp64 10 g_seq5 H1 H2 H3) as (Hs & _ & Hb).
  split.
  - destruct (Hb ltac:(vm_compute; reflexivity)) as (Hv & _ & _).
    rewrite Hv. vm_compute. reflexivity.
  - rewrite Hs. vm_compute. reflexivity.
Defined.

Lemma growfs_rt_rejects_no_growth_witness :
  xfs_growfs_rt demo_growfs_ops demo_fs 64 1 = (- EINVAL, demo_fs).
Proof.
  assert (H : 64 <= sb_rblocks (fs_mp demo_fs)) by by_compute.
  destruct (growfs_rt_rejects_no_growth demo_growfs_ops demo_fs 64 1 H)
    as (_ & _ & Hc).
  apply Hc; reflexivity.
Defined.

Lemma g_hint6_zero L :
  0 <= L <= 6 -> xfs_rtget_summary mp64 L 0 g_hint6 = Ok 0.
Proof.
  intros H.
  assert (E : L = 0 \/ L = 1 \/ L = 2 \/ L = 3 \/ L = 4 \/ L = 5 \/ L = 6) by lia.
  repeat destruct E as [E|E]; subst L; reflexivity.
Qed.

Lemma rtany_summary_hint_witness :
  xfs_rtany_summary mp64 2 5 0 g_hint6 = (Ok (-1), with_hint 0 2 g_hint6).
Proof.
  assert (Hc : rtg_rsum_cache g_hint6 = Some [6]) by reflexivity.
  destruct (rtany_summary_hint mp64 2 5 0 g_hint6 [6] Hc ltac:(lia)
              ltac:(vm_compute; discriminate)) as (_ & _ & He).
  apply He.
  - vm_compute. discriminate.
  - intros L' HL'. apply g_hint6_zero.
    assert (E : Z.min 5 (cache_get [6] 0 - 1) = 5) by reflexivity.
    rewrite E in HL'. lia.
Defined.

(** C5 as stated fails: the hint of block 0 is 6, classes 2 to 5 are all
    empty, the scan returns [-1], and the hint becomes 2, the lowest class
    scanned, not [-1 + 1 = 0]. *)
Lemma rtany_summary_hint_counterexample :
  ~ hint_follows_result mp64 2 5 0 g_hint6.
Proof.
  intros H.
  specialize (H (-1) (with_hint 0 2 g_hint6) [6] [2] eq_refl eq_refl eq_refl).
  vm_compute in H. specialize (H eq_refl). discriminate.
Qed.

Lemma g_copy_mapped : cells_mapped mp64 mp64_two_blocks (rsum g_copy).
Proof.
  intros L B HL HB.
  change (m_rsumlevels mp64) with 7 in HL.
  change (sb_rbmblocks mp64) with 1 in HB.
  assert (EB : B = 0) by lia. subst B.
  assert (E : L = 0 \/ L = 1 \/ L = 2 \/ L = 3 \/ L = 4 \/ L = 5 \/ L = 6) by lia.
  repeat destruct E as [E|E]; subst L; split; vm_compute; eauto.
Qed.

Lemma rtcopy_summary_returns_zero_witness :
  rsum (snd (xfs_rtcopy_summary mp64 mp64_two_blocks g_copy)) !! 3 = Some 0 /\
  rsum (snd (xfs_rtcopy_summary mp64 mp64_two_blocks g_copy)) !! 6 = Some 2.
Proof.
  destruct (rtcopy_summary_returns_zero mp64 mp64_two_blocks g_copy) as (_ & H).
  destruct H as (_ & Hs).
  - vm_compute. auto.
  - vm_compute. split; [discriminate|reflexivity].
  - exact g_copy_mapped.
  - rewrite Hs. split; vm_compute; reflexivity.
Defined.

(** A copy that fails partway still answers 0: the summary file ends after
    word 4, so the cell of class 3 is moved out of the old geometry, its new
    home (word 6) cannot be read, [error] is set, and 0 is returned. *)
Example rtcopy_summary_swallows_failure :
  let g := demo_group 64 (Z.ones 9) (demo_summary [(3, 2)] 5) None in
  rtcopy_error mp64 mp64_two_blocks g = - EFSCORRUPTED /\
  fst (xfs_rtcopy_summary mp64 mp64_two_blocks g) = 0.
Proof. vm_compute. auto. Qed.

Lemma g_run9_free : range_free g_run9 0 9.
Proof.
  intros i Hi. change (rbm g_run9) with (Z.ones 9).
  apply Z.ones_spec_low. lia.
Qed.

Lemma exact_allocate_outcome_witness :
  xfs_rtallocate_extent_exact mp64 0 1 20 1 g_run9 = Ok (9, 0).
Proof.
  assert (H1 : 0 <= 0 < rtg_extents g_run9) by by_compute.
  assert (H2 : rtg_extents g_run9 < 2 ^ 63) by reflexivity.
  assert (H3 : 0 <= 20 < 2 ^ 32) by lia.
  assert (H4 : 0 <= 1) by lia.
  assert (H5 : 1 <= 1) by lia.
  assert (H6 : bmblock_mapped mp64 0 = true) by reflexivity.
  destruct (exact_allocate_outcome mp64 0 1 20 1 g_run9 H1 H2 H3 H4 H5 H6)
    as (_ & _ & _ & H).
  rewrite (H 9).
  - reflexivity.
  - vm_compute. discriminate.
  - split; [vm_compute; intuition congruence|]. split.
    + exact g_run9_free.
    + reflexivity.
Defined.

Lemma rtallocate_range_effect_witness :
  fst (xfs_rtallocate_range mp64 2 3 g_run9) = Ok tt /\
  rsum (snd (xfs_rtallocate_range mp64 2 3 g_run9)) !! 3 = Some 0 /\
  rsum (snd (xfs_rtallocate_range mp64 2 3 g_run9)) !! 1 = Some 1 /\
  rsum (snd (xfs_rtallocate_range mp64 2 3 g_run9)) !! 2 = Some 1.
Proof.
  assert (H1 : 0 <= 2) by lia.
  assert (H2 : 0 < 3) by lia.
  assert (H3 : 2 + 3 <= rtg_extents g_run9) by by_compute.
  assert (H4 : rtg_extents g_run9 < 2 ^ 63) by reflexivity.
  assert (H5 : bmblock_mapped mp64 2 = true) by reflexivity.
  assert (H6 : bmblock_mapped mp64 (2 + 3 - 1) = true) by reflexivity.
  assert (H7 : range_free g_run9 2 3).
  { intros i Hi. apply g_run9_free. lia. }
  assert (H8 : maximal_free_run g_run9 2 0 9).
  { repeat split; try (vm_compute; congruence).
    - exact g_run9_free.
    - left. reflexivity.
    - right. reflexivity. }
  destruct (rtallocate_range_effect mp64 2 3 0 9 g_run9 H1 H2 H3 H4 H5 H6 H7 H8)
    as (H & _).
  - vm_compute. eauto.
  - intros _. vm_compute. eauto.
  - intros _. vm_compute. eauto.
  - rewrite H. vm_compute. auto.
Defined.

Lemma size_first_two_rounds_witness :
  xfs_rtallocate_extent_size mp64 12 13 1 0 g_run9
    = size_first 12 mp64 12 13 1 0 g_run9 /\
  rtg_trace (snd (xfs_rtallocate_extent_size mp64 12 13 1 0 g_run9))
    = [EvBlock 0 12 13 1; EvBlock 0 12 12 1].
Proof.
  assert (H1 : 0 <= m_blkbit_log mp64) by by_compute.
  assert (H2 : 0 <= 0 < 2 ^ 64) by lia.
  assert (H3 : sb_rbmblocks mp64 < 2 ^ 63) by reflexivity.
  assert (H4 : m_rsumlevels mp64 < 2 ^ 31) by reflexivity.
  assert (H4' : sb_rbmblocks mp64 * 2 ^ m_blkbit_log mp64 < 2 ^ 64)
    by reflexivity.
  assert (H5 : 0 < rtg_extents g_run9 < 2 ^ 63) by by_compute.
  assert (H6 : 1 <= 12 <= 13) by lia.
  assert (H7 : 13 <= 2 ^ 30) by lia.
  pose proof (size_first_two_rounds mp64 1 0 H1 H2 H3 H4 H4' 12 13 g_run9
                H5 H6 H7) as H.
  split; [exact H|]. rewrite H. vm_compute. reflexivity.
Defined.

(** C3 as stated fails: a run of 9 free rtx sits in class 3; with
    [minlen = 12] and [maxlen = 13] the first round scans block 0 with
    (12, 13) and finds nothing long enough; the second round, at class
    [floor(log2(12)) = 3], scans it with maximum [min(12, 15) = 12], where
    the sentence of the spec has [min(13, 15) = 13]. *)
Lemma size_first_two_rounds_counterexample :
  xfs_rtallocate_extent_size mp64 12 13 1 0 g_run9
    <> size_first_as_claimed mp64 12 13 1 0 g_run9.
Proof.
  intros H. apply (f_equal (fun r => rtg_trace (snd r))) in H.
  vm_compute in H. discriminate.
Qed.

Lemma near_negative_side_witness :
  near_maxblocks mp48 6 = 8 /\
  exists new,
    rtg_trace (snd (xfs_rtallocate_extent_near mp48 40 1 1 1 0 g_one_free))
      = rtg_trace g_one_free ++ new /\
    descending 2 (probed_below 2 new).
Proof.
  assert (H1 : 0 <= xfs_rtx_to_rbmblock mp48
                      (Z.min 40 (u64 (rtg_extents g_one_free - 1))) < 2 ^ 30)
    by by_compute.
  assert (H2 : 1 <= sb_rbmblocks mp48 <= 2 ^ 30) by by_compute.
  assert (H3 : 0 <= m_blkbit_log mp48) by by_compute.
  destruct (near_negative_side mp48 40 1 1 1 0 g_one_free H1 H2 H3)
    as (Ha & _ & Hc).
  split.
  - rewrite Ha by by_compute. reflexivity.
  - apply (Hc (fst (xfs_rtallocate_extent_near mp48 40 1 1 1 0 g_one_free))).
    apply surjective_pairing.
Defined.

(** C6 as stated fails: for [maxlog = 0] the code sets [maxblocks] to 0, the
    formula gives 1.  On a volume of three bitmap blocks whose only free rtx
    lies in block 0, a search hinted into block 2 finds block 1 empty in the
    summary and then, at offset -2 with [maxlog = 0], scans block 0 alone;
    with [maxblocks = 1] it would have scanned block 1 first. *)
Lemma near_negative_side_counterexample :
  near_maxblocks mp48 0 <> maxblocks_as_claimed (m_blkbit_log mp48) 0 /\
  xfs_rtallocate_extent_near mp48 40 1 1 1 0 g_one_free
    = (Ok (1, 5), log_event (EvBlock 0 1 1 1) g_one_free).
Proof.
  split.
  - vm_compute. discriminate.
  - vm_compute. reflexivity.
Qed.

Lemma near_nospace_falls_back_witness :
  rtallocate_search mp64 63 1 4 1 0 g_full
    = (Err (- ENOSPC), xfs_rtbuf_cache_relse g_full) /\
  xfs_bmap_rtalloc demo_bmap_ops mp64 0 demo_ap g_full
    = (0, set_ap_result NULLFSBLOCK 0 demo_ap,
       xfs_rtbuf_cache_relse
         (xfs_rtbuf_cache_relse (log_event (EvRtallocate 1 4 1) g_full))).
Proof.
  destruct (near_nospace_falls_back demo_bmap_ops mp64 0) as (Ha & _ & _ & _ & He).
  split.
  - rewrite (Ha 63 1 4 1 g_full g_full).
    + vm_compute. reflexivity.
    + discriminate.
    + vm_compute. reflexivity.
  - specialize (He demo_ap g_full).
    assert (Ep : bmap_rtalloc_pass demo_bmap_ops mp64 0 (ap_offset demo_ap)
                   (ap_length demo_ap) demo_ap NULLRTBLOCK false false g_full
                 = PassDone 0 (set_ap_result NULLFSBLOCK 0 demo_ap)
                     (xfs_rtbuf_cache_relse
                        (xfs_rtbuf_cache_relse
                           (log_event (EvRtallocate 1 4 1) g_full))))
      by (vm_compute; reflexivity).
    rewrite Ep in He. exact He.
Defined.

(** C4 as stated fails on its parenthesis: the inode has no extent size
    hint and the rt extent size is 1, so the alignment equals the rt extent
    size and the first pass already runs without alignment; the volume is
    full, the allocator answers NOSPACE, and the
    public interface returns success with zero length at once, without any
    jump back to [retry]. *)
Lemma near_nospace_falls_back_counterexample :
  ~ zero_length_after_one_retry demo_bmap_ops mp64 0 demo_ap g_full.
Proof.
  intros H. unfold zero_length_after_one_retry in H.
  edestruct H as (ap1 & hint & rl & g1 & Hp).
  - vm_compute. reflexivity.
  - reflexivity.
  - vm_compute in Hp. discriminate.
Qed.

(** ** Evaluations of the further properties *)

Lemma rtallocate_extent_block_sound_witness :
  extent_admissible g_run9 1 4 1 4 0 /\
  xfs_rtx_to_rbmblock mp64 0 = 0.
Proof.
  assert (H1 : 0 < rtg_extents g_run9 < 2 ^ 63) by by_compute.
  assert (H2 : 0 <= 0) by lia.
  assert (H3 : 0 <= m_blkbit_log mp64) by by_compute.
  assert (H4 : (0 + 1) * 2 ^ m_blkbit_log mp64 < 2 ^ 64) by reflexivity.
  assert (H5 : 0 <= 1) by lia.
  assert (H6 : 0 <= 4 < 2 ^ 32) by lia.
  assert (H7 : xfs_rtallocate_extent_block mp64 0 1 4 1 0 g_run9
               = (BlkOk 4 0, log_event (EvBlock 0 1 4 1) g_run9))
    by (vm_compute; reflexivity).
  destruct (rtallocate_extent_block_sound mp64 0 1 4 1 0 g_run9 4 0 _
              H1 H2 H3 H4 H5 H6 H7) as (Ha & Hb & _).
  split; assumption.
Defined.

Lemma rtallocate_extent_size_sound_witness :
  extent_admissible g_run9 1 4 1 4 0.
Proof.
  assert (H1 : 0 < rtg_extents g_run9 < 2 ^ 63) by by_compute.
  assert (H2 : 0 <= m_blkbit_log mp64) by by_compute.
  assert (H3 : sb_rbmblocks mp64 * 2 ^ m_blkbit_log mp64 < 2 ^ 64) by reflexivity.
  assert (H4 : 0 <= 1) by lia.
  assert (H5 : 1 <= 4 < 2 ^ 32) by lia.
  assert (H6 : xfs_rtallocate_extent_size mp64 1 4 1 0 g_run9
               = (Ok (4, 0), snd (xfs_rtallocate_extent_size mp64 1 4 1 0 g_run9)))
    by (vm_compute; reflexivity).
  destruct (rtallocate_extent_size_sound mp64 1 4 1 0 g_run9 4 0 _
              H1 H2 H3 H4 H5 H6) as [Ha _].
  exact Ha.
Defined.

Lemma rtallocate_extent_near_sound_witness :
  extent_admissible g_one_free 1 1 1 1 5.
Proof.
  assert (H0 : 0 <= 40) by lia.
  assert (H1 : 0 < rtg_extents g_one_free < 2 ^ 63) by by_compute.
  assert (H2 : 0 <= m_blkbit_log mp48) by by_compute.
  assert (H3 : rtg_extents g_one_free <= sb_rbmblocks mp48 * 2 ^ m_blkbit_log mp48)
    by by_compute.
  assert (H4 : sb_rbmblocks mp48 <= 2 ^ 30) by by_compute.
  assert (H5 : sb_rbmblocks mp48 * 2 ^ m_blkbit_log mp48 < 2 ^ 64) by reflexivity.
  assert (H6 : 0 <= 1) by lia.
  assert (H7 : 0 <= 1 < 2 ^ 32) by lia.
  assert (H8 : xfs_rtallocate_extent_near mp48 40 1 1 1 0 g_one_free
               = (Ok (1, 5), log_event (EvBlock 0 1 1 1) g_one_free))
    by (vm_compute; reflexivity).
  destruct (rtallocate_extent_near_sound mp48 40 1 1 1 0 g_one_free 1 5 _
              H0 H1 H2 H3 H4 H5 H6 H7 H8) as [Ha _].
  exact Ha.
Defined.

Lemma rtallocate_extent_near_inside_witness :
  exists new,
    rtg_trace (snd (xfs_rtallocate_extent_near mp48 40 1 1 1 0 g_one_free))
      = rtg_trace g_one_free ++ new /\
    probes_inside mp48 new.
Proof.
  assert (H0 : 0 <= 40) by lia.
  assert (H1 : 0 < rtg_extents g_one_free < 2 ^ 63) by by_compute.
  assert (H2 : 0 <= m_blkbit_log mp48) by by_compute.
  assert (H3 : rtg_extents g_one_free <= sb_rbmblocks mp48 * 2 ^ m_blkbit_log mp48)
    by by_compute.
  assert (H4 : sb_rbmblocks mp48 <= 2 ^ 30) by by_compute.
  assert (H5 : sb_rbmblocks mp48 * 2 ^ m_blkbit_log mp48 < 2 ^ 64) by reflexivity.
  assert (H6 : 0 <= 1) by lia.
  assert (H7 : 0 <= 1 < 2 ^ 32) by lia.
  exact (rtallocate_extent_near_inside mp48 40 1 1 1 0 g_one_free
           H0 H1 H2 H3 H4 H5 H6 H7).
Defined.

Lemma rtallocate_search_ignores_start_witness :
  xfs_rtallocate_extent_near mp64 5 1 4 1 0 g_run9 = (Ok (4, 5), g_run9) /\
  fst (rtallocate_search mp64 5 1 4 1 0 g_run9) = Ok (4, 0).
Proof.
  split; [vm_compute; reflexivity|].
  rewrite (rtallocate_search_ignores_start mp64 5 1 4 1 0 g_run9).
  - vm_compute. reflexivity.
  - intros e g1 H. vm_compute in H. discriminate.
Defined.

Lemma rtallocate_failure_keeps_bitmap_witness :
  let g' := snd (xfs_rtallocate mp64 0 1 4 1 false false false 0 g_full) in
  rbm g' = rbm g_full /\ tp_frextents g' = tp_frextents g_full.
Proof.
  intros g'.
  assert (H : xfs_rtallocate mp64 0 1 4 1 false false false 0 g_full
              = (Err (- ENOSPC), true, g')) by (vm_compute; reflexivity).
  destruct (rtallocate_failure_keeps_bitmap mp64 0 1 4 1 false false false 0
              g_full _ _ _ H) as (Ha & _ & Hb & _).
  split; assumption.
Defined.

Lemma rtallocate_success_effect_witness :
  let g' := snd (xfs_rtallocate mp64 5 1 4 1 false false false 0 g_run9) in
  exists len rtx,
    extent_admissible g_run9 1 4 1 len rtx /\
    tp_frextents g' = tp_frextents g_run9 - len.
Proof.
  intros g'.
  assert (H1 : 0 < rtg_extents g_run9 < 2 ^ 63) by by_compute.
  assert (H2 : 0 <= m_blkbit_log mp64) by by_compute.
  assert (H3 : sb_rbmblocks mp64 * 2 ^ m_blkbit_log mp64 < 2 ^ 64) by reflexivity.
  assert (H4 : 0 <= 1) by lia.
  assert (H5 : 1 <= 4 < 2 ^ 32) by lia.
  assert (H6 : xfs_rtallocate mp64 5 1 4 1 false false false 0 g_run9
               = (Ok (0, 4), true, g')) by (vm_compute; reflexivity).
  destruct (rtallocate_success_effect mp64 5 1 4 1 false false false 0 g_run9
              0 4 true g' H1 H2 H3 H4 H5 H6)
    as (len & rtx & _ & _ & Ha & _ & _ & Hf & _).
  exists len, rtx. split; [exact Ha|]. rewrite Hf. lia.
Defined.

Lemma rtany_summary_hint_transparent_witness :
  fst (xfs_rtany_summary mp64 2 6 0 g_hint6)
    = fst (xfs_rtany_summary mp64 2 6 0 (set_rsum_cache None g_hint6)) /\
  hint_sound mp64 6 (snd (xfs_rtany_summary mp64 2 6 0 g_hint6)).
Proof.
  apply (rtany_summary_hint_transparent mp64 2 6 0 g_hint6).
  - lia.
  - intros c Hc. vm_compute in Hc. inversion Hc; subst c. by_compute.
  - intros c B L Hc HB HL. vm_compute in Hc. inversion Hc; subst c.
    change (Z.of_nat (length [6])) with 1 in HB.
    assert (B = 0) by lia. subst B.
    change (cache_get [6] 0) with 6 in HL.
    apply g_hint6_zero. lia.
Defined.

Lemma alloc_rsum_cache_fresh_witness :
  fst (xfs_rtany_summary mp64 0 6 0 (snd (xfs_alloc_rsum_cache true 1 g_run9)))
    = Ok 3.
Proof.
  destruct (alloc_rsum_cache_fresh mp64 1 g_run9) as (_ & _ & H).
  destruct (H 0 6 0 ltac:(lia) ltac:(lia) ltac:(lia)) as (_ & Hf & _).
  rewrite Hf. vm_compute. reflexivity.
Defined.

Lemma g_copy_values k v :
  rsum g_copy !! k = Some v ->
  0 <= v < 2 ^ 32 /\
  (k < 0 \/ m_rsumlevels mp64 * sb_rbmblocks mp64 <= k -> v = 0).
Proof.
  change (m_rsumlevels mp64 * sb_rbmblocks mp64) with 7.
  intros Hk. change (rsum g_copy) with (demo_summary [(3, 2)] 16) in Hk.
  unfold demo_summary in Hk. apply elem_of_list_to_map_2 in Hk.
  cbn [app map seq Z.of_nat Pos.of_succ_nat Pos.succ] in Hk.
  repeat (apply elem_of_cons in Hk; destruct Hk as [Hk|Hk];
          [inversion Hk; subst; lia|]).
  apply elem_of_nil in Hk. contradiction.
Qed.

Lemma rtcopy_summary_relayout_witness :
  xfs_rtget_summary mp64_two_blocks 3 0
    (snd (xfs_rtcopy_summary mp64 mp64_two_blocks g_copy)) = Ok 2.
Proof.
  assert (H1 : 0 < sb_rbmblocks mp64 <= sb_rbmblocks mp64_two_blocks) by by_compute.
  assert (H2 : sb_rbmblocks mp64 < 2 ^ 32) by reflexivity.
  assert (H3 : 0 <= m_rsumlevels mp64 < 2 ^ 31) by by_compute.
  assert (H4 : forall k v, rsum g_copy !! k = Some v -> 0 <= v < 2 ^ 32).
  { intros k v Hk. apply (g_copy_values k v Hk). }
  assert (H5 : forall k v, rsum g_copy !! k = Some v ->
                 k < 0 \/ m_rsumlevels mp64 * sb_rbmblocks mp64 <= k -> v = 0).
  { intros k v Hk. apply (g_copy_values k v Hk). }
  destruct (rtcopy_summary_relayout mp64 mp64_two_blocks g_copy H1 H2 H3
              g_copy_mapped H4 H5) as [Hm _].
  rewrite (Hm 3 0) by by_compute. reflexivity.
Defined.

Lemma bmap_rtalloc_never_nospace_witness :
  fst (fst (xfs_bmap_rtalloc demo_bmap_ops mp64 0 demo_ap g_full)) <> - ENOSPC.
Proof.
  apply bmap_rtalloc_never_nospace.
  intros align ap0. cbn. discriminate.
Defined.


Lemma rtallocate_extent_near_terminates_witness :
  rtnear_loop mp48 2 1 1 1 0 0 (Z.to_nat (2 * Z.max 2 (sb_rbmblocks mp48) + 3) + 5)
    0 (-1) g_one_free
  = rtnear_loop mp48 2 1 1 1 0 0 (Z.to_nat (2 * Z.max 2 (sb_rbmblocks mp48) + 3))
      0 (-1) g_one_free.
Proof.
  apply rtallocate_extent_near_terminates; by_compute.
Defined.

Lemma rtallocate_extent_block_terminates_witness :
  rtblock_scan mp64 1 4 1 63 (Z.to_nat (63 - 0 + 1) + 5) 0 0 (-1) 0 g_full
  = rtblock_scan mp64 1 4 1 63 (Z.to_nat (63 - 0 + 1)) 0 0 (-1) 0 g_full.
Proof.
  apply rtallocate_extent_block_terminates; lia.
Defined.

Lemma rtallocate_extent_block_finds_run_witness :
  exists rtx,
    xfs_rtallocate_extent_block mp64 0 1 4 1 0 g_run9
      = (BlkOk 4 rtx, log_event (EvBlock 0 1 4 1) g_run9) /\
    xfs_rbmblock_to_rtx mp64 0 <= rtx <= 3.
Proof.
  apply rtallocate_extent_block_finds_run; try by_compute; try lia.
  intros i Hi. apply g_run9_free. lia.
Defined.

Lemma growfs_rt_round_geometry_witness :
  exists nmp,
    growfs_rt_bmblock_nmp true mp16 67 4 0 = Some nmp /\
    sb_rextents nmp = 16 /\ sb_rblocks nmp = 64.
Proof.
  assert (H1 : 0 <= m_blkbit_log mp16) by by_compute.
  assert (H2 : 0 < 4) by lia.
  assert (H3 : 0 <= 67) by lia.
  assert (H4 : xfs_rtbitmap_blockcount mp16 (67 / 4) < 2 ^ 32) by reflexivity.
  assert (H5 : xfs_rtbitmap_blockcount mp16 (67 / 4) * bits_per_bmblock mp16 * 4
               < 2 ^ 64) by reflexivity.
  destruct (growfs_rt_round_geometry mp16 67 4 H1 H2 H3 H4 H5) as (_ & _ & Hlast).
  destruct (Hlast ltac:(by_compute))
    as (nmp & tmp & Hn & _ & He & _ & _ & _ & _ & _ & Hr & _ & _).
  exists nmp. change (xfs_rtbitmap_blockcount mp16 (67 / 4) - 1) with 0 in Hn.
  split; [exact Hn|]. split; [rewrite He; reflexivity|rewrite Hr; reflexivity].
Defined.

Lemma growfs_rtg_hint_on_failure_witness :
  GrowRtg.xfs_growfs_rtg (demo_rtg_ops false 0) mp64 (2 ^ 16) 1 g_hint6
    = (- ENOMEM, mp64, set_rsum_cache None g_hint6) /\
  rtg_rsum_cache
    (snd (GrowRtg.xfs_growfs_rtg (demo_rtg_ops true (- ENOSPC)) mp64 (2 ^ 16) 1
            g_hint6)) = Some [6].
Proof.
  assert (H1 : rtg_active g_hint6 = true) by reflexivity.
  assert (H4 : 2 <> sb_rbmblocks mp64) by by_compute.
  split.
  - destruct (growfs_rtg_hint_on_failure (demo_rtg_ops false 0) mp64 (2 ^ 16) 1 2
                g_hint6 H1 eq_refl eq_refl H4) as [Ha _].
    apply Ha. reflexivity.
  - destruct (growfs_rtg_hint_on_failure (demo_rtg_ops true (- ENOSPC)) mp64
                (2 ^ 16) 1 2 g_hint6 H1 eq_refl eq_refl H4) as [_ Hb].
    destruct (Hb eq_refl) as [_ Hc].
    + vm_compute. discriminate.
    + apply Hc. reflexivity.
Defined.

Lemma rtallocate_extent_size_finds_run_witness :
  exists len rtx g',
    xfs_rtallocate_extent_size mp64 1 4 1 0 g_run9 = (Ok (len, rtx), g').
Proof.
  assert (H1 : 0 < rtg_extents g_run9 < 2 ^ 63) by by_compute.
  assert (H2 : 0 <= m_blkbit_log mp64) by by_compute.
  assert (H3 : sb_rbmblocks mp64 * 2 ^ m_blkbit_log mp64 < 2 ^ 64) by reflexivity.
  assert (H4 : m_rsumlevels mp64 < 2 ^ 31) by reflexivity.
  assert (H5 : 1 <= 1 <= 4) by lia.
  assert (H6 : 4 < 2 ^ 32) by lia.
  assert (H7 : 1 < 1 -> 4 mod 1 = 0) by lia.
  assert (H8 : 0 <= 0 < 2 ^ 64) by lia.
  assert (H9 : 0 <= 0) by lia.
  assert (H10 : 0 + 4 <= rtg_extents g_run9) by by_compute.
  assert (H11 : range_free g_run9 0 4).
  { intros i Hi. apply g_run9_free. lia. }
  assert (H12 : xfs_rtx_to_rbmblock mp64 0 < sb_rbmblocks mp64) by reflexivity.
  assert (H13 : Z.log2 4 <= 3 < m_rsumlevels mp64) by by_compute.
  assert (H14 : forall l B, 0 <= l <= 3 -> 0 <= B < sb_rbmblocks mp64 ->
                  is_Some (rsum g_run9 !! xfs_rtsumoffs mp64 l B)).
  { intros l B Hl HB. change (sb_rbmblocks mp64) with 1 in HB.
    assert (B = 0) by lia. subst B.
    assert (E : l = 0 \/ l = 1 \/ l = 2 \/ l = 3) by lia.
    repeat destruct E as [E|E]; subst l; vm_compute; eauto. }
  assert (H15 : forall v,
                  xfs_rtget_summary mp64 3 (xfs_rtx_to_rbmblock mp64 0) g_run9
                    = Ok v -> v <> 0).
  { intros v Hv. vm_compute in Hv. inversion Hv. discriminate. }
  exact (rtallocate_extent_size_finds_run mp64 1 4 1 0 0 3 g_run9
           H1 H2 H3 H4 H5 H6 H7 H8 H9 H10 H11 H12 H13 H14 H15).
Defined.

Lemma g16_run9_coherent : summary_coherent mp16 g16_run9.
Proof.
  intros L B HL HB.
  change (m_rsumlevels mp16) with 5 in HL.
  change (sb_rbmblocks mp16) with 1 in HB.
  assert (B = 0) by lia. subst B.
  assert (HLs : L = 0 \/ L = 1 \/ L = 2 \/ L = 3 \/ L = 4) by lia.
  destruct HLs as [->|[->|[->|[->| ->]]]]; vm_compute; reflexivity.
Qed.

Lemma rtallocate_range_keeps_summary_witness :
  exists g',
    xfs_rtallocate_range mp16 4 3 g16_run9 = (Ok tt, g') /\
    summary_coherent mp16 g' /\
    rtg_extents g' = rtg_extents g16_run9 /\
    rbm g' = Z.ldiff (rbm g16_run9) (Z.shiftl (Z.ones 3) 4).
Proof.
  assert (H1 : 0 <= m_blkbit_log mp16 < 32) by by_compute.
  assert (H2 : 0 < rtg_extents g16_run9 < 2 ^ 63) by by_compute.
  assert (H3 : rtg_extents g16_run9 <= sb_rbmblocks mp16 * 2 ^ m_blkbit_log mp16)
    by by_compute.
  assert (H4 : rtg_extents g16_run9 < 2 ^ m_rsumlevels mp16) by reflexivity.
  assert (H5 : 0 <= 4) by lia.
  assert (H6 : 0 < 3) by lia.
  assert (H7 : 4 + 3 <= rtg_extents g16_run9) by by_compute.
  assert (H8 : range_free g16_run9 4 3).
  { intros i Hi. assert (Hc : i = 4 \/ i = 5 \/ i = 6) by lia.
    destruct Hc as [->|[->| ->]]; reflexivity. }
  exact (rtallocate_range_keeps_summary mp16 4 3 g16_run9
           H1 H2 H3 H4 H5 H6 H7 H8 g16_run9_coherent).
Defined.

Lemma rtallocate_keeps_summary_witness :
  summary_coherent mp16
    (snd (xfs_rtallocate mp16 0 1 4 1 false false false 0 g16_run9)).
Proof.
  assert (H1 : 0 <= m_blkbit_log mp16 < 32) by by_compute.
  assert (H2 : 0 < rtg_extents g16_run9 < 2 ^ 63) by by_compute.
  assert (H3 : rtg_extents g16_run9 <= sb_rbmblocks mp16 * 2 ^ m_blkbit_log mp16)
    by by_compute.
  assert (H4 : sb_rbmblocks mp16 * 2 ^ m_blkbit_log mp16 < 2 ^ 64) by reflexivity.
  assert (H5 : rtg_extents g16_run9 < 2 ^ m_rsumlevels mp16) by reflexivity.
  assert (H6 : 1 <= 1) by lia.
  assert (H7 : 1 <= 4 < 2 ^ 32) by lia.
  exact (rtallocate_keeps_summary mp16 0 1 4 1 false false false 0 g16_run9
           H1 H2 H3 H4 H5 H6 H7 g16_run9_coherent).
Defined.

Lemma rtallocate_extent_size_complete_witness :
  exists len rtx g',
    xfs_rtallocate_extent_size mp16 3 12 1 0 g16_run9 = (Ok (len, rtx), g') /\
    extent_admissible g16_run9 3 12 1 len rtx.
Proof.
  assert (H1 : 0 <= m_blkbit_log mp16) by by_compute.
  assert (H2 : 0 < rtg_extents g16_run9 < 2 ^ 63) by by_compute.
  assert (H3 : rtg_extents g16_run9 <= sb_rbmblocks mp16 * 2 ^ m_blkbit_log mp16)
    by by_compute.
  assert (H4 : sb_rbmblocks mp16 * 2 ^ m_blkbit_log mp16 < 2 ^ 64) by reflexivity.
  assert (H5 : rtg_extents g16_run9 < 2 ^ m_rsumlevels mp16) by reflexivity.
  assert (H6 : m_rsumlevels mp16 < 2 ^ 31) by reflexivity.
  assert (H7 : 1 <= 1) by lia.
  assert (H8 : 1 <= 3 <= 12) by lia.
  assert (H9 : 12 < 2 ^ 32) by lia.
  assert (H10 : 12 <= 2 ^ m_rsumlevels mp16) by by_compute.
  assert (H11 : 0 <= 0 < 2 ^ 64) by lia.
  assert (H12 : 0 <= 4) by lia.
  assert (H13 : 4 + 3 <= rtg_extents g16_run9) by by_compute.
  assert (H14 : range_free g16_run9 4 3).
  { intros i Hi. assert (Hc : i = 4 \/ i = 5 \/ i = 6) by lia.
    destruct Hc as [->|[->| ->]]; reflexivity. }
  exact (rtallocate_extent_size_complete mp16 3 12 1 0 4 g16_run9
           H1 H2 H3 H4 H5 H6 H7 H8 H9 H10 H11 g16_run9_coherent H12 H13 H14).
Defined.

Lemma rtallocate_finds_space_witness :
  exists len rtx g',
    xfs_rtallocate mp16 NULLRTBLOCK 3 12 1 false false false 0 g16_run9
      = (Ok (xfs_rtx_to_rtb mp16 rtx, xfs_rtxlen_to_extlen mp16 len), true, g') /\
    extent_admissible g16_run9 3 12 1 len rtx /\
    summary_coherent mp16 g'.
Proof.
  assert (H0 : rtg_active g16_run9 = true) by reflexivity.
  assert (H1 : 0 <= m_blkbit_log mp16 < 32) by by_compute.
  assert (H2 : 0 < rtg_extents g16_run9 < 2 ^ 63) by by_compute.
  assert (H3 : rtg_extents g16_run9 <= sb_rbmblocks mp16 * 2 ^ m_blkbit_log mp16)
    by by_compute.
  assert (H4 : sb_rbmblocks mp16 <= 2 ^ 30) by by_compute.
  assert (H5 : rtg_extents g16_run9 < 2 ^ m_rsumlevels mp16) by reflexivity.
  assert (H6 : m_rsumlevels mp16 < 2 ^ 31) by reflexivity.
  assert (H7 : 0 < sb_rextsize mp16) by reflexivity.
  assert (H8 : 0 < sb_rextents mp16) by reflexivity.
  assert (H9 : 0 <= NULLRTBLOCK) by by_compute.
  assert (H10 : 1 <= 1) by lia.
  assert (H11 : 1 <= 3 <= 12) by lia.
  assert (H12 : 12 < 2 ^ 32) by lia.
  assert (H13 : 12 <= 2 ^ m_rsumlevels mp16) by by_compute.
  assert (H14 : 0 <= 0 < 2 ^ 64) by lia.
  assert (H15 : 0 <= 4) by lia.
  assert (H16 : 4 + 3 <= rtg_extents g16_run9) by by_compute.
  assert (H17 : range_free g16_run9 4 3).
  { intros i Hi. assert (Hc : i = 4 \/ i = 5 \/ i = 6) by lia.
    destruct Hc as [->|[->| ->]]; reflexivity. }
  exact (rtallocate_finds_space mp16 NULLRTBLOCK 3 12 1 false false false 0 4
           g16_run9 H0 H1 H2 H3 H4 H5 H6 H7 H8 H9 H10 H11 H12 H13 H14
           g16_run9_coherent H15 H16 H17).
Defined.

Lemma g16_wide_coherent : summary_coherent mp16 g16_wide.
Proof.
  intros L B HL HB.
  change (m_rsumlevels mp16) with 5 in HL.
  change (sb_rbmblocks mp16) with 1 in HB.
  assert (B = 0) by lia. subst B.
  assert (HLs : L = 0 \/ L = 1 \/ L = 2 \/ L = 3 \/ L = 4) by lia.
  destruct HLs as [->|[->|[->|[->| ->]]]]; vm_compute; reflexivity.
Qed.

Lemma g16_wide_values k v :
  rsum g16_wide !! k = Some v ->
  k < 0 \/ m_rsumlevels mp16 * sb_rbmblocks mp16 <= k -> v = 0.
Proof.
  change (m_rsumlevels mp16 * sb_rbmblocks mp16) with 5.
  intros Hk. change (rsum g16_wide) with (demo_summary [(3, 1)] 12) in Hk.
  unfold demo_summary in Hk. apply elem_of_list_to_map_2 in Hk.
  cbn [app map seq Z.of_nat Pos.of_succ_nat Pos.succ] in Hk.
  repeat (apply elem_of_cons in Hk; destruct Hk as [Hk|Hk];
          [inversion Hk; subst; lia|]).
  apply elem_of_nil in Hk. contradiction.
Qed.

Lemma g16_wide_spans k :
  0 <= k < m_rsumlevels mp32 * sb_rbmblocks mp32 -> is_Some (rsum g16_wide !! k).
Proof.
  change (m_rsumlevels mp32 * sb_rbmblocks mp32) with 12. intros Hk.
  assert (Hin : In k (map Z.of_nat (seq 0 12))).
  { apply in_map_iff. exists (Z.to_nat k). split; [lia|]. apply in_seq. lia. }
  cbn in Hin.
  repeat (destruct Hin as [<-|Hin]; [vm_compute; eauto|]).
  contradiction.
Qed.

Lemma rtcopy_summary_keeps_coherent_witness :
  summary_coherent mp32 (snd (xfs_rtcopy_summary mp16 mp32 g16_wide)).
Proof.
  assert (H1 : m_blkbit_log mp32 = m_blkbit_log mp16) by reflexivity.
  assert (H2 : 0 <= m_blkbit_log mp16 < 32) by by_compute.
  assert (H3 : 0 < sb_rbmblocks mp16 <= sb_rbmblocks mp32) by by_compute.
  assert (H4 : sb_rbmblocks mp16 < 2 ^ 32) by reflexivity.
  assert (H5 : m_rsumlevels mp16 <= m_rsumlevels mp32) by by_compute.
  assert (H6 : m_rsumlevels mp16 < 2 ^ 31) by reflexivity.
  assert (H7 : 0 < rtg_extents g16_wide < 2 ^ m_rsumlevels mp16) by by_compute.
  assert (H8 : rtg_extents g16_wide <= sb_rbmblocks mp16 * 2 ^ m_blkbit_log mp16)
    by by_compute.
  exact (rtcopy_summary_keeps_coherent mp16 mp32 g16_wide H1 H2 H3 H4 H5 H6 H7 H8
           g16_wide_coherent g16_wide_spans g16_wide_values).
Defined.
